(** * Declarative onboarding: the task store and the authentication handler

    A shallow embedding of [src/lib/state.js] (class [State] with
    [copyAndUpgradeState], [cleanupOldTasks], [updateNewIdToId]) and of
    [src/lib/authHandler.js] (class [AuthHandler] and its [handle*] steps),
    with the properties of the specification proved about them.

    Definitions:
    - [Js]: the JavaScript values the two files manipulate, property reads
      and writes, truthiness, [ToNumber], [ToString], [Date#toISOString] and
      [JSON.parse(JSON.stringify(v))].
    - [StateStore]: [state.js].
    - [Promise]: promise chains over an opaque device client, and their
      runs.
    - [Discipline]: properties of a chain that can be read off its shape.
    - [AuthHandler]: [authHandler.js].
    - [Samples]: states, declarations and stand-ins for what lives outside
      the two files.
    - [Accessors], [Shape], [Declarations]: the accessors of a task listed
      by what they write, two more properties of the shape of a chain, and
      more declarations.

    Facts:
    - [JsFacts], [StmtFacts]: reads after writes, statements.
    - [StateFacts]: retention, unknown task ids, errors, masking.
    - [MigrationFacts]: legacy states, the identifier migration.
    - [PromiseFacts]: the disciplines are sound for every run.
    - [AuthFacts]: the order of the calls in the RADIUS and LDAP steps, and
      what becomes of a failure of the device.
    - [StateExtras], [MigrationExtras]: the accessors one by one, what they
      store and what they leave alone; the constructor on states that
      have tasks.
    - [ShapeFacts]: the two further properties are sound for every run.
    - [AuthExtras]: the calls of each step of the handler, their order in
      [process], and which failures reject it. *)

From Stdlib Require Import ZArith List String Ascii Bool Lia DecimalString.
Import ListNotations.
Local Open Scope string_scope.
Local Open Scope Z_scope.

(** ** Exceptions and results *)

(** What a JavaScript statement can throw here. [TaskIdDoesNotExist] is
    [new Error('taskId does not exist')]; [DeviceError n] is the rejection
    of a device call, [n] naming the failure; [Unsupported] marks a
    behaviour of JavaScript that this development does not model (it is
    never confused with a normal result). *)
Inductive exn : Type :=
| TaskIdDoesNotExist
| TypeError
| SyntaxError
| DeviceError (n : nat)
| Unsupported.

Inductive result (A : Type) : Type :=
| Ok (a : A)
| Throw (e : exn).
Arguments Ok {A} a.
Arguments Throw {A} e.

Definition bind {A B} (r : result A) (k : A -> result B) : result B :=
  match r with
  | Ok a => k a
  | Throw e => Throw e
  end.

Notation "x <- r ;; k" := (bind r (fun x => k))
  (at level 61, r at next level, right associativity).

Module Js.

(** ** Values *)

(** JSON data, [undefined], and [Date] objects (by their time value in
    milliseconds). Numbers are the integers; an object is the list of its
    own properties in insertion order. Functions are not modelled, and
    of the inherited properties only that they are there (see
    [get_prop]). *)
Unset Elimination Schemes.
Inductive jsval : Type :=
| JUndef
| JNull
| JBool (b : bool)
| JNum (n : Z)
| JStr (s : string)
| JDate (ms : Z)
| JArr (l : list jsval)
| JObj (fs : list (string * jsval)).
Set Elimination Schemes.

Section Induction.
Variable P : jsval -> Prop.
Hypothesis Hundef : P JUndef.
Hypothesis Hnull : P JNull.
Hypothesis Hbool : forall b, P (JBool b).
Hypothesis Hnum : forall n, P (JNum n).
Hypothesis Hstr : forall s, P (JStr s).
Hypothesis Hdate : forall ms, P (JDate ms).
Hypothesis Harr : forall l, Forall P l -> P (JArr l).
Hypothesis Hobj : forall fs, Forall (fun kv => P (snd kv)) fs -> P (JObj fs).

Fixpoint jsval_ind (v : jsval) : P v :=
  match v with
  | JUndef => Hundef
  | JNull => Hnull
  | JBool b => Hbool b
  | JNum n => Hnum n
  | JStr s => Hstr s
  | JDate ms => Hdate ms
  | JArr l =>
      Harr l ((fix all (l : list jsval) : Forall P l :=
                 match l with
                 | [] => Forall_nil _
                 | x :: r => Forall_cons x (jsval_ind x) (all r)
                 end) l)
  | JObj fs =>
      Hobj fs ((fix all (fs : list (string * jsval))
                  : Forall (fun kv => P (snd kv)) fs :=
                  match fs with
                  | [] => Forall_nil _
                  | kv :: r => Forall_cons kv (jsval_ind (snd kv)) (all r)
                  end) fs)
  end.
End Induction.

(** [if (v)], [!v], [a || b] *)
Definition truthy (v : jsval) : bool :=
  match v with
  | JUndef | JNull => false
  | JBool b => b
  | JNum n => negb (n =? 0)
  | JStr s => negb (s =? "")%string
  | JDate _ | JArr _ | JObj _ => true
  end.

Definition or_else (a b : jsval) : jsval := if truthy a then a else b.

(** objects proper: what a property can be written to *)
Definition is_object (v : jsval) : bool :=
  match v with
  | JArr _ | JObj _ => true
  | _ => false
  end.

(** ** Own properties of an object *)

Fixpoint assoc_get (k : string) (fs : list (string * jsval)) : option jsval :=
  match fs with
  | [] => None
  | (k', v) :: r => if (k' =? k)%string then Some v else assoc_get k r
  end.

(** [o[k] = v]: an existing key keeps its place, a new key comes last.
    (JavaScript lists the keys that are array indices before the others;
    that order is not modelled, and nothing below depends on the order of
    the keys but the order in which loops visit them.) *)
Fixpoint assoc_set (k : string) (v : jsval) (fs : list (string * jsval))
  : list (string * jsval) :=
  match fs with
  | [] => [(k, v)]
  | (k', v') :: r =>
      if (k' =? k)%string then (k, v) :: r else (k', v') :: assoc_set k v r
  end.

(** [delete o[k]] *)
Fixpoint assoc_del (k : string) (fs : list (string * jsval))
  : list (string * jsval) :=
  match fs with
  | [] => []
  | (k', v') :: r =>
      if (k' =? k)%string then assoc_del k r else (k', v') :: assoc_del k r
  end.

(** ** Array indices as property names *)

Definition key_of_index (i : nat) : string :=
  NilZero.string_of_uint (Nat.to_uint i).

(** a canonical numeric string names the index it prints *)
Definition index_of_key (k : string) : option nat :=
  match NilZero.uint_of_string k with
  | Some u =>
      let i := Nat.of_uint u in
      if (key_of_index i =? k)%string then Some i else None
  | None => None
  end.

Fixpoint chars (s : string) : list ascii :=
  match s with
  | EmptyString => []
  | String c r => c :: chars r
  end.

Definition zlength {A} (l : list A) : Z := Z.of_nat (List.length l).

(** ** Reading a property: [base[k]]

    A value answers for the properties it holds itself. For a name that it
    does not hold the answer is [undefined], unless the name is one that
    [Object.prototype] answers for: those reads find a function, or the
    prototype itself, and are not modelled. (The methods that arrays,
    strings, numbers and dates inherit from their own prototypes are read
    by the two files only in calls, which are modelled apart.) *)
Definition Object_prototype : list string :=
  ["constructor"; "__proto__"; "hasOwnProperty"; "isPrototypeOf";
   "propertyIsEnumerable"; "toLocaleString"; "toString"; "valueOf";
   "__defineGetter__"; "__defineSetter__"; "__lookupGetter__";
   "__lookupSetter__"].

Definition inherited (k : string) : bool :=
  existsb (String.eqb k) Object_prototype.

Definition not_own (k : string) : result jsval :=
  if inherited k then Throw Unsupported else Ok JUndef.

Definition get_prop (base : jsval) (k : string) : result jsval :=
  match base with
  | JUndef | JNull => Throw TypeError
  | JBool _ | JNum _ | JDate _ => not_own k
  | JStr s =>
      if (k =? "length")%string then Ok (JNum (zlength (chars s)))
      else match index_of_key k with
           | Some i =>
               match nth_error (chars s) i with
               | Some c => Ok (JStr (String c EmptyString))
               | None => Ok JUndef
               end
           | None => not_own k
           end
  | JArr l =>
      if (k =? "length")%string then Ok (JNum (zlength l))
      else match index_of_key k with
           | Some i =>
               match nth_error l i with
               | Some x => Ok x
               | None => Ok JUndef
               end
           | None => not_own k
           end
  | JObj fs =>
      match assoc_get k fs with
      | Some v => Ok v
      | None => not_own k
      end
  end.

Fixpoint replace_nth (i : nat) (v : jsval) (l : list jsval) : list jsval :=
  match l, i with
  | [], _ => []
  | _ :: r, O => v :: r
  | x :: r, S j => x :: replace_nth j v r
  end.

(** ** Writing a property in strict mode: [base[k] = v]

    The file is ['use strict'], so a write to a primitive throws. A write
    to an array is modelled for an index that exists. A write under the
    name [__proto__] is one to the prototype, and is not modelled. *)
Definition set_prop (base : jsval) (k : string) (v : jsval) : result jsval :=
  match base with
  | JUndef | JNull | JBool _ | JNum _ | JStr _ => Throw TypeError
  | JDate _ => Throw Unsupported
  | JArr l =>
      match index_of_key k with
      | Some i =>
          if (i <? List.length l)%nat then Ok (JArr (replace_nth i v l))
          else Throw Unsupported
      | None => Throw Unsupported
      end
  | JObj fs =>
      if (k =? "__proto__")%string then Throw Unsupported
      else Ok (JObj (assoc_set k v fs))
  end.

(** [v.length = 0]: an array is emptied; on other values it is a
    property write like any other *)
Definition clear_length (v : jsval) : result jsval :=
  match v with
  | JArr _ => Ok (JArr [])
  | _ => set_prop v "length" (JNum 0)
  end.

(** [delete base[k]] on an object *)
Definition del_prop (base : jsval) (k : string) : result jsval :=
  match base with
  | JUndef | JNull => Throw TypeError
  | JBool _ | JNum _ | JDate _ => Ok base
  | JStr _ | JArr _ => Throw Unsupported
  | JObj fs => Ok (JObj (assoc_del k fs))
  end.

(** [Object.keys(v)] *)
Definition object_keys (v : jsval) : result (list string) :=
  match v with
  | JUndef | JNull => Throw TypeError
  | JBool _ | JNum _ | JDate _ => Ok []
  | JStr s => Ok (map key_of_index (seq 0 (List.length (chars s))))
  | JArr l => Ok (map key_of_index (seq 0 (List.length l)))
  | JObj fs => Ok (map fst fs)
  end.

(** Reading along a path: [base.k1.k2...] *)
Fixpoint get_path (base : jsval) (p : list string) : result jsval :=
  match p with
  | [] => Ok base
  | k :: r => x <- get_prop base k ;; get_path x r
  end.

(** [base.k1...kn.k = v]: the object [base.k1...kn] is read, the write is
    done on it, and the objects on the way hold the updated one *)
Fixpoint set_path (base : jsval) (p : list string) (k : string) (v : jsval)
  : result jsval :=
  match p with
  | [] => set_prop base k v
  | k1 :: r =>
      x <- get_prop base k1 ;;
      x' <- set_path x r k v ;;
      set_prop base k1 x'
  end.


(** ** Decimal digits *)

Definition digit_char (d : Z) : ascii :=
  ascii_of_nat (48 + Z.to_nat (d mod 10)).

(** [w] decimal digits of [n], most significant first *)
Fixpoint pad (w : nat) (n : Z) : string :=
  match w with
  | O => EmptyString
  | S w' => pad w' (n / 10) ++ String (digit_char n) EmptyString
  end.

(** ** [Date.prototype.toISOString] and [toJSON] *)

Definition ms_per_day : Z := 86400000.

(** year, month and day of the [z]-th day after 1970-01-01 in the
    proleptic Gregorian calendar *)
Definition civil_from_days (z : Z) : Z * Z * Z :=
  let z := z + 719468 in
  let era := z / 146097 in
  let doe := z - era * 146097 in
  let yoe := (doe - doe / 1460 + doe / 36524 - doe / 146096) / 365 in
  let doy := doe - (365 * yoe + yoe / 4 - yoe / 100) in
  let mp := (5 * doy + 2) / 153 in
  let d := doy - (153 * mp + 2) / 5 + 1 in
  let m := if mp <? 10 then mp + 3 else mp - 9 in
  let y := yoe + era * 400 + (if m <=? 2 then 1 else 0) in
  (y, m, d).

Definition iso_year (y : Z) : string :=
  if (0 <=? y) && (y <=? 9999) then pad 4 y
  else if y <? 0 then "-" ++ pad 6 (- y)
  else "+" ++ pad 6 y.

Definition iso_clock (t : Z) : string :=
  pad 2 (t / 3600000) ++ ":" ++ pad 2 (t / 60000 mod 60) ++ ":"
  ++ pad 2 (t / 1000 mod 60) ++ "." ++ pad 3 (t mod 1000) ++ "Z".

Definition toISOString_valid (ms : Z) : string :=
  let '(y, m, d) := civil_from_days (ms / ms_per_day) in
  iso_year y ++ "-" ++ pad 2 m ++ "-" ++ pad 2 d
  ++ String "T" (iso_clock (ms mod ms_per_day)).

(** a time value is a valid date within 100,000,000 days of the epoch *)
Definition valid_time (ms : Z) : bool :=
  (- 8640000000000000 <=? ms) && (ms <=? 8640000000000000).

(** [Date.prototype.toJSON]: the ISO string, or [null] for an invalid date *)
Definition date_toJSON (ms : Z) : jsval :=
  if valid_time ms then JStr (toISOString_valid ms) else JNull.

(** ** [JSON.parse(JSON.stringify(v))] *)

(** [None] is a value that [JSON.stringify] leaves out ([undefined]):
    dropped from an object, [null] in an array. *)
Fixpoint jsonify (v : jsval) : option jsval :=
  match v with
  | JUndef => None
  | JNull | JBool _ | JNum _ | JStr _ => Some v
  | JDate ms => Some (date_toJSON ms)
  | JArr l =>
      Some (JArr (map (fun x => match jsonify x with
                                | Some j => j
                                | None => JNull
                                end) l))
  | JObj fs =>
      Some (JObj ((fix fields (fs : list (string * jsval)) :=
                     match fs with
                     | [] => []
                     | (k, x) :: r =>
                         match jsonify x with
                         | Some j => (k, j) :: fields r
                         | None => fields r
                         end
                     end) fs))
  end.

Definition jsonify_elem (x : jsval) : jsval :=
  match jsonify x with Some j => j | None => JNull end.

Fixpoint jsonify_fields (fs : list (string * jsval)) : list (string * jsval) :=
  match fs with
  | [] => []
  | (k, x) :: r =>
      match jsonify x with
      | Some j => (k, j) :: jsonify_fields r
      | None => jsonify_fields r
      end
  end.

(** [JSON.parse(JSON.stringify(v))]; [JSON.stringify(undefined)] is
    [undefined], which [JSON.parse] refuses *)
Definition json_copy (v : jsval) : result jsval :=
  match jsonify v with
  | Some j => Ok j
  | None => Throw SyntaxError
  end.

(** values that [JSON.parse] can produce *)
Fixpoint is_json (v : jsval) : bool :=
  match v with
  | JUndef | JDate _ => false
  | JNull | JBool _ | JNum _ | JStr _ => true
  | JArr l => forallb is_json l
  | JObj fs => forallb (fun kv => is_json (snd kv)) fs
  end.

(** ** [ToNumber] *)

Definition is_digit (c : ascii) : bool :=
  let n := nat_of_ascii c in ((48 <=? n) && (n <=? 57))%nat.

(** the characters a [StringNumericLiteral] is written with: digits, hex
    digits, the radix letters, sign, point, the letters of [Infinity], and
    the ASCII white space that may surround it *)
Definition numeric_char (c : ascii) : bool :=
  let n := nat_of_ascii c in
  (is_digit c
   || ((65 <=? n) && (n <=? 70)) || ((97 <=? n) && (n <=? 102))
   || existsb (Nat.eqb n) [120; 88; 111; 79; 46; 43; 45; 73; 110; 105; 116; 121]
   || ((9 <=? n) && (n <=? 13)) || (n =? 32))%nat.

Definition digits_value (cs : list ascii) : Z :=
  fold_left (fun acc c => 10 * acc + (Z.of_nat (nat_of_ascii c) - 48)) cs 0.

(** [ToNumber] of a string; [None] is [NaN]. A string with an ASCII
    character that no numeric literal has is [NaN]; the empty string is 0;
    a string of decimal digits is its value; other literals (fractions,
    exponents, radix prefixes, surrounding space) are not modelled. *)
Definition not_numeric (c : ascii) : bool :=
  (nat_of_ascii c <? 128)%nat && negb (numeric_char c).

Definition string_to_number (s : string) : result (option Z) :=
  let cs := chars s in
  if existsb not_numeric cs
  then Ok None
  else match cs with
       | [] => Ok (Some 0)
       | _ => if forallb is_digit cs then Ok (Some (digits_value cs))
              else Throw Unsupported
       end.

(** ** [ToString] *)

Definition decimal (n : Z) : string := NilZero.string_of_int (Z.to_int n).

(** [Number.prototype.toString]: decimal digits below 10^21 *)
Definition number_to_string (n : Z) : result string :=
  if Z.abs n <? 10 ^ 21 then Ok (decimal n) else Throw Unsupported.

(** [s.endsWith(suffix)] *)
Definition ends_with (suffix s : string) : bool :=
  let n := String.length s in
  let m := String.length suffix in
  ((m <=? n)%nat && (substring (n - m) m s =? suffix)%string).

Fixpoint to_string (v : jsval) : result string :=
  match v with
  | JUndef => Ok "undefined"
  | JNull => Ok "null"
  | JBool true => Ok "true"
  | JBool false => Ok "false"
  | JNum n => number_to_string n
  | JStr s => Ok s
  | JDate _ => Throw Unsupported
  | JArr l =>
      ss <- (fix elems (l : list jsval) : result (list string) :=
               match l with
               | [] => Ok []
               | x :: r =>
                   s <- match x with
                        | JUndef | JNull => Ok ""
                        | _ => to_string x
                        end ;;
                   ss <- elems r ;;
                   Ok (s :: ss)
               end) l ;;
      Ok (String.concat "," ss)
  | JObj _ => Ok "[object Object]"
  end.

Fixpoint join_elems (l : list jsval) : result (list string) :=
  match l with
  | [] => Ok []
  | x :: r =>
      s <- match x with
           | JUndef | JNull => Ok ""
           | _ => to_string x
           end ;;
      ss <- join_elems r ;;
      Ok (s :: ss)
  end.

(** [v.join(sep)]: [Array.prototype.join] on an array; other values have
    no [join] method *)
Definition js_join (v : jsval) (sep : string) : result jsval :=
  match v with
  | JArr l => ss <- join_elems l ;; Ok (JStr (String.concat sep ss))
  | _ => Throw TypeError
  end.

(** [ToNumber]; [None] is [NaN] *)
Definition to_number (v : jsval) : result (option Z) :=
  match v with
  | JUndef => Ok None
  | JNull => Ok (Some 0)
  | JBool b => Ok (Some (if b then 1 else 0))
  | JNum n => Ok (Some n)
  | JStr s => string_to_number s
  | JDate ms => Ok (Some ms)
  | JArr _ => s <- to_string v ;; string_to_number s
  | JObj _ => Ok None
  end.

(** [a - b > c] on numbers; a comparison with [NaN] is false *)
Definition difference_exceeds (a b : jsval) (c : Z) : result bool :=
  x <- to_number a ;;
  y <- to_number b ;;
  match x, y with
  | Some x, Some y => Ok (c <? x - y)
  | _, _ => Ok false
  end.

End Js.

Import Js.

(** ** Statements that change an object and may throw

    A JavaScript method that throws half-way leaves its earlier writes in
    place: a statement returns the object as it is left together with its
    result. *)
Definition stmt (S A : Type) : Type := S -> S * result A.

Definition sret {S A} (a : A) : stmt S A := fun s => (s, Ok a).

Definition sbind {S A B} (m : stmt S A) (k : A -> stmt S B) : stmt S B :=
  fun s =>
    match m s with
    | (s', Ok a) => k a s'
    | (s', Throw e) => (s', Throw e)
    end.

(** a read, or any computation that does not write *)
Definition eval {S A} (f : S -> result A) : stmt S A := fun s => (s, f s).

(** a write: nothing changes when it throws *)
Definition write {S} (f : S -> result S) : stmt S unit :=
  fun s =>
    match f s with
    | Ok s' => (s', Ok tt)
    | Throw e => (s, Throw e)
    end.

Definition when {S} (c : bool) (m : stmt S unit) : stmt S unit :=
  if c then m else sret tt.

Notation "x <~ m ;; k" := (sbind m (fun x => k))
  (at level 61, m at next level, right associativity).
Notation "m ;;; k" := (sbind m (fun _ => k))
  (at level 61, right associativity).

(** [keys.forEach(body)] *)
Fixpoint for_each {S} (keys : list string) (body : string -> stmt S unit)
  : stmt S unit :=
  match keys with
  | [] => sret tt
  | k :: r => body k ;;; for_each r body
  end.

(** a statement keeps [I]: it holds after the statement, thrown or not,
    when it held before *)
Definition preserves {S A} (I : S -> Prop) (m : stmt S A) : Prop :=
  forall s s' r, m s = (s', r) -> I s -> I s'.

(** * [src/lib/state.js] *)
Module StateStore.

Definition TASK_RETENTION_DAYS : Z := 7.

(** [class State]: the three fields the constructor sets *)
Record State : Type := mkState {
  originalConfig : jsval;
  tasks : jsval;
  mostRecentTask : jsval
}.

Definition with_tasks (s : State) (ts : jsval) : State :=
  {| originalConfig := originalConfig s;
     tasks := ts;
     mostRecentTask := mostRecentTask s |}.

Definition with_originalConfig (s : State) (oc : jsval) : State :=
  {| originalConfig := oc;
     tasks := tasks s;
     mostRecentTask := mostRecentTask s |}.

Definition with_mostRecentTask (s : State) (t : jsval) : State :=
  {| originalConfig := originalConfig s;
     tasks := tasks s;
     mostRecentTask := t |}.

(** the data of a state, as it is persisted and handed back to the
    constructor *)
Definition state_data (s : State) : jsval :=
  JObj [("originalConfig", originalConfig s);
        ("tasks", tasks s);
        ("mostRecentTask", mostRecentTask s)].

(** ** [cleanupOldTasks] *)

Definition maxAge : Z := TASK_RETENTION_DAYS * 1000 * 3600 * 24.

(** the callback of [forEach] in [cleanupOldTasks]; [now] is the value of
    [new Date()] there *)
Definition cleanup_body (now : Z) (taskId : string) : stmt jsval unit :=
  old <~ eval (fun tasks =>
           lastUpdate <- get_path tasks [taskId; "lastUpdate"] ;;
           difference_exceeds (JDate now) lastUpdate maxAge) ;;
  when old (write (fun tasks => del_prop tasks taskId)).

Definition cleanupOldTasks (now : Z) : stmt jsval unit :=
  keys <~ eval object_keys ;;
  for_each keys (cleanup_body now).

(** ** [updateNewIdToId] *)

Section Migration.
(** [doUtil.getDoVersion()], [cloudUtil.versionCompare],
    [parserUtil.updateIds(configItems, schemaClass, config, itemName)] and
    [ConfigManager.getNamelessClasses(configItems)] live outside
    [state.js]; they are parameters here. *)
Variables VERSION RELEASE : string.
Variable versionCompare : jsval -> jsval -> result Z.
Variable updateIds : string -> jsval -> option string -> result jsval.
Variable NAMELESS_CLASSES : list string.

Definition doVersionStr : string := VERSION ++ "-" ++ RELEASE.

Definition is_nameless (schemaClass : string) : bool :=
  existsb (String.eqb schemaClass) NAMELESS_CLASSES.

(** the body of the innermost [forEach], on [existingState] *)
Definition update_item (configId schemaClass itemName : string)
  : stmt jsval unit :=
  new <~ eval (fun es =>
           item <- get_path es ["originalConfig"; configId; "Common";
                                schemaClass; itemName] ;;
           updateIds schemaClass item (Some itemName)) ;;
  write (fun es =>
           set_path es ["originalConfig"; configId; "Common"; schemaClass]
                    itemName new).

Definition update_class (configId schemaClass : string) : stmt jsval unit :=
  config <~ eval (fun es =>
              get_path es ["originalConfig"; configId; "Common";
                           schemaClass]) ;;
  if is_nameless schemaClass then
    new <~ eval (fun _ => updateIds schemaClass config None) ;;
    write (fun es =>
             set_path es ["originalConfig"; configId; "Common"]
                      schemaClass new)
  else
    items <~ eval (fun _ => object_keys config) ;;
    for_each items (update_item configId schemaClass).

Definition update_entry (configId : string) : stmt jsval unit :=
  configById <~ eval (fun es => get_path es ["originalConfig"; configId]) ;;
  version <~ eval (fun _ => get_prop configById "version") ;;
  let configVersion := or_else version (JStr "0.0.0-0") in
  c <~ eval (fun _ => versionCompare configVersion (JStr doVersionStr)) ;;
  if c <? 0 then
    common <~ eval (fun _ => get_prop configById "Common") ;;
    if truthy common then
      write (fun es =>
               set_path es ["originalConfig"; configId] "version"
                        (JStr doVersionStr)) ;;;
      classes <~ eval (fun _ => object_keys common) ;;
      for_each classes (update_class configId)
    else sret tt
  else sret tt.

Definition updateNewIdToId : stmt jsval unit :=
  ids <~ eval (fun es =>
           oc <- get_prop es "originalConfig" ;; object_keys oc) ;;
  for_each ids update_entry.

(** an entry that the migration leaves alone: its version is not older
    than the current one, or it has no [Common] *)
Definition settled (es : jsval) (configId : string) : Prop :=
  exists version c,
    get_path es ["originalConfig"; configId; "version"] = Ok version /\
    versionCompare (or_else version (JStr "0.0.0-0")) (JStr doVersionStr)
    = Ok c /\
    ((c <? 0) = false \/
     exists common,
       get_path es ["originalConfig"; configId; "Common"] = Ok common /\
       truthy common = false).

(** ** [copyAndUpgradeState]

    [taskId] is the value of [uuidv4()] and [now] that of [new Date()],
    both used only when the state has no [tasks]. The statement works on
    the caller's [existingState]; its result is the copy it returns. *)
Definition copyAndUpgradeState (taskId : string) (now : Z)
  : stmt jsval jsval :=
  ts <~ eval (fun es => get_prop es "tasks") ;;
  when (negb (truthy ts))
    (existingStateCopy <~ eval json_copy ;;
     write (fun es => set_prop es "tasks" (JObj [])) ;;;
     write (fun es => set_path es ["tasks"] taskId existingStateCopy) ;;;
     write (fun es =>
              set_path es ["tasks"; taskId] "lastUpdate" (JDate now)) ;;;
     write (fun es => set_path es ["tasks"; taskId] "id" (JStr taskId)) ;;;
     write (fun es => set_prop es "mostRecentTask" (JStr taskId))) ;;;
  oc <~ eval (fun es => get_prop es "originalConfig") ;;
  when (negb (truthy oc))
    (write (fun es => set_prop es "originalConfig" (JObj []))) ;;;
  updateNewIdToId ;;;
  eval json_copy.

(** ** The constructor *)

(** [new State()] *)
Definition empty_State : State :=
  {| originalConfig := JObj []; tasks := JObj []; mostRecentTask := JNull |}.

(** [new State(existingState)] *)
Definition new_State (taskId : string) (now : Z) (existingState : jsval)
  : result State :=
  if truthy existingState then
    state <- snd (copyAndUpgradeState taskId now existingState) ;;
    oc <- get_prop state "originalConfig" ;;
    ts <- get_prop state "tasks" ;;
    mrt <- get_prop state "mostRecentTask" ;;
    Ok {| originalConfig := oc; tasks := ts; mostRecentTask := mrt |}
  else Ok empty_State.
End Migration.

(** ** [addTask], [getTask], [getTaskIds] *)

Definition new_task (taskId : string) (created : Z) : jsval :=
  JObj [("id", JStr taskId);
        ("lastUpdate", JDate created);
        ("result", JObj []);
        ("internalDeclaration", JObj [])].

(** a statement on [this.tasks] as a statement on [this] *)
Definition on_tasks {A} (m : stmt jsval A) : stmt State A :=
  fun s => let (ts, r) := m (tasks s) in (with_tasks s ts, r).

(** [taskId] is the value of [uuidv4()], [created] that of the first
    [new Date()] and [now] that of the one in [cleanupOldTasks] *)
Definition addTask (taskId : string) (created now : Z) : stmt State string :=
  on_tasks (write (fun ts => set_prop ts taskId (new_task taskId created))) ;;;
  write (fun s => Ok (with_mostRecentTask s (JStr taskId))) ;;;
  on_tasks (cleanupOldTasks now) ;;;
  sret taskId.

Definition getTask (s : State) (taskId : string) : result jsval :=
  get_prop (tasks s) taskId.

Definition getTaskIds (s : State) : result (list string) :=
  object_keys (tasks s).

(** ** Accessors keyed by task id *)

(** [if (this.tasks[taskId]) ... else throw new Error('taskId does not exist')] *)
Definition task_of (s : State) (taskId : string) : result jsval :=
  t <- get_prop (tasks s) taskId ;;
  if truthy t then Ok t else Throw TaskIdDoesNotExist.

(** [return this.tasks[taskId].p1...pn] *)
Definition get_field (p : list string) (s : State) (taskId : string)
  : result jsval :=
  t <- task_of s taskId ;; get_path t p.

(** [this.tasks[taskId].p1...pn.k = v] *)
Definition set_field (p : list string) (k : string) (taskId : string)
  (v : result jsval) : stmt State unit :=
  eval (fun s => task_of s taskId) ;;;
  on_tasks (
    eval (fun ts => get_path ts (taskId :: p)) ;;;
    x <~ eval (fun _ => v) ;;
    write (fun ts => set_path ts (taskId :: p) k x)).

Definition setCurrentConfig taskId currentConfig :=
  set_field [] "currentConfig" taskId (json_copy currentConfig).
Definition getCurrentConfig := get_field ["currentConfig"].

Definition setOriginalConfigByConfigId (id : string) (config : jsval)
  : stmt State unit :=
  c <~ eval (fun _ => json_copy config) ;;
  write (fun s => oc <- set_prop (originalConfig s) id c ;;
                  Ok (with_originalConfig s oc)).

Definition getOriginalConfigByConfigId (s : State) (id : string)
  : result jsval :=
  c <- get_prop (originalConfig s) id ;;
  if truthy c then Ok c else Ok JNull.

Definition getOriginalConfigByTaskId := get_field ["originalConfig"].

Definition deleteOriginalConfigByConfigId (id : string) : stmt State unit :=
  write (fun s => oc <- del_prop (originalConfig s) id ;;
                  Ok (with_originalConfig s oc)).

Definition getOriginalConfigIds (s : State) : result (list string) :=
  object_keys (originalConfig s).

Definition setCode taskId code := set_field ["result"] "code" taskId (Ok code).
Definition getCode := get_field ["result"; "code"].
Definition setMessage taskId message :=
  set_field ["result"] "message" taskId (Ok message).
Definition getMessage := get_field ["result"; "message"].
Definition setStatus taskId status :=
  set_field ["result"] "status" taskId (Ok status).
Definition getStatus := get_field ["result"; "status"].

(** [errors.slice()] *)
Definition js_slice (v : jsval) : result jsval :=
  match v with
  | JArr _ | JStr _ => Ok v
  | JUndef | JNull | JBool _ | JNum _ | JDate _ | JObj _ => Throw TypeError
  end.

Definition setErrors (taskId : string) (errors : jsval) : stmt State unit :=
  eval (fun s => task_of s taskId) ;;;
  if truthy errors then
    set_field ["result"] "errors" taskId (js_slice errors)
  else
    old <~ eval (fun s => get_path (tasks s) [taskId; "result"; "errors"]) ;;
    when (truthy old)
      (on_tasks (write (fun ts =>
         cleared <- clear_length old ;;
         set_path ts [taskId; "result"] "errors" cleared))).

Definition getErrors := get_field ["result"; "errors"].

(** ** [setDeclaration] and [doUtil.mask] *)

Section Masking.
(** which property names bear a secret, and the marker that stands for
    a masked value *)
Variable secret_key : string -> bool.
Variable redaction : jsval.

(** Modelled from the spec: [doUtil.mask] ([lib/doUtil.js] is not among
    the sources). "Declarations are stored masked (secret-bearing fields
    such as passwords replaced with redaction markers)": every property
    with a secret-bearing name, at any depth, holds the marker instead
    of its value. *)
Fixpoint mask (v : jsval) : jsval :=
  match v with
  | JUndef | JNull | JBool _ | JNum _ | JStr _ | JDate _ => v
  | JArr l => JArr (map mask l)
  | JObj fs =>
      JObj (map (fun kv => (fst kv,
                            if secret_key (fst kv) then redaction
                            else mask (snd kv))) fs)
  end.

(** no property with a secret-bearing name holds anything but the
    marker *)
Fixpoint redacted (v : jsval) : Prop :=
  match v with
  | JUndef | JNull | JBool _ | JNum _ | JStr _ | JDate _ => True
  | JArr l =>
      (fix all (l : list jsval) : Prop :=
         match l with
         | [] => True
         | x :: r => redacted x /\ all r
         end) l
  | JObj fs =>
      (fix all (fs : list (string * jsval)) : Prop :=
         match fs with
         | [] => True
         | kv :: r =>
             (if secret_key (fst kv) then snd kv = redaction
              else redacted (snd kv)) /\ all r
         end) fs
  end.

Definition setDeclaration taskId declaration :=
  set_field [] "internalDeclaration" taskId (Ok (mask declaration)).
End Masking.

Definition getDeclaration := get_field ["internalDeclaration"].

Definition setRebootRequired taskId rebootRequired :=
  set_field [] "rebootRequired" taskId (Ok rebootRequired).
Definition getRebootRequired := get_field ["rebootRequired"].

Definition setRequestOptions taskId reqOpts :=
  set_field [] "requestOptions" taskId (Ok reqOpts).
Definition getRequestOptions := get_field ["requestOptions"].

Definition setRollbackInfo (taskId : string) (rollbackInfo : jsval)
  : stmt State unit :=
  when (truthy rollbackInfo)
    (set_field [] "rollbackInfo" taskId (json_copy rollbackInfo)).
Definition getRollbackInfo := get_field ["rollbackInfo"].

Definition setTraceCurrent taskId currentConfig :=
  set_field [] "traceCurrent" taskId (json_copy currentConfig).
Definition getTraceCurrent := get_field ["traceCurrent"].
Definition setTraceDesired taskId desiredConfig :=
  set_field [] "traceDesired" taskId (json_copy desiredConfig).
Definition getTraceDesired := get_field ["traceDesired"].
Definition setTraceDiff taskId diff :=
  set_field [] "traceDiff" taskId (json_copy diff).
Definition getTraceDiff := get_field ["traceDiff"].

Definition hasTrace (s : State) (taskId : string) : result jsval :=
  a <- getTraceCurrent s taskId ;;
  if truthy a then Ok a
  else b <- getTraceDesired s taskId ;;
       if truthy b then Ok b else getTraceDiff s taskId.

Definition getLastUpdate := get_field ["lastUpdate"].

(** ** [updateResult] *)

Definition is_array (v : jsval) : bool :=
  match v with JArr _ => true | _ => false end.

(** [cur.concat(errors)] for an array [errors] *)
Definition js_concat (cur errors : jsval) : result jsval :=
  match cur, errors with
  | JArr l, JArr e => Ok (JArr (l ++ e))
  | JArr l, _ => Ok (JArr (l ++ [errors]))
  | JStr s, _ => t <- to_string errors ;; Ok (JStr (s ++ t))
  | _, _ => Throw TypeError
  end.

(** [cur.push(x)], as the array it leaves *)
Definition js_push (cur x : jsval) : result jsval :=
  match cur with
  | JArr l => Ok (JArr (l ++ [x]))
  | _ => Throw TypeError
  end.

(** the errors that [updateResult] records when it is given [errors] *)
Definition recorded (errors : jsval) : list jsval :=
  if truthy errors then match errors with JArr e => e | _ => [errors] end
  else [].

(** [now] is the value of [new Date()] *)
Definition updateResult (taskId : string) (now : Z)
  (code status message errors : jsval) : stmt State unit :=
  eval (fun s => task_of s taskId) ;;;
  on_tasks (
    write (fun ts => set_path ts [taskId] "lastUpdate" (JDate now)) ;;;
    when (truthy code)
      (write (fun ts => set_path ts [taskId; "result"] "code" code)) ;;;
    when (truthy status)
      (write (fun ts => set_path ts [taskId; "result"] "status" status)) ;;;
    when (truthy message)
      (write (fun ts => set_path ts [taskId; "result"] "message" message)) ;;;
    when (truthy errors)
      (old <~ eval (fun ts => get_path ts [taskId; "result"; "errors"]) ;;
       when (negb (truthy old))
         (write (fun ts =>
                   set_path ts [taskId; "result"] "errors" (JArr []))) ;;;
       cur <~ eval (fun ts => get_path ts [taskId; "result"; "errors"]) ;;
       new <~ eval (fun _ => if is_array errors then js_concat cur errors
                             else js_push cur errors) ;;
       write (fun ts => set_path ts [taskId; "result"] "errors" new))).

End StateStore.


(** * Promise chains over the device client

    [authHandler.js] builds promises from calls of [this.bigIp] with
    [then], [catch] and [Promise.all]. A call is opaque: it is issued, and
    later it settles, resolved or rejected as the device decides. No
    callback of the handler uses the value a promise resolves with. *)
Module Promise.
Local Open Scope list_scope.

Inductive method : Type := Create | CreateOrModify | Modify | Delete.

(** [this.bigIp.<meth>(args...)], with the arguments as they are passed *)
Record call : Type := mkCall { meth : method; args : list jsval }.

Inductive outcome : Type :=
| Resolved
| Rejected (e : exn).

Inductive event : Type :=
| Issue (c : call)
| Settle (c : call) (o : outcome).

(** ** Promise-valued expressions *)
Unset Elimination Schemes.
Inductive prog : Type :=
| Resolve                             (* [Promise.resolve()] *)
| Reject (e : exn)                    (* [Promise.reject(e)], or a [throw] *)
| Call (c : call)                     (* a device call *)
| Then (p : prog) (k : prog)          (* [p.then(() => k)] *)
| Catch (p : prog) (h : exn -> prog)  (* [p.catch((err) => h err)] *)
| All (ps : list prog)                (* [Promise.all([p1, ..., pn])] *)
| Dropped (p : prog) (q : prog).      (* [p] is started and its promise
                                         dropped; the value is [q] *)

(** ** Promises under way *)
Inductive st : Type :=
| SDone (o : outcome)
| SCall (c : call)                    (* a call in flight *)
| SThen (s : st) (k : prog)           (* [k] waits for [s] *)
| SCatch (s : st) (h : exn -> prog)   (* [h] waits for [s] *)
| SAll (rej : option exn) (ss : list st)
                                      (* [rej]: the first rejection *)
| SAfter (s : st) (s2 : st).          (* the promise is that of [s2];
                                         [s] may still hold calls in flight *)
Set Elimination Schemes.

(** the state of a promise: [None] while it is pending *)
Fixpoint status (s : st) : option outcome :=
  match s with
  | SDone o => Some o
  | SCall _ => None
  | SThen s1 _ =>
      match status s1 with
      | Some (Rejected e) => Some (Rejected e)
      | _ => None
      end
  | SCatch s1 _ =>
      match status s1 with
      | Some Resolved => Some Resolved
      | _ => None
      end
  | SAll rej ss =>
      match rej with
      | Some e => Some (Rejected e)
      | None =>
          if forallb (fun x => match status x with
                               | Some Resolved => true
                               | _ => false
                               end) ss
          then Some Resolved else None
      end
  | SAfter _ s2 => status s2
  end.

Fixpoint first_rejection (ss : list st) : option exn :=
  match ss with
  | [] => None
  | x :: r =>
      match status x with
      | Some (Rejected e) => Some e
      | _ => first_rejection r
      end
  end.

(** ** Starting a promise: the calls it issues at once *)
Fixpoint start (p : prog) : st * list event :=
  match p with
  | Resolve => (SDone Resolved, [])
  | Reject e => (SDone (Rejected e), [])
  | Call c => (SCall c, [Issue c])
  | Then p1 k =>
      let (s1, ev1) := start p1 in
      match status s1 with
      | Some Resolved => let (s2, ev2) := start k in (SAfter s1 s2, ev1 ++ ev2)
      | _ => (SThen s1 k, ev1)
      end
  | Catch p1 h =>
      let (s1, ev1) := start p1 in
      match status s1 with
      | Some (Rejected e) =>
          let (s2, ev2) := start (h e) in (SAfter s1 s2, ev1 ++ ev2)
      | _ => (SCatch s1 h, ev1)
      end
  | All ps =>
      let (ss, ev) :=
        (fix start_all (ps : list prog) : list st * list event :=
           match ps with
           | [] => ([], [])
           | p1 :: r =>
               let (s1, ev1) := start p1 in
               let (ss, ev2) := start_all r in
               (s1 :: ss, ev1 ++ ev2)
           end) ps in
      (SAll (first_rejection ss) ss, ev)
  | Dropped p1 q =>
      let (s1, ev1) := start p1 in
      let (s2, ev2) := start q in
      (SAfter s1 s2, ev1 ++ ev2)
  end.

Fixpoint start_all (ps : list prog) : list st * list event :=
  match ps with
  | [] => ([], [])
  | p1 :: r =>
      let (s1, ev1) := start p1 in
      let (ss, ev2) := start_all r in
      (s1 :: ss, ev1 ++ ev2)
  end.

(** what happens when the promise a [then] or [catch] waits for has
    changed *)
Definition resume_then (s1 : st) (k : prog) : st * list event :=
  match status s1 with
  | Some Resolved => let (s2, ev) := start k in (SAfter s1 s2, ev)
  | _ => (SThen s1 k, [])
  end.

Definition resume_catch (s1 : st) (h : exn -> prog) : st * list event :=
  match status s1 with
  | Some (Rejected e) => let (s2, ev) := start (h e) in (SAfter s1 s2, ev)
  | _ => (SCatch s1 h, [])
  end.

(** the calls in flight, left to right *)
Fixpoint in_flight (s : st) : list call :=
  match s with
  | SDone _ => []
  | SCall c => [c]
  | SThen s1 _ | SCatch s1 _ => in_flight s1
  | SAll _ ss => flat_map in_flight ss
  | SAfter s1 s2 => in_flight s1 ++ in_flight s2
  end.

(** ** One step: the [n]-th call in flight settles with [o]

    The callbacks that this releases run at once and issue their calls. A
    number that names no call changes nothing. *)
Fixpoint fire (n : nat) (o : outcome) (s : st) : st * list event :=
  match s with
  | SDone _ => (s, [])
  | SCall c =>
      match n with
      | O => (SDone o, [Settle c o])
      | S _ => (s, [])
      end
  | SThen s1 k =>
      let (s1', ev1) := fire n o s1 in
      let (s', ev2) := resume_then s1' k in
      (s', ev1 ++ ev2)
  | SCatch s1 h =>
      let (s1', ev1) := fire n o s1 in
      let (s', ev2) := resume_catch s1' h in
      (s', ev1 ++ ev2)
  | SAll rej ss =>
      let (ss', ev) :=
        (fix fire_in (n : nat) (ss : list st) : list st * list event :=
           match ss with
           | [] => ([], [])
           | x :: r =>
               let m := List.length (in_flight x) in
               if (n <? m)%nat then
                 let (x', ev) := fire n o x in (x' :: r, ev)
               else
                 let (r', ev) := fire_in (n - m)%nat r in (x :: r', ev)
           end) n ss in
      (SAll (match rej with
             | Some e => Some e
             | None => first_rejection ss'
             end) ss', ev)
  | SAfter s1 s2 =>
      let m := List.length (in_flight s1) in
      if (n <? m)%nat then
        let (s1', ev) := fire n o s1 in (SAfter s1' s2, ev)
      else
        let (s2', ev) := fire (n - m)%nat o s2 in (SAfter s1 s2', ev)
  end.

Fixpoint fire_in (o : outcome) (n : nat) (ss : list st)
  : list st * list event :=
  match ss with
  | [] => ([], [])
  | x :: r =>
      let m := List.length (in_flight x) in
      if (n <? m)%nat then
        let (x', ev) := fire n o x in (x' :: r, ev)
      else
        let (r', ev) := fire_in o (n - m)%nat r in (x :: r', ev)
  end.

(** ** Runs: a schedule says which call settles next, and how *)
Definition schedule : Type := list (nat * outcome).

Fixpoint run (sched : schedule) (s : st) : st * list event :=
  match sched with
  | [] => (s, [])
  | (n, o) :: r =>
      let (s1, ev1) := fire n o s in
      let (s2, ev2) := run r s1 in
      (s2, ev1 ++ ev2)
  end.

(** the promise [p] after [sched], and everything that happened *)
Definition exec (p : prog) (sched : schedule) : st * list event :=
  let (s, ev) := start p in
  let (s', ev') := run sched s in
  (s', ev ++ ev').

Definition trace (p : prog) (sched : schedule) : list event :=
  snd (exec p sched).

Definition final (p : prog) (sched : schedule) : option outcome :=
  status (fst (exec p sched)).

(** ** Induction over promises, through the lists of [All] *)
Section ProgInd.
Variable P : prog -> Prop.
Hypothesis HResolve : P Resolve.
Hypothesis HReject : forall e, P (Reject e).
Hypothesis HCall : forall c, P (Call c).
Hypothesis HThen : forall p k, P p -> P k -> P (Then p k).
Hypothesis HCatch : forall p h, P p -> (forall e, P (h e)) -> P (Catch p h).
Hypothesis HAll : forall ps, Forall P ps -> P (All ps).
Hypothesis HDropped : forall p q, P p -> P q -> P (Dropped p q).

Fixpoint prog_ind (p : prog) : P p :=
  match p with
  | Resolve => HResolve
  | Reject e => HReject e
  | Call c => HCall c
  | Then p1 k => HThen p1 k (prog_ind p1) (prog_ind k)
  | Catch p1 h => HCatch p1 h (prog_ind p1) (fun e => prog_ind (h e))
  | All ps =>
      HAll ps ((fix all (ps : list prog) : Forall P ps :=
                  match ps with
                  | [] => Forall_nil _
                  | p1 :: r => Forall_cons p1 (prog_ind p1) (all r)
                  end) ps)
  | Dropped p1 q => HDropped p1 q (prog_ind p1) (prog_ind q)
  end.
End ProgInd.

Section StInd.
Variable P : st -> Prop.
Hypothesis HDone : forall o, P (SDone o).
Hypothesis HCall : forall c, P (SCall c).
Hypothesis HThen : forall s k, P s -> P (SThen s k).
Hypothesis HCatch : forall s h, P s -> P (SCatch s h).
Hypothesis HAll : forall rej ss, Forall P ss -> P (SAll rej ss).
Hypothesis HAfter : forall s s2, P s -> P s2 -> P (SAfter s s2).

Fixpoint st_ind (s : st) : P s :=
  match s with
  | SDone o => HDone o
  | SCall c => HCall c
  | SThen s1 k => HThen s1 k (st_ind s1)
  | SCatch s1 h => HCatch s1 h (st_ind s1)
  | SAll rej ss =>
      HAll rej ss ((fix all (ss : list st) : Forall P ss :=
                      match ss with
                      | [] => Forall_nil _
                      | s1 :: r => Forall_cons s1 (st_ind s1) (all r)
                      end) ss)
  | SAfter s1 s2 => HAfter s1 s2 (st_ind s1) (st_ind s2)
  end.
End StInd.

End Promise.

(** * Disciplines of promise chains

    Three properties of a chain that can be read off its shape, and that
    every run of the chain then has. *)
Module Discipline.
Import Promise.
Local Open Scope list_scope.

(** ** What a run is made of *)

Definition is_issue (e : event) : Prop :=
  match e with Issue _ => True | Settle _ _ => False end.

(** a step is at most one settlement, followed by the calls that it
    releases *)
Definition one_step (o : outcome) (ev : list event) : Prop :=
  Forall is_issue ev \/
  exists c more, ev = Settle c o :: more /\ Forall is_issue more.

(** every promise of the list is resolved *)
Definition all_resolved (ss : list st) : bool :=
  forallb (fun x => match status x with
                    | Some Resolved => true
                    | _ => false
                    end) ss.

(** a settled promise stays as it is *)
Definition stable (s : st) : Prop :=
  forall n o' s' ev o,
    fire n o' s = (s', ev) -> status s = Some o -> status s' = Some o.


Section Guard.
(** [watched]: the calls under watch; [release]: the settlements that
    release them. *)
Variable watched : call -> Prop.
Variable release : call -> outcome -> Prop.

(** the promise cannot resolve before a release *)
Fixpoint lockedp (p : prog) : Prop :=
  match p with
  | Resolve => False
  | Reject _ => True
  | Call c => release c Resolved
  | Then p1 k => lockedp p1 \/ lockedp k
  | Catch p1 h => lockedp p1 /\ forall e, lockedp (h e)
  | All ps =>
      (fix any (ps : list prog) : Prop :=
         match ps with
         | [] => False
         | p1 :: r => lockedp p1 \/ any r
         end) ps
  | Dropped _ q => lockedp q
  end.

(** no watched call is issued before a release *)
Fixpoint quietp (p : prog) : Prop :=
  match p with
  | Resolve | Reject _ => True
  | Call c => ~ watched c
  | Then p1 k => quietp p1 /\ (lockedp p1 \/ quietp k)
  | Catch p1 h => quietp p1 /\ forall e, quietp (h e)
  | All ps =>
      (fix all (ps : list prog) : Prop :=
         match ps with
         | [] => True
         | p1 :: r => quietp p1 /\ all r
         end) ps
  | Dropped p1 q => quietp p1 /\ quietp q
  end.

Fixpoint locked (s : st) : Prop :=
  match s with
  | SDone Resolved => False
  | SDone (Rejected _) => True
  | SCall c => release c Resolved
  | SThen s1 k => locked s1 \/ lockedp k
  | SCatch s1 h => locked s1 /\ forall e, lockedp (h e)
  | SAll rej ss =>
      rej <> None \/
      (fix any (ss : list st) : Prop :=
         match ss with
         | [] => False
         | s1 :: r => locked s1 \/ any r
         end) ss
  | SAfter _ s2 => locked s2
  end.

Fixpoint quiet (s : st) : Prop :=
  match s with
  | SDone _ | SCall _ => True
  | SThen s1 k => quiet s1 /\ (locked s1 \/ quietp k)
  | SCatch s1 h => quiet s1 /\ forall e, quietp (h e)
  | SAll _ ss =>
      (fix all (ss : list st) : Prop :=
         match ss with
         | [] => True
         | s1 :: r => quiet s1 /\ all r
         end) ss
  | SAfter s1 s2 => quiet s1 /\ quiet s2
  end.

(** a release among the events *)
Definition released (ev : list event) : Prop :=
  exists c o, In (Settle c o) ev /\ release c o.

Definition silent (ev : list event) : Prop :=
  forall c, In (Issue c) ev -> ~ watched c.

(** what a step keeps, unless it is a release *)
Definition guard_step (s : st) : Prop :=
  forall n o s' ev,
    fire n o s = (s', ev) ->
    (locked s -> locked s' \/ released ev) /\
    (quiet s -> (quiet s' /\ silent ev) \/ released ev).

End Guard.

Section Once.
(** [u]: a call that is to be issued at most once *)
Variable u : call.

(** the promise never issues [u] *)
Fixpoint absentp (p : prog) : Prop :=
  match p with
  | Resolve | Reject _ => True
  | Call c => c <> u
  | Then p1 k => absentp p1 /\ absentp k
  | Catch p1 h => absentp p1 /\ forall e, absentp (h e)
  | All ps =>
      (fix all (ps : list prog) : Prop :=
         match ps with
         | [] => True
         | p1 :: r => absentp p1 /\ all r
         end) ps
  | Dropped p1 q => absentp p1 /\ absentp q
  end.

(** the promise issues [u] at most once *)
Fixpoint oncep (p : prog) : Prop :=
  match p with
  | Resolve | Reject _ | Call _ => True
  | Then p1 k => (oncep p1 /\ absentp k) \/ (absentp p1 /\ oncep k)
  | Catch p1 h =>
      (oncep p1 /\ forall e, absentp (h e)) \/
      (absentp p1 /\ forall e, oncep (h e))
  | All ps =>
      (fix one (ps : list prog) : Prop :=
         match ps with
         | [] => True
         | p1 :: r => (oncep p1 /\ absentp (All r)) \/ (absentp p1 /\ one r)
         end) ps
  | Dropped p1 q => (oncep p1 /\ absentp q) \/ (absentp p1 /\ oncep q)
  end.

(** [u] is neither in flight nor to come *)
Fixpoint absent (s : st) : Prop :=
  match s with
  | SDone _ => True
  | SCall c => c <> u
  | SThen s1 k => absent s1 /\ absentp k
  | SCatch s1 h => absent s1 /\ forall e, absentp (h e)
  | SAll _ ss =>
      (fix all (ss : list st) : Prop :=
         match ss with
         | [] => True
         | s1 :: r => absent s1 /\ all r
         end) ss
  | SAfter s1 s2 => absent s1 /\ absent s2
  end.

(** [u] is in flight or to come at most once *)
Fixpoint once (s : st) : Prop :=
  match s with
  | SDone _ | SCall _ => True
  | SThen s1 k => (once s1 /\ absentp k) \/ (absent s1 /\ oncep k)
  | SCatch s1 h =>
      (once s1 /\ forall e, absentp (h e)) \/
      (absent s1 /\ forall e, oncep (h e))
  | SAll rej ss =>
      (fix one (ss : list st) : Prop :=
         match ss with
         | [] => True
         | s1 :: r =>
             (once s1 /\ absent (SAll rej r)) \/ (absent s1 /\ one r)
         end) ss
  | SAfter s1 s2 => (once s1 /\ absent s2) \/ (absent s1 /\ once s2)
  end.

(** [u] does not settle in [ev] *)
Definition unsettled (ev : list event) : Prop :=
  forall o, ~ In (Settle u o) ev.
(** what a step keeps: once [u] has settled, it is absent *)
Definition once_step (s : st) : Prop :=
  forall n o s' ev,
    fire n o s = (s', ev) ->
    (absent s -> absent s' /\ unsettled ev) /\
    (once s -> (once s' /\ unsettled ev) \/ absent s').

End Once.

Section Carry.
(** every failure of a call rejects the promise, with the same error when
    it is the first *)
Fixpoint carriesp (p : prog) : Prop :=
  match p with
  | Resolve | Reject _ | Call _ => True
  | Then p1 k => carriesp p1 /\ carriesp k
  | Catch p1 h => carriesp p1 /\ forall e, h e = Reject e
  | All ps =>
      (fix all (ps : list prog) : Prop :=
         match ps with
         | [] => True
         | p1 :: r => carriesp p1 /\ all r
         end) ps
  | Dropped _ q => exists e, q = Reject e
  end.

Fixpoint carries (s : st) : Prop :=
  match s with
  | SDone _ | SCall _ => True
  | SThen s1 k => carries s1 /\ carriesp k
  | SCatch s1 h => carries s1 /\ forall e, h e = Reject e
  | SAll _ ss =>
      (fix all (ss : list st) : Prop :=
         match ss with
         | [] => True
         | s1 :: r => carries s1 /\ all r
         end) ss
  | SAfter s1 s2 =>
      (in_flight s1 = [] /\ carries s2) \/ exists e, s2 = SDone (Rejected e)
  end.

Definition rejected (s : st) : Prop :=
  exists e, status s = Some (Rejected e).
(** what a step keeps: a failure rejects the promise *)
Definition carry_step (s : st) : Prop :=
  forall n o s' ev,
    fire n o s = (s', ev) -> carries s ->
    carries s' /\
    forall c e, In (Settle c (Rejected e)) ev -> rejected s'.

End Carry.
End Discipline.

(** * [src/lib/authHandler.js] *)
Module AuthHandler.
Import Promise.

Section Handler.
(** [PATHS], [RADIUS] and [AUTH] of [sharedConstants.js], [NO_RETRY] of
    f5-cloud-libs, and [Buffer.from(data, 'base64').toString().trim()] of
    Node are not among the sources; they are parameters. *)
Variables PATHS_AuthRemoteRole PATHS_AuthRadiusServer PATHS_AuthRadius : string.
Variables PATHS_AuthTacacs PATHS_AuthLdap PATHS_AuthSource : string.
Variables PATHS_AuthRemoteUser PATHS_SSLCert PATHS_SSLKey : string.
Variables PATHS_Uploads PATHS_UnixRm : string.
Variables RADIUS_PRIMARY_SERVER RADIUS_SECONDARY_SERVER : string.
Variable AUTH_SUBCLASSES_NAME : string.
Variable CLOUD_UTIL_NO_RETRY : jsval.
Variable decode_base64 : jsval -> result string.

(** a [throw] in a callback of [then] rejects the promise *)
Definition or_reject (r : result prog) : prog :=
  match r with
  | Ok p => p
  | Throw e => Reject e
  end.

Definition enabled_if (v : jsval) : jsval :=
  JStr (if truthy v then "enabled" else "disabled").

(** ** [handleRemoteAuthRoles] *)

(** the callback of [map]: the call for the role [name] *)
Definition role_call (roles : jsval) (name : string) : result prog :=
  decl <- get_prop roles name ;;
  attribute <- get_prop decl "attribute" ;;
  console <- get_prop decl "console" ;;
  remoteAccess <- get_prop decl "remoteAccess" ;;
  lineOrder <- get_prop decl "lineOrder" ;;
  role <- get_prop decl "role" ;;
  userPartition <- get_prop decl "userPartition" ;;
  Ok (Call (mkCall CreateOrModify
        [JStr PATHS_AuthRemoteRole;
         JObj [("attribute", attribute);
               ("console", console);
               ("deny", JStr (if truthy remoteAccess then "disabled"
                              else "enabled"));
               ("lineOrder", lineOrder);
               ("role", role);
               ("userPartition", userPartition);
               ("name", JStr name)]])).

(** [names.map(...)]: the calls issued, and the exception that stopped
    the loop if there is one *)
Fixpoint role_calls (roles : jsval) (names : list string)
  : list prog * option exn :=
  match names with
  | [] => ([], None)
  | name :: r =>
      match role_call roles name with
      | Ok c => let (cs, e) := role_calls roles r in (c :: cs, e)
      | Throw e => ([], Some e)
      end
  end.

Definition handleRemoteAuthRoles (declaration : jsval) : prog :=
  or_reject (
    common <- get_prop declaration "Common" ;;
    if negb (truthy common) then Ok Resolve else
    roles <- get_prop common "RemoteAuthRole" ;;
    if negb (truthy roles) then Ok Resolve else
    names <- object_keys roles ;;
    Ok (match role_calls roles names with
        | (cs, None) => All cs
        | (cs, Some e) => Dropped (All cs) (Reject e)
        end)).

(** ** [handleRadius] *)

Definition servers_path : list string :=
  ["Common"; "Authentication"; "radius"; "servers"].

(** [server.name = name; server.partition = 'Common'] *)
Definition name_server (which name : string) : stmt jsval unit :=
  write (fun d => set_path d (servers_path ++ [which]) "name" (JStr name)) ;;;
  write (fun d => set_path d (servers_path ++ [which]) "partition"
                           (JStr "Common")).

Definition server_call (server : jsval) : call :=
  mkCall CreateOrModify [JStr PATHS_AuthRadiusServer; server].

Definition radius_call (serviceType : jsval) (authServers : list string)
  : call :=
  mkCall CreateOrModify
    [JStr PATHS_AuthRadius;
     JObj [("name", JStr AUTH_SUBCLASSES_NAME);
           ("serviceType", serviceType);
           ("servers", JArr (map JStr authServers));
           ("partition", JStr "Common")];
     JUndef; JUndef;
     JObj [("silent", JBool true)]].

Definition delete_secondary_call : call :=
  mkCall Delete
    [JStr (PATHS_AuthRadiusServer ++ "/~Common~" ++ RADIUS_SECONDARY_SERVER);
     JNull; JNull; CLOUD_UTIL_NO_RETRY].

(** the promise [handleRadius] returns once [serverProms] is filled;
    the callbacks read [radius] in the declaration [d] as the function
    leaves it *)
Definition radius_chain (d : jsval) (serverProms : list prog)
  (authServers : list string) : prog :=
  Catch
    (Then
       (Then (All serverProms)
             (or_reject (
                serviceType <- get_path d ["Common"; "Authentication";
                                           "radius"; "serviceType"] ;;
                Ok (Call (radius_call serviceType authServers)))))
       (or_reject (
          secondary <- get_path d (servers_path ++ ["secondary"]) ;;
          Ok (if truthy secondary then Resolve
              else Call delete_secondary_call))))
    (fun err => Reject err).

(** is there a [radius.servers.primary]? *)
Definition radius_declared (declaration : jsval) : result bool :=
  radius <- get_path declaration ["Common"; "Authentication"; "radius"] ;;
  if negb (truthy radius) then Ok false else
  servers <- get_prop radius "servers" ;;
  if negb (truthy servers) then Ok false else
  primary <- get_prop servers "primary" ;;
  Ok (truthy primary).

(** the declaration as [handleRadius] leaves it, and the promise it
    returns *)
Definition handleRadius (declaration : jsval) : jsval * prog :=
  match radius_declared declaration with
  | Throw e => (declaration, Reject e)
  | Ok false => (declaration, Resolve)
  | Ok true =>
      match name_server "primary" RADIUS_PRIMARY_SERVER declaration with
      | (d1, Throw e) => (d1, Reject e)
      | (d1, Ok _) =>
          match get_path d1 (servers_path ++ ["primary"]),
                get_path d1 (servers_path ++ ["secondary"]) with
          | Ok primary, Ok secondary =>
              if truthy secondary then
                match name_server "secondary" RADIUS_SECONDARY_SERVER d1 with
                | (d2, Throw e) =>
                    (d2, Dropped (Call (server_call primary)) (Reject e))
                | (d2, Ok _) =>
                    match get_path d2 (servers_path ++ ["secondary"]) with
                    | Ok secondary' =>
                        (d2, radius_chain d2
                               [Call (server_call primary);
                                Call (server_call secondary')]
                               [RADIUS_PRIMARY_SERVER;
                                RADIUS_SECONDARY_SERVER])
                    | Throw e =>
                        (d2, Dropped (Call (server_call primary)) (Reject e))
                    end
                end
              else
                (d1, radius_chain d1 [Call (server_call primary)]
                                  [RADIUS_PRIMARY_SERVER])
          | Throw e, _ | _, Throw e => (d1, Reject e)
          end
      end
  end.

(** ** [handleTacacs] *)

Definition tacacs_call (tacacs : jsval) : result call :=
  accounting <- get_prop tacacs "accounting" ;;
  authentication <- get_prop tacacs "authentication" ;;
  debug <- get_prop tacacs "debug" ;;
  encryption <- get_prop tacacs "encryption" ;;
  secret <- get_prop tacacs "secret" ;;
  servers <- get_prop tacacs "servers" ;;
  service <- get_prop tacacs "service" ;;
  protocol <- get_prop tacacs "protocol" ;;
  let tacacsObj :=
    [("name", JStr AUTH_SUBCLASSES_NAME);
     ("partition", JStr "Common");
     ("accounting", or_else accounting (JStr "send-to-first-server"));
     ("authentication", or_else authentication (JStr "use-first-server"));
     ("debug", enabled_if debug);
     ("encryption", JStr (match encryption with
                          | JBool false => "disabled"
                          | _ => "enabled"
                          end));
     ("secret", secret);
     ("servers", servers);
     ("service", service)] in
  Ok (mkCall CreateOrModify
        [JStr PATHS_AuthTacacs;
         JObj (if truthy protocol then assoc_set "protocol" protocol tacacsObj
               else tacacsObj)]).

Definition handleTacacs (declaration : jsval) : prog :=
  or_reject (
    tacacs <- get_path declaration ["Common"; "Authentication"; "tacacs"] ;;
    if negb (truthy tacacs) then Ok Resolve else
    c <- tacacs_call tacacs ;;
    Ok (Catch (Call c) (fun err => Resolve))).

(** ** [handleCert] *)

Definition downloads (name : string) : string :=
  "/var/config/rest/downloads/" ++ name.

(** [uploadCert(name, data)] *)
Definition upload_call (name : string) (data : jsval) : result call :=
  let path := PATHS_Uploads ++ "/" ++ name in
  dataStr <- decode_base64 data ;;
  let dataSize := Z.of_nat (String.length dataStr) in
  let reqOpts :=
    JObj [("headers",
           JObj [("Content-Type", JStr "application/octet-stream");
                 ("Content-Length", JStr (decimal dataSize));
                 ("Content-Range",
                  JStr ("0-" ++ decimal (dataSize - 1) ++ "/"
                        ++ decimal dataSize))])] in
  let opts := JObj [("silent", JBool (ends_with ".key" path))] in
  Ok (mkCall Create [JStr path; JStr dataStr; reqOpts; JUndef; opts]).

(** [createCert(name, path)] *)
Definition install_call (name path : string) : call :=
  mkCall CreateOrModify
    [JStr path;
     JObj [("name", JStr name);
           ("sourcePath", JStr ("file:" ++ downloads name))]].

(** [deleteCert(name)] *)
Definition remove_call (name : string) : call :=
  mkCall Create
    [JStr PATHS_UnixRm;
     JObj [("command", JStr "run"); ("utilCmdArgs", JStr (downloads name))]].

Definition handleCert (certName : string) (certObj : jsval)
  (certPath : string) : result prog :=
  base64 <- get_prop certObj "base64" ;;
  upload <- upload_call certName base64 ;;
  Ok (Then (Then (Call upload) (Call (install_call certName certPath)))
           (Call (remove_call certName))).

(** ** [handleLdap] *)

(** [`/${certObj.partition}/${certObj.name}`] *)
Definition getCertPath (certObj : jsval) : result jsval :=
  partition <- get_prop certObj "partition" ;;
  name <- get_prop certObj "name" ;;
  p <- to_string partition ;;
  n <- to_string name ;;
  Ok (JStr ("/" ++ p ++ "/" ++ n)).

Definition cert_path_or_none (certObj : jsval) : result jsval :=
  if truthy certObj then getCertPath certObj else Ok (JStr "none").

Definition yes_if (v : jsval) : jsval :=
  JStr (if truthy v then "yes" else "no").

Definition ldapObj (ldap : jsval) : result jsval :=
  bindDn <- get_prop ldap "bindDn" ;;
  bindPassword <- get_prop ldap "bindPassword" ;;
  bindTimeout <- get_prop ldap "bindTimeout" ;;
  checkBindPassword <- get_prop ldap "checkBindPassword" ;;
  checkRemoteRole <- get_prop ldap "checkRemoteRole" ;;
  filter <- get_prop ldap "filter" ;;
  groupDn <- get_prop ldap "groupDn" ;;
  groupMemberAttribute <- get_prop ldap "groupMemberAttribute" ;;
  idleTimeout <- get_prop ldap "idleTimeout" ;;
  ignoreAuthInfoUnavailable <- get_prop ldap "ignoreAuthInfoUnavailable" ;;
  ignoreUnknownUser <- get_prop ldap "ignoreUnknownUser" ;;
  loginAttribute <- get_prop ldap "loginAttribute" ;;
  port <- get_prop ldap "port" ;;
  searchScope <- get_prop ldap "searchScope" ;;
  searchBaseDn <- get_prop ldap "searchBaseDn" ;;
  searchTimeout <- get_prop ldap "searchTimeout" ;;
  servers <- get_prop ldap "servers" ;;
  ssl <- get_prop ldap "ssl" ;;
  sslCaCert <- get_prop ldap "sslCaCert" ;;
  sslCaCertFile <- cert_path_or_none sslCaCert ;;
  sslCheckPeer <- get_prop ldap "sslCheckPeer" ;;
  sslCiphers <- get_prop ldap "sslCiphers" ;;
  ciphers <- (if truthy sslCiphers then js_join sslCiphers ":"
              else Ok (JStr "")) ;;
  sslClientCert <- get_prop ldap "sslClientCert" ;;
  clientCert <- cert_path_or_none sslClientCert ;;
  sslClientKey <- get_prop ldap "sslClientKey" ;;
  clientKey <- cert_path_or_none sslClientKey ;;
  userTemplate <- get_prop ldap "userTemplate" ;;
  version <- get_prop ldap "version" ;;
  Ok (JObj
        [("name", JStr AUTH_SUBCLASSES_NAME);
         ("partition", JStr "Common");
         ("bindDn", or_else bindDn (JStr "none"));
         ("bindPw", or_else bindPassword (JStr "none"));
         ("bindTimeout", bindTimeout);
         ("checkHostAttr", enabled_if checkBindPassword);
         ("checkRolesGroup", enabled_if checkRemoteRole);
         ("filter", or_else filter (JStr "none"));
         ("groupDn", or_else groupDn (JStr "none"));
         ("groupMemberAttribute", or_else groupMemberAttribute (JStr "none"));
         ("idleTimeout", idleTimeout);
         ("ignoreAuthInfoUnavail", yes_if ignoreAuthInfoUnavailable);
         ("ignoreUnknownUser", enabled_if ignoreUnknownUser);
         ("loginAttribute", or_else loginAttribute (JStr "none"));
         ("port", port);
         ("scope", searchScope);
         ("searchBaseDn", or_else searchBaseDn (JStr "none"));
         ("searchTimeout", searchTimeout);
         ("servers", servers);
         ("ssl", ssl);
         ("sslCaCertFile", sslCaCertFile);
         ("sslCheckPeer", enabled_if sslCheckPeer);
         ("sslCiphers", ciphers);
         ("sslClientCert", clientCert);
         ("sslClientKey", clientKey);
         ("userTemplate", or_else userTemplate (JStr "none"));
         ("version", version)]).

(** [ldapObj.bindPw ? { silent: true } : {}] *)
Definition ldap_options (obj : jsval) : result jsval :=
  bindPw <- get_prop obj "bindPw" ;;
  Ok (if truthy bindPw then JObj [("silent", JBool true)] else JObj []).

Definition ldap_call (obj options : jsval) : call :=
  mkCall CreateOrModify [JStr PATHS_AuthLdap; obj; JUndef; JUndef; options].

(** the three places of inline material: the property of [ldap], the
    file name, and where it is installed *)
Definition ldap_certs : list (string * string * string) :=
  [("sslCaCert", "do_ldapCaCert.crt", PATHS_SSLCert);
   ("sslClientCert", "do_ldapClientCert.crt", PATHS_SSLCert);
   ("sslClientKey", "do_ldapClientCert.key", PATHS_SSLKey)].

(** [ldap.<prop> && ldap.<prop>.base64] *)
Definition has_inline (ldap : jsval) (prop : string) : result (option jsval) :=
  certObj <- get_prop ldap prop ;;
  if negb (truthy certObj) then Ok None else
  base64 <- get_prop certObj "base64" ;;
  Ok (if truthy base64 then Some certObj else None).

(** the three [if]s that fill [certPromises]: the chains started, and
    the exception that stopped the function if there is one *)
Fixpoint cert_chains (ldap : jsval) (certs : list (string * string * string))
  : list prog * option exn :=
  match certs with
  | [] => ([], None)
  | (prop, certName, certPath) :: r =>
      match has_inline ldap prop with
      | Throw e => ([], Some e)
      | Ok None => cert_chains ldap r
      | Ok (Some certObj) =>
          match handleCert certName certObj certPath with
          | Throw e => ([], Some e)
          | Ok chain => let (cs, e) := cert_chains ldap r in (chain :: cs, e)
          end
      end
  end.

Definition handleLdap (declaration : jsval) : prog :=
  or_reject (
    ldap <- get_path declaration ["Common"; "Authentication"; "ldap"] ;;
    if negb (truthy ldap) then Ok Resolve else
    obj <- ldapObj ldap ;;
    options <- ldap_options obj ;;
    Ok (match cert_chains ldap ldap_certs with
        | (certPromises, Some e) => Dropped (All certPromises) (Reject e)
        | (certPromises, None) =>
            Catch (Then (All certPromises) (Call (ldap_call obj options)))
                  (fun err => Reject err)
        end)).

(** ** [handleSource] and [handleRemoteUsersDefaults] *)

Definition handleSource (declaration : jsval) : prog :=
  or_reject (
    auth <- get_path declaration ["Common"; "Authentication"] ;;
    enabledSourceType <- get_prop auth "enabledSourceType" ;;
    fallback <- get_prop auth "fallback" ;;
    let type := match enabledSourceType with
                | JStr s => if (s =? "activeDirectory")%string
                            then JStr "active-directory"
                            else enabledSourceType
                | _ => enabledSourceType
                end in
    Ok (Call (mkCall Modify
                [JStr PATHS_AuthSource;
                 JObj [("type", type); ("fallback", fallback)]]))).

Definition handleRemoteUsersDefaults (declaration : jsval) : prog :=
  or_reject (
    auth <- get_path declaration ["Common"; "Authentication"] ;;
    authDefaults <- get_prop auth "remoteUsersDefaults" ;;
    if negb (truthy authDefaults) then Ok Resolve else
    partitionAccess <- get_prop authDefaults "partitionAccess" ;;
    role <- get_prop authDefaults "role" ;;
    terminalAccess <- get_prop authDefaults "terminalAccess" ;;
    Ok (Call (mkCall Modify
                [JStr PATHS_AuthRemoteUser;
                 JObj [("defaultPartition", partitionAccess);
                       ("defaultRole", role);
                       ("remoteConsoleAccess", terminalAccess)]]))).

(** ** [AuthHandler.process]

    The steps after [handleRadius] see the declaration as it leaves it. A
    [throw] before the promise is returned counts as its rejection. *)
Definition process (declaration : jsval) : prog :=
  or_reject (
    common <- get_prop declaration "Common" ;;
    auth <- get_prop (or_else common (JObj [])) "Authentication" ;;
    if negb (truthy auth) then Ok (handleRemoteAuthRoles declaration) else
    let (d, radius) := handleRadius declaration in
    Ok (Then (Then (Then (Then (Then (handleRemoteAuthRoles declaration)
                                     radius)
                               (handleTacacs d))
                         (handleLdap d))
                   (handleSource d))
             (handleRemoteUsersDefaults d))).

End Handler.
End AuthHandler.

(** * Sample data *)
Module Samples.
Import StateStore Promise.

(** a state with one task, on which one error was recorded *)
Definition two_errors : State :=
  fst ((addTask "a" 0 0 ;;;
        updateResult "a" 1 (JNum 500) (JStr "ERROR") (JStr "failed")
                     (JStr "first")) empty_State).

Definition is_secret (k : string) : bool :=
  (k =? "bindPassword")%string || (k =? "secret")%string.

Definition ldap_declaration : jsval :=
  JObj [("Common",
         JObj [("Authentication",
                JObj [("ldap", JObj [("bindDn", JStr "cn=admin");
                                     ("bindPassword", JStr "hunter2")]);
                      ("radius",
                       JObj [("servers",
                              JObj [("primary",
                                     JObj [("server", JStr "1.2.3.4");
                                           ("secret", JStr "s3cret")])])])])])].

(** a stand-in for [cloudUtil.versionCompare]: equal strings compare
    equal, anything else as older *)
Definition sample_versionCompare (a b : jsval) : result Z :=
  match a, b with
  | JStr x, JStr y => Ok (if (x =? y)%string then 0 else -1)
  | _, _ => Ok (-1)
  end.

(** a stand-in for [parserUtil.updateIds]: it marks what it has seen, and
    like a function that reads the properties of [config] it throws when
    there is none *)
Definition sample_updateIds (schemaClass : string) (config : jsval)
  (itemName : option string) : result jsval :=
  match config with
  | JUndef | JNull => Throw TypeError
  | JObj fs => Ok (JObj (assoc_set "migrated" (JBool true) fs))
  | _ => Ok config
  end.

Definition sample_new_State : string -> Z -> jsval -> result State :=
  new_State "1.27.0" "0" sample_versionCompare sample_updateIds ["System"].

Definition sample_updateNewIdToId : stmt jsval unit :=
  updateNewIdToId "1.27.0" "0" sample_versionCompare sample_updateIds
                  ["System"].

(** a state as a release without [tasks] persisted it *)
Definition legacy_state : jsval :=
  JObj [("result", JObj [("code", JNum 200); ("status", JStr "OK")]);
        ("internalDeclaration", JObj []);
        ("originalConfig",
         JObj [("machine-1",
                JObj [("Common",
                       JObj [("System", JObj [("hostname", JStr "bigip1")]);
                             ("VLAN",
                              JObj [("internal", JObj [("tag", JNum 4093)])])])])])].

(** the same with a field named [id] *)
Definition legacy_state_with_id : jsval :=
  JObj [("id", JStr "legacy-id"); ("result", JObj [("code", JNum 200)])].

(** ** A device and declarations for the authentication handler

    Stand-ins for the constants of [sharedConstants.js] and f5-cloud-libs,
    and for the decoding of base64: the text is taken as it is. *)
Definition sample_decode (data : jsval) : result string :=
  match data with
  | JStr s => Ok s
  | _ => Throw TypeError
  end.

Definition sample_NO_RETRY : jsval :=
  JObj [("maxRetries", JNum 0); ("retryIntervalMs", JNum 0)].

Definition sample_handleRadius : jsval -> jsval * prog :=
  AuthHandler.handleRadius "/tm/auth/radius-server" "/tm/auth/radius"
    "system_auth_name1" "system_auth_name2" "system-auth" sample_NO_RETRY.

Definition sample_handleLdap : jsval -> prog :=
  AuthHandler.handleLdap "/tm/auth/ldap" "/tm/sys/file/ssl-cert"
    "/tm/sys/file/ssl-key" "/shared/file-transfer/uploads"
    "/tm/util/unix-rm" "system-auth" sample_decode.

Definition sample_process : jsval -> prog :=
  AuthHandler.process "/tm/auth/remote-role/role-info"
    "/tm/auth/radius-server" "/tm/auth/radius" "/tm/auth/tacacs"
    "/tm/auth/ldap" "/tm/auth/source" "/tm/auth/remote-user"
    "/tm/sys/file/ssl-cert" "/tm/sys/file/ssl-key"
    "/shared/file-transfer/uploads" "/tm/util/unix-rm"
    "system_auth_name1" "system_auth_name2" "system-auth"
    sample_NO_RETRY sample_decode.

(** RADIUS with a primary server only *)
Definition radius_declaration : jsval :=
  JObj [("Common",
         JObj [("Authentication",
                JObj [("enabledSourceType", JStr "radius");
                      ("radius",
                       JObj [("serviceType", JStr "default");
                             ("servers",
                              JObj [("primary",
                                     JObj [("server", JStr "1.2.3.4");
                                           ("port", JNum 1811);
                                           ("secret", JStr "s3cret")])])])])])].

(** LDAP with an inline CA certificate *)
Definition sample_cert : jsval :=
  JObj [("partition", JStr "Common");
        ("name", JStr "do_ldapCaCert.crt");
        ("base64", JStr "Y2VydA==")].

Definition sample_ldap : jsval :=
  JObj [("bindDn", JStr "cn=admin");
        ("servers", JArr [JStr "ldap.example.com"]);
        ("sslCaCert", sample_cert)].

Definition ldap_cert_declaration : jsval :=
  JObj [("Common",
         JObj [("Authentication",
                JObj [("enabledSourceType", JStr "ldap");
                      ("ldap", sample_ldap)])])].

(** the calls of [handleLdap] on it: the upload of the certificate, and
    the upsert of the LDAP auth object *)
Definition sample_upload : call :=
  mkCall Create
    [JStr "/shared/file-transfer/uploads/do_ldapCaCert.crt";
     JStr "Y2VydA==";
     JObj [("headers",
            JObj [("Content-Type", JStr "application/octet-stream");
                  ("Content-Length", JStr "8");
                  ("Content-Range", JStr "0-7/8")])];
     JUndef;
     JObj [("silent", JBool false)]].

Definition sample_ldapObj : jsval :=
  match AuthHandler.ldapObj "system-auth" sample_ldap with
  | Ok obj => obj
  | Throw _ => JUndef
  end.

Definition sample_upsert : call :=
  AuthHandler.ldap_call "/tm/auth/ldap" sample_ldapObj
    (JObj [("silent", JBool true)]).

(** TACACS+ as the source of authentication *)
Definition sample_tacacs : jsval :=
  JObj [("secret", JStr "s3cret");
        ("servers", JArr [JStr "10.0.0.1"]);
        ("service", JStr "ppp")].

Definition tacacs_declaration : jsval :=
  JObj [("Common",
         JObj [("Authentication",
                JObj [("enabledSourceType", JStr "tacacs");
                      ("tacacs", sample_tacacs)])])].

End Samples.

(** * The accessors of a task, listed by what they write *)
Module Accessors.
Import Js StateStore.
Local Open Scope list_scope.

Definition setter : Type := string -> jsval -> stmt State unit.
Definition getter : Type := State -> string -> result jsval.

(** the setters that store [JSON.parse(JSON.stringify(v))], each with
    the getter of the same field *)
Definition snapshots : list (setter * getter) :=
  [(setCurrentConfig, getCurrentConfig);
   (setTraceCurrent, getTraceCurrent);
   (setTraceDesired, getTraceDesired);
   (setTraceDiff, getTraceDiff)].

(** the setters that store their argument as it is *)
Definition stored_as_given : list (setter * getter) :=
  [(setCode, getCode);
   (setMessage, getMessage);
   (setStatus, getStatus);
   (setRebootRequired, getRebootRequired);
   (setRequestOptions, getRequestOptions)].

(** the accessors of [this.tasks[taskId].result] *)
Definition result_accessors : list (setter * getter) :=
  [(setCode, getCode);
   (setMessage, getMessage);
   (setStatus, getStatus);
   (setErrors, getErrors)].

(** the setters of the traces of a task *)
Definition trace_setters : list setter :=
  [setTraceCurrent; setTraceDesired; setTraceDiff].

(** every setter that is keyed by a task id, with the path from the task
    to the property that it assigns *)
Definition task_setters (secret_key : string -> bool) (redaction : jsval)
  : list (setter * list string) :=
  [(setCurrentConfig, ["currentConfig"]);
   (setCode, ["result"; "code"]);
   (setMessage, ["result"; "message"]);
   (setStatus, ["result"; "status"]);
   (setErrors, ["result"; "errors"]);
   (setDeclaration secret_key redaction, ["internalDeclaration"]);
   (setRebootRequired, ["rebootRequired"]);
   (setRequestOptions, ["requestOptions"]);
   (setRollbackInfo, ["rollbackInfo"]);
   (setTraceCurrent, ["traceCurrent"]);
   (setTraceDesired, ["traceDesired"]);
   (setTraceDiff, ["traceDiff"])].

(** a task as a release without [result] left it *)
Definition bare_state : State :=
  {| originalConfig := JObj [];
     tasks := JObj [("a", JObj [("id", JStr "a"); ("lastUpdate", JDate 0)])];
     mostRecentTask := JStr "a" |}.

(** the data of a state that has a task and no original configuration *)
Definition state_without_config : jsval :=
  JObj [("tasks",
         JObj [("a", JObj [("id", JStr "a"); ("lastUpdate", JDate 0)])]);
        ("mostRecentTask", JStr "a")].

End Accessors.

(** * The calls of a promise chain

    Two more properties that can be read off the shape of a chain: every
    call it can issue is one of a kind; and it swallows no failure but
    that of an exempt call. *)
Module Shape.
Import Promise.
Local Open Scope list_scope.

Section Only.
Variable P : call -> Prop.

(** every call of the promise, now or in a callback, satisfies [P] *)
Fixpoint onlyp (p : prog) : Prop :=
  match p with
  | Resolve | Reject _ => True
  | Call c => P c
  | Then p1 k => onlyp p1 /\ onlyp k
  | Catch p1 h => onlyp p1 /\ forall e, onlyp (h e)
  | All ps =>
      (fix all (ps : list prog) : Prop :=
         match ps with
         | [] => True
         | p1 :: r => onlyp p1 /\ all r
         end) ps
  | Dropped p1 q => onlyp p1 /\ onlyp q
  end.

(** every call in flight or to come satisfies [P] *)
Fixpoint only (s : st) : Prop :=
  match s with
  | SDone _ => True
  | SCall c => P c
  | SThen s1 k => only s1 /\ onlyp k
  | SCatch s1 h => only s1 /\ forall e, onlyp (h e)
  | SAll _ ss =>
      (fix all (ss : list st) : Prop :=
         match ss with
         | [] => True
         | s1 :: r => only s1 /\ all r
         end) ss
  | SAfter s1 s2 => only s1 /\ only s2
  end.
End Only.

Section Mostly.
(** [exempt]: the calls whose failure a chain may swallow *)
Variable exempt : call -> Prop.

(** a failure is swallowed only where an exempt call is caught on its
    own; everywhere else the failure of a call rejects the promise *)
Fixpoint mostlyp (p : prog) : Prop :=
  match p with
  | Resolve | Reject _ | Call _ => True
  | Then p1 k => mostlyp p1 /\ mostlyp k
  | Catch p1 h =>
      (mostlyp p1 /\ forall e, h e = Reject e) \/
      ((exists c, p1 = Call c /\ exempt c) /\ forall e, h e = Resolve)
  | All ps =>
      (fix all (ps : list prog) : Prop :=
         match ps with
         | [] => True
         | p1 :: r => mostlyp p1 /\ all r
         end) ps
  | Dropped _ q => exists e, q = Reject e
  end.

Fixpoint mostly (s : st) : Prop :=
  match s with
  | SDone _ | SCall _ => True
  | SThen s1 k => mostly s1 /\ mostlyp k
  | SCatch s1 h =>
      (mostly s1 /\ forall e, h e = Reject e) \/
      (((exists c, s1 = SCall c /\ exempt c) \/ exists o, s1 = SDone o) /\
       forall e, h e = Resolve)
  | SAll _ ss =>
      (fix all (ss : list st) : Prop :=
         match ss with
         | [] => True
         | s1 :: r => mostly s1 /\ all r
         end) ss
  | SAfter s1 s2 =>
      (in_flight s1 = [] /\ mostly s2) \/ exists e, s2 = SDone (Rejected e)
  end.

(** what a step keeps: a failure that is not exempt rejects the promise *)
Definition mostly_step (s : st) : Prop :=
  forall n o s' ev,
    fire n o s = (s', ev) -> mostly s ->
    mostly s' /\
    forall c e, In (Settle c (Rejected e)) ev -> ~ exempt c ->
                exists e', status s' = Some (Rejected e').
End Mostly.

(** the call of an event *)
Definition call_of (e : event) : call :=
  match e with Issue c | Settle c _ => c end.

End Shape.

(** * More declarations for the authentication handler *)
Module Declarations.
Import Js.
Local Open Scope list_scope.

(** RADIUS with two servers *)
Definition radius_pair_declaration : jsval :=
  JObj [("Common",
         JObj [("Authentication",
                JObj [("enabledSourceType", JStr "radius");
                      ("radius",
                       JObj [("serviceType", JStr "default");
                             ("servers",
                              JObj [("primary",
                                     JObj [("server", JStr "1.2.3.4");
                                           ("port", JNum 1811);
                                           ("secret", JStr "s3cret")]);
                                    ("secondary",
                                     JObj [("server", JStr "1.2.3.5");
                                           ("port", JNum 1888);
                                           ("secret", JStr "s3cret2")])])])])])].

(** remote roles, and nothing about authentication *)
Definition roles_declaration : jsval :=
  JObj [("Common",
         JObj [("RemoteAuthRole",
                JObj [("admins",
                       JObj [("attribute", JStr "F5-LTM-User-Info-1=admins");
                             ("console", JStr "tmsh");
                             ("remoteAccess", JBool true);
                             ("lineOrder", JNum 1050);
                             ("role", JStr "admin");
                             ("userPartition", JStr "all")]);
                      ("guests",
                       JObj [("attribute", JStr "F5-LTM-User-Info-1=guests");
                             ("console", JStr "disabled");
                             ("remoteAccess", JBool false);
                             ("lineOrder", JNum 1060);
                             ("role", JStr "guest");
                             ("userPartition", JStr "Common")])])])].

(** LDAP without inline material, as the source of authentication *)
Definition ldap_plain_declaration : jsval :=
  JObj [("Common",
         JObj [("Authentication",
                JObj [("enabledSourceType", JStr "ldap");
                      ("fallback", JBool true);
                      ("ldap",
                       JObj [("bindDn", JStr "cn=admin");
                             ("servers", JArr [JStr "ldap.example.com"])])])])].

(** a remote role, and LDAP as the source of authentication *)
Definition role_ldap_declaration : jsval :=
  JObj [("Common",
         JObj [("RemoteAuthRole",
                JObj [("admins",
                       JObj [("attribute", JStr "F5-LTM-User-Info-1=admins");
                             ("console", JStr "tmsh");
                             ("remoteAccess", JBool true);
                             ("lineOrder", JNum 1050);
                             ("role", JStr "admin");
                             ("userPartition", JStr "all")])]);
               ("Authentication",
                JObj [("enabledSourceType", JStr "ldap");
                      ("ldap",
                       JObj [("bindDn", JStr "cn=admin");
                             ("servers", JArr [JStr "ldap.example.com"])])])])].

End Declarations.
(** * Properties of the values *)
Module JsFacts.
Local Open Scope list_scope.

Lemma bind_Ok {A B} (r : result A) (k : A -> result B) (b : B) :
  bind r k = Ok b -> exists a, r = Ok a /\ k a = Ok b.
Proof. destruct r as [a|e]; simpl; intros H; [eauto | discriminate]. Qed.

Lemma eqb_sym_false (a b : string) :
  a <> b -> (b =? a)%string = false.
Proof. intros H. apply String.eqb_neq. congruence. Qed.

(** ** Own properties *)

Lemma assoc_get_set_same k v fs : assoc_get k (assoc_set k v fs) = Some v.
Proof.
  induction fs as [|[k' v'] r IH]; simpl.
  - now rewrite String.eqb_refl.
  - destruct (String.eqb_spec k' k) as [->|Hne]; simpl.
    + now rewrite String.eqb_refl.
    + apply String.eqb_neq in Hne. now rewrite Hne.
Qed.

Lemma assoc_get_set_other k k' v fs :
  k' <> k -> assoc_get k' (assoc_set k v fs) = assoc_get k' fs.
Proof.
  intros Hne. induction fs as [|[k0 v0] r IH]; simpl.
  - now rewrite (eqb_sym_false _ _ Hne).
  - destruct (String.eqb_spec k0 k) as [->|Hne0]; simpl.
    + now rewrite !(eqb_sym_false _ _ Hne).
    + now rewrite IH.
Qed.

Lemma assoc_get_del_other k k' fs :
  k' <> k -> assoc_get k' (assoc_del k fs) = assoc_get k' fs.
Proof.
  intros Hne. induction fs as [|[k0 v0] r IH]; simpl; [reflexivity|].
  destruct (String.eqb_spec k0 k) as [->|Hne0]; simpl.
  - now rewrite (eqb_sym_false _ _ Hne).
  - now rewrite IH.
Qed.

Lemma keys_del k k' fs :
  In k' (map fst (assoc_del k fs)) <-> In k' (map fst fs) /\ k' <> k.
Proof.
  induction fs as [|[k0 v0] r IH]; simpl; [tauto|].
  destruct (String.eqb_spec k0 k) as [->|Hne0]; simpl.
  - rewrite IH. split; [tauto|]. intros [[<-|H] Hne]; [congruence | tauto].
  - rewrite IH. split; [|tauto]. intros [<-|H]; tauto.
Qed.

Lemma keys_set_present k v fs :
  assoc_get k fs <> None -> map fst (assoc_set k v fs) = map fst fs.
Proof.
  induction fs as [|[k0 v0] r IH]; simpl; [congruence|].
  destruct (String.eqb_spec k0 k) as [->|Hne0]; simpl; [reflexivity|].
  intros H. now rewrite IH.
Qed.

Lemma assoc_get_In k v fs : assoc_get k fs = Some v -> In k (map fst fs).
Proof.
  induction fs as [|[k0 v0] r IH]; simpl; [discriminate|].
  destruct (String.eqb_spec k0 k) as [->|Hne0]; auto.
Qed.

Lemma In_assoc_get k fs : In k (map fst fs) -> exists v, assoc_get k fs = Some v.
Proof.
  induction fs as [|[k0 v0] r IH]; simpl; [tauto|].
  destruct (String.eqb_spec k0 k) as [->|Hne0]; [eauto|].
  intros [H|H]; [congruence | auto].
Qed.

(** ** Indices *)

Lemma index_of_key_sound k i : index_of_key k = Some i -> key_of_index i = k.
Proof.
  unfold index_of_key. destruct (NilZero.uint_of_string k) as [u|]; [|discriminate].
  destruct (String.eqb_spec (key_of_index (Nat.of_uint u)) k) as [E|]; [|discriminate].
  intros [= <-]. exact E.
Qed.

Lemma nth_error_replace_same i v l :
  (i < List.length l)%nat -> nth_error (replace_nth i v l) i = Some v.
Proof.
  revert i. induction l as [|x r IH]; intros [|i] H; simpl in *; try lia; auto.
  apply IH. lia.
Qed.

Lemma nth_error_replace_other i j v l :
  i <> j -> nth_error (replace_nth i v l) j = nth_error l j.
Proof.
  revert i j. induction l as [|x r IH]; intros [|i] [|j] H; simpl; auto;
    try congruence.
Qed.

Lemma length_replace_nth i v l :
  List.length (replace_nth i v l) = List.length l.
Proof.
  revert i. induction l as [|x r IH]; intros [|i]; simpl; auto.
Qed.

(** ** Reading after writing *)

(** a property that is not the value's own reads as [undefined] when the
    read is modelled *)
Lemma not_own_Ok k v : not_own k = Ok v -> v = JUndef.
Proof. unfold not_own. destruct (inherited k); now intros [= <-]. Qed.

Lemma get_set_same base k v base' :
  set_prop base k v = Ok base' -> get_prop base' k = Ok v.
Proof.
  destruct base; simpl; try discriminate.
  - destruct (index_of_key k) as [i|] eqn:Ei; [|discriminate].
    destruct (Nat.ltb_spec i (List.length l)); [|discriminate].
    intros [= <-]. simpl.
    destruct (String.eqb_spec k "length") as [->|_]; [discriminate Ei|].
    rewrite Ei, nth_error_replace_same; auto.
  - destruct (k =? "__proto__")%string; [discriminate|].
    intros [= <-]. simpl. now rewrite assoc_get_set_same.
Qed.

Lemma get_set_other base k v base' k' :
  set_prop base k v = Ok base' -> k' <> k ->
  get_prop base' k' = get_prop base k'.
Proof.
  destruct base; simpl; try discriminate.
  - destruct (index_of_key k) as [i|] eqn:Ei; [|discriminate].
    destruct (Nat.ltb_spec i (List.length l)); [|discriminate].
    intros [= <-] Hne. simpl. unfold zlength.
    rewrite length_replace_nth.
    destruct (k' =? "length")%string; [reflexivity|].
    destruct (index_of_key k') as [j|] eqn:Ej; [|reflexivity].
    rewrite nth_error_replace_other; [reflexivity|].
    intros ->. apply index_of_key_sound in Ei, Ej. congruence.
  - destruct (k =? "__proto__")%string; [discriminate|].
    intros [= <-] Hne. simpl. now rewrite assoc_get_set_other.
Qed.

Lemma get_del_other base k base' k' :
  del_prop base k = Ok base' -> k' <> k ->
  get_prop base' k' = get_prop base k'.
Proof.
  destruct base; simpl; try discriminate; try (now intros [= <-]).
  intros [= <-] Hne. simpl. now rewrite assoc_get_del_other.
Qed.

(** a write keeps the list of keys when the property is already there *)
Lemma keys_set_prop base k v base' x :
  set_prop base k v = Ok base' -> get_prop base k = Ok x -> x <> JUndef ->
  object_keys base' = object_keys base.
Proof.
  destruct base; simpl; try discriminate.
  - destruct (index_of_key k) as [i|] eqn:Ei; [|discriminate].
    destruct (Nat.ltb_spec i (List.length l)); [|discriminate].
    intros [= <-] _ _. simpl. now rewrite length_replace_nth.
  - destruct (k =? "__proto__")%string; [discriminate|].
    intros [= <-]. simpl. intros H Hx.
    rewrite keys_set_present; [reflexivity|].
    destruct (assoc_get k fs); [congruence|].
    apply not_own_Ok in H. congruence.
Qed.

(** ** Paths *)

Lemma get_path_app base p q :
  get_path base (p ++ q) = (x <- get_path base p ;; get_path x q).
Proof.
  revert base. induction p as [|k r IH]; intros base; simpl; [reflexivity|].
  destruct (get_prop base k); simpl; auto.
Qed.

(** what a write leaves at the place it writes *)
Lemma get_path_set_path_same base p k v base' :
  set_path base p k v = Ok base' -> get_path base' (p ++ [k]) = Ok v.
Proof.
  revert base base'. induction p as [|k1 r IH]; intros base base'; simpl.
  - intros H. now rewrite (get_set_same _ _ _ _ H).
  - intros H. apply bind_Ok in H as (x & Hx & H).
    apply bind_Ok in H as (x' & Hx' & H).
    rewrite (get_set_same _ _ _ _ H). simpl. eauto.
Qed.

(** a write leaves alone every path that leaves its own at some key *)
Lemma get_path_set_path_other base p k v base' r a b rest q :
  set_path base p k v = Ok base' ->
  p ++ [k] = r ++ b :: rest -> a <> b ->
  get_path base' (r ++ a :: q) = get_path base (r ++ a :: q).
Proof.
  revert base base' p. induction r as [|c r IH]; intros base base' p H E Hne.
  - simpl in *. destruct p as [|k1 p]; simpl in *.
    + injection E as -> _. now rewrite (get_set_other _ _ _ _ _ H Hne).
    + injection E as -> _.
      apply bind_Ok in H as (x & Hx & H).
      apply bind_Ok in H as (x' & Hx' & H).
      now rewrite (get_set_other _ _ _ _ _ H Hne).
  - destruct p as [|k1 p]; simpl in E.
    + injection E as _ E. destruct r; discriminate.
    + injection E as -> E. simpl in H |- *.
      apply bind_Ok in H as (x & Hx & H).
      apply bind_Ok in H as (x' & Hx' & H).
      rewrite (get_set_same _ _ _ _ H), Hx. simpl. eauto.
Qed.

End JsFacts.

(** * Properties of statements *)
Module StmtFacts.

Lemma sbind_Ok {S A B} (m : stmt S A) (k : A -> stmt S B) s s' b :
  sbind m k s = (s', Ok b) ->
  exists a s1, m s = (s1, Ok a) /\ k a s1 = (s', Ok b).
Proof.
  unfold sbind. destruct (m s) as [s1 [a|e]]; intros H; [eauto | discriminate].
Qed.

Lemma eval_run {S A} (f : S -> result A) s s' r :
  eval f s = (s', r) -> s' = s /\ r = f s.
Proof. unfold eval. now intros [= <- <-]. Qed.

Lemma write_Ok {S} (f : S -> result S) s s' u :
  write f s = (s', Ok u) -> f s = Ok s'.
Proof. unfold write. destruct (f s); now intros [= <-]. Qed.

Lemma sret_run {S A} (a : A) (s s' : S) r :
  sret a s = (s', r) -> s' = s /\ r = Ok a.
Proof. unfold sret. now intros [= <- <-]. Qed.

(** ** Properties kept by every write of a statement *)

Lemma preserves_sret {S A} (I : S -> Prop) (a : A) : preserves I (sret a).
Proof. intros s s' r H. now apply sret_run in H as [-> _]. Qed.

Lemma preserves_eval {S A} (I : S -> Prop) (f : S -> result A) :
  preserves I (eval f).
Proof. intros s s' r H. now apply eval_run in H as [-> _]. Qed.

Lemma preserves_write {S} (I : S -> Prop) (f : S -> result S) :
  (forall s s', f s = Ok s' -> I s -> I s') -> preserves I (write f).
Proof.
  intros Hf s s' r. unfold write. destruct (f s) eqn:E; intros [= <- <-]; eauto.
Qed.

Lemma preserves_sbind {S A B} (I : S -> Prop) (m : stmt S A)
  (k : A -> stmt S B) :
  preserves I m -> (forall a, preserves I (k a)) -> preserves I (sbind m k).
Proof.
  intros Hm Hk s s' r. unfold sbind.
  destruct (m s) as [s1 [a|e]] eqn:E.
  - intros H Hs. eapply Hk; eauto.
  - intros [= <- <-] Hs. eauto.
Qed.

Lemma preserves_when {S} (I : S -> Prop) (c : bool) (m : stmt S unit) :
  preserves I m -> preserves I (when c m).
Proof. destruct c; simpl; auto using preserves_sret. Qed.

Lemma preserves_for_each {S} (I : S -> Prop) keys (body : string -> stmt S unit) :
  (forall k, preserves I (body k)) -> preserves I (for_each keys body).
Proof.
  intros Hb. induction keys as [|k r IH]; simpl.
  - apply preserves_sret.
  - apply preserves_sbind; auto.
Qed.

(** a loop whose every turn changes nothing and succeeds *)
Lemma for_each_skip {S} keys (body : string -> stmt S unit) s :
  (forall k, In k keys -> body k s = (s, Ok tt)) ->
  for_each keys body s = (s, Ok tt).
Proof.
  induction keys as [|k r IH]; simpl; intros H; [reflexivity|].
  unfold sbind. rewrite (H k (or_introl eq_refl)). apply IH. auto.
Qed.

End StmtFacts.

(** * Properties of the task store *)
Module StateFacts.
Import StateStore JsFacts StmtFacts Samples.
Local Open Scope list_scope.

(** ** Dates that went through JSON *)

Lemma chars_app a b : chars (a ++ b)%string = chars a ++ chars b.
Proof. induction a as [|c a IH]; simpl; [reflexivity | now rewrite IH]. Qed.

Lemma string_to_number_NaN s :
  existsb not_numeric (chars s) = true -> string_to_number s = Ok None.
Proof. unfold string_to_number. now intros ->. Qed.

(** an ISO date is not a numeric literal: [ToNumber] gives [NaN] *)
Lemma iso_string_is_NaN ms :
  to_number (JStr (toISOString_valid ms)) = Ok None.
Proof.
  apply string_to_number_NaN. unfold toISOString_valid.
  destruct (civil_from_days (ms / ms_per_day)) as [[y m] d].
  rewrite !chars_app, !existsb_app.
  change (chars (String "T" ?r)) with ("T"%char :: chars r).
  cbn [existsb].
  replace (not_numeric "T") with true by reflexivity.
  cbn [orb]. now rewrite !orb_true_r.
Qed.

Lemma jsonified_date_never_old now ms :
  valid_time ms = true ->
  difference_exceeds (JDate now) (date_toJSON ms) maxAge = Ok false.
Proof.
  intros Hv. unfold date_toJSON. rewrite Hv.
  unfold difference_exceeds. rewrite iso_string_is_NaN. reflexivity.
Qed.

(** ** [cleanupOldTasks] *)

Lemma cleanupOldTasks_unfold now ts :
  cleanupOldTasks now ts =
  match object_keys ts with
  | Ok keys => for_each keys (cleanup_body now) ts
  | Throw e => (ts, Throw e)
  end.
Proof.
  unfold cleanupOldTasks, sbind, eval. destruct (object_keys ts); reflexivity.
Qed.

(** one turn of the loop, when it does not throw: the task is deleted
    exactly when it is found old *)
Lemma cleanup_body_Ok now k ts ts' :
  cleanup_body now k ts = (ts', Ok tt) ->
  exists old,
    (lastUpdate <- get_path ts [k; "lastUpdate"] ;;
     difference_exceeds (JDate now) lastUpdate maxAge) = Ok old /\
    (if old then del_prop ts k = Ok ts' else ts' = ts).
Proof.
  unfold cleanup_body. intros H.
  apply sbind_Ok in H as (old & s1 & H1 & H2).
  apply eval_run in H1 as [-> H1]. exists old. split; [auto|].
  destruct old; simpl in H2.
  - now apply write_Ok in H2.
  - now apply sret_run in H2 as [-> _].
Qed.

(** a task that is not found old is still there after the loop *)
Lemma cleanup_keeps now keys : forall ts ts' k task lastUpdate,
  for_each keys (cleanup_body now) ts = (ts', Ok tt) ->
  get_prop ts k = Ok task ->
  get_prop task "lastUpdate" = Ok lastUpdate ->
  difference_exceeds (JDate now) lastUpdate maxAge = Ok false ->
  get_prop ts' k = Ok task.
Proof.
  induction keys as [|k0 r IH]; simpl; intros ts ts' k task lu H Hk Hlu Hd.
  - apply sret_run in H as [-> _]. exact Hk.
  - apply sbind_Ok in H as ([] & ts1 & H1 & H2).
    apply cleanup_body_Ok in H1 as (old & Hold & Hts1).
    eapply IH; eauto.
    destruct old; [|now subst].
    destruct (String.eqb_spec k k0) as [->|Hne].
    + simpl in Hold. rewrite Hk in Hold. simpl in Hold.
      rewrite Hlu in Hold. simpl in Hold. congruence.
    + now rewrite (get_del_other _ _ _ _ Hts1 Hne).
Qed.

(** a task that is gone stays gone *)
Lemma cleanup_absent now keys : forall ts ts' k,
  for_each keys (cleanup_body now) ts = (ts', Ok tt) ->
  (exists fs, ts = JObj fs /\ ~ In k (map fst fs)) ->
  exists fs', ts' = JObj fs' /\ ~ In k (map fst fs').
Proof.
  induction keys as [|k0 r IH]; simpl; intros ts ts' k H Habs.
  - apply sret_run in H as [-> _]. exact Habs.
  - apply sbind_Ok in H as ([] & ts1 & H1 & H2).
    apply cleanup_body_Ok in H1 as (old & Hold & Hts1).
    eapply IH; eauto.
    destruct old; [|now subst].
    destruct Habs as (fs & -> & Hn). simpl in Hts1. injection Hts1 as <-.
    eexists; split; [reflexivity|]. rewrite keys_del. tauto.
Qed.

(** a task that is found old is gone after the loop has met it *)
Lemma cleanup_purges now keys : forall ts ts' k lastUpdate,
  for_each keys (cleanup_body now) ts = (ts', Ok tt) ->
  In k keys ->
  get_path ts [k; "lastUpdate"] = Ok lastUpdate ->
  difference_exceeds (JDate now) lastUpdate maxAge = Ok true ->
  exists fs', ts' = JObj fs' /\ ~ In k (map fst fs').
Proof.
  induction keys as [|k0 r IH]; intros ts ts' k lu H Hin Hlu Hd;
    [destruct Hin|].
  simpl in H, Hin.
  apply sbind_Ok in H as ([] & ts1 & H1 & H2).
  apply cleanup_body_Ok in H1 as (old & Hold & Hts1).
  destruct (String.eqb_spec k0 k) as [->|Hne].
  - rewrite Hlu in Hold. simpl in Hold. rewrite Hd in Hold.
    injection Hold as <-.
    eapply cleanup_absent; eauto.
    destruct ts; simpl in Hts1; try discriminate;
      try (injection Hts1 as <-; simpl in Hlu; unfold not_own in Hlu;
           destruct (inherited k); discriminate).
    injection Hts1 as <-. eexists; split; [reflexivity|].
    rewrite keys_del. tauto.
  - destruct Hin as [?|Hin]; [congruence|].
    eapply IH; eauto.
    destruct old; [|now subst].
    simpl in Hlu |- *. rewrite (get_del_other _ _ _ _ Hts1); auto.
Qed.

(** ** [addTask] *)

Lemma addTask_Ok taskId created now s s' id :
  addTask taskId created now s = (s', Ok id) ->
  exists ts1 keys,
    set_prop (tasks s) taskId (new_task taskId created) = Ok ts1 /\
    object_keys ts1 = Ok keys /\
    for_each keys (cleanup_body now) ts1 = (tasks s', Ok tt) /\
    mostRecentTask s' = JStr taskId /\
    originalConfig s' = originalConfig s /\
    id = taskId.
Proof.
  unfold addTask. intros H.
  apply sbind_Ok in H as ([] & s1 & H1 & H).
  apply sbind_Ok in H as ([] & s2 & H2 & H).
  apply sbind_Ok in H as ([] & s3 & H3 & H).
  apply sret_run in H as [-> [= <-]].
  unfold on_tasks in H1.
  destruct (write _ (tasks s)) as [ts1 r1] eqn:E1. injection H1 as <- ->.
  apply write_Ok in E1.
  apply write_Ok in H2. injection H2 as <-.
  unfold on_tasks in H3. simpl in H3.
  rewrite cleanupOldTasks_unfold in H3.
  destruct (object_keys ts1) as [keys|e] eqn:Ek; [|discriminate].
  destruct (for_each keys (cleanup_body now) ts1) as [ts3 r3] eqn:E3.
  injection H3 as <- ->. simpl.
  exists ts1, keys. repeat split; auto.
Qed.

Lemma new_task_not_old taskId created now :
  now - created <= maxAge ->
  get_prop (new_task taskId created) "lastUpdate" = Ok (JDate created) /\
  difference_exceeds (JDate now) (JDate created) maxAge = Ok false.
Proof.
  intros H. split; [reflexivity|]. unfold difference_exceeds. simpl.
  f_equal. apply Z.ltb_ge. exact H.
Qed.

Lemma get_field_of p s taskId task :
  getTask s taskId = Ok task -> truthy task = true ->
  get_field p s taskId = get_path task p.
Proof.
  unfold get_field, task_of, getTask. intros -> Ht. simpl. now rewrite Ht.
Qed.

(** C10: when [addTask] returns, the id it returns is that of the most
    recent task, and the task table holds under that id a task with an
    empty result, an empty declaration and the time of its creation: the
    purge that [addTask] runs does not remove the task it has just added
    (the clock does not move by more than the retention between the two
    times it is read). *)
Theorem addTask_records_new_task s taskId created now s' id :
  addTask taskId created now s = (s', Ok id) ->
  now - created <= maxAge ->
  id = taskId /\
  mostRecentTask s' = JStr id /\
  getTask s' id = Ok (new_task id created) /\
  get_field ["result"] s' id = Ok (JObj []) /\
  getDeclaration s' id = Ok (JObj []) /\
  getLastUpdate s' id = Ok (JDate created).
Proof.
  intros H Hclock.
  apply addTask_Ok in H as (ts1 & keys & Hset & Hkeys & Hloop & Hm & _ & ->).
  destruct (new_task_not_old taskId created now Hclock) as [Hlu Hd].
  assert (Hget : getTask s' taskId = Ok (new_task taskId created)).
  { unfold getTask. eapply cleanup_keeps; eauto using get_set_same. }
  repeat split; auto.
  - now rewrite (get_field_of _ _ _ _ Hget).
  - unfold getDeclaration. now rewrite (get_field_of _ _ _ _ Hget).
  - unfold getLastUpdate. now rewrite (get_field_of _ _ _ _ Hget).
Qed.

Lemma addTask_records_new_task_witness :
  mostRecentTask (fst (addTask "a" 5 6 empty_State)) = JStr "a" /\
  getTask (fst (addTask "a" 5 6 empty_State)) "a" = Ok (new_task "a" 5).
Proof.
  destruct (addTask_records_new_task empty_State "a" 5 6
              (fst (addTask "a" 5 6 empty_State)) "a")
    as (_ & Hm & Hg & _); [reflexivity | unfold maxAge; simpl; lia |].
  split; assumption.
Defined.

(** ** Retention *)

(** a property that holds a dated task is one of the keys *)
Lemma dated_task_is_key base k task lastUpdate keys :
  get_prop base k = Ok task ->
  get_prop task "lastUpdate" = Ok (JDate lastUpdate) ->
  object_keys base = Ok keys ->
  In k keys.
Proof.
  destruct base; simpl; try discriminate;
    try (intros ->%not_own_Ok; discriminate).
  - destruct (k =? "length")%string; [intros [= <-]; discriminate|].
    destruct (index_of_key k) as [i|]; [|intros ->%not_own_Ok; discriminate].
    destruct (nth_error (chars s) i); intros [= <-]; discriminate.
  - destruct (k =? "length")%string; [intros [= <-]; discriminate|].
    destruct (index_of_key k) as [i|] eqn:Ei;
      [|intros ->%not_own_Ok; discriminate].
    destruct (nth_error l i) eqn:En; [|intros [= <-]; discriminate].
    intros _ _ [= <-]. apply index_of_key_sound in Ei. subst k.
    apply in_map, in_seq.
    assert (nth_error l i <> None) as H%nth_error_Some by congruence. lia.
  - destruct (assoc_get k fs) eqn:Ek; [|intros ->%not_own_Ok; discriminate].
    intros _ _ [= <-]. eapply assoc_get_In; eauto.
Qed.

(** a task whose [lastUpdate] is a [Date] more than the retention before
    the time of the purge is gone when [addTask] returns *)
Lemma addTask_purges_dated s taskId created now s' id k task lastUpdate :
  addTask taskId created now s = (s', Ok id) ->
  k <> taskId ->
  getTask s k = Ok task ->
  get_prop task "lastUpdate" = Ok (JDate lastUpdate) ->
  now - lastUpdate > maxAge ->
  exists ids, getTaskIds s' = Ok ids /\ ~ In k ids.
Proof.
  intros H Hk Hget Hlu Hold.
  apply addTask_Ok in H as (ts1 & keys & Hset & Hkeys & Hloop & _).
  assert (Hget1 : get_prop ts1 k = Ok task).
  { rewrite (get_set_other _ _ _ _ _ Hset Hk). exact Hget. }
  destruct (cleanup_purges now keys ts1 (tasks s') k (JDate lastUpdate))
    as (fs' & E & Hn); auto.
  - eapply dated_task_is_key; eauto.
  - simpl. rewrite Hget1. simpl. rewrite Hlu. reflexivity.
  - unfold difference_exceeds. simpl. f_equal. apply Z.ltb_lt. lia.
  - unfold getTaskIds. rewrite E. simpl. eauto.
Qed.

(** a task whose [lastUpdate] is a [Date] within the retention is kept *)
Lemma addTask_retains_recent s taskId created now s' id k task lastUpdate :
  addTask taskId created now s = (s', Ok id) ->
  k <> taskId ->
  getTask s k = Ok task ->
  get_prop task "lastUpdate" = Ok (JDate lastUpdate) ->
  now - lastUpdate <= maxAge ->
  getTask s' k = Ok task.
Proof.
  intros H Hk Hget Hlu Hrecent.
  apply addTask_Ok in H as (ts1 & keys & Hset & Hkeys & Hloop & _).
  unfold getTask. eapply cleanup_keeps; eauto.
  - rewrite (get_set_other _ _ _ _ _ Hset Hk). exact Hget.
  - unfold difference_exceeds. simpl. f_equal. apply Z.ltb_ge. lia.
Qed.

(** but a task whose [lastUpdate] went through JSON, as that of every task
    of a state built from persisted data, is kept however old it is *)
Lemma addTask_keeps_json_dated s taskId created now s' id k task ms :
  addTask taskId created now s = (s', Ok id) ->
  k <> taskId ->
  getTask s k = Ok task ->
  get_prop task "lastUpdate" = Ok (date_toJSON ms) ->
  valid_time ms = true ->
  getTask s' k = Ok task.
Proof.
  intros H Hk Hget Hlu Hv.
  apply addTask_Ok in H as (ts1 & keys & Hset & Hkeys & Hloop & _).
  unfold getTask. eapply cleanup_keeps; eauto.
  - rewrite (get_set_other _ _ _ _ _ Hset Hk). exact Hget.
  - now apply jsonified_date_never_old.
Qed.

(** C1: a task is added at time 0, the state is persisted and loaded
    again, and eight days later another task is added. The first task is
    still listed, although a state that stayed in memory drops it: its
    [lastUpdate] came back from JSON as a string, and [now - lastUpdate] is
    [NaN]. *)
Theorem stale_task_survives_reload :
  let s1 := fst (addTask "a" 0 0 empty_State) in
  let now := 8 * 24 * 3600 * 1000 in
  exists persisted s2,
    json_copy (state_data s1) = Ok persisted /\
    new_State "1.27.0" "0" (fun _ _ => Ok 0) (fun _ v _ => Ok v) []
              "unused" now persisted = Ok s2 /\
    getLastUpdate s1 "a" = Ok (JDate 0) /\
    getLastUpdate s2 "a" = Ok (JStr "1970-01-01T00:00:00.000Z") /\
    now - 0 > maxAge /\
    addTask "b" now now s1 = (fst (addTask "b" now now s1), Ok "b") /\
    getTaskIds (fst (addTask "b" now now s1)) = Ok ["b"] /\
    addTask "b" now now s2 = (fst (addTask "b" now now s2), Ok "b") /\
    getTaskIds (fst (addTask "b" now now s2)) = Ok ["a"; "b"].
Proof.
  cbv zeta. eexists. eexists.
  split; [reflexivity|]. split; [vm_compute; reflexivity|].
  repeat split.
Qed.

(** ** Unknown task ids *)

Section Unknown.
Variable s : State.
Variable taskId : string.
Hypothesis Hunknown : getTask s taskId = Ok JUndef.

Lemma task_of_unknown : task_of s taskId = Throw TaskIdDoesNotExist.
Proof. unfold task_of. unfold getTask in Hunknown. now rewrite Hunknown. Qed.

Lemma get_field_unknown p : get_field p s taskId = Throw TaskIdDoesNotExist.
Proof. unfold get_field. now rewrite task_of_unknown. Qed.

Lemma set_field_unknown p k v :
  set_field p k taskId v s = (s, Throw TaskIdDoesNotExist).
Proof. unfold set_field, sbind, eval. now rewrite task_of_unknown. Qed.
End Unknown.

(** C2, as the code has it: for a task id that the task table does not
    hold, every accessor of a task field throws ['taskId does not exist']
    and leaves the state as it is, except that [getTask] returns
    [undefined] and that [setRollbackInfo] throws only when it is given
    rollback information. *)
Theorem unknown_task_accessors_throw s taskId
  (Hunknown : getTask s taskId = Ok JUndef) :
  let missing {A} : result A := Throw TaskIdDoesNotExist in
  (forall v, setCurrentConfig taskId v s = (s, missing)) /\
  getCurrentConfig s taskId = missing /\
  getOriginalConfigByTaskId s taskId = missing /\
  (forall v, setCode taskId v s = (s, missing)) /\
  getCode s taskId = missing /\
  (forall v, setMessage taskId v s = (s, missing)) /\
  getMessage s taskId = missing /\
  (forall v, setStatus taskId v s = (s, missing)) /\
  getStatus s taskId = missing /\
  (forall v, setErrors taskId v s = (s, missing)) /\
  getErrors s taskId = missing /\
  (forall secret_key redaction v,
      setDeclaration secret_key redaction taskId v s = (s, missing)) /\
  getDeclaration s taskId = missing /\
  (forall v, setRebootRequired taskId v s = (s, missing)) /\
  getRebootRequired s taskId = missing /\
  (forall v, setRequestOptions taskId v s = (s, missing)) /\
  getRequestOptions s taskId = missing /\
  (forall v, truthy v = true -> setRollbackInfo taskId v s = (s, missing)) /\
  (forall v, truthy v = false -> setRollbackInfo taskId v s = (s, Ok tt)) /\
  getRollbackInfo s taskId = missing /\
  (forall v, setTraceCurrent taskId v s = (s, missing)) /\
  getTraceCurrent s taskId = missing /\
  (forall v, setTraceDesired taskId v s = (s, missing)) /\
  getTraceDesired s taskId = missing /\
  (forall v, setTraceDiff taskId v s = (s, missing)) /\
  getTraceDiff s taskId = missing /\
  hasTrace s taskId = missing /\
  getLastUpdate s taskId = missing /\
  (forall now code status message errors,
      updateResult taskId now code status message errors s = (s, missing)).
Proof.
  cbv zeta.
  repeat match goal with |- _ /\ _ => split end;
    intros;
    try (apply get_field_unknown; assumption);
    try (apply set_field_unknown; assumption).
  - unfold setErrors, sbind, eval. now rewrite task_of_unknown.
  - unfold setRollbackInfo. rewrite H. apply set_field_unknown; assumption.
  - unfold setRollbackInfo. now rewrite H.
  - unfold hasTrace, getTraceCurrent. now rewrite get_field_unknown.
  - unfold updateResult, sbind, eval. now rewrite task_of_unknown.
Qed.

Lemma unknown_task_accessors_throw_witness :
  getCode empty_State "nope" = Throw TaskIdDoesNotExist /\
  setCode "nope" (JNum 200) empty_State
  = (empty_State, Throw TaskIdDoesNotExist).
Proof.
  pose proof (unknown_task_accessors_throw empty_State "nope" eq_refl) as H.
  cbv zeta in H. split; [apply H | apply H].
Defined.

(** C2 as stated fails: for an id that the table does not hold, [getTask]
    returns [undefined], and [setRollbackInfo] without rollback
    information returns without a word. *)
Lemma unknown_task_not_always_refused :
  getTaskIds empty_State = Ok [] /\
  getTask empty_State "nope" = Ok JUndef /\
  setRollbackInfo "nope" JUndef empty_State = (empty_State, Ok tt) /\
  ~ (forall s taskId, getTask s taskId = Ok JUndef ->
       (exists e, getTask s taskId = Throw e) /\
       (forall v, exists e, snd (setRollbackInfo taskId v s) = Throw e)).
Proof.
  repeat split. intros H.
  destruct (H empty_State "nope" eq_refl) as [[e He] _]. discriminate.
Qed.

(** ** Errors *)

Lemma when_Ok {S} c (m : stmt S unit) s s' :
  when c m s = (s', Ok tt) ->
  if c then m s = (s', Ok tt) else s' = s.
Proof. destruct c; simpl; auto. intros H. now apply sret_run in H as [-> _]. Qed.

Lemma on_tasks_Ok {A} (m : stmt jsval A) s s' a :
  on_tasks m s = (s', Ok a) ->
  exists ts', m (tasks s) = (ts', Ok a) /\ s' = with_tasks s ts'.
Proof.
  unfold on_tasks. destruct (m (tasks s)) as [ts' r]. intros [= <- ->]. eauto.
Qed.

(** a guarded write to another property of the result leaves the errors *)
Lemma result_write_keeps_errors c taskId k v ts ts' x :
  when c (write (fun ts => set_path ts [taskId; "result"] k v)) ts
  = (ts', Ok tt) ->
  k <> "errors" ->
  get_path ts [taskId; "result"; "errors"] = Ok x ->
  get_path ts' [taskId; "result"; "errors"] = Ok x.
Proof.
  intros H Hk Hx. apply when_Ok in H. destruct c; [|now subst].
  apply write_Ok in H.
  rewrite <- Hx.
  apply (get_path_set_path_other _ _ _ _ _ [taskId; "result"] "errors" k [] []
           H eq_refl).
  congruence.
Qed.

Lemma task_with_errors_is_truthy task l :
  get_path task ["result"; "errors"] = Ok (JArr l) -> truthy task = true.
Proof.
  destruct task; simpl; try discriminate; auto.
Qed.

Lemma getErrors_of_path s taskId l :
  get_path (tasks s) [taskId; "result"; "errors"] = Ok (JArr l) ->
  getErrors s taskId = Ok (JArr l).
Proof.
  intros H. simpl in H. apply bind_Ok in H as (t & Ht & H).
  unfold getErrors. rewrite (get_field_of _ _ _ t); auto.
  apply (task_with_errors_is_truthy t l). exact H.
Qed.

Theorem updateResult_accumulates
  s taskId now code status message errors s' old :
  updateResult taskId now code status message errors s = (s', Ok tt) ->
  getErrors s taskId = Ok (JArr old) ->
  getErrors s' taskId = Ok (JArr (old ++ recorded errors)).
Proof.
  unfold updateResult. intros H Hold.
  apply sbind_Ok in H as (t & s0 & H0 & H).
  apply eval_run in H0 as [-> H0]. symmetry in H0.
  assert (Hp : get_path (tasks s) [taskId; "result"; "errors"] = Ok (JArr old)).
  { unfold getErrors, get_field in Hold. rewrite H0 in Hold. simpl in Hold.
    unfold task_of in H0. apply bind_Ok in H0 as (t' & Ht' & H0).
    simpl. rewrite Ht'. destruct (truthy t'); [|discriminate].
    injection H0 as ->. exact Hold. }
  apply on_tasks_Ok in H as (ts' & H & ->).
  apply sbind_Ok in H as ([] & ts1 & H1 & H).
  apply write_Ok in H1.
  apply sbind_Ok in H as ([] & ts2 & H2 & H).
  apply sbind_Ok in H as ([] & ts3 & H3 & H).
  apply sbind_Ok in H as ([] & ts4 & H4 & H).
  assert (Hp1 : get_path ts1 [taskId; "result"; "errors"] = Ok (JArr old)).
  { rewrite <- Hp.
    apply (get_path_set_path_other _ _ _ _ _ [taskId] "result" "lastUpdate"
             [] ["errors"] H1 eq_refl). discriminate. }
  eapply result_write_keeps_errors in H2; [|discriminate|exact Hp1].
  eapply result_write_keeps_errors in H3; [|discriminate|exact H2].
  eapply result_write_keeps_errors in H4; [|discriminate|exact H3].
  apply getErrors_of_path. simpl tasks.
  apply when_Ok in H. unfold recorded.
  destruct (truthy errors) eqn:Et; [|subst ts'; now rewrite app_nil_r].
  apply sbind_Ok in H as (old0 & ts5 & H5 & H).
  apply eval_run in H5 as [-> H5]. rewrite H4 in H5. injection H5 as ->.
  apply sbind_Ok in H as ([] & ts6 & H6 & H).
  simpl in H6. apply sret_run in H6 as [-> _].
  apply sbind_Ok in H as (cur & ts7 & H7 & H).
  apply eval_run in H7 as [-> H7]. rewrite H4 in H7. injection H7 as ->.
  apply sbind_Ok in H as (new & ts8 & H8 & H).
  apply eval_run in H8 as [-> H8].
  apply write_Ok in H.
  apply (get_path_set_path_same _ [taskId; "result"] "errors") in H.
  simpl app in H. rewrite H. f_equal.
  destruct errors; simpl in H8; congruence.
Qed.

Lemma set_prop_truthy base k v base' :
  set_prop base k v = Ok base' -> truthy base' = true.
Proof.
  destruct base; simpl; try discriminate.
  - destruct (index_of_key k); [|discriminate].
    destruct (_ <? _)%nat; [|discriminate]. now intros [= <-].
  - destruct (k =? "__proto__")%string; [discriminate|]. now intros [= <-].
Qed.

(** what [set_field] leaves when it returns *)
Lemma set_field_Ok p k taskId v s s' :
  set_field p k taskId v s = (s', Ok tt) ->
  exists x ts',
    v = Ok x /\ set_path (tasks s) (taskId :: p) k x = Ok ts' /\
    s' = with_tasks s ts'.
Proof.
  unfold set_field. intros H.
  apply sbind_Ok in H as (t & s0 & H0 & H).
  apply eval_run in H0 as [-> H0].
  apply on_tasks_Ok in H as (ts' & H & ->).
  apply sbind_Ok in H as (b & ts1 & H1 & H).
  apply eval_run in H1 as [-> H1].
  apply sbind_Ok in H as (x & ts2 & H2 & H).
  apply eval_run in H2 as [-> H2].
  apply write_Ok in H. eauto.
Qed.

Lemma setErrors_replaces taskId new s s' :
  setErrors taskId (JArr new) s = (s', Ok tt) ->
  getErrors s' taskId = Ok (JArr new).
Proof.
  unfold setErrors. intros H.
  apply sbind_Ok in H as (t & s0 & H0 & H).
  apply eval_run in H0 as [-> H0]. simpl truthy in H. cbv iota in H.
  apply set_field_Ok in H as (x & ts' & [= <-] & H & ->).
  apply getErrors_of_path. simpl tasks.
  apply (get_path_set_path_same _ [taskId; "result"] "errors") in H.
  exact H.
Qed.

(** C9, as the code has it: [updateResult] appends. When it returns on a
    task whose [result.errors] is an array, the array is the one before
    followed by the errors it was given, so every error recorded earlier
    is still there. [setErrors] is a setter: it leaves a copy of the array
    it is given. *)
Theorem updateResult_appends_setErrors_replaces s taskId old :
  getErrors s taskId = Ok (JArr old) ->
  (forall now code status message errors s',
      updateResult taskId now code status message errors s = (s', Ok tt) ->
      getErrors s' taskId = Ok (JArr (old ++ recorded errors))) /\
  (forall new s',
      setErrors taskId (JArr new) s = (s', Ok tt) ->
      getErrors s' taskId = Ok (JArr new)).
Proof.
  intros Hold. split.
  - intros. eapply updateResult_accumulates; eauto.
  - intros. eapply setErrors_replaces; eauto.
Qed.

Lemma updateResult_appends_setErrors_replaces_witness :
  getErrors (fst (updateResult "a" 2 JUndef JUndef JUndef
                               (JArr [JStr "second"; JStr "third"])
                               two_errors)) "a"
  = Ok (JArr [JStr "first"; JStr "second"; JStr "third"]).
Proof.
  apply (proj1 (updateResult_appends_setErrors_replaces
                  two_errors "a" [JStr "first"] eq_refl)
           2 JUndef JUndef JUndef (JArr [JStr "second"; JStr "third"])).
  reflexivity.
Defined.

(** C9 as stated fails: an error recorded by [updateResult] is gone after
    [setErrors] records another. *)
Lemma setErrors_overwrites :
  getErrors two_errors "a" = Ok (JArr [JStr "first"]) /\
  setErrors "a" (JArr [JStr "second"]) two_errors
  = (fst (setErrors "a" (JArr [JStr "second"]) two_errors), Ok tt) /\
  getErrors (fst (setErrors "a" (JArr [JStr "second"]) two_errors)) "a"
  = Ok (JArr [JStr "second"]) /\
  ~ In (JStr "first") [JStr "second"].
Proof.
  repeat split. intros [H|[]]. discriminate.
Qed.

(** ** Masking *)

Section MaskingFacts.
Variable secret_key : string -> bool.
Variable redaction : jsval.

Lemma mask_is_redacted v : redacted secret_key redaction (mask secret_key redaction v).
Proof.
  induction v as [| | | | | |l IH|fs IH] using jsval_ind; simpl; auto.
  - induction IH as [|x r Hx _ IHr]; simpl; auto.
  - induction IH as [|[k x] r Hx _ IHr]; simpl; auto.
    split; [|exact IHr]. destruct (secret_key k); auto.
Qed.

(** C8: when [setDeclaration] returns, [getDeclaration] returns the
    masked declaration, in which every property with a secret-bearing name
    (a password, a secret) holds the redaction marker, not its value. *)
Theorem stored_declaration_is_masked s taskId declaration s' :
  setDeclaration secret_key redaction taskId declaration s = (s', Ok tt) ->
  getDeclaration s' taskId = Ok (mask secret_key redaction declaration) /\
  redacted secret_key redaction (mask secret_key redaction declaration).
Proof.
  intros H. split; [|apply mask_is_redacted].
  apply set_field_Ok in H as (x & ts' & [= <-] & H & ->).
  simpl in H. apply bind_Ok in H as (t & Ht & H).
  apply bind_Ok in H as (t' & Ht' & H).
  unfold getDeclaration.
  rewrite (get_field_of _ _ _ t').
  - simpl. rewrite (get_set_same _ _ _ _ Ht'). reflexivity.
  - unfold getTask. simpl. apply (get_set_same _ _ _ _ H).
  - apply (set_prop_truthy _ _ _ _ Ht').
Qed.
End MaskingFacts.

Lemma stored_declaration_is_masked_witness :
  getDeclaration
    (fst (setDeclaration is_secret (JStr "********") "a" ldap_declaration
            (fst (addTask "a" 0 0 empty_State)))) "a"
  = Ok (JObj [("Common",
         JObj [("Authentication",
                JObj [("ldap", JObj [("bindDn", JStr "cn=admin");
                                     ("bindPassword", JStr "********")]);
                      ("radius",
                       JObj [("servers",
                              JObj [("primary",
                                     JObj [("server", JStr "1.2.3.4");
                                           ("secret", JStr "********")])])])])])]).
Proof.
  apply (stored_declaration_is_masked is_secret (JStr "********")
           (fst (addTask "a" 0 0 empty_State)) "a" ldap_declaration).
  reflexivity.
Defined.

End StateFacts.

(** * Properties of the state upgrade *)
Module MigrationFacts.
Import StateStore JsFacts StmtFacts StateFacts Samples.
Local Open Scope list_scope.

(** ** JSON copies *)

Lemma jsonify_JObj fs : jsonify (JObj fs) = Some (JObj (jsonify_fields fs)).
Proof. reflexivity. Qed.

Lemma jsonify_JArr l : jsonify (JArr l) = Some (JArr (map jsonify_elem l)).
Proof. reflexivity. Qed.

Lemma is_json_jsonify v : is_json v = true -> jsonify v = Some v.
Proof.
  induction v as [| | | | | |l IH|fs IH] using jsval_ind;
    try reflexivity; try discriminate.
  - rewrite jsonify_JArr. simpl. intros H. do 2 f_equal.
    induction IH as [|x r Hx _ IHr]; simpl in *; [reflexivity|].
    apply andb_prop in H as [H1 H2].
    unfold jsonify_elem at 1. rewrite (Hx H1). now rewrite IHr.
  - rewrite jsonify_JObj. simpl. intros H. do 2 f_equal.
    induction IH as [|[k x] r Hx _ IHr]; simpl in *; [reflexivity|].
    apply andb_prop in H as [H1 H2].
    rewrite (Hx H1). now rewrite IHr.
Qed.

Lemma date_toJSON_is_json ms : is_json (date_toJSON ms) = true.
Proof. unfold date_toJSON. now destruct (valid_time ms). Qed.

Lemma jsonify_is_json v j : jsonify v = Some j -> is_json j = true.
Proof.
  revert j.
  induction v as [| | | | | |l IH|fs IH] using jsval_ind; intros j;
    try (intros [= <-]; reflexivity); try discriminate.
  - intros [= <-]. apply date_toJSON_is_json.
  - rewrite jsonify_JArr. intros [= <-]. simpl.
    induction IH as [|x r Hx _ IHr]; simpl; [reflexivity|].
    rewrite IHr, andb_true_r. unfold jsonify_elem.
    destruct (jsonify x) eqn:E; [eauto | reflexivity].
  - rewrite jsonify_JObj. intros [= <-]. simpl.
    induction IH as [|[k x] r Hx _ IHr]; simpl in *; [reflexivity|].
    destruct (jsonify x) eqn:E; [|exact IHr].
    simpl. rewrite IHr, andb_true_r. eauto.
Qed.

(** a JSON copy of a JSON copy is the same copy *)
Lemma json_copy_idempotent v j : json_copy v = Ok j -> json_copy j = Ok j.
Proof.
  unfold json_copy. destruct (jsonify v) eqn:E; [|discriminate].
  intros [= <-]. now rewrite (is_json_jsonify _ (jsonify_is_json _ _ E)).
Qed.

Lemma assoc_get_jsonify_fields k fs v j :
  assoc_get k fs = Some v -> jsonify v = Some j ->
  assoc_get k (jsonify_fields fs) = Some j.
Proof.
  induction fs as [|[k0 x] r IH]; simpl; [discriminate|].
  destruct (String.eqb_spec k0 k) as [->|Hne].
  - intros [= ->] ->. simpl. now rewrite String.eqb_refl.
  - intros H Hj. destruct (jsonify x); simpl; auto.
    apply String.eqb_neq in Hne. rewrite Hne. auto.
Qed.

Lemma assoc_get_jsonify_fields_None k fs :
  assoc_get k fs = None -> assoc_get k (jsonify_fields fs) = None.
Proof.
  induction fs as [|[k0 x] r IH]; simpl; [reflexivity|].
  destruct (String.eqb_spec k0 k) as [->|Hne]; [discriminate|].
  intros H. destruct (jsonify x); simpl; auto.
  apply String.eqb_neq in Hne. rewrite Hne. auto.
Qed.

Lemma is_json_field k fs v :
  is_json (JObj fs) = true -> assoc_get k fs = Some v -> is_json v = true.
Proof.
  simpl. induction fs as [|[k0 x] r IH]; simpl; [discriminate|].
  intros H. apply andb_prop in H as [H1 H2].
  destruct (k0 =? k)%string; [now intros [= <-] | auto].
Qed.

(** ** The migration touches [originalConfig] only *)

Lemma set_path_frame es k0 p k v es' k' :
  set_path es (k0 :: p) k v = Ok es' -> k' <> k0 ->
  get_prop es' k' = get_prop es k'.
Proof.
  simpl. intros H Hne.
  apply bind_Ok in H as (x & Hx & H). apply bind_Ok in H as (x' & Hx' & H).
  now apply (get_set_other _ _ _ _ _ H).
Qed.

Lemma set_path_not_undef y p k v y' : set_path y p k v = Ok y' -> y <> JUndef.
Proof. destruct p; simpl; intros H ->; discriminate. Qed.

(** ** JSON data under reads and writes *)

Lemma is_object_truthy v : is_object v = true -> truthy v = true.
Proof. now destruct v. Qed.

Lemma is_object_jsonify v :
  is_object v = true ->
  exists j, jsonify v = Some j /\ is_object j = true.
Proof.
  destruct v; try discriminate; intros _.
  - rewrite jsonify_JArr. eauto.
  - rewrite jsonify_JObj. eauto.
Qed.

Lemma set_prop_is_object base k v base' :
  set_prop base k v = Ok base' -> is_object base' = true.
Proof.
  destruct base; simpl; try discriminate.
  - destruct (index_of_key k); [|discriminate].
    destruct (_ <? _)%nat; [|discriminate]. now intros [= <-].
  - destruct (k =? "__proto__")%string; [discriminate|]. now intros [= <-].
Qed.

Lemma set_path_is_object base p k v base' :
  set_path base p k v = Ok base' -> is_object base' = true.
Proof.
  destruct p as [|k1 r]; simpl.
  - apply set_prop_is_object.
  - intros H. apply bind_Ok in H as (x & _ & H).
    apply bind_Ok in H as (x' & _ & H). exact (set_prop_is_object _ _ _ _ H).
Qed.

Lemma is_json_nth l i x :
  forallb is_json l = true -> nth_error l i = Some x -> is_json x = true.
Proof.
  intros H Hn. rewrite forallb_forall in H. apply H.
  exact (nth_error_In _ _ Hn).
Qed.

(** a property of JSON data is JSON data, or is not there *)
Lemma get_prop_is_json base k x :
  is_json base = true -> get_prop base k = Ok x ->
  x = JUndef \/ is_json x = true.
Proof.
  destruct base; simpl; try discriminate.
  - intros _ ->%not_own_Ok. now left.
  - intros _ ->%not_own_Ok. now left.
  - intros _. destruct (k =? "length")%string; [intros [= <-]; now right|].
    destruct (index_of_key k) as [i|]; [|intros ->%not_own_Ok; now left].
    destruct (nth_error (chars s) i); intros [= <-]; [now right | now left].
  - intros H. destruct (k =? "length")%string; [intros [= <-]; now right|].
    destruct (index_of_key k) as [i|]; [|intros ->%not_own_Ok; now left].
    destruct (nth_error l i) as [y|] eqn:En; intros [= <-]; [|now left].
    right. exact (is_json_nth _ _ _ H En).
  - intros H. destruct (assoc_get k fs) as [y|] eqn:Ek;
      [intros [= <-] | intros ->%not_own_Ok; now left].
    right. exact (is_json_field _ _ _ H Ek).
Qed.

Lemma forallb_assoc_set (f : jsval -> bool) k v fs :
  forallb (fun kv => f (snd kv)) fs = true -> f v = true ->
  forallb (fun kv => f (snd kv)) (assoc_set k v fs) = true.
Proof.
  intros H Hv. induction fs as [|[k' v'] r IH]; simpl in *.
  - now rewrite Hv.
  - apply andb_prop in H as [H1 H2]. destruct (k' =? k)%string; simpl.
    + now rewrite Hv, H2.
    + now rewrite H1, IH.
Qed.

Lemma forallb_replace_nth (f : jsval -> bool) i v l :
  forallb f l = true -> f v = true -> forallb f (replace_nth i v l) = true.
Proof.
  intros H Hv. revert i. induction l as [|x r IH]; intros [|i]; simpl in *;
    auto.
  - apply andb_prop in H as [_ H2]. now rewrite Hv, H2.
  - apply andb_prop in H as [H1 H2]. now rewrite H1, IH.
Qed.

Lemma set_prop_is_json base k v base' :
  is_json base = true -> is_json v = true ->
  set_prop base k v = Ok base' -> is_json base' = true.
Proof.
  intros Hb Hv. destruct base; simpl; try discriminate.
  - destruct (index_of_key k); [|discriminate].
    destruct (_ <? _)%nat; [|discriminate]. intros [= <-]. simpl.
    now apply forallb_replace_nth.
  - destruct (k =? "__proto__")%string; [discriminate|].
    intros [= <-]. simpl. now apply forallb_assoc_set.
Qed.

Lemma set_path_is_json p : forall base k v base',
  is_json base = true -> is_json v = true ->
  set_path base p k v = Ok base' -> is_json base' = true.
Proof.
  induction p as [|k1 r IH]; intros base k v base' Hb Hv; simpl.
  - now apply set_prop_is_json.
  - intros H. apply bind_Ok in H as (x & Hx & H).
    apply bind_Ok in H as (x' & Hx' & H).
    destruct (get_prop_is_json _ _ _ Hb Hx) as [->|Hj].
    + destruct (set_path_not_undef _ _ _ _ _ Hx' eq_refl).
    + apply (set_prop_is_json _ _ _ _ Hb (IH _ _ _ _ Hj Hv Hx') H).
Qed.

(** a plain object answers for every name that is not inherited *)
Lemma get_prop_object fs k :
  inherited k = false -> exists v, get_prop (JObj fs) k = Ok v.
Proof.
  intros H. simpl. unfold not_own. rewrite H.
  destruct (assoc_get k fs); eauto.
Qed.

Lemma get_path_is_json p : forall base x,
  is_json base = true -> get_path base p = Ok x ->
  x = JUndef \/ is_json x = true.
Proof.
  induction p as [|k r IH]; intros base x Hb; simpl.
  - intros [= <-]. now right.
  - intros H. apply bind_Ok in H as (y & Hy & H).
    destruct (get_prop_is_json _ _ _ Hb Hy) as [->|Hj]; [|eauto].
    destruct r; simpl in H; [injection H as <-; now left | discriminate].
Qed.

Ltac preserve :=
  repeat first
    [ apply preserves_sret
    | apply preserves_eval
    | apply preserves_when
    | apply preserves_for_each; intros
    | apply preserves_sbind; [|intros]
    | match goal with
      | |- preserves _ (if ?c then _ else _) => destruct c
      end ].

Section Migration.
Variables VERSION RELEASE : string.
Variable versionCompare : jsval -> jsval -> result Z.
Variable updateIds : string -> jsval -> option string -> result jsval.
Variable NAMELESS_CLASSES : list string.

Let update_item := update_item updateIds.
Let update_class := update_class updateIds NAMELESS_CLASSES.
Let update_entry :=
  update_entry VERSION RELEASE versionCompare updateIds NAMELESS_CLASSES.
Let updateNewIdToId :=
  updateNewIdToId VERSION RELEASE versionCompare updateIds NAMELESS_CLASSES.
Let copyAndUpgradeState :=
  copyAndUpgradeState VERSION RELEASE versionCompare updateIds
                      NAMELESS_CLASSES.
Let new_State :=
  new_State VERSION RELEASE versionCompare updateIds NAMELESS_CLASSES.

Lemma updateNewIdToId_frame k c :
  k <> "originalConfig" ->
  preserves (fun es => get_prop es k = c) updateNewIdToId.
Proof.
  intros Hk. unfold updateNewIdToId, StateStore.updateNewIdToId. preserve.
  unfold StateStore.update_entry. preserve.
  all: apply preserves_write; intros s s' H <-; eapply set_path_frame; eauto.
Qed.

(** the object that holds a property which is no index *)
Lemma holder_is_object es k v :
  get_prop es k = Ok v -> v <> JUndef ->
  k <> "length" -> index_of_key k = None ->
  exists fs, es = JObj fs /\ assoc_get k fs = Some v.
Proof.
  intros H Hv Hl Hi. apply String.eqb_neq in Hl.
  destruct es; simpl in H; try discriminate;
    try (rewrite Hl, Hi in H); try (apply not_own_Ok in H; congruence).
  exists fs. split; [reflexivity|].
  destruct (assoc_get k fs); [congruence|].
  apply not_own_Ok in H. congruence.
Qed.

Lemma get_prop_json_copy fs state k v j :
  json_copy (JObj fs) = Ok state ->
  assoc_get k fs = Some v -> jsonify v = Some j ->
  get_prop state k = Ok j.
Proof.
  unfold json_copy. rewrite jsonify_JObj. intros [= <-] Hk Hj. simpl.
  now rewrite (assoc_get_jsonify_fields _ _ _ _ Hk Hj).
Qed.

(** the state that [copyAndUpgradeState] makes of a legacy state, before
    the identifier migration *)
Lemma wrap_legacy taskId now fs t es state :
  is_json (JObj fs) = true ->
  get_prop (JObj fs) "tasks" = Ok t -> truthy t = false ->
  copyAndUpgradeState taskId now (JObj fs) = (es, Ok state) ->
  get_prop state "tasks"
  = Ok (JObj [(taskId,
               JObj (jsonify_fields
                       (assoc_set "id" (JStr taskId)
                          (assoc_set "lastUpdate" (JDate now) fs))))]) /\
  get_prop state "mostRecentTask" = Ok (JStr taskId).
Proof.
  intros Hjson Ht Hfalsy H.
  unfold copyAndUpgradeState, StateStore.copyAndUpgradeState in H.
  apply sbind_Ok in H as (t' & es0 & H0 & H).
  apply eval_run in H0 as [-> H0]. rewrite Ht in H0. injection H0 as <-.
  rewrite Hfalsy in H. simpl negb in H.
  apply sbind_Ok in H as ([] & es5 & Hblock & H).
  simpl when in Hblock.
  apply sbind_Ok in Hblock as (copy & es0 & H0 & Hblock).
  apply eval_run in H0 as [-> H0].
  unfold json_copy in H0. rewrite (is_json_jsonify _ Hjson) in H0.
  injection H0 as ->.
  apply sbind_Ok in Hblock as ([] & es1 & H1 & Hblock). apply write_Ok in H1.
  apply sbind_Ok in Hblock as ([] & es2 & H2 & Hblock). apply write_Ok in H2.
  apply sbind_Ok in Hblock as ([] & es3 & H3 & Hblock). apply write_Ok in H3.
  apply sbind_Ok in Hblock as ([] & es4 & H4 & Hblock). apply write_Ok in H4.
  apply write_Ok in Hblock.
  simpl in H1. injection H1 as <-.
  simpl in H2. rewrite assoc_get_set_same in H2. simpl in H2.
  destruct (taskId =? "__proto__")%string eqn:Ep; [discriminate H2|].
  injection H2 as <-.
  simpl in H3. rewrite assoc_get_set_same in H3. simpl in H3.
  rewrite String.eqb_refl in H3. simpl in H3. rewrite Ep in H3.
  simpl in H3. injection H3 as <-.
  simpl in H4. rewrite assoc_get_set_same in H4. simpl in H4.
  rewrite String.eqb_refl in H4. simpl in H4. rewrite Ep in H4.
  simpl in H4. injection H4 as <-.
  simpl in Hblock. injection Hblock as <-.
  match type of H with
  | context [JObj (assoc_set "mostRecentTask" _ ?f)] => set (fs4 := f) in *
  end.
  assert (Htasks : assoc_get "tasks" fs4 <> None /\
                   get_prop (JObj (assoc_set "mostRecentTask" (JStr taskId) fs4)) "tasks"
                   = Ok (JObj [(taskId, JObj (assoc_set "id" (JStr taskId)
                          (assoc_set "lastUpdate" (JDate now) fs)))])).
  { subst fs4. rewrite assoc_get_set_same. split; [discriminate|].
    simpl. rewrite assoc_get_set_other by discriminate.
    now rewrite assoc_get_set_same. }
  destruct Htasks as [_ Htasks].
  assert (Hmrt : get_prop (JObj (assoc_set "mostRecentTask" (JStr taskId) fs4))
                          "mostRecentTask" = Ok (JStr taskId)).
  { simpl. now rewrite assoc_get_set_same. }
  revert H Htasks Hmrt.
  generalize (JObj (assoc_set "mostRecentTask" (JStr taskId) fs4)).
  clear fs4. intros es5 H Htasks Hmrt.
  apply sbind_Ok in H as (oc & es0 & H0 & H).
  apply eval_run in H0 as [-> H0].
  apply sbind_Ok in H as ([] & es6 & H6 & H).
  assert (Htasks6 : get_prop es6 "tasks" = get_prop es5 "tasks" /\
                    get_prop es6 "mostRecentTask" = get_prop es5 "mostRecentTask").
  { apply when_Ok in H6. destruct (negb (truthy oc)); [|now subst].
    apply write_Ok in H6.
    split; apply (get_set_other _ _ _ _ _ H6); discriminate. }
  destruct Htasks6 as [Ht6 Hm6]. rewrite Htasks in Ht6. rewrite Hmrt in Hm6.
  apply sbind_Ok in H as ([] & es7 & H7 & H).
  apply eval_run in H as [-> H]. symmetry in H.
  pose proof (updateNewIdToId_frame "tasks" _ ltac:(discriminate) _ _ _ H7 Ht6)
    as Ht7.
  pose proof (updateNewIdToId_frame "mostRecentTask" _ ltac:(discriminate)
                _ _ _ H7 Hm6) as Hm7.
  destruct (holder_is_object _ _ _ Ht7) as (fs7 & -> & Hk7);
    [discriminate | discriminate | reflexivity |].
  simpl in Hm7. destruct (assoc_get "mostRecentTask" fs7) eqn:Em; [|discriminate].
  injection Hm7 as ->.
  split.
  - eapply get_prop_json_copy; eauto.
  - eapply get_prop_json_copy; eauto.
Qed.

(** C6, as the code has it: a state built from a persisted object without
    [tasks] holds exactly one task, under the fresh id, which is also the
    most recent task. The task holds every field of the legacy object as
    it was, except [id] and [lastUpdate], which are set to the fresh id and
    to the time of the upgrade. *)
Theorem legacy_state_is_wrapped taskId now fs t s :
  is_json (JObj fs) = true ->
  get_prop (JObj fs) "tasks" = Ok t -> truthy t = false ->
  new_State taskId now (JObj fs) = Ok s ->
  exists task,
    tasks s = JObj [(taskId, task)] /\
    mostRecentTask s = JStr taskId /\
    get_prop task "id" = Ok (JStr taskId) /\
    get_prop task "lastUpdate" = Ok (date_toJSON now) /\
    forall k, k <> "id" -> k <> "lastUpdate" ->
              get_prop task k = get_prop (JObj fs) k.
Proof.
  intros Hjson Ht Hfalsy H.
  unfold new_State, StateStore.new_State in H. simpl truthy in H. cbv iota in H.
  destruct (StateStore.copyAndUpgradeState _ _ _ _ _ _ _ _) as [es r] eqn:E.
  simpl snd in H. apply bind_Ok in H as (state & -> & H).
  destruct (wrap_legacy _ _ _ _ _ _ Hjson Ht Hfalsy E) as [Hts Hmrt].
  apply bind_Ok in H as (oc & Hoc & H).
  rewrite Hts, Hmrt in H. simpl in H. injection H as <-. simpl.
  eexists. repeat split.
  - simpl.
    rewrite (assoc_get_jsonify_fields "id" _ (JStr taskId) (JStr taskId));
      [reflexivity | apply assoc_get_set_same | reflexivity].
  - simpl.
    rewrite (assoc_get_jsonify_fields "lastUpdate" _ (JDate now)
               (date_toJSON now)); [reflexivity | | reflexivity].
    rewrite assoc_get_set_other by discriminate. apply assoc_get_set_same.
  - intros k Hid Hlu. simpl.
    destruct (assoc_get k fs) as [v|] eqn:Ek.
    + rewrite (assoc_get_jsonify_fields k _ v v); [reflexivity| |].
      * rewrite !assoc_get_set_other by assumption. exact Ek.
      * apply is_json_jsonify. eapply is_json_field; eauto.
    + rewrite assoc_get_jsonify_fields_None; [reflexivity|].
      now rewrite !assoc_get_set_other by assumption.
Qed.

(** ** The migration is idempotent *)

Let cur : jsval := JStr (doVersionStr VERSION RELEASE).
Let settled := settled VERSION RELEASE versionCompare.

Lemma sbind_eval {S A B} (f : S -> result A) (k : A -> stmt S B) s a :
  f s = Ok a -> sbind (eval f) k s = k a s.
Proof. unfold sbind, eval. now intros ->. Qed.

Lemma get_path_snoc es p k v :
  get_path es (p ++ [k]) = Ok v ->
  exists x, get_path es p = Ok x /\ get_prop x k = Ok v.
Proof.
  rewrite get_path_app. intros H. apply bind_Ok in H as (x & Hx & H).
  exists x. split; [exact Hx|]. simpl in H. now destruct (get_prop x k).
Qed.

Lemma update_entry_settled es configId :
  settled es configId -> update_entry configId es = (es, Ok tt).
Proof.
  intros (version & c & Hv & Hc & Hs). fold cur in Hc.
  apply (get_path_snoc es ["originalConfig"; configId]) in Hv
    as (cb & Hcb & Hv).
  unfold update_entry, StateStore.update_entry.
  erewrite sbind_eval; [|exact Hcb]. erewrite sbind_eval; [|exact Hv].
  erewrite sbind_eval; [|exact Hc].
  destruct Hs as [->|(common & Hcommon & Hf)]; [reflexivity|].
  destruct (c <? 0); [|reflexivity].
  apply (get_path_snoc es ["originalConfig"; configId]) in Hcommon
    as (cb' & Hcb' & Hcommon).
  assert (cb' = cb) as -> by congruence.
  erewrite sbind_eval; [|exact Hcommon]. now rewrite Hf.
Qed.

(** every write of [update_entry] is below [originalConfig[configId]] *)
Lemma write_below_frame p k v r a b rest q c :
  p ++ [k] = r ++ b :: rest -> a <> b ->
  preserves (fun es => get_path es (r ++ a :: q) = c)
            (write (fun es => set_path es p k v)).
Proof.
  intros E Hne. apply preserves_write. intros s s' H <-.
  eapply get_path_set_path_other; eauto.
Qed.

Lemma update_entry_frame configId id' q c :
  id' <> configId ->
  preserves (fun es => get_path es ("originalConfig" :: id' :: q) = c)
            (update_entry configId).
Proof.
  intros Hne. unfold update_entry, StateStore.update_entry. preserve.
  - apply (write_below_frame _ _ _ ["originalConfig"] id' configId
             ["version"] q); auto.
  - apply (write_below_frame _ _ _ ["originalConfig"] id' configId
             ["Common"; k] q); auto.
  - apply (write_below_frame _ _ _ ["originalConfig"] id' configId
             ["Common"; k; k0] q); auto.
Qed.

Lemma update_class_keeps_version configId schemaClass c :
  preserves (fun es => get_path es ["originalConfig"; configId; "version"] = c)
            (update_class configId schemaClass).
Proof.
  unfold update_class, StateStore.update_class. preserve.
  - apply (write_below_frame _ _ _ ["originalConfig"; configId] "version"
             "Common" [schemaClass] []); [reflexivity | discriminate].
  - apply (write_below_frame _ _ _ ["originalConfig"; configId] "version"
             "Common" [schemaClass; k] []); [reflexivity | discriminate].
Qed.

Lemma doVersionStr_truthy : truthy cur = true.
Proof.
  unfold cur, doVersionStr. simpl.
  destruct VERSION; reflexivity.
Qed.

Hypothesis versionCompare_refl : versionCompare cur cur = Ok 0.

Lemma update_entry_settles es configId es' :
  update_entry configId es = (es', Ok tt) -> settled es' configId.
Proof.
  unfold update_entry, StateStore.update_entry. intros H.
  apply sbind_Ok in H as (cb & es0 & H0 & H). apply eval_run in H0 as [-> Hcb].
  apply sbind_Ok in H as (version & es0 & H0 & H).
  apply eval_run in H0 as [-> Hv].
  apply sbind_Ok in H as (c & es0 & H0 & H). apply eval_run in H0 as [-> Hc].
  fold cur in Hc.
  assert (Hpv : get_path es ["originalConfig"; configId; "version"] = Ok version).
  { change ["originalConfig"; configId; "version"]
      with (["originalConfig"; configId] ++ ["version"]).
    rewrite get_path_app, <- Hcb. simpl. now rewrite <- Hv. }
  destruct (c <? 0) eqn:Ec.
  - apply sbind_Ok in H as (common & es0 & H0 & H).
    apply eval_run in H0 as [-> Hcommon].
    destruct (truthy common) eqn:Et.
    + apply sbind_Ok in H as ([] & es1 & H1 & H).
      apply write_Ok in H1.
      apply (get_path_set_path_same _ ["originalConfig"; configId]) in H1.
      apply sbind_Ok in H as (classes & es0 & H0 & H).
      apply eval_run in H0 as [-> Hclasses].
      assert (Hfinal : get_path es' ["originalConfig"; configId; "version"]
                       = Ok cur).
      { apply (preserves_for_each
                 (fun es => get_path es ["originalConfig"; configId; "version"]
                            = Ok cur)
                 classes (update_class configId)
                 (fun k => update_class_keeps_version configId k _)
                 _ _ _ H H1). }
      exists cur, 0. split; [exact Hfinal|]. split; [|now left].
      unfold or_else. rewrite doVersionStr_truthy. exact versionCompare_refl.
    + apply sret_run in H as [-> _].
      exists version, c. split; [exact Hpv|]. split; [now rewrite Hc|].
      right. exists common. split; [|exact Et].
      change ["originalConfig"; configId; "Common"]
        with (["originalConfig"; configId] ++ ["Common"]).
      rewrite get_path_app, <- Hcb. simpl. now rewrite <- Hcommon.
  - apply sret_run in H as [-> _].
    exists version, c. split; [exact Hpv|]. split; [now rewrite Hc | now left].
Qed.

Lemma update_entry_keeps_settled es configId es' id' :
  update_entry configId es = (es', Ok tt) ->
  settled es id' -> settled es' id'.
Proof.
  intros H Hs. destruct (String.eqb_spec id' configId) as [->|Hne].
  - rewrite (update_entry_settled _ _ Hs) in H. now injection H as <-.
  - destruct Hs as (version & c & Hv & Hc & Hs).
    exists version, c. split; [|split; [exact Hc|]].
    + revert H Hv. apply (update_entry_frame configId id' ["version"]). exact Hne.
    + destruct Hs as [?|(common & Hcommon & Hf)]; [now left|right].
      exists common. split; [|exact Hf].
      revert H Hcommon. apply (update_entry_frame configId id' ["Common"]).
      exact Hne.
Qed.

Lemma migration_settles ids : forall es es',
  for_each ids update_entry es = (es', Ok tt) ->
  (forall id, In id ids -> settled es' id) /\
  (forall id, settled es id -> settled es' id).
Proof.
  induction ids as [|id0 r IH]; simpl; intros es es' H.
  - apply sret_run in H as [-> _]. split; [tauto | auto].
  - apply sbind_Ok in H as ([] & es1 & H1 & H).
    destruct (IH _ _ H) as [IH1 IH2]. split.
    + intros id [<-|Hin]; [|auto].
      apply IH2. eapply update_entry_settles; eauto.
    + intros id Hs. apply IH2. eapply update_entry_keeps_settled; eauto.
Qed.

(** a write below a property of [es[a]] keeps the keys of [es[a]] *)
Lemma set_path_keeps_keys es a b rest k v es' :
  set_path es (a :: b :: rest) k v = Ok es' ->
  (x <- get_prop es' a ;; object_keys x) = (x <- get_prop es a ;; object_keys x).
Proof.
  intros H. simpl in H.
  apply bind_Ok in H as (x & Hx & H). apply bind_Ok in H as (x' & Hx' & H).
  apply bind_Ok in Hx' as (y & Hy & Hx'). apply bind_Ok in Hx' as (y' & Hy' & Hx').
  rewrite (get_set_same _ _ _ _ H), Hx. simpl.
  eapply keys_set_prop; eauto. eapply set_path_not_undef; eauto.
Qed.

Lemma update_entry_keeps_keys configId ids :
  preserves (fun es => (oc <- get_prop es "originalConfig" ;; object_keys oc)
                       = ids)
            (update_entry configId).
Proof.
  unfold update_entry, StateStore.update_entry. preserve.
  all: apply preserves_write; intros s s' H <-;
       eapply set_path_keeps_keys; eauto.
Qed.

(** running the migration on a state that it has already migrated changes
    nothing *)
Lemma migration_twice es es' :
  updateNewIdToId es = (es', Ok tt) -> updateNewIdToId es' = (es', Ok tt).
Proof.
  unfold updateNewIdToId, StateStore.updateNewIdToId. intros H.
  apply sbind_Ok in H as (ids & es0 & H0 & H). apply eval_run in H0 as [-> Hids].
  symmetry in Hids.
  assert (Hids' : (oc <- get_prop es' "originalConfig" ;; object_keys oc)
                  = Ok ids).
  { apply (preserves_for_each _ ids update_entry
             (fun k => update_entry_keeps_keys k (Ok ids)) _ _ _ H Hids). }
  erewrite sbind_eval; [|exact Hids'].
  apply for_each_skip. intros k Hk. apply update_entry_settled.
  exact (proj1 (migration_settles ids es es' H) k Hk).
Qed.

(** ** Loading a state that has been upgraded *)

(** [parserUtil.updateIds] is taken to make JSON data of JSON data *)
Hypothesis updateIds_json :
  forall schemaClass config itemName r,
    config = JUndef \/ is_json config = true ->
    updateIds schemaClass config itemName = Ok r -> is_json r = true.

(** [originalConfig] holds JSON data *)
Let config_ok (es : jsval) : Prop :=
  exists oc,
    get_prop es "originalConfig" = Ok oc /\ is_json oc = true /\
    truthy oc = true.

(** [tasks] is there, and still there in a JSON copy *)
Let tasks_ok (es : jsval) : Prop :=
  exists ts tsj,
    get_prop es "tasks" = Ok ts /\ jsonify ts = Some tsj /\
    truthy tsj = true.

Let all_settled (es : jsval) : Prop :=
  exists ids,
    (oc <- get_prop es "originalConfig" ;; object_keys oc) = Ok ids /\
    forall id, In id ids -> settled es id.

Lemma write_keeps_config p k v :
  is_json v = true ->
  preserves config_ok
            (write (fun es => set_path es ("originalConfig" :: p) k v)).
Proof.
  intros Hv. apply preserves_write. intros s s' H (oc & Hoc & Hj & Ht).
  simpl in H. rewrite Hoc in H. simpl in H.
  apply bind_Ok in H as (oc' & Hoc' & H).
  exists oc'. split; [exact (get_set_same _ _ _ _ H)|]. split.
  - exact (set_path_is_json _ _ _ _ _ Hj Hv Hoc').
  - apply is_object_truthy. exact (set_path_is_object _ _ _ _ _ Hoc').
Qed.

Lemma config_read es p x :
  config_ok es -> get_path es ("originalConfig" :: p) = Ok x ->
  x = JUndef \/ is_json x = true.
Proof.
  intros (oc & Hoc & Hj & _). simpl. rewrite Hoc. simpl.
  now apply get_path_is_json.
Qed.

Lemma update_item_keeps_config configId schemaClass itemName :
  preserves config_ok (update_item configId schemaClass itemName).
Proof.
  intros s s' r H Hc. unfold update_item, StateStore.update_item in H.
  unfold sbind at 1, eval at 1 in H.
  destruct (bind (get_path s _) _) as [new|e] eqn:E.
  - apply bind_Ok in E as (item & Hitem & Hnew).
    pose proof (updateIds_json _ _ _ _ (config_read _ _ _ Hc Hitem) Hnew) as Hj.
    exact (write_keeps_config _ _ _ Hj _ _ _ H Hc).
  - now injection H as <- _.
Qed.

Lemma update_class_keeps_config configId schemaClass :
  preserves config_ok (update_class configId schemaClass).
Proof.
  intros s s' r H Hc. unfold update_class, StateStore.update_class in H.
  unfold sbind at 1, eval at 1 in H.
  destruct (get_path s _) as [config|e] eqn:E;
    [|now injection H as <- _].
  pose proof (config_read _ _ _ Hc E) as Hcfg.
  destruct (is_nameless NAMELESS_CLASSES schemaClass).
  - unfold sbind at 1, eval at 1 in H.
    destruct (updateIds schemaClass config None) as [new|e] eqn:En;
      [|now injection H as <- _].
    pose proof (updateIds_json _ _ _ _ Hcfg En) as Hj.
    exact (write_keeps_config _ _ _ Hj _ _ _ H Hc).
  - clear E. revert s s' r H Hc.
    apply preserves_sbind; [apply preserves_eval|]. intros items.
    apply preserves_for_each. intros itemName.
    apply update_item_keeps_config.
Qed.

Lemma migration_keeps_config : preserves config_ok updateNewIdToId.
Proof.
  unfold updateNewIdToId, StateStore.updateNewIdToId.
  apply preserves_sbind; [apply preserves_eval|]. intros ids.
  apply preserves_for_each. intros configId.
  unfold StateStore.update_entry.
  apply preserves_sbind; [apply preserves_eval|]. intros configById.
  apply preserves_sbind; [apply preserves_eval|]. intros version.
  apply preserves_sbind; [apply preserves_eval|]. intros c.
  destruct (c <? 0); [|apply preserves_sret].
  apply preserves_sbind; [apply preserves_eval|]. intros common.
  destruct (truthy common); [|apply preserves_sret].
  apply preserves_sbind; [now apply write_keeps_config|]. intros _.
  apply preserves_sbind; [apply preserves_eval|]. intros classes.
  apply preserves_for_each. intros schemaClass.
  apply update_class_keeps_config.
Qed.

Lemma migration_settles_all es es' :
  updateNewIdToId es = (es', Ok tt) -> all_settled es'.
Proof.
  unfold updateNewIdToId, StateStore.updateNewIdToId. intros H.
  apply sbind_Ok in H as (ids & es0 & H0 & H). apply eval_run in H0 as [-> Hids].
  exists ids. split.
  - apply (preserves_for_each _ ids update_entry
             (fun k => update_entry_keeps_keys k (Ok ids)) _ _ _ H).
    now symmetry.
  - exact (proj1 (migration_settles ids es es' H)).
Qed.

Lemma all_settled_skip es : all_settled es -> updateNewIdToId es = (es, Ok tt).
Proof.
  intros (ids & Hids & Hs).
  unfold updateNewIdToId, StateStore.updateNewIdToId.
  erewrite sbind_eval; [|exact Hids].
  apply for_each_skip. intros k Hk. apply update_entry_settled. auto.
Qed.

(** being settled is a matter of [originalConfig] alone *)
Lemma all_settled_same_config es1 es2 :
  get_prop es2 "originalConfig" = get_prop es1 "originalConfig" ->
  all_settled es1 -> all_settled es2.
Proof.
  intros E (ids & Hids & Hs). exists ids. split; [now rewrite E|].
  intros id Hin. destruct (Hs id Hin) as (version & c & Hv & Hc & Hor).
  exists version, c. split; [|split; [exact Hc|]].
  - simpl in *. now rewrite E.
  - destruct Hor as [Hge|(common & Hcm & Hf)]; [now left|].
    right. exists common. split; [|exact Hf]. simpl in *. now rewrite E.
Qed.

(** what [copyAndUpgradeState] leaves of JSON data *)
Lemma upgrade_leaves taskId now d es state :
  is_json d = true ->
  copyAndUpgradeState taskId now d = (es, Ok state) ->
  json_copy es = Ok state /\ tasks_ok es /\ config_ok es /\ all_settled es.
Proof.
  intros Hjson H.
  unfold copyAndUpgradeState, StateStore.copyAndUpgradeState in H.
  apply sbind_Ok in H as (ts & es0 & H0 & H).
  apply eval_run in H0 as [-> Hts]. symmetry in Hts.
  apply sbind_Ok in H as ([] & es1 & Hblock & H).
  assert (A : tasks_ok es1 /\
              exists oc, get_prop es1 "originalConfig" = Ok oc /\
                         (oc = JUndef \/ is_json oc = true)).
  { apply when_Ok in Hblock. destruct (truthy ts) eqn:Et; simpl negb in Hblock;
      cbv iota in Hblock.
    - subst es1. split.
      + exists ts, ts. split; [exact Hts|]. split; [|exact Et].
        destruct (get_prop_is_json _ _ _ Hjson Hts) as [->|Hj];
          [discriminate Et | now apply is_json_jsonify].
      + destruct (holder_is_object _ _ _ Hts) as (fs & -> & _);
          [intros ->; discriminate Et | discriminate | reflexivity |].
        destruct (get_prop_object fs "originalConfig" eq_refl) as (oc & Hoc).
        exists oc. split; [exact Hoc|].
        exact (get_prop_is_json _ _ _ Hjson Hoc).
    - apply sbind_Ok in Hblock as (copy & e0 & H0 & Hblock).
      apply eval_run in H0 as [-> _].
      apply sbind_Ok in Hblock as ([] & e1 & H1 & Hblock). apply write_Ok in H1.
      apply sbind_Ok in Hblock as ([] & e2 & H2 & Hblock). apply write_Ok in H2.
      apply sbind_Ok in Hblock as ([] & e3 & H3 & Hblock). apply write_Ok in H3.
      apply sbind_Ok in Hblock as ([] & e4 & H4 & Hblock). apply write_Ok in H4.
      apply write_Ok in Hblock. split.
      + assert (Hx : exists x, get_prop e4 "tasks" = Ok x /\
                               is_object x = true).
        { simpl in H4. apply bind_Ok in H4 as (x & _ & H4).
          apply bind_Ok in H4 as (x' & Hx' & H4). exists x'.
          split; [exact (get_set_same _ _ _ _ H4)|].
          apply bind_Ok in Hx' as (y & _ & Hx').
          apply bind_Ok in Hx' as (y' & _ & Hx').
          exact (set_prop_is_object _ _ _ _ Hx'). }
        destruct Hx as (x & Hx & Ho).
        destruct (is_object_jsonify _ Ho) as (j & Hj & Hoj).
        exists x, j. split; [|split; [exact Hj | now apply is_object_truthy]].
        rewrite <- Hx. apply (get_set_other _ _ _ _ _ Hblock). discriminate.
      + assert (Hd : exists fs, d = JObj fs).
        { destruct d; try discriminate H1. eauto. }
        destruct Hd as (fs & ->).
        destruct (get_prop_object fs "originalConfig" eq_refl) as (oc & Hoc).
        exists oc. split; [|exact (get_prop_is_json _ _ _ Hjson Hoc)].
        rewrite <- Hoc.
        rewrite (get_set_other _ _ _ _ _ Hblock) by discriminate.
        rewrite (set_path_frame _ _ _ _ _ _ "originalConfig" H4)
          by discriminate.
        rewrite (set_path_frame _ _ _ _ _ _ "originalConfig" H3)
          by discriminate.
        rewrite (set_path_frame _ _ _ _ _ _ "originalConfig" H2)
          by discriminate.
        apply (get_set_other _ _ _ _ _ H1). discriminate. }
  destruct A as [Ht1 (oc1 & Hoc1 & Hj1)].
  apply sbind_Ok in H as (oc & es1' & H0 & H).
  apply eval_run in H0 as [-> Hoc]. rewrite Hoc1 in Hoc. injection Hoc as ->.
  apply sbind_Ok in H as ([] & es2 & Hdef & H).
  assert (B : tasks_ok es2 /\ config_ok es2).
  { apply when_Ok in Hdef. destruct (truthy oc1) eqn:Et; simpl negb in Hdef;
      cbv iota in Hdef.
    - subst es2. split; [exact Ht1|]. exists oc1.
      destruct Hj1 as [->|Hj1]; [discriminate Et|]. auto.
    - apply write_Ok in Hdef. split.
      + destruct Ht1 as (x & j & Hx & Hj & Htj). exists x, j.
        split; [|auto]. rewrite <- Hx.
        apply (get_set_other _ _ _ _ _ Hdef). discriminate.
      + exists (JObj []). split; [exact (get_set_same _ _ _ _ Hdef)|]. auto. }
  destruct B as [Ht2 Hc2].
  apply sbind_Ok in H as ([] & es3 & Hmig & H).
  apply eval_run in H as [-> H]. symmetry in H.
  split; [exact H|]. split; [|split].
  - destruct Ht2 as (x & j & Hx & Hj & Htj). exists x, j. split; [|auto].
    exact (updateNewIdToId_frame "tasks" _ ltac:(discriminate) _ _ _ Hmig Hx).
  - exact (migration_keeps_config _ _ _ Hmig Hc2).
  - exact (migration_settles_all _ _ Hmig).
Qed.

(** a property of a JSON copy is JSON data, or is not there *)
Lemma json_copy_field es state k v :
  json_copy es = Ok state -> get_prop state k = Ok v ->
  v = JUndef \/ is_json v = true.
Proof.
  unfold json_copy. destruct (jsonify es) as [j|] eqn:E; [|discriminate].
  intros [= <-]. apply get_prop_is_json. exact (jsonify_is_json _ _ E).
Qed.

(** a state that the constructor has built is a fixed point of it: built
    again from its data, the state is the same *)
Lemma reload_is_identity taskId now d s taskId' now' :
  is_json d = true ->
  new_State taskId now d = Ok s ->
  new_State taskId' now' (state_data s) = Ok s.
Proof.
  intros Hjson H. unfold new_State, StateStore.new_State in *.
  destruct (truthy d) eqn:Etr.
  - destruct (StateStore.copyAndUpgradeState _ _ _ _ _ taskId now d)
      as [es r] eqn:E.
    simpl snd in H. apply bind_Ok in H as (state & -> & H).
    destruct (upgrade_leaves _ _ _ _ _ Hjson E)
      as (Hcopy & (ts & tsj & Hts & Htj & Htt) & (oc & Hoc & Hocj & Hoct) & Hs).
    apply bind_Ok in H as (oc1 & Hoc1 & H). apply bind_Ok in H as (ts1 & Hts1 & H).
    apply bind_Ok in H as (mrt1 & Hmrt1 & H). injection H as <-.
    destruct (holder_is_object _ _ _ Hoc) as (fs & -> & Hkoc);
      [intros ->; discriminate | discriminate | reflexivity |].
    assert (ts <> JUndef) by (intros ->; discriminate).
    simpl in Hts. destruct (assoc_get "tasks" fs) as [ts'|] eqn:Ekts;
      [|apply not_own_Ok in Hts; congruence]. injection Hts as ->.
    rewrite (get_prop_json_copy _ _ _ _ _ Hcopy Hkoc (is_json_jsonify _ Hocj))
      in Hoc1. injection Hoc1 as <-.
    rewrite (get_prop_json_copy _ _ _ _ _ Hcopy Ekts Htj) in Hts1.
    injection Hts1 as <-.
    pose proof (jsonify_is_json _ _ Htj) as Htsj.
    pose proof (json_copy_field _ _ _ _ Hcopy Hmrt1) as Hm.
    unfold state_data. simpl originalConfig. simpl tasks.
    simpl mostRecentTask.
    set (d2 := JObj [("originalConfig", oc); ("tasks", tsj);
                     ("mostRecentTask", mrt1)]).
    assert (Hmig : updateNewIdToId d2 = (d2, Ok tt)).
    { apply all_settled_skip.
      apply (all_settled_same_config (JObj fs)); [|exact Hs].
      simpl. now rewrite Hkoc. }
    assert (Hrun : StateStore.copyAndUpgradeState VERSION RELEASE
                     versionCompare updateIds NAMELESS_CLASSES taskId' now' d2
                   = (d2, json_copy d2)).
    { unfold StateStore.copyAndUpgradeState.
      erewrite sbind_eval; [|reflexivity]. rewrite Htt. simpl negb.
      unfold when at 1. unfold sbind at 1. unfold sret at 1.
      erewrite sbind_eval; [|reflexivity]. rewrite Hoct. simpl negb.
      unfold when at 1. unfold sbind at 1. unfold sret at 1.
      unfold sbind at 1. fold updateNewIdToId. rewrite Hmig. reflexivity. }
    simpl truthy. cbv iota. rewrite Hrun. simpl snd.
    unfold json_copy, d2. rewrite jsonify_JObj. simpl jsonify_fields.
    rewrite (is_json_jsonify _ Hocj), (is_json_jsonify _ Htsj).
    destruct Hm as [->|Hm].
    + reflexivity.
    + rewrite (is_json_jsonify _ Hm). reflexivity.
  - injection H as <-. vm_compute. reflexivity.
Qed.

End Migration.

Lemma legacy_state_is_wrapped_witness :
  exists s task,
    sample_new_State "fresh" 5 legacy_state = Ok s /\
    tasks s = JObj [("fresh", task)] /\
    mostRecentTask s = JStr "fresh" /\
    get_prop task "result" = get_prop legacy_state "result".
Proof.
  destruct (sample_new_State "fresh" 5 legacy_state) as [s|] eqn:E;
    [|discriminate E].
  unfold sample_new_State, legacy_state in E.
  match type of E with
  | new_State _ _ _ _ _ _ _ (JObj ?fs) = _ =>
      destruct (legacy_state_is_wrapped
                  "1.27.0" "0" sample_versionCompare sample_updateIds
                  ["System"] "fresh" 5 fs JUndef s eq_refl eq_refl eq_refl E)
        as (task & Ht & Hm & _ & _ & Hk)
  end.
  exists s, task. repeat split; auto.
  apply Hk; discriminate.
Defined.

(** C6 as stated fails: a field [id] of the legacy state is not in the
    synthesized task, which holds the fresh id there. *)
Lemma legacy_id_is_overwritten :
  exists s task,
    sample_new_State "fresh" 5 legacy_state_with_id = Ok s /\
    tasks s = JObj [("fresh", task)] /\
    get_prop legacy_state_with_id "id" = Ok (JStr "legacy-id") /\
    get_prop task "id" = Ok (JStr "fresh") /\
    get_prop task "id" <> get_prop legacy_state_with_id "id".
Proof.
  eexists. eexists. split; [vm_compute; reflexivity|].
  repeat split. discriminate.
Qed.

(** the stand-in for [updateIds] makes JSON data of JSON data *)
Lemma sample_updateIds_json schemaClass config itemName r :
  config = JUndef \/ is_json config = true ->
  sample_updateIds schemaClass config itemName = Ok r -> is_json r = true.
Proof.
  intros [->|Hj]; [discriminate|].
  destruct config; simpl; try discriminate; try (now intros [= <-]).
  intros [= <-]. simpl. now apply forallb_assoc_set.
Qed.

(** C7: the identifier migration is idempotent. When [updateNewIdToId]
    has returned, every entry of [originalConfig] is one that it leaves
    alone (stamped with the current version, or without [Common]), and
    running it again changes nothing. So a state that the constructor has
    built of JSON data is built again from its own data as the same state.
    The comparison of versions is taken to find a version equal to itself;
    for the second part, [updateIds] is taken to make JSON data of JSON
    data. *)
Theorem migration_is_idempotent VERSION RELEASE versionCompare updateIds
  NAMELESS_CLASSES :
  let migrate := updateNewIdToId VERSION RELEASE versionCompare updateIds
                                 NAMELESS_CLASSES in
  let build := new_State VERSION RELEASE versionCompare updateIds
                         NAMELESS_CLASSES in
  let cur := JStr (doVersionStr VERSION RELEASE) in
  versionCompare cur cur = Ok 0 ->
  (forall es es',
      migrate es = (es', Ok tt) ->
      migrate es' = (es', Ok tt) /\
      forall oc ids configId,
        get_prop es' "originalConfig" = Ok oc -> object_keys oc = Ok ids ->
        In configId ids ->
        settled VERSION RELEASE versionCompare es' configId /\
        update_entry VERSION RELEASE versionCompare updateIds NAMELESS_CLASSES
                     configId es' = (es', Ok tt)) /\
  ((forall schemaClass config itemName r,
       config = JUndef \/ is_json config = true ->
       updateIds schemaClass config itemName = Ok r -> is_json r = true) ->
   forall taskId now existingState s taskId' now',
     is_json existingState = true ->
     build taskId now existingState = Ok s ->
     build taskId' now' (state_data s) = Ok s).
Proof.
  cbv zeta. intros Hrefl. split.
  - intros es es' H. split; [eapply migration_twice; eauto|].
    intros oc ids configId Hoc Hids Hin.
    assert (Hs : settled VERSION RELEASE versionCompare es' configId).
    { destruct (migration_settles_all _ _ _ _ _ Hrefl _ _ H)
        as (ids' & Hids' & Hs).
      rewrite Hoc in Hids'. simpl in Hids'. rewrite Hids in Hids'.
      injection Hids' as <-. exact (Hs _ Hin). }
    split; [exact Hs|]. now apply update_entry_settled.
  - intros Hjson taskId now d s taskId' now' Hd H.
    exact (reload_is_identity _ _ _ _ _ Hrefl Hjson _ _ _ _ _ _ Hd H).
Qed.

Lemma migration_is_idempotent_witness :
  let es' := fst (sample_updateNewIdToId legacy_state) in
  (sample_updateNewIdToId legacy_state = (es', Ok tt) /\
   get_path es' ["originalConfig"; "machine-1"; "version"]
   = Ok (JStr "1.27.0-0") /\
   sample_updateNewIdToId es' = (es', Ok tt)) /\
  exists s,
    sample_new_State "fresh" 5 legacy_state = Ok s /\
    sample_new_State "other" 9 (state_data s) = Ok s.
Proof.
  cbv zeta.
  destruct (migration_is_idempotent
              "1.27.0" "0" sample_versionCompare sample_updateIds
              ["System"] eq_refl) as [Hf Hs].
  split.
  - assert (H : sample_updateNewIdToId legacy_state
                = (fst (sample_updateNewIdToId legacy_state), Ok tt))
      by (vm_compute; reflexivity).
    split; [exact H|]. split; [vm_compute; reflexivity|].
    exact (proj1 (Hf _ _ H)).
  - destruct (sample_new_State "fresh" 5 legacy_state) as [s|] eqn:E;
      [|discriminate E].
    exists s. split; [reflexivity|].
    exact (Hs sample_updateIds_json "fresh" 5 legacy_state s "other" 9
              eq_refl E).
Defined.

End MigrationFacts.

(** * Facts about promise chains *)
Module PromiseFacts.
Import Js Promise Discipline.
Local Open Scope list_scope.

Lemma start_All ps :
  start (All ps)
  = let (ss, ev) := start_all ps in (SAll (first_rejection ss) ss, ev).
Proof. reflexivity. Qed.

Lemma fire_SAll n o rej ss :
  fire n o (SAll rej ss)
  = let (ss', ev) := fire_in o n ss in
    (SAll (match rej with Some e => Some e | None => first_rejection ss' end)
          ss', ev).
Proof.
  simpl.
  match goal with
  | |- (let (_, _) := ?f n ss in _) = _ =>
      assert (H : forall n, f n ss = fire_in o n ss)
  end.
  { induction ss as [|x r IH]; intros m; simpl; [reflexivity|].
    destruct (m <? _)%nat; [reflexivity|]. now rewrite IH. }
  now rewrite H.
Qed.


(** starting a promise only issues calls *)
Lemma start_issues p : Forall is_issue (snd (start p)).
Proof.
  induction p as [| | |p k IHp IHk|p h IHp IHh|ps IH|p q IHp IHq] using prog_ind;
    simpl; auto.
  - repeat constructor.
  - destruct (start p) as [s1 ev1]. simpl in IHp.
    destruct (status s1) as [[|e]|]; simpl; auto.
    destruct (start k) as [s2 ev2]. simpl in *. apply Forall_app; auto.
  - destruct (start p) as [s1 ev1]. simpl in IHp.
    destruct (status s1) as [[|e]|]; simpl; auto.
    specialize (IHh e). destruct (start (h e)) as [s2 ev2]. simpl in *.
    apply Forall_app; auto.
  - fold (start_all ps).
    assert (H : Forall is_issue (snd (start_all ps))).
    { induction IH as [|p r Hp _ IHr]; simpl; auto.
      destruct (start p) as [s1 ev1]. destruct (start_all r) as [ss ev2].
      simpl in *. apply Forall_app; auto. }
    destruct (start_all ps). exact H.
  - destruct (start p) as [s1 ev1]. destruct (start q) as [s2 ev2].
    simpl in *. apply Forall_app; auto.
Qed.


Lemma one_step_app o ev more :
  one_step o ev -> Forall is_issue more -> one_step o (ev ++ more).
Proof.
  intros [H|(c & m & -> & Hm)] Hmore.
  - left. apply Forall_app; auto.
  - right. exists c, (m ++ more). split; [reflexivity|]. apply Forall_app; auto.
Qed.

Lemma one_step_nil o : one_step o [].
Proof. left. constructor. Qed.

Lemma fire_in_events o ss :
  Forall (fun s => forall n o s' ev, fire n o s = (s', ev) -> one_step o ev) ss ->
  forall n ss' ev, fire_in o n ss = (ss', ev) -> one_step o ev.
Proof.
  induction 1 as [|x r Hx _ IHr]; intros n ss' ev; simpl.
  - intros [= <- <-]. apply one_step_nil.
  - destruct (n <? _)%nat.
    + destruct (fire n o x) as [x' ev1] eqn:E. intros [= <- <-]. eauto.
    + destruct (fire_in o _ r) as [r' ev1] eqn:E. intros [= <- <-]. eauto.
Qed.

Lemma fire_events s : forall n o s' ev,
  fire n o s = (s', ev) -> one_step o ev.
Proof.
  induction s as [o0|c|s k IH|s h IH|rej ss IH|s s2 IH1 IH2] using st_ind;
    intros n o s' ev.
  - simpl. intros [= <- <-]. apply one_step_nil.
  - simpl. destruct n; intros [= <- <-]; [|apply one_step_nil].
    right. exists c, []. split; auto.
  - simpl. destruct (fire n o s) as [s1 ev1] eqn:E. unfold resume_then.
    pose proof (start_issues k) as Hk.
    destruct (status s1) as [[|e]|]; [destruct (start k) as [s2 ev2]| |];
      intros [= <- <-]; apply one_step_app; eauto.
  - simpl. destruct (fire n o s) as [s1 ev1] eqn:E. unfold resume_catch.
    destruct (status s1) as [[|e]|];
      [| pose proof (start_issues (h e)) as Hk;
         destruct (start (h e)) as [s2 ev2] |];
      intros [= <- <-]; apply one_step_app; eauto.
  - rewrite fire_SAll. destruct (fire_in o n ss) as [ss' ev1] eqn:E.
    intros [= <- <-]. eapply fire_in_events; eauto.
  - simpl. destruct (n <? _)%nat.
    + destruct (fire n o s) as [s1 ev1] eqn:E. intros [= <- <-]. eauto.
    + destruct (fire _ o s2) as [s1 ev1] eqn:E. intros [= <- <-]. eauto.
Qed.

Lemma app_split_right {A} (l1 l2 pre : list A) x post :
  l1 ++ l2 = pre ++ x :: post -> ~ In x l1 ->
  exists pre2, pre = l1 ++ pre2 /\ l2 = pre2 ++ x :: post.
Proof.
  revert pre. induction l1 as [|a l1 IH]; intros pre E Hn; simpl in *.
  - exists pre. auto.
  - destruct pre as [|b pre]; simpl in E; injection E as -> E.
    + tauto.
    + destruct (IH pre E) as (pre2 & -> & ->); [tauto|]. eauto.
Qed.

Lemma settle_in_step o ev c' o' :
  one_step o ev -> In (Settle c' o') ev ->
  exists more, ev = Settle c' o' :: more /\ o' = o.
Proof.
  intros [H|(c & more & -> & H)] Hin.
  - rewrite Forall_forall in H. destruct (H _ Hin).
  - destruct Hin as [[= -> ->]|Hin]; [eauto|].
    rewrite Forall_forall in H. destruct (H _ Hin).
Qed.

(** ** The guard discipline is sound *)
Section GuardFacts.
Variable watched : call -> Prop.
Variable release : call -> outcome -> Prop.

Let lockedp := lockedp release.
Let quietp := quietp watched release.
Let locked := locked release.
Let quiet := quiet watched release.
Let released := released release.
Let silent := silent watched.
Let guard_step := guard_step watched release.

Lemma locked_SAll rej ss :
  locked (SAll rej ss) <-> rej <> None \/ Exists locked ss.
Proof.
  unfold locked. simpl. apply or_iff_compat_l.
  induction ss as [|x r IH]; simpl.
  - split; [tauto | intros H; inversion H].
  - rewrite IH. split.
    + intros [H|H]; [now left | now right].
    + intros H; inversion H; tauto.
Qed.

Lemma quiet_SAll rej ss : quiet (SAll rej ss) <-> Forall quiet ss.
Proof.
  unfold quiet. simpl.
  induction ss as [|x r IH]; simpl.
  - split; auto.
  - rewrite IH. split.
    + intros [H1 H2]. now constructor.
    + intros H; inversion H; tauto.
Qed.

Lemma lockedp_All ps : lockedp (All ps) <-> Exists lockedp ps.
Proof.
  unfold lockedp. simpl.
  induction ps as [|x r IH]; simpl.
  - split; [tauto | intros H; inversion H].
  - rewrite IH. split.
    + intros [H|H]; [now left | now right].
    + intros H; inversion H; tauto.
Qed.

Lemma quietp_All ps : quietp (All ps) <-> Forall quietp ps.
Proof.
  unfold quietp. simpl.
  induction ps as [|x r IH]; simpl.
  - split; auto.
  - rewrite IH. split.
    + intros [H1 H2]. now constructor.
    + intros H; inversion H; tauto.
Qed.

Lemma silent_app ev1 ev2 : silent ev1 -> silent ev2 -> silent (ev1 ++ ev2).
Proof.
  intros H1 H2 c Hin. apply in_app_or in Hin as [?|?]; [now apply H1 | now apply H2].
Qed.

Lemma silent_nil : silent [].
Proof. intros c []. Qed.

Lemma released_app_l ev1 ev2 : released ev1 -> released (ev1 ++ ev2).
Proof.
  intros (c & o & Hin & Hr). exists c, o. split; [|exact Hr].
  apply in_or_app. now left.
Qed.

(** a locked promise is not resolved *)
Lemma locked_not_resolved s : locked s -> status s <> Some Resolved.
Proof.
  induction s as [o0|c|s k IH|s h IH|rej ss IH|s s2 IH1 IH2] using st_ind.
  - destruct o0; simpl; [tauto | discriminate].
  - discriminate.
  - intros _. simpl. destruct (status s) as [[|e]|]; discriminate.
  - intros [H _]. simpl. specialize (IH H).
    destruct (status s) as [[|e]|]; congruence.
  - rewrite locked_SAll. intros [H|H]; simpl.
    + destruct rej; [discriminate | congruence].
    + destruct rej; [discriminate|].
      assert (E : forallb (fun x => match status x with
                                    | Some Resolved => true
                                    | _ => false
                                    end) ss = false).
      { induction H as [x r Hx|x r _ IHr]; simpl.
        - inversion IH as [|? ? Hx' _]; subst. specialize (Hx' Hx).
          destruct (status x) as [[|e]|]; simpl; congruence.
        - inversion IH; subst. rewrite IHr by assumption. apply andb_false_r. }
      rewrite E. discriminate.
  - simpl. exact IH2.
Qed.

Lemma start_all_locked ps :
  Forall (fun p => lockedp p -> locked (fst (start p))) ps ->
  Exists lockedp ps -> Exists locked (fst (start_all ps)).
Proof.
  induction 1 as [|p r Hp _ IHr]; intros Hex; inversion Hex; subst; simpl.
  - specialize (Hp H0). destruct (start p) as [s1 ev1].
    destruct (start_all r). now left.
  - specialize (IHr H0). destruct (start p) as [s1 ev1].
    destruct (start_all r). now right.
Qed.

(** starting a locked promise gives a locked promise *)
Lemma start_locked p : lockedp p -> locked (fst (start p)).
Proof.
  induction p as [| | |p k IHp IHk|p h IHp IHh|ps IH|p q IHp IHq] using prog_ind.
  - intros [].
  - intros _. exact I.
  - intros H. exact H.
  - intros H. simpl. destruct (start p) as [s1 ev1] eqn:E1. simpl in IHp.
    destruct (status s1) as [[|e]|] eqn:Es.
    + destruct (start k) as [s2 ev2]. simpl in *.
      destruct H as [H|H]; [|auto].
      exfalso. exact (locked_not_resolved _ (IHp H) Es).
    + destruct H as [H|H]; [left; apply IHp; exact H | right; exact H].
    + destruct H as [H|H]; [left; apply IHp; exact H | right; exact H].
  - intros [H1 H2]. simpl. destruct (start p) as [s1 ev1] eqn:E1. simpl in IHp.
    destruct (status s1) as [[|e]|] eqn:Es.
    + split; auto.
    + specialize (IHh e (H2 e)). destruct (start (h e)) as [s2 ev2]. exact IHh.
    + split; auto.
  - rewrite lockedp_All. intros H. rewrite start_All.
    pose proof (start_all_locked ps IH H) as Hs.
    destruct (start_all ps) as [ss ev]. simpl in *.
    exact (proj2 (locked_SAll (first_rejection ss) ss) (or_intror Hs)).
  - intros H. simpl. destruct (start p) as [s1 ev1].
    specialize (IHq H). destruct (start q) as [s2 ev2]. exact IHq.
Qed.

Lemma start_all_quiet ps :
  Forall (fun p => quietp p ->
                   quiet (fst (start p)) /\ silent (snd (start p))) ps ->
  Forall quietp ps ->
  Forall quiet (fst (start_all ps)) /\ silent (snd (start_all ps)).
Proof.
  induction 1 as [|p r Hp _ IHr]; intros Hall; simpl.
  - split; [constructor | apply silent_nil].
  - inversion Hall; subst. destruct (Hp H1) as [Hq Hs].
    destruct (IHr H2) as [Hq' Hs'].
    destruct (start p) as [s1 ev1]. destruct (start_all r) as [ss ev2].
    simpl in *. split; [now constructor | now apply silent_app].
Qed.

(** starting a quiet promise issues no watched call and gives a quiet
    promise *)
Lemma start_quiet p :
  quietp p -> quiet (fst (start p)) /\ silent (snd (start p)).
Proof.
  induction p as [| |c0|p k IHp IHk|p h IHp IHh|ps IH|p q IHp IHq] using prog_ind.
  - intros _. split; [exact I | apply silent_nil].
  - intros _. split; [exact I | apply silent_nil].
  - intros H. split; [exact I|]. intros c [[= <-]|[]]. exact H.
  - intros [H1 H2]. simpl. destruct (IHp H1) as [Hq Hs].
    pose proof (start_locked p) as Hl.
    destruct (start p) as [s1 ev1] eqn:E1. simpl in *.
    destruct (status s1) as [[|e]|] eqn:Es.
    + destruct H2 as [H2|H2];
        [exfalso; exact (locked_not_resolved _ (Hl H2) Es)|].
      destruct (IHk H2) as [Hq2 Hs2]. destruct (start k) as [s2 ev2].
      simpl in *. split; [split; auto | now apply silent_app].
    + split; [|exact Hs]. split; [exact Hq|].
      destruct H2 as [H2|H2]; [left; apply Hl; exact H2 | right; exact H2].
    + split; [|exact Hs]. split; [exact Hq|].
      destruct H2 as [H2|H2]; [left; apply Hl; exact H2 | right; exact H2].
  - intros [H1 H2]. simpl. destruct (IHp H1) as [Hq Hs].
    destruct (start p) as [s1 ev1] eqn:E1. simpl in *.
    destruct (status s1) as [[|e]|] eqn:Es.
    + split; [split; auto | exact Hs].
    + destruct (IHh e (H2 e)) as [Hq2 Hs2]. destruct (start (h e)) as [s2 ev2].
      simpl in *. split; [split; auto | now apply silent_app].
    + split; [split; auto | exact Hs].
  - rewrite quietp_All. intros H. rewrite start_All.
    destruct (start_all_quiet ps IH H) as [Hq Hs].
    destruct (start_all ps) as [ss ev]. simpl in *.
    exact (conj (proj2 (quiet_SAll (first_rejection ss) ss) Hq) Hs).
  - intros [H1 H2]. simpl. destruct (IHp H1) as [Hq Hs].
    destruct (IHq H2) as [Hq2 Hs2].
    destruct (start p) as [s1 ev1]. destruct (start q) as [s2 ev2].
    simpl in *. split; [split; auto | now apply silent_app].
Qed.


Lemma fire_in_guard o ss :
  Forall guard_step ss ->
  forall n ss' ev,
    fire_in o n ss = (ss', ev) ->
    (Exists locked ss -> Exists locked ss' \/ released ev) /\
    (Forall quiet ss -> (Forall quiet ss' /\ silent ev) \/ released ev).
Proof.
  induction 1 as [|x r Hx _ IHr]; intros n ss' ev; simpl.
  - intros [= <- <-]. split.
    + intros H. inversion H.
    + intros _. left. split; [constructor | apply silent_nil].
  - destruct (n <? _)%nat.
    + destruct (fire n o x) as [x' ev1] eqn:E. intros [= <- <-].
      destruct (Hx _ _ _ _ E) as [Hl Hq]. split.
      * intros H. inversion H; subst.
        -- destruct (Hl H1) as [?|?]; [left; now left | now right].
        -- left. now right.
      * intros H. inversion H; subst.
        destruct (Hq H2) as [[? ?]|?]; [left | now right].
        split; [now constructor | assumption].
    + destruct (fire_in o _ r) as [r' ev1] eqn:E. intros [= <- <-].
      destruct (IHr _ _ _ E) as [Hl Hq]. split.
      * intros H. inversion H; subst.
        -- left. now left.
        -- destruct (Hl H1) as [?|?]; [left; now right | now right].
      * intros H. inversion H; subst.
        destruct (Hq H3) as [[? ?]|?]; [left | now right].
        split; [now constructor | assumption].
Qed.

Lemma fire_guard s : guard_step s.
Proof.
  induction s as [o0|c|s k IH|s h IH|rej ss IH|s s2 IH1 IH2] using st_ind;
    intros n o s' ev.
  - simpl. intros [= <- <-]. split; [now left|].
    intros _. left. split; [exact I | apply silent_nil].
  - simpl. destruct n; intros [= <- <-].
    + split.
      * intros H. destruct o; [right | now left].
        exists c, Resolved. split; [now left | exact H].
      * intros _. left. split; [exact I|]. intros c' [[=]|[]].
    + split; [now left|]. intros _. left. split; [exact I | apply silent_nil].
  - simpl. destruct (fire n o s) as [s1 ev1] eqn:E.
    destruct (IH _ _ _ _ E) as [Hl Hq]. unfold resume_then.
    pose proof (start_locked k) as Hkl. pose proof (start_quiet k) as Hkq.
    destruct (status s1) as [[|e]|] eqn:Es;
      [destruct (start k) as [s2 ev2]; simpl in Hkl, Hkq| |];
      intros [= <- <-]; split.
    + intros [H|H].
      * destruct (Hl H) as [H1|H1]; [|right; now apply released_app_l].
        exfalso. exact (locked_not_resolved _ H1 Es).
      * left. exact (Hkl H).
    + intros [H1 H2]. destruct (Hq H1) as [[Hq1 Hs1]|Hr];
        [|right; now apply released_app_l].
      destruct H2 as [H2|H2].
      * destruct (Hl H2) as [H3|H3]; [|right; now apply released_app_l].
        exfalso. exact (locked_not_resolved _ H3 Es).
      * destruct (Hkq H2) as [Hq2 Hs2]. left.
        split; [split; assumption | now apply silent_app].
    + intros [H|H].
      * destruct (Hl H) as [H1|H1]; [left; now left|].
        right; now apply released_app_l.
      * left. now right.
    + intros [H1 H2]. destruct (Hq H1) as [[Hq1 Hs1]|Hr];
        [|right; now apply released_app_l].
      destruct H2 as [H2|H2].
      * destruct (Hl H2) as [H3|H3]; [|right; now apply released_app_l].
        left. split; [split; [assumption | now left]|].
        apply silent_app; [assumption | apply silent_nil].
      * left. split; [split; [assumption | now right]|].
        apply silent_app; [assumption | apply silent_nil].
    + intros [H|H].
      * destruct (Hl H) as [H1|H1]; [left; now left|].
        right; now apply released_app_l.
      * left. now right.
    + intros [H1 H2]. destruct (Hq H1) as [[Hq1 Hs1]|Hr];
        [|right; now apply released_app_l].
      destruct H2 as [H2|H2].
      * destruct (Hl H2) as [H3|H3]; [|right; now apply released_app_l].
        left. split; [split; [assumption | now left]|].
        apply silent_app; [assumption | apply silent_nil].
      * left. split; [split; [assumption | now right]|].
        apply silent_app; [assumption | apply silent_nil].
  - simpl. destruct (fire n o s) as [s1 ev1] eqn:E.
    destruct (IH _ _ _ _ E) as [Hl Hq]. unfold resume_catch.
    destruct (status s1) as [[|e]|] eqn:Es;
      [| pose proof (start_locked (h e)) as Hkl;
         pose proof (start_quiet (h e)) as Hkq;
         destruct (start (h e)) as [s2 ev2]; simpl in Hkl, Hkq |];
      intros [= <- <-]; split.
    + intros [H1 H2]. destruct (Hl H1) as [H3|H3];
        [left; split; assumption | right; now apply released_app_l].
    + intros [H1 H2]. destruct (Hq H1) as [[Hq1 Hs1]|Hr];
        [|right; now apply released_app_l].
      left. split; [split; assumption|].
      apply silent_app; [assumption | apply silent_nil].
    + intros [H1 H2]. left. exact (Hkl (H2 e)).
    + intros [H1 H2]. destruct (Hq H1) as [[Hq1 Hs1]|Hr];
        [|right; now apply released_app_l].
      destruct (Hkq (H2 e)) as [Hq2 Hs2]. left.
      split; [split; assumption | now apply silent_app].
    + intros [H1 H2]. destruct (Hl H1) as [H3|H3];
        [left; split; assumption | right; now apply released_app_l].
    + intros [H1 H2]. destruct (Hq H1) as [[Hq1 Hs1]|Hr];
        [|right; now apply released_app_l].
      left. split; [split; assumption|].
      apply silent_app; [assumption | apply silent_nil].
  - rewrite fire_SAll. destruct (fire_in o n ss) as [ss' ev1] eqn:E.
    intros [= <- <-]. destruct (fire_in_guard o ss IH _ _ _ E) as [Hl Hq].
    split.
    + intros H. apply locked_SAll in H as [H|H].
      * left. apply locked_SAll. left. destruct rej; [discriminate | congruence].
      * destruct (Hl H) as [H1|H1]; [|now right].
        left. apply locked_SAll. now right.
    + intros H. apply quiet_SAll in H. destruct (Hq H) as [[H1 H2]|H1];
        [|now right].
      left. split; [|assumption]. now apply quiet_SAll.
  - simpl. destruct (n <? _)%nat.
    + destruct (fire n o s) as [s1 ev1] eqn:E. intros [= <- <-].
      destruct (IH1 _ _ _ _ E) as [Hl Hq]. split.
      * intros H. now left.
      * intros [H1 H2]. destruct (Hq H1) as [[? ?]|?]; [left | now right].
        split; [split; assumption | assumption].
    + destruct (fire _ o s2) as [s1 ev1] eqn:E. intros [= <- <-].
      destruct (IH2 _ _ _ _ E) as [Hl Hq]. split.
      * exact Hl.
      * intros [H1 H2]. destruct (Hq H2) as [[? ?]|?]; [left | now right].
        split; [split; assumption | assumption].
Qed.

Lemma run_guard sched : forall s s' ev,
  run sched s = (s', ev) -> quiet s ->
  forall pre c post,
    ev = pre ++ Issue c :: post -> watched c ->
    exists c' o, In (Settle c' o) pre /\ release c' o.
Proof.
  induction sched as [|[n o] r IH]; intros s s' ev; simpl.
  - intros [= <- <-] _ pre c post E. destruct pre; discriminate.
  - destruct (fire n o s) as [s1 ev1] eqn:E1.
    destruct (run r s1) as [s2 ev2] eqn:E2. intros [= <- <-] Hq pre c post E Hw.
    destruct (proj2 (fire_guard s _ _ _ _ E1) Hq) as [[Hq1 Hs1]|(c' & o' & Hin & Hr)].
    + destruct (app_split_right _ _ _ _ _ E) as (pre2 & -> & E').
      { intros Hin. exact (Hs1 _ Hin Hw). }
      destruct (IH _ _ _ E2 Hq1 _ _ _ E' Hw) as (c' & o' & Hin & Hr).
      exists c', o'. split; [|exact Hr]. apply in_or_app. now right.
    + destruct (settle_in_step _ _ _ _ (fire_events _ _ _ _ _ E1) Hin)
        as (more & -> & ->).
      exists c', o. split; [|exact Hr].
      destruct pre as [|x pre]; simpl in E; [discriminate|].
      injection E as <- _. now left.
Qed.

(** a quiet promise issues a watched call only after a release *)
Theorem guard_sound p sched pre c post :
  quietp p ->
  trace p sched = pre ++ Issue c :: post -> watched c ->
  exists c' o, In (Settle c' o) pre /\ release c' o.
Proof.
  intros Hq E Hw. unfold trace, exec in E.
  destruct (start_quiet p Hq) as [Hq0 Hs0].
  destruct (start p) as [s0 ev0]. simpl in Hq0, Hs0.
  destruct (run sched s0) as [s' ev] eqn:Er. simpl in E.
  destruct (app_split_right _ _ _ _ _ E) as (pre2 & -> & E').
  { intros Hin. exact (Hs0 _ Hin Hw). }
  destruct (run_guard _ _ _ _ Er Hq0 _ _ _ E' Hw) as (c' & o' & Hin & Hr).
  exists c', o'. split; [|exact Hr]. apply in_or_app. now right.
Qed.

End GuardFacts.
(** ** The once discipline is sound *)
Section OnceFacts.
Variable u : call.

Let absentp := absentp u.
Let oncep := oncep u.
Let absent := absent u.
Let once := once u.
Let unsettled := unsettled u.
Let once_step := once_step u.

Lemma absentp_All ps : absentp (All ps) <-> Forall absentp ps.
Proof.
  unfold absentp. simpl. induction ps as [|x r IH]; simpl.
  - split; auto.
  - rewrite IH. split.
    + intros [H1 H2]. now constructor.
    + intros H; inversion H; tauto.
Qed.

Lemma absent_SAll rej ss : absent (SAll rej ss) <-> Forall absent ss.
Proof.
  unfold absent. simpl. induction ss as [|x r IH]; simpl.
  - split; auto.
  - rewrite IH. split.
    + intros [H1 H2]. now constructor.
    + intros H; inversion H; tauto.
Qed.

Lemma unsettled_issues ev : Forall is_issue ev -> unsettled ev.
Proof.
  intros H o Hin. rewrite Forall_forall in H. exact (H _ Hin).
Qed.

Lemma unsettled_app ev1 ev2 :
  unsettled ev1 -> unsettled ev2 -> unsettled (ev1 ++ ev2).
Proof.
  intros H1 H2 o Hin. apply in_app_or in Hin as [?|?];
    [exact (H1 o H) | exact (H2 o H)].
Qed.

Lemma unsettled_nil : unsettled [].
Proof. intros o []. Qed.

Lemma start_all_absent ps :
  Forall (fun p => absentp p -> absent (fst (start p))) ps ->
  Forall absentp ps -> Forall absent (fst (start_all ps)).
Proof.
  induction 1 as [|p r Hp _ IHr]; intros Hall; simpl; [constructor|].
  inversion Hall; subst. specialize (Hp H1). specialize (IHr H2).
  destruct (start p) as [s1 ev1]. destruct (start_all r) as [ss ev2].
  now constructor.
Qed.

Lemma start_absent p : absentp p -> absent (fst (start p)).
Proof.
  induction p as [| |c0|p k IHp IHk|p h IHp IHh|ps IH|p q IHp IHq] using prog_ind.
  - intros _. exact I.
  - intros _. exact I.
  - intros H. exact H.
  - intros [H1 H2]. simpl. specialize (IHp H1). specialize (IHk H2).
    destruct (start p) as [s1 ev1]. simpl in IHp.
    destruct (status s1) as [[|e]|].
    + destruct (start k) as [s2 ev2]. split; assumption.
    + split; assumption.
    + split; assumption.
  - intros [H1 H2]. simpl. specialize (IHp H1).
    destruct (start p) as [s1 ev1]. simpl in IHp.
    destruct (status s1) as [[|e]|].
    + split; assumption.
    + specialize (IHh e (H2 e)). destruct (start (h e)) as [s2 ev2].
      split; assumption.
    + split; assumption.
  - intros H. apply absentp_All in H. rewrite start_All.
    pose proof (start_all_absent ps IH H) as Hs.
    destruct (start_all ps) as [ss ev]. simpl in *.
    exact (proj2 (absent_SAll (first_rejection ss) ss) Hs).
  - intros [H1 H2]. simpl. specialize (IHp H1). specialize (IHq H2).
    destruct (start p) as [s1 ev1]. destruct (start q) as [s2 ev2].
    split; assumption.
Qed.

Lemma oncep_All_cons p r :
  oncep (All (p :: r)) <->
  (oncep p /\ absentp (All r)) \/ (absentp p /\ oncep (All r)).
Proof. reflexivity. Qed.

Lemma once_SAll_cons rej x r :
  once (SAll rej (x :: r)) <->
  (once x /\ absent (SAll rej r)) \/ (absent x /\ once (SAll rej r)).
Proof. reflexivity. Qed.

Lemma start_all_cons p r :
  fst (start_all (p :: r)) = fst (start p) :: fst (start_all r).
Proof.
  simpl. destruct (start p) as [s1 ev1]. now destruct (start_all r).
Qed.

Lemma start_all_absent_all r :
  Forall absentp r -> Forall absent (fst (start_all r)).
Proof.
  induction 1 as [|q r Hq _ IH]; [constructor|].
  rewrite start_all_cons. constructor; [now apply start_absent | exact IH].
Qed.

Lemma start_all_once ps rej :
  Forall (fun p => oncep p -> once (fst (start p))) ps ->
  oncep (All ps) -> once (SAll rej (fst (start_all ps))).
Proof.
  induction 1 as [|p r Hp _ IHr]; intros Hone; [exact I|].
  rewrite start_all_cons. apply once_SAll_cons.
  apply oncep_All_cons in Hone as [[H1 H2]|[H1 H2]].
  - left. split; [exact (Hp H1)|].
    apply absent_SAll. apply absentp_All in H2.
    now apply start_all_absent_all.
  - right. split; [now apply start_absent | exact (IHr H2)].
Qed.

Lemma start_once p : oncep p -> once (fst (start p)).
Proof.
  induction p as [| |c0|p k IHp IHk|p h IHp IHh|ps IH|p q IHp IHq] using prog_ind.
  - intros _. exact I.
  - intros _. exact I.
  - intros _. exact I.
  - intros H. simpl.
    pose proof (start_absent p) as Hap. pose proof (start_absent k) as Hak.
    destruct (start p) as [s1 ev1]. simpl in IHp, Hap.
    destruct (status s1) as [[|e]|].
    + destruct (start k) as [s2 ev2]. simpl in *.
      destruct H as [[H1 H2]|[H1 H2]];
        [left; split; [exact (IHp H1) | exact (Hak H2)]
        |right; split; [exact (Hap H1) | exact (IHk H2)]].
    + destruct H as [[H1 H2]|[H1 H2]];
        [left; split; [exact (IHp H1) | exact H2]
        |right; split; [exact (Hap H1) | exact H2]].
    + destruct H as [[H1 H2]|[H1 H2]];
        [left; split; [exact (IHp H1) | exact H2]
        |right; split; [exact (Hap H1) | exact H2]].
  - intros H. simpl. pose proof (start_absent p) as Hap.
    destruct (start p) as [s1 ev1]. simpl in IHp, Hap.
    destruct (status s1) as [[|e]|].
    + destruct H as [[H1 H2]|[H1 H2]];
        [left; split; [exact (IHp H1) | exact H2]
        |right; split; [exact (Hap H1) | exact H2]].
    + pose proof (start_absent (h e)) as Hah. specialize (IHh e).
      destruct (start (h e)) as [s2 ev2]. simpl in *.
      destruct H as [[H1 H2]|[H1 H2]];
        [left; split; [exact (IHp H1) | exact (Hah (H2 e))]
        |right; split; [exact (Hap H1) | exact (IHh (H2 e))]].
    + destruct H as [[H1 H2]|[H1 H2]];
        [left; split; [exact (IHp H1) | exact H2]
        |right; split; [exact (Hap H1) | exact H2]].
  - intros H. rewrite start_All.
    pose proof (fun rej => start_all_once ps rej IH H) as Hs.
    destruct (start_all ps) as [ss ev]. apply Hs.
  - intros H. simpl.
    pose proof (start_absent p) as Hap. pose proof (start_absent q) as Haq.
    destruct (start p) as [s1 ev1]. destruct (start q) as [s2 ev2].
    simpl in *.
    destruct H as [[H1 H2]|[H1 H2]];
      [left; split; [exact (IHp H1) | exact (Haq H2)]
      |right; split; [exact (Hap H1) | exact (IHq H2)]].
Qed.

Lemma once_SAll_rej rej rej' ss : once (SAll rej ss) -> once (SAll rej' ss).
Proof.
  induction ss as [|x r IH]; [auto|].
  intros H. apply once_SAll_cons in H. apply once_SAll_cons.
  destruct H as [[H1 H2]|[H1 H2]]; [left | right; auto].
  split; [exact H1|]. apply absent_SAll. now apply absent_SAll in H2.
Qed.


Lemma fire_in_once o rej ss :
  Forall once_step ss ->
  forall n ss' ev,
    fire_in o n ss = (ss', ev) ->
    (Forall absent ss -> Forall absent ss' /\ unsettled ev) /\
    (once (SAll rej ss) ->
     (once (SAll rej ss') /\ unsettled ev) \/ Forall absent ss').
Proof.
  induction 1 as [|x r Hx _ IHr]; intros n ss' ev Hf; simpl in Hf.
  - injection Hf as <- <-. split.
    + intros _. split; [constructor | apply unsettled_nil].
    + intros _. left. split; [exact I | apply unsettled_nil].
  - destruct (n <? _)%nat.
    + destruct (fire n o x) as [x' ev1] eqn:E. injection Hf as <- <-.
      destruct (Hx _ _ _ _ E) as [Ha Ho]. split.
      * intros H. inversion H; subst. destruct (Ha H2) as [? ?].
        split; [now constructor | assumption].
      * intros H. apply once_SAll_cons in H as [[H1 H2]|[H1 H2]].
        -- destruct (Ho H1) as [[? ?]|?].
           ++ left. split; [|assumption]. apply once_SAll_cons. now left.
           ++ right. constructor; [assumption | now apply absent_SAll in H2].
        -- destruct (Ha H1) as [? ?]. left. split; [|assumption].
           apply once_SAll_cons. now right.
    + destruct (fire_in o _ r) as [r' ev1] eqn:E. injection Hf as <- <-.
      destruct (IHr _ _ _ E) as [Ha Ho]. split.
      * intros H. inversion H; subst. destruct (Ha H3) as [? ?].
        split; [now constructor | assumption].
      * intros H. apply once_SAll_cons in H as [[H1 H2]|[H1 H2]].
        -- apply absent_SAll in H2. destruct (Ha H2) as [? ?].
           left. split; [|assumption]. apply once_SAll_cons. left.
           split; [assumption | now apply absent_SAll].
        -- destruct (Ho H2) as [[? ?]|?].
           ++ left. split; [|assumption]. apply once_SAll_cons. now right.
           ++ right. now constructor.
Qed.

Ltac close :=
  first [ assumption
        | match goal with
          | H : _ -> _ |- _ =>
              apply H;
              first [ assumption
                    | match goal with
                      | H2 : forall e : exn, _ |- _ => apply H2
                      end ]
          | H : forall e : exn, _ |- _ => apply H
          end ].

Lemma fire_once s : once_step s.
Proof.
  induction s as [o0|c|s k IH|s h IH|rej ss IH|s s2 IH1 IH2] using st_ind;
    intros n o s' ev.
  - simpl. intros [= <- <-]. split.
    + intros _. split; [exact I | apply unsettled_nil].
    + intros _. now right.
  - simpl. destruct n; intros [= <- <-]; split.
    + intros H. split; [exact I|]. intros o' [[= ->]|[]]. now apply H.
    + intros _. now right.
    + intros H. split; [exact H | apply unsettled_nil].
    + intros _. left. split; [exact I | apply unsettled_nil].
  - simpl. destruct (fire n o s) as [s1 ev1] eqn:E.
    destruct (IH _ _ _ _ E) as [Ha Ho]. unfold resume_then.
    pose proof (start_absent k) as Hka. pose proof (start_once k) as Hko.
    pose proof (unsettled_issues _ (start_issues k)) as Hki.
    destruct (status s1) as [[|e]|] eqn:Es;
      [destruct (start k) as [s2 ev2]; simpl in Hka, Hko, Hki| |];
      intros [= <- <-]; split.
    + intros [H1 H2]. destruct (Ha H1) as [? ?].
      split; [split; close | now apply unsettled_app].
    + intros [[H1 H2]|[H1 H2]].
      * destruct (Ho H1) as [[? ?]|?].
        -- left. split; [|now apply unsettled_app]. left. split; close.
        -- right. split; close.
      * destruct (Ha H1) as [? ?]. left.
        split; [|now apply unsettled_app]. right. split; close.
    + intros [H1 H2]. destruct (Ha H1) as [? ?].
      split; [split; close|]. apply unsettled_app; [assumption | apply unsettled_nil].
    + intros [[H1 H2]|[H1 H2]].
      * destruct (Ho H1) as [[? ?]|?].
        -- left. split; [now left|].
           apply unsettled_app; [assumption | apply unsettled_nil].
        -- right. split; close.
      * destruct (Ha H1) as [? ?]. left. split; [now right|].
        apply unsettled_app; [assumption | apply unsettled_nil].
    + intros [H1 H2]. destruct (Ha H1) as [? ?].
      split; [split; close|]. apply unsettled_app; [assumption | apply unsettled_nil].
    + intros [[H1 H2]|[H1 H2]].
      * destruct (Ho H1) as [[? ?]|?].
        -- left. split; [now left|].
           apply unsettled_app; [assumption | apply unsettled_nil].
        -- right. split; close.
      * destruct (Ha H1) as [? ?]. left. split; [now right|].
        apply unsettled_app; [assumption | apply unsettled_nil].
  - simpl. destruct (fire n o s) as [s1 ev1] eqn:E.
    destruct (IH _ _ _ _ E) as [Ha Ho]. unfold resume_catch.
    destruct (status s1) as [[|e]|] eqn:Es;
      [| pose proof (start_absent (h e)) as Hka;
         pose proof (start_once (h e)) as Hko;
         pose proof (unsettled_issues _ (start_issues (h e))) as Hki;
         destruct (start (h e)) as [s2 ev2]; simpl in Hka, Hko, Hki |];
      intros [= <- <-]; split.
    + intros [H1 H2]. destruct (Ha H1) as [? ?].
      split; [split; close|]. apply unsettled_app; [assumption | apply unsettled_nil].
    + intros [[H1 H2]|[H1 H2]].
      * destruct (Ho H1) as [[? ?]|?].
        -- left. split; [now left|].
           apply unsettled_app; [assumption | apply unsettled_nil].
        -- right. split; close.
      * destruct (Ha H1) as [? ?]. left. split; [now right|].
        apply unsettled_app; [assumption | apply unsettled_nil].
    + intros [H1 H2]. destruct (Ha H1) as [? ?].
      split; [split; close | now apply unsettled_app].
    + intros [[H1 H2]|[H1 H2]].
      * destruct (Ho H1) as [[? ?]|?].
        -- left. split; [|now apply unsettled_app]. left. split; close.
        -- right. split; close.
      * destruct (Ha H1) as [? ?]. left.
        split; [|now apply unsettled_app]. right. split; close.
    + intros [H1 H2]. destruct (Ha H1) as [? ?].
      split; [split; close|]. apply unsettled_app; [assumption | apply unsettled_nil].
    + intros [[H1 H2]|[H1 H2]].
      * destruct (Ho H1) as [[? ?]|?].
        -- left. split; [now left|].
           apply unsettled_app; [assumption | apply unsettled_nil].
        -- right. split; close.
      * destruct (Ha H1) as [? ?]. left. split; [now right|].
        apply unsettled_app; [assumption | apply unsettled_nil].
  - rewrite fire_SAll. destruct (fire_in o n ss) as [ss' ev1] eqn:E.
    intros [= <- <-].
    destruct (fire_in_once o rej ss IH _ _ _ E) as [Ha Ho]. split.
    + intros H. apply absent_SAll in H. destruct (Ha H) as [? ?].
      split; [now apply absent_SAll | assumption].
    + intros H. destruct (Ho H) as [[? ?]|?].
      * left. split; [|assumption]. eapply once_SAll_rej; eauto.
      * right. now apply absent_SAll.
  - simpl. destruct (n <? _)%nat.
    + destruct (fire n o s) as [s1 ev1] eqn:E. intros [= <- <-].
      destruct (IH1 _ _ _ _ E) as [Ha Ho]. split.
      * intros [H1 H2]. destruct (Ha H1) as [? ?]. split; [split; close | close].
      * intros [[H1 H2]|[H1 H2]].
        -- destruct (Ho H1) as [[? ?]|?]; [left | right; split; close].
           split; [now left | assumption].
        -- destruct (Ha H1) as [? ?]. left. split; [now right | assumption].
    + destruct (fire _ o s2) as [s1 ev1] eqn:E. intros [= <- <-].
      destruct (IH2 _ _ _ _ E) as [Ha Ho]. split.
      * intros [H1 H2]. destruct (Ha H2) as [? ?]. split; [split; close | close].
      * intros [[H1 H2]|[H1 H2]].
        -- destruct (Ha H2) as [? ?]. left. split; [now left | assumption].
        -- destruct (Ho H2) as [[? ?]|?]; [left | right; split; close].
           split; [now right | assumption].
Qed.

Lemma run_absent sched : forall s s' ev,
  run sched s = (s', ev) -> absent s -> unsettled ev.
Proof.
  induction sched as [|[n o] r IH]; intros s s' ev; simpl.
  - intros [= <- <-] _. apply unsettled_nil.
  - destruct (fire n o s) as [s1 ev1] eqn:E1.
    destruct (run r s1) as [s2 ev2] eqn:E2. intros [= <- <-] Ha.
    destruct (proj1 (fire_once s _ _ _ _ E1) Ha) as [Ha1 Hu1].
    apply unsettled_app; [assumption | eauto].
Qed.

Lemma run_once sched : forall s s' ev,
  run sched s = (s', ev) -> once s ->
  forall a o1 b, ev = a ++ Settle u o1 :: b -> unsettled a /\ unsettled b.
Proof.
  induction sched as [|[n o] r IH]; intros s s' ev; simpl.
  - intros [= <- <-] _ a o1 b E. destruct a; discriminate.
  - destruct (fire n o s) as [s1 ev1] eqn:E1.
    destruct (run r s1) as [s2 ev2] eqn:E2. intros [= <- <-] Ho a o1 b E.
    destruct (proj2 (fire_once s _ _ _ _ E1) Ho) as [[Ho1 Hu1]|Ha1].
    + destruct (app_split_right _ _ _ _ _ E (Hu1 o1)) as (a2 & -> & E').
      destruct (IH _ _ _ E2 Ho1 _ _ _ E') as [? ?].
      split; [now apply unsettled_app | assumption].
    + pose proof (run_absent _ _ _ _ E2 Ha1) as Hu2.
      destruct (fire_events _ _ _ _ _ E1) as [Hi|(c & more & -> & Hi)].
      * exfalso. apply unsettled_issues in Hi.
        assert (Hin : In (Settle u o1) (ev1 ++ ev2)).
        { rewrite E. apply in_or_app. right. now left. }
        apply in_app_or in Hin as [Hin|Hin]; [exact (Hi _ Hin) | exact (Hu2 _ Hin)].
      * apply unsettled_issues in Hi.
        destruct a as [|x a]; simpl in E.
        -- injection E as _ _ <-. split; [apply unsettled_nil|].
           now apply unsettled_app.
        -- injection E as _ E. exfalso.
           assert (Hin : In (Settle u o1) (more ++ ev2)).
           { rewrite E. apply in_or_app. right. now left. }
           apply in_app_or in Hin as [Hin|Hin];
             [exact (Hi _ Hin) | exact (Hu2 _ Hin)].
Qed.

(** a call that a promise issues at most once settles at most once *)
Theorem once_sound p sched a o1 b :
  oncep p ->
  trace p sched = a ++ Settle u o1 :: b -> unsettled a /\ unsettled b.
Proof.
  intros Ho E. unfold trace, exec in E.
  pose proof (start_once p Ho) as Ho0.
  pose proof (unsettled_issues _ (start_issues p)) as Hu0.
  destruct (start p) as [s0 ev0]. simpl in Ho0, Hu0.
  destruct (run sched s0) as [s' ev] eqn:Er. simpl in E.
  destruct (app_split_right _ _ _ _ _ E (Hu0 o1)) as (a2 & -> & E').
  destruct (run_once _ _ _ _ Er Ho0 _ _ _ E') as [? ?].
  split; [now apply unsettled_app | assumption].
Qed.

End OnceFacts.
(** ** A settled promise stays as it is *)


Lemma status_SAll rej ss :
  status (SAll rej ss)
  = match rej with
    | Some e => Some (Rejected e)
    | None => if all_resolved ss then Some Resolved else None
    end.
Proof. reflexivity. Qed.

Lemma all_resolved_no_rejection ss :
  all_resolved ss = true -> first_rejection ss = None.
Proof.
  induction ss as [|x r IH]; simpl; [reflexivity|].
  destruct (status x) as [[|e]|]; simpl; try discriminate. exact IH.
Qed.


Lemma fire_in_resolved o ss :
  Forall stable ss ->
  forall n ss' ev,
    fire_in o n ss = (ss', ev) ->
    all_resolved ss = true -> all_resolved ss' = true.
Proof.
  induction 1 as [|x r Hx _ IHr]; intros n ss' ev Hf; simpl in Hf.
  - now injection Hf as <- <-.
  - destruct (n <? _)%nat.
    + destruct (fire n o x) as [x' ev1] eqn:E. injection Hf as <- <-.
      simpl. destruct (status x) as [[|e]|] eqn:Es; try discriminate.
      now rewrite (Hx _ _ _ _ _ E Es).
    + destruct (fire_in o _ r) as [r' ev1] eqn:E. injection Hf as <- <-.
      simpl. destruct (status x) as [[|e]|]; try discriminate.
      simpl. eauto.
Qed.

Lemma status_stable s : stable s.
Proof.
  induction s as [o0|c|s k IH|s h IH|rej ss IH|s s2 IH1 IH2] using st_ind;
    intros n o' s' ev o.
  - simpl. now intros [= <- <-].
  - simpl. discriminate 2.
  - simpl. destruct (fire n o' s) as [s1 ev1] eqn:E. unfold resume_then.
    destruct (status s) as [[|e]|] eqn:Es; try discriminate 2.
    rewrite (IH _ _ _ _ _ E Es). intros [= <- <-] [= <-].
    simpl. now rewrite (IH _ _ _ _ _ E Es).
  - simpl. destruct (fire n o' s) as [s1 ev1] eqn:E. unfold resume_catch.
    destruct (status s) as [[|e]|] eqn:Es; try discriminate 2.
    rewrite (IH _ _ _ _ _ E Es). intros [= <- <-] [= <-].
    simpl. now rewrite (IH _ _ _ _ _ E Es).
  - rewrite fire_SAll. destruct (fire_in o' n ss) as [ss' ev1] eqn:E.
    intros [= <- <-]. rewrite !status_SAll.
    destruct rej as [e|]; [auto|].
    destruct (all_resolved ss) eqn:Ea; [|discriminate].
    intros [= <-].
    pose proof (fire_in_resolved _ _ IH _ _ _ E Ea) as Ea'.
    now rewrite (all_resolved_no_rejection _ Ea'), Ea'.
  - simpl. destruct (n <? _)%nat.
    + destruct (fire n o' s) as [s1 ev1]. now intros [= <- <-].
    + destruct (fire _ o' s2) as [s1 ev1] eqn:E. intros [= <- <-]. simpl. eauto.
Qed.

Lemma run_stable sched : forall s s' ev o,
  run sched s = (s', ev) -> status s = Some o -> status s' = Some o.
Proof.
  induction sched as [|[n o'] r IH]; intros s s' ev o; simpl.
  - now intros [= <- <-].
  - destruct (fire n o' s) as [s1 ev1] eqn:E1.
    destruct (run r s1) as [s2 ev2] eqn:E2. intros [= <- <-] Hs.
    eapply IH; eauto. eapply status_stable; eauto.
Qed.

(** ** The carry discipline is sound *)

Lemma carriesp_All ps : carriesp (All ps) <-> Forall carriesp ps.
Proof.
  simpl. induction ps as [|x r IH]; simpl.
  - split; auto.
  - rewrite IH. split.
    + intros [H1 H2]. now constructor.
    + intros H; inversion H; tauto.
Qed.

Lemma carries_SAll rej ss : carries (SAll rej ss) <-> Forall carries ss.
Proof.
  simpl. induction ss as [|x r IH]; simpl.
  - split; auto.
  - rewrite IH. split.
    + intros [H1 H2]. now constructor.
    + intros H; inversion H; tauto.
Qed.

Lemma carries_SAfter s1 s2 :
  carries (SAfter s1 s2) <->
  (in_flight s1 = [] /\ carries s2) \/ exists e, s2 = SDone (Rejected e).
Proof. reflexivity. Qed.

(** a resolved promise that carries failures has nothing in flight *)
Lemma carries_tidy s :
  carries s -> status s = Some Resolved -> in_flight s = [].
Proof.
  induction s as [o0|c|s k IH|s h IH|rej ss IH|s s2 IH1 IH2] using st_ind.
  - reflexivity.
  - discriminate 2.
  - intros _. simpl. destruct (status s) as [[|e]|]; discriminate.
  - intros [H _]. simpl. destruct (status s) as [[|e]|] eqn:Es; try discriminate.
    intros _. now apply IH.
  - intros H. apply carries_SAll in H. rewrite status_SAll.
    destruct rej; [discriminate|]. simpl.
    induction IH as [|x r Hx _ IHr]; simpl; [reflexivity|].
    inversion H; subst.
    destruct (status x) as [[|e]|] eqn:Es; simpl; try discriminate.
    intros Hr. rewrite (Hx H2 eq_refl). simpl. apply IHr; auto.
  - intros H. apply carries_SAfter in H. simpl. intros Hs.
    destruct H as [[H1 H2]|[e ->]]; [|discriminate].
    rewrite H1. simpl. now apply IH2.
Qed.

Lemma start_carries p : carriesp p -> carries (fst (start p)).
Proof.
  induction p as [| |c0|p k IHp IHk|p h IHp IHh|ps IH|p q IHp IHq] using prog_ind.
  - intros _. exact I.
  - intros _. exact I.
  - intros _. exact I.
  - intros [H1 H2]. simpl. specialize (IHp H1). specialize (IHk H2).
    destruct (start p) as [s1 ev1]. simpl in IHp.
    destruct (status s1) as [[|e]|] eqn:Es.
    + destruct (start k) as [s2 ev2]. simpl in *. left.
      split; [now apply carries_tidy | assumption].
    + split; assumption.
    + split; assumption.
  - intros [H1 H2]. simpl. specialize (IHp H1).
    destruct (start p) as [s1 ev1]. simpl in IHp.
    destruct (status s1) as [[|e]|] eqn:Es.
    + split; assumption.
    + rewrite (H2 e). simpl. right. now exists e.
    + split; assumption.
  - intros H. apply carriesp_All in H. rewrite start_All.
    assert (Hs : Forall carries (fst (start_all ps))).
    { induction IH as [|p r Hp _ IHr]; [constructor|].
      inversion H; subst. rewrite start_all_cons. constructor; auto. }
    destruct (start_all ps) as [ss ev]. now apply carries_SAll.
  - intros [e ->]. simpl. destruct (start p) as [s1 ev1]. simpl.
    right. now exists e.
Qed.

Lemma rejection_found ss :
  Exists rejected ss -> first_rejection ss <> None.
Proof.
  induction 1 as [x r [e He]|x r _ IH]; simpl.
  - now rewrite He.
  - destruct (status x) as [[|e]|]; auto. discriminate.
Qed.


Lemma fire_in_carries o ss :
  Forall carry_step ss ->
  forall n ss' ev,
    fire_in o n ss = (ss', ev) -> Forall carries ss ->
    Forall carries ss' /\
    forall c e, In (Settle c (Rejected e)) ev -> Exists rejected ss'.
Proof.
  induction 1 as [|x r Hx _ IHr]; intros n ss' ev Hf Hc; simpl in Hf.
  - injection Hf as <- <-. split; [constructor | intros c e []].
  - inversion Hc; subst. destruct (n <? _)%nat.
    + destruct (fire n o x) as [x' ev1] eqn:E. injection Hf as <- <-.
      destruct (Hx _ _ _ _ E H1) as [Hc' Hr]. split; [now constructor|].
      intros c e Hin. left. eauto.
    + destruct (fire_in o _ r) as [r' ev1] eqn:E. injection Hf as <- <-.
      destruct (IHr _ _ _ E H2) as [Hc' Hr]. split; [now constructor|].
      intros c e Hin. right. eauto.
Qed.

Lemma no_settle_in_issues ev c o :
  Forall is_issue ev -> ~ In (Settle c o) ev.
Proof. intros H Hin. rewrite Forall_forall in H. exact (H _ Hin). Qed.

Lemma fire_carries s : carry_step s.
Proof.
  induction s as [o0|c|s k IH|s h IH|rej ss IH|s s2 IH1 IH2] using st_ind;
    intros n o s' ev.
  - simpl. intros [= <- <-] _. split; [exact I | intros c e []].
  - simpl. destruct n; intros [= <- <-] _; (split; [exact I|]).
    + intros c' e [[= -> ->]|[]]. now exists e.
    + intros c' e [].
  - simpl. destruct (fire n o s) as [s1 ev1] eqn:E. unfold resume_then.
    intros Hf [H1 H2]. destruct (IH _ _ _ _ E H1) as [Hc Hr].
    pose proof (start_carries k H2) as Hk.
    pose proof (start_issues k) as Hki.
    destruct (status s1) as [[|e]|] eqn:Es;
      [destruct (start k) as [s2 ev2]; simpl in Hk, Hki| |];
      injection Hf as <- <-.
    + split.
      * left. split; [now apply carries_tidy | assumption].
      * intros c e Hin. apply in_app_or in Hin as [Hin|Hin].
        -- destruct (Hr _ _ Hin) as [e' He']. congruence.
        -- destruct (no_settle_in_issues _ _ _ Hki Hin).
    + split; [split; assumption|]. intros c e' _. exists e. simpl. now rewrite Es.
    + split; [split; assumption|]. intros c e Hin. rewrite app_nil_r in Hin.
      destruct (Hr _ _ Hin) as [e' He']. congruence.
  - simpl. destruct (fire n o s) as [s1 ev1] eqn:E. unfold resume_catch.
    intros Hf [H1 H2]. destruct (IH _ _ _ _ E H1) as [Hc Hr].
    destruct (status s1) as [[|e]|] eqn:Es.
    + injection Hf as <- <-. split; [split; assumption|].
      intros c e Hin. rewrite app_nil_r in Hin.
      destruct (Hr _ _ Hin) as [e' He']. congruence.
    + rewrite (H2 e) in Hf. simpl in Hf. injection Hf as <- <-. split.
      * right. now exists e.
      * intros c e' _. now exists e.
    + injection Hf as <- <-. split; [split; assumption|].
      intros c e Hin. rewrite app_nil_r in Hin.
      destruct (Hr _ _ Hin) as [e' He']. congruence.
  - rewrite fire_SAll. destruct (fire_in o n ss) as [ss' ev1] eqn:E.
    intros [= <- <-] Hc. apply carries_SAll in Hc.
    destruct (fire_in_carries o ss IH _ _ _ E Hc) as [Hc' Hr].
    split; [now apply carries_SAll|].
    intros c e Hin. unfold rejected. rewrite status_SAll.
    destruct rej as [e0|]; [now exists e0|].
    pose proof (rejection_found _ (Hr _ _ Hin)) as Hne.
    destruct (first_rejection ss') as [e0|]; [now exists e0 | congruence].
  - intros Hf Hc. apply carries_SAfter in Hc. simpl in Hf.
    destruct (n <? _)%nat eqn:En.
    + destruct (fire n o s) as [s1 ev1] eqn:E. injection Hf as <- <-.
      destruct Hc as [[H1 H2]|[e0 ->]].
      * rewrite H1 in En. discriminate.
      * split; [right; now exists e0|]. intros c e _. now exists e0.
    + destruct (fire _ o s2) as [s1 ev1] eqn:E. injection Hf as <- <-.
      destruct Hc as [[H1 H2]|[e0 ->]].
      * destruct (IH2 _ _ _ _ E H2) as [Hc' Hr]. split; [left; split; assumption|].
        intros c e Hin. destruct (Hr _ _ Hin) as [e' He']. now exists e'.
      * simpl in E. injection E as <- <-. split; [right; now exists e0|].
        intros c e [].
Qed.

Lemma run_carries sched : forall s s' ev c e,
  run sched s = (s', ev) -> carries s ->
  In (Settle c (Rejected e)) ev -> rejected s'.
Proof.
  induction sched as [|[n o] r IH]; intros s s' ev c e; simpl.
  - intros [= <- <-] _ [].
  - destruct (fire n o s) as [s1 ev1] eqn:E1.
    destruct (run r s1) as [s2 ev2] eqn:E2. intros [= <- <-] Hc Hin.
    destruct (fire_carries s _ _ _ _ E1 Hc) as [Hc1 Hr].
    apply in_app_or in Hin as [Hin|Hin].
    + destruct (Hr _ _ Hin) as [e' He']. exists e'.
      eapply run_stable; eauto.
    + eapply IH; eauto.
Qed.

(** when a promise carries failures, the failure of any call rejects it *)
Theorem carry_sound p sched c e :
  carriesp p ->
  In (Settle c (Rejected e)) (trace p sched) ->
  exists e', final p sched = Some (Rejected e').
Proof.
  intros Hc Hin. unfold trace, final, exec in *.
  pose proof (start_carries p Hc) as Hc0. pose proof (start_issues p) as Hi.
  destruct (start p) as [s0 ev0]. simpl in Hc0, Hi.
  destruct (run sched s0) as [s' ev] eqn:Er. simpl in *.
  apply in_app_or in Hin as [Hin|Hin].
  - destruct (no_settle_in_issues _ _ _ Hi Hin).
  - exact (run_carries _ _ _ _ _ _ Er Hc0 Hin).
Qed.

End PromiseFacts.

(** * Facts about [authHandler.js] *)
Module AuthFacts.
Import Promise Discipline AuthHandler JsFacts StmtFacts StateFacts.
Import PromiseFacts Samples.
Local Open Scope list_scope.

(** ** Paths *)

(** a write that returns has found an object to write to *)
Lemma set_path_holder base p k v base' :
  set_path base p k v = Ok base' ->
  exists o, get_path base' p = Ok o /\ truthy o = true.
Proof.
  revert base base'. induction p as [|k1 r IH]; intros base base'; simpl.
  - intros H. exists base'. split; [reflexivity|].
    exact (set_prop_truthy _ _ _ _ H).
  - intros H. apply bind_Ok in H as (x & Hx & H).
    apply bind_Ok in H as (x' & Hx' & H).
    rewrite (get_set_same _ _ _ _ H). simpl. eauto.
Qed.

Lemma append_cancel (a b c : string) :
  (a ++ b)%string = (a ++ c)%string -> b = c.
Proof.
  induction a as [|x a IH]; simpl; [auto|]. intros [= H]. auto.
Qed.

(** a call that is issued at most once settles in one way *)
Lemma settles_once u p sched o1 o2 :
  oncep u p ->
  In (Settle u o1) (trace p sched) -> In (Settle u o2) (trace p sched) ->
  o1 = o2.
Proof.
  intros Ho H1 H2. apply in_split in H1 as (a & b & E).
  destruct (once_sound _ _ _ _ _ _ Ho E) as [Ha Hb].
  rewrite E in H2. apply in_app_or in H2 as [H2|[H2|H2]].
  - destruct (Ha _ H2).
  - now injection H2.
  - destruct (Hb _ H2).
Qed.

Section Handler.
Variables PATHS_AuthRemoteRole PATHS_AuthRadiusServer PATHS_AuthRadius : string.
Variables PATHS_AuthTacacs PATHS_AuthLdap PATHS_AuthSource : string.
Variables PATHS_AuthRemoteUser PATHS_SSLCert PATHS_SSLKey : string.
Variables PATHS_Uploads PATHS_UnixRm : string.
Variables RADIUS_PRIMARY_SERVER RADIUS_SECONDARY_SERVER : string.
Variable AUTH_SUBCLASSES_NAME : string.
Variable CLOUD_UTIL_NO_RETRY : jsval.
Variable decode_base64 : jsval -> result string.

Let handleRadius :=
  AuthHandler.handleRadius PATHS_AuthRadiusServer PATHS_AuthRadius
    RADIUS_PRIMARY_SERVER RADIUS_SECONDARY_SERVER AUTH_SUBCLASSES_NAME
    CLOUD_UTIL_NO_RETRY.
Let radius_call := AuthHandler.radius_call PATHS_AuthRadius AUTH_SUBCLASSES_NAME.

(** ** RADIUS *)

Let is_delete := fun c : call => meth c = Delete.
Let never := fun (c : call) (o : outcome) => False.
Let service_path := ["Common"; "Authentication"; "radius"; "serviceType"].
Let secondary_path := servers_path ++ ["secondary"].

(** the aggregate object, with the primary server only, is in place *)
Let aggregate_done (declaration : jsval) :=
  fun (c : call) (o : outcome) =>
    exists serviceType,
      get_path declaration service_path = Ok serviceType /\
      c = radius_call serviceType [RADIUS_PRIMARY_SERVER] /\ o = Resolved.

Lemma name_server_keeps_secondary name d d' u :
  name_server "primary" name d = (d', Ok u) ->
  get_path d' secondary_path = get_path d secondary_path.
Proof.
  unfold name_server. intros H.
  apply sbind_Ok in H as (a & d1 & H1 & H2).
  apply write_Ok in H1. apply write_Ok in H2.
  unfold secondary_path.
  rewrite (get_path_set_path_other _ _ _ _ _ servers_path "secondary"
             "primary" ["partition"] [] H2 eq_refl); [|discriminate].
  now rewrite (get_path_set_path_other _ _ _ _ _ servers_path "secondary"
                 "primary" ["name"] [] H1 eq_refl); [|discriminate].
Qed.

Lemma name_server_keeps_serviceType which name d d' u :
  name_server which name d = (d', Ok u) ->
  get_path d' service_path = get_path d service_path.
Proof.
  unfold name_server. intros H.
  apply sbind_Ok in H as (a & d1 & H1 & H2).
  apply write_Ok in H1. apply write_Ok in H2.
  change service_path
    with (["Common"; "Authentication"; "radius"] ++ "serviceType" :: []).
  rewrite (get_path_set_path_other _ _ _ _ _
             ["Common"; "Authentication"; "radius"] "serviceType"
             "servers" [which; "partition"] [] H2 eq_refl); [|discriminate].
  now rewrite (get_path_set_path_other _ _ _ _ _
                 ["Common"; "Authentication"; "radius"] "serviceType"
                 "servers" [which; "name"] [] H1 eq_refl); [|discriminate].
Qed.

Lemma name_server_names which name d d' u sec :
  name_server which name d = (d', Ok u) ->
  get_path d' (servers_path ++ [which]) = Ok sec -> truthy sec = true.
Proof.
  unfold name_server. intros H.
  apply sbind_Ok in H as (a & d1 & H1 & H2).
  apply write_Ok in H2. destruct (set_path_holder _ _ _ _ _ H2) as (o & Ho & Ht).
  rewrite Ho. now intros [= <-].
Qed.

(** the side conditions of a discipline, for a chain that is written out *)
Ltac calm :=
  solve [ exact I
        | match goal with H : _ |- _ => solve [apply H] end
        | let H := fresh in intros H; hnf in H; simpl in H; discriminate H
        | split; calm
        | left; calm
        | right; calm
        | intro; calm ].

(** either the step issues no delete, or no secondary server is declared
    and a delete waits for the aggregate object *)
Lemma handleRadius_guard declaration :
  quietp is_delete never (snd (handleRadius declaration)) \/
  (exists sec, get_path declaration secondary_path = Ok sec /\
               truthy sec = false) /\
  quietp is_delete (aggregate_done declaration)
         (snd (handleRadius declaration)).
Proof.
  unfold handleRadius, AuthHandler.handleRadius.
  destruct (radius_declared declaration) as [[|]|e]; [|left; exact I..].
  destruct (name_server "primary" _ declaration) as [d1 [[]|e]] eqn:E1;
    [|left; exact I].
  destruct (get_path d1 (servers_path ++ ["primary"])) as [primary|e];
    [|left; exact I].
  pose proof (name_server_keeps_secondary _ _ _ _ E1) as Fs.
  pose proof (name_server_keeps_serviceType _ _ _ _ _ E1) as Ft.
  unfold secondary_path in Fs.
  destruct (get_path d1 (servers_path ++ ["secondary"])) as [secondary|e]
    eqn:E2; [|left; exact I].
  destruct (truthy secondary) eqn:Et.
  - left.
    destruct (name_server "secondary" _ d1) as [d2 [[]|e]] eqn:E3.
    + destruct (get_path d2 (servers_path ++ ["secondary"])) as [sec'|e]
        eqn:E4.
      * pose proof (name_server_names _ _ _ _ _ _ E3 E4) as Et'.
        unfold snd, AuthHandler.radius_chain. fold service_path.
        rewrite E4.
        destruct (get_path d2 service_path) as [serviceType|e];
          cbn [bind or_reject quietp lockedp]; rewrite Et';
          calm.
      * cbn [snd quietp]. calm.
    + cbn [snd quietp]. calm.
  - right. split.
    + exists secondary. split; [|exact Et]. symmetry. exact Fs.
    + unfold snd, AuthHandler.radius_chain. fold service_path.
      rewrite E2, Ft.
      destruct (get_path declaration service_path) as [serviceType|e] eqn:Es;
        cbn [bind or_reject quietp lockedp]; rewrite Et.
      * assert (aggregate_done declaration
                  (radius_call serviceType [RADIUS_PRIMARY_SERVER]) Resolved)
          by (exists serviceType; auto).
        calm.
      * calm.
Qed.

(** C3. In the RADIUS step, a delete is issued only when no secondary
    server is declared, and then only after the createOrModify of the
    aggregate object, whose servers are the primary alone, has resolved.
    So with a secondary server declared no delete is issued at all. *)
Theorem radius_delete_follows_aggregate declaration sched pre c post :
  trace (snd (handleRadius declaration)) sched = pre ++ Issue c :: post ->
  meth c = Delete ->
  (exists sec,
      get_path declaration (servers_path ++ ["secondary"]) = Ok sec /\
      truthy sec = false) /\
  exists serviceType,
    get_path declaration ["Common"; "Authentication"; "radius"; "serviceType"]
    = Ok serviceType /\
    In (Settle (radius_call serviceType [RADIUS_PRIMARY_SERVER]) Resolved) pre.
Proof.
  intros E Hd. destruct (handleRadius_guard declaration) as [Hq|[Hs Hq]].
  - destruct (guard_sound _ _ _ _ _ _ _ Hq E Hd) as (c' & o & _ & []).
  - split; [exact Hs|].
    destruct (guard_sound _ _ _ _ _ _ _ Hq E Hd)
      as (c' & o & Hin & st & Hst & -> & ->).
    exists st. split; assumption.
Qed.

(** ** LDAP *)

Let upload_call := AuthHandler.upload_call PATHS_Uploads decode_base64.
Let remove_call := AuthHandler.remove_call PATHS_UnixRm.
Let handleCert := AuthHandler.handleCert PATHS_Uploads PATHS_UnixRm decode_base64.
Let cert_chains :=
  AuthHandler.cert_chains PATHS_Uploads PATHS_UnixRm decode_base64.
Let ldap_certs := AuthHandler.ldap_certs PATHS_SSLCert PATHS_SSLKey.
Let ldap_call := AuthHandler.ldap_call PATHS_AuthLdap.
Let ldapObj := AuthHandler.ldapObj AUTH_SUBCLASSES_NAME.
Let handleLdap :=
  AuthHandler.handleLdap PATHS_AuthLdap PATHS_SSLCert PATHS_SSLKey
    PATHS_Uploads PATHS_UnixRm AUTH_SUBCLASSES_NAME decode_base64.

Let is_upsert := fun c : call => exists obj options, c = ldap_call obj options.
Let resolves (r : call) := fun (c : call) (o : outcome) => c = r /\ o = Resolved.
Let ldap_path := ["Common"; "Authentication"; "ldap"].

(** the chain of [handleCert]: upload, install, remove *)
Let cert_chain (up : call) (name path : string) : prog :=
  Then (Then (Call up) (Call (install_call name path)))
       (Call (remove_call name)).

(** the calls of a chain are those of the file [name] *)
Let of_file (name : string) (u : call) : Prop :=
  exists a b c d,
    u = mkCall Create [JStr (PATHS_Uploads ++ "/" ++ name)%string; a; b; c; d].

Lemma upload_call_of_file name data up :
  upload_call name data = Ok up -> of_file name up.
Proof.
  unfold upload_call, AuthHandler.upload_call.
  destruct (decode_base64 data) as [dataStr|e]; [|discriminate].
  intros [= <-]. red. eauto.
Qed.

Lemma handleCert_Ok name certObj path chain :
  handleCert name certObj path = Ok chain ->
  exists base64 up,
    get_prop certObj "base64" = Ok base64 /\
    upload_call name base64 = Ok up /\
    chain = cert_chain up name path.
Proof.
  unfold handleCert, AuthHandler.handleCert. intros H.
  apply bind_Ok in H as (base64 & Hb & H).
  apply bind_Ok in H as (up & Hu & H). injection H as <-.
  exists base64, up. auto.
Qed.

Lemma cert_chain_quiet release up name path data :
  upload_call name data = Ok up ->
  quietp is_upsert release (cert_chain up name path).
Proof.
  intros Hu. destruct (upload_call_of_file _ _ _ Hu) as (a & b & c & d & ->).
  assert (forall x, ~ is_upsert (mkCall Create x))
    by (intros x (obj & options & E); discriminate E).
  assert (~ is_upsert (install_call name path))
    by (intros (obj & options & E); discriminate E).
  unfold cert_chain. cbn [quietp]. calm.
Qed.

(** the chains of [certPromises] are chains of [handleCert] *)
Lemma cert_chains_In ldap certs cs eo ch :
  cert_chains ldap certs = (cs, eo) -> In ch cs ->
  exists prop name path data up,
    In (prop, name, path) certs /\
    upload_call name data = Ok up /\ ch = cert_chain up name path.
Proof.
  revert cs. induction certs as [|[[prop name] path] r IH]; intros cs; simpl.
  - intros [= <- <-] [].
  - destruct (has_inline ldap prop) as [[certObj|]|e].
    + destruct (AuthHandler.handleCert _ _ _ name certObj path)
        as [chain|e] eqn:Eh.
      * destruct (cert_chains ldap r) as [cs' eo'] eqn:Er.
        intros [= <- <-] [<-|Hin].
        -- apply handleCert_Ok in Eh as (data & up & _ & Hu & ->).
           exists prop, name, path, data, up. auto.
        -- destruct (IH _ eq_refl Hin)
             as (prop' & name' & path' & data & up & Hc & Hu & ->).
           exists prop', name', path', data, up. auto.
      * intros [= <- <-] [].
    + intros H Hin.
      destruct (IH _ H Hin)
        as (prop' & name' & path' & data & up & Hc & Hu & ->).
      exists prop', name', path', data, up. auto.
    + intros [= <- <-] [].
Qed.

(** when the function gets to its end, every inline file has its chain *)
Lemma cert_chains_all ldap certs cs prop name path certObj base64 up :
  cert_chains ldap certs = (cs, None) ->
  In (prop, name, path) certs ->
  has_inline ldap prop = Ok (Some certObj) ->
  get_prop certObj "base64" = Ok base64 ->
  upload_call name base64 = Ok up ->
  In (cert_chain up name path) cs.
Proof.
  intros Hc Hin Hi Hb Hu. revert cs Hc Hin.
  induction certs as [|[[prop' name'] path'] r IH]; intros cs; simpl.
  - intros _ [].
  - intros Hc Hin.
    destruct (has_inline ldap prop') as [[certObj'|]|e] eqn:Ei.
    + destruct (AuthHandler.handleCert _ _ _ name' certObj' path')
        as [chain|e] eqn:Eh; [|discriminate].
      destruct (cert_chains ldap r) as [cs' eo'] eqn:Er.
      injection Hc as <- ->. destruct Hin as [[= -> -> ->]|Hin].
      * left. rewrite Hi in Ei. injection Ei as <-.
        apply handleCert_Ok in Eh as (data & up' & Hb' & Hu' & ->).
        rewrite Hb in Hb'. injection Hb' as <-.
        rewrite Hu in Hu'. now injection Hu' as <-.
      * right. exact (IH _ eq_refl Hin).
    + destruct Hin as [[= -> -> ->]|Hin]; [congruence|].
      exact (IH _ Hc Hin).
    + discriminate.
Qed.

Lemma cert_chain_locked r up name path :
  In r [up; install_call name path; remove_call name] ->
  lockedp (resolves r) (cert_chain up name path).
Proof.
  unfold cert_chain, resolves. cbn [lockedp].
  intros [<-|[<-|[<-|[]]]]; auto.
Qed.

Lemma cert_chain_carries up name path : carriesp (cert_chain up name path).
Proof. unfold cert_chain. cbn [carriesp]. auto. Qed.

Lemma cert_chain_once u n0 up name path :
  of_file n0 u -> oncep u (cert_chain up name path).
Proof.
  intros (a & b & c & d & ->). unfold cert_chain. cbn [oncep absentp].
  left. split; [left; split; [exact I|] |]; discriminate.
Qed.

Lemma cert_chain_absent u n0 up name path data :
  of_file n0 u -> name <> n0 -> upload_call name data = Ok up ->
  absentp u (cert_chain up name path).
Proof.
  intros (a & b & c & d & ->) Hne Hu.
  destruct (upload_call_of_file _ _ _ Hu) as (a' & b' & c' & d' & ->).
  unfold cert_chain. cbn [absentp]. repeat split; try discriminate.
  intros [= E _ _ _ _]. apply append_cancel in E. now injection E.
Qed.

Let name_of (c : string * string * string) : string := snd (fst c).

Lemma cert_chains_absent u n0 ldap certs cs eo :
  of_file n0 u ->
  cert_chains ldap certs = (cs, eo) -> ~ In n0 (map name_of certs) ->
  Forall (absentp u) cs.
Proof.
  intros Hu Hc Hn. apply Forall_forall. intros ch Hin.
  destruct (cert_chains_In _ _ _ _ _ Hc Hin)
    as (prop & name & path & data & up & Hi & Hup & ->).
  apply (cert_chain_absent _ n0 _ _ _ data); [exact Hu| |exact Hup].
  intros ->. apply Hn. exact (in_map name_of _ _ Hi).
Qed.

Lemma cert_chains_once u n0 ldap certs :
  of_file n0 u -> NoDup (map name_of certs) ->
  forall cs eo, cert_chains ldap certs = (cs, eo) -> oncep u (All cs).
Proof.
  intros Hu. induction certs as [|[[prop name] path] r IH]; intros Hn cs eo.
  - simpl. intros [= <- <-]. exact I.
  - simpl in Hn. inversion Hn as [|x l Hx Hr]; subst. simpl.
    destruct (has_inline ldap prop) as [[certObj|]|e].
    + destruct (AuthHandler.handleCert _ _ _ name certObj path)
        as [chain|e] eqn:Eh.
      * destruct (cert_chains ldap r) as [cs' eo'] eqn:Er.
        intros [= <- <-]. apply oncep_All_cons.
        apply handleCert_Ok in Eh as (data & up & _ & Hup & ->).
        destruct (string_dec name n0) as [->|Hne].
        -- left. split; [now apply (cert_chain_once _ n0)|].
           apply absentp_All. exact (cert_chains_absent _ _ _ _ _ _ Hu Er Hx).
        -- right. split; [now apply (cert_chain_absent _ n0 _ _ _ data)|].
           exact (IH Hr _ _ eq_refl).
      * intros [= <- <-]. exact I.
    + intros H. exact (IH Hr _ _ H).
    + intros [= <- <-]. exact I.
Qed.

Lemma ldap_certs_NoDup : NoDup (map name_of ldap_certs).
Proof.
  repeat constructor; simpl; intros H;
    repeat (destruct H as [H|H]; [discriminate H|]); exact H.
Qed.

(** the shapes of the promise of [handleLdap] *)
Lemma handleLdap_shape d :
  handleLdap d = Resolve \/
  (exists e, handleLdap d = Reject e) \/
  exists ldap cs,
    get_path d ldap_path = Ok ldap /\
    ((exists e, cert_chains ldap ldap_certs = (cs, Some e) /\
                handleLdap d = Dropped (All cs) (Reject e)) \/
     (exists obj options,
         cert_chains ldap ldap_certs = (cs, None) /\
         handleLdap d
         = Catch (Then (All cs) (Call (ldap_call obj options)))
                 (fun err => Reject err))).
Proof.
  unfold handleLdap, AuthHandler.handleLdap. fold ldap_path.
  destruct (get_path d ldap_path) as [ldap|e]; [|right; left; now exists e].
  cbn [bind]. destruct (truthy ldap); [|now left]. cbn [negb].
  destruct (AuthHandler.ldapObj _ ldap) as [obj|e];
    [|right; left; now exists e].
  cbn [bind]. destruct (ldap_options obj) as [options|e];
    [|right; left; now exists e].
  cbn [bind or_reject]. right. right.
  fold cert_chains ldap_certs.
  destruct (cert_chains ldap ldap_certs) as [cs [e|]] eqn:Ec;
    exists ldap, cs; (split; [reflexivity|]).
  - left. now exists e.
  - right. now exists obj, options.
Qed.

Lemma handleLdap_carries d : carriesp (handleLdap d).
Proof.
  destruct (handleLdap_shape d)
    as [->|[[e ->]|(ldap & cs & _ & [(e & Hc & ->)|(obj & options & Hc & ->)])]];
    try exact I.
  - cbn [carriesp]. now exists e.
  - cbn [carriesp]. repeat split; auto.
    apply carriesp_All, Forall_forall. intros ch Hin.
    destruct (cert_chains_In _ _ _ _ _ Hc Hin)
      as (prop & name & path & data & up & _ & _ & ->).
    apply cert_chain_carries.
Qed.

Lemma handleLdap_once d u n0 : of_file n0 u -> oncep u (handleLdap d).
Proof.
  intros Hu.
  destruct (handleLdap_shape d)
    as [->|[[e ->]|(ldap & cs & _ & [(e & Hc & ->)|(obj & options & Hc & ->)])]];
    try exact I.
  - cbn [oncep absentp]. left. split; [|exact I].
    exact (cert_chains_once _ _ _ _ Hu ldap_certs_NoDup _ _ Hc).
  - cbn [oncep absentp]. left. split; [|intros; exact I].
    left. split; [exact (cert_chains_once _ _ _ _ Hu ldap_certs_NoDup _ _ Hc)|].
    destruct Hu as (a & b & c & d0 & ->). discriminate.
Qed.

Lemma cert_chains_quiet release ldap certs cs eo :
  cert_chains ldap certs = (cs, eo) -> quietp is_upsert release (All cs).
Proof.
  intros Hc. apply quietp_All, Forall_forall. intros ch Hin.
  destruct (cert_chains_In _ _ _ _ _ Hc Hin)
    as (prop & name & path & data & up & _ & Hup & ->).
  exact (cert_chain_quiet _ _ _ _ _ Hup).
Qed.

(** the upsert waits for every call of the chain of an inline file *)
Lemma handleLdap_guard d ldap prop name path certObj base64 up r :
  get_path d ldap_path = Ok ldap ->
  In (prop, name, path) ldap_certs ->
  has_inline ldap prop = Ok (Some certObj) ->
  get_prop certObj "base64" = Ok base64 ->
  upload_call name base64 = Ok up ->
  In r [up; install_call name path; remove_call name] ->
  quietp is_upsert (resolves r) (handleLdap d).
Proof.
  intros Hl Hin Hi Hb Hu Hr.
  destruct (handleLdap_shape d)
    as [->|[[e ->]|(ldap' & cs & Hl' & [(e & Hc & ->)|(obj & options & Hc & ->)])]];
    try exact I.
  - cbn [quietp]. split; [|exact I]. exact (cert_chains_quiet _ _ _ _ _ Hc).
  - rewrite Hl in Hl'. injection Hl' as <-.
    cbn [quietp]. split; [|intros; exact I].
    split; [exact (cert_chains_quiet _ _ _ _ _ Hc)|]. left.
    apply (proj2 (lockedp_All is_upsert _ _)). apply Exists_exists.
    exists (cert_chain up name path).
    split; [exact (cert_chains_all _ _ _ _ _ _ _ _ _ Hc Hin Hi Hb Hu)|].
    now apply cert_chain_locked.
Qed.

(** C4. In the LDAP step, for an inline certificate or key of the
    declaration: when the LDAP auth object is upserted, the upload and the
    installation of the file have both resolved; and when the upload fails,
    the promise of the step is rejected and the upsert is never issued. *)
Theorem ldap_upsert_follows_certificates
  d ldap prop certName certPath certObj base64 up sched :
  get_path d ["Common"; "Authentication"; "ldap"] = Ok ldap ->
  In (prop, certName, certPath) ldap_certs ->
  has_inline ldap prop = Ok (Some certObj) ->
  get_prop certObj "base64" = Ok base64 ->
  upload_call certName base64 = Ok up ->
  (forall pre obj options post,
      trace (handleLdap d) sched
      = pre ++ Issue (ldap_call obj options) :: post ->
      In (Settle up Resolved) pre /\
      In (Settle (install_call certName certPath) Resolved) pre) /\
  (forall e,
      In (Settle up (Rejected e)) (trace (handleLdap d) sched) ->
      (exists e', final (handleLdap d) sched = Some (Rejected e')) /\
      forall obj options,
        ~ In (Issue (ldap_call obj options)) (trace (handleLdap d) sched)).
Proof.
  intros Hl Hin Hi Hb Hu.
  assert (Hwait : forall r pre obj options post,
             In r [up; install_call certName certPath; remove_call certName] ->
             trace (handleLdap d) sched
             = pre ++ Issue (ldap_call obj options) :: post ->
             In (Settle r Resolved) pre).
  { intros r pre obj options post Hr E.
    pose proof (handleLdap_guard _ _ _ _ _ _ _ _ _ Hl Hin Hi Hb Hu Hr) as Hq.
    destruct (guard_sound _ _ _ _ _ _ _ Hq E) as (c' & o & Hs & -> & ->).
    - now exists obj, options.
    - exact Hs. }
  split.
  - intros pre obj options post E. split.
    + apply (Hwait _ _ _ _ _ (or_introl eq_refl) E).
    + apply (Hwait _ _ _ _ _ (or_intror (or_introl eq_refl)) E).
  - intros e He. split.
    + exact (carry_sound _ _ _ _ (handleLdap_carries d) He).
    + intros obj options Hiss. apply in_split in Hiss as (pre & post & E).
      pose proof (Hwait _ _ _ _ _ (or_introl eq_refl) E) as Hres.
      assert (Hres' : In (Settle up Resolved) (trace (handleLdap d) sched)).
      { rewrite E. apply in_or_app. now left. }
      pose proof (handleLdap_once d _ _ (upload_call_of_file _ _ _ Hu)) as Ho.
      discriminate (settles_once _ _ _ _ _ Ho Hres' He).
Qed.

(** ** TACACS+ and the whole handler *)

Let tacacs_call := AuthHandler.tacacs_call PATHS_AuthTacacs AUTH_SUBCLASSES_NAME.
Let handleTacacs := AuthHandler.handleTacacs PATHS_AuthTacacs AUTH_SUBCLASSES_NAME.
Let process :=
  AuthHandler.process PATHS_AuthRemoteRole PATHS_AuthRadiusServer
    PATHS_AuthRadius PATHS_AuthTacacs PATHS_AuthLdap PATHS_AuthSource
    PATHS_AuthRemoteUser PATHS_SSLCert PATHS_SSLKey PATHS_Uploads
    PATHS_UnixRm RADIUS_PRIMARY_SERVER RADIUS_SECONDARY_SERVER
    AUTH_SUBCLASSES_NAME CLOUD_UTIL_NO_RETRY decode_base64.
Let tacacs_path := ["Common"; "Authentication"; "tacacs"].

(** whatever the device answers, the promise of the TACACS+ step
    resolves *)
Lemma handleTacacs_resolves d tacacs c o :
  get_path d tacacs_path = Ok tacacs -> truthy tacacs = true ->
  tacacs_call tacacs = Ok c ->
  exec (handleTacacs d) [(0%nat, o)]
  = (match o with
     | Resolved => SCatch (SDone Resolved) (fun err => Resolve)
     | Rejected e => SAfter (SDone (Rejected e)) (SDone Resolved)
     end, [Issue c; Settle c o]) /\
  final (handleTacacs d) [(0%nat, o)] = Some Resolved.
Proof.
  intros Hp Ht Hc. unfold final, exec, handleTacacs, AuthHandler.handleTacacs.
  fold tacacs_path. rewrite Hp. cbn [bind]. rewrite Ht. cbn [negb].
  fold tacacs_call. rewrite Hc. cbn [bind or_reject].
  destruct o as [|e]; split; reflexivity.
Qed.

(** *** The other steps carry the failures of the device *)

Lemma or_reject_carries (r : result prog) :
  (forall p, r = Ok p -> carriesp p) -> carriesp (or_reject r).
Proof. destruct r as [p|e]; simpl; auto. Qed.

Lemma role_calls_carries roles names :
  forall cs eo,
    AuthHandler.role_calls PATHS_AuthRemoteRole roles names = (cs, eo) ->
    Forall carriesp cs.
Proof.
  induction names as [|name r IH]; intros cs eo; simpl.
  - intros [= <- <-]. constructor.
  - destruct (AuthHandler.role_call _ roles name) as [p|e] eqn:Ep.
    + destruct (AuthHandler.role_calls _ roles r) as [cs' eo'].
      intros [= <- <-]. constructor; [|exact (IH _ _ eq_refl)].
      unfold AuthHandler.role_call in Ep.
      repeat (apply bind_Ok in Ep as (? & _ & Ep)).
      injection Ep as <-. exact I.
    + intros [= <- <-]. constructor.
Qed.

Lemma handleRemoteAuthRoles_carries d :
  carriesp (AuthHandler.handleRemoteAuthRoles PATHS_AuthRemoteRole d).
Proof.
  unfold AuthHandler.handleRemoteAuthRoles. apply or_reject_carries.
  intros p H. apply bind_Ok in H as (common & _ & H).
  destruct (truthy common); [|now injection H as <-]. cbn [negb] in H.
  apply bind_Ok in H as (roles & _ & H).
  destruct (truthy roles); [|now injection H as <-]. cbn [negb] in H.
  apply bind_Ok in H as (names & _ & H).
  destruct (AuthHandler.role_calls _ roles names) as [cs [e|]] eqn:Ec;
    injection H as <-.
  - cbn [carriesp]. now exists e.
  - apply carriesp_All. exact (role_calls_carries _ _ _ _ Ec).
Qed.

Lemma radius_chain_carries d proms servers :
  Forall carriesp proms ->
  carriesp (AuthHandler.radius_chain PATHS_AuthRadiusServer PATHS_AuthRadius
              RADIUS_SECONDARY_SERVER AUTH_SUBCLASSES_NAME
              CLOUD_UTIL_NO_RETRY d proms servers).
Proof.
  intros H. unfold AuthHandler.radius_chain. cbn [carriesp].
  split; [|reflexivity]. split; [split|].
  - now apply carriesp_All.
  - apply or_reject_carries. intros p Hp.
    apply bind_Ok in Hp as (x & _ & Hp). now injection Hp as <-.
  - apply or_reject_carries. intros p Hp.
    apply bind_Ok in Hp as (x & _ & Hp). injection Hp as <-.
    now destruct (truthy x).
Qed.

Lemma handleRadius_carries d : carriesp (snd (handleRadius d)).
Proof.
  unfold handleRadius, AuthHandler.handleRadius.
  destruct (radius_declared d) as [[|]|e]; [|exact I..].
  destruct (name_server "primary" _ d) as [d1 [[]|e]]; [|exact I].
  destruct (get_path d1 (servers_path ++ ["primary"])) as [primary|e];
    [|exact I].
  destruct (get_path d1 (servers_path ++ ["secondary"])) as [secondary|e];
    [|exact I].
  destruct (truthy secondary).
  - destruct (name_server "secondary" _ d1) as [d2 [[]|e]].
    + destruct (get_path d2 (servers_path ++ ["secondary"])) as [sec'|e].
      * apply radius_chain_carries. repeat constructor.
      * cbn [snd carriesp]. now exists e.
    + cbn [snd carriesp]. now exists e.
  - apply radius_chain_carries. repeat constructor.
Qed.

Lemma name_server_keeps_tacacs which name d d' u :
  name_server which name d = (d', Ok u) ->
  get_path d' tacacs_path = get_path d tacacs_path.
Proof.
  unfold name_server. intros H.
  apply sbind_Ok in H as (a & d1 & H1 & H2).
  apply write_Ok in H1. apply write_Ok in H2.
  change tacacs_path with (["Common"; "Authentication"] ++ "tacacs" :: []).
  rewrite (get_path_set_path_other _ _ _ _ _
             ["Common"; "Authentication"] "tacacs"
             "radius" ["servers"; which; "partition"] [] H2 eq_refl);
    [|discriminate].
  now rewrite (get_path_set_path_other _ _ _ _ _
                 ["Common"; "Authentication"] "tacacs"
                 "radius" ["servers"; which; "name"] [] H1 eq_refl);
    [|discriminate].
Qed.

(** a write that throws leaves the declaration as it was *)
Lemma name_server_throws_tacacs which name d d' e :
  name_server which name d = (d', Throw e) ->
  get_path d' tacacs_path = get_path d tacacs_path.
Proof.
  unfold name_server, sbind, write.
  destruct (set_path d _ "name" _) as [d1|e1] eqn:E1.
  - destruct (set_path d1 _ "partition" _) as [d2|e2]; intros [= <- _].
    change tacacs_path with (["Common"; "Authentication"] ++ "tacacs" :: []).
    now rewrite (get_path_set_path_other _ _ _ _ _
                   ["Common"; "Authentication"] "tacacs"
                   "radius" ["servers"; which; "name"] [] E1 eq_refl);
      [|discriminate].
  - now intros [= <- _].
Qed.

Lemma handleRadius_keeps_tacacs d :
  get_path (fst (handleRadius d)) tacacs_path = get_path d tacacs_path.
Proof.
  unfold handleRadius, AuthHandler.handleRadius.
  destruct (radius_declared d) as [[|]|e]; [|reflexivity..].
  destruct (name_server "primary" _ d) as [d1 [[]|e]] eqn:E1.
  - pose proof (name_server_keeps_tacacs _ _ _ _ _ E1) as F1.
    destruct (get_path d1 (servers_path ++ ["primary"])) as [primary|e];
      [|exact F1].
    destruct (get_path d1 (servers_path ++ ["secondary"])) as [secondary|e];
      [|exact F1].
    destruct (truthy secondary); [|exact F1].
    destruct (name_server "secondary" _ d1) as [d2 [[]|e]] eqn:E2.
    + pose proof (name_server_keeps_tacacs _ _ _ _ _ E2) as F2.
      destruct (get_path d2 (servers_path ++ ["secondary"]));
        cbn [fst]; congruence.
    + pose proof (name_server_throws_tacacs _ _ _ _ _ E2) as F2.
      cbn [fst]. congruence.
  - exact (name_server_throws_tacacs _ _ _ _ _ E1).
Qed.

Lemma handleTacacs_absent d :
  (forall tacacs, get_path d tacacs_path = Ok tacacs -> truthy tacacs = false) ->
  carriesp (handleTacacs d).
Proof.
  intros H. unfold handleTacacs, AuthHandler.handleTacacs. fold tacacs_path.
  destruct (get_path d tacacs_path) as [tacacs|e]; [|exact I].
  cbn [bind]. now rewrite (H _ eq_refl).
Qed.

Lemma handleSource_carries d :
  carriesp (AuthHandler.handleSource PATHS_AuthSource d).
Proof.
  unfold AuthHandler.handleSource. apply or_reject_carries. intros p H.
  repeat (apply bind_Ok in H as (? & _ & H)). now injection H as <-.
Qed.

Lemma handleRemoteUsersDefaults_carries d :
  carriesp (AuthHandler.handleRemoteUsersDefaults PATHS_AuthRemoteUser d).
Proof.
  unfold AuthHandler.handleRemoteUsersDefaults. apply or_reject_carries.
  intros p H. apply bind_Ok in H as (auth & _ & H).
  apply bind_Ok in H as (authDefaults & _ & H).
  destruct (truthy authDefaults); [|now injection H as <-]. cbn [negb] in H.
  repeat (apply bind_Ok in H as (? & _ & H)). now injection H as <-.
Qed.

(** without TACACS+ in the declaration, the failure of any call of the
    handler rejects the promise of [process] *)
Lemma process_carries declaration :
  (forall tacacs, get_path declaration tacacs_path = Ok tacacs ->
                  truthy tacacs = false) ->
  carriesp (process declaration).
Proof.
  intros Hno. unfold process, AuthHandler.process. apply or_reject_carries.
  intros p H. apply bind_Ok in H as (common & _ & H).
  apply bind_Ok in H as (auth & _ & H).
  destruct (truthy auth); cbn [negb] in H.
  - pose proof (handleRadius_carries declaration) as Hr.
    pose proof (handleRadius_keeps_tacacs declaration) as Hk.
    unfold handleRadius in Hr, Hk.
    destruct (AuthHandler.handleRadius _ _ _ _ _ _ declaration) as [d radius].
    cbn [fst snd] in Hr, Hk. injection H as <-. cbn [carriesp].
    repeat split.
    + apply handleRemoteAuthRoles_carries.
    + exact Hr.
    + apply handleTacacs_absent. intros tacacs Ht. apply Hno. congruence.
    + apply handleLdap_carries.
    + apply handleSource_carries.
    + apply handleRemoteUsersDefaults_carries.
  - injection H as <-. apply handleRemoteAuthRoles_carries.
Qed.

Theorem failure_rejects_without_tacacs declaration sched c e :
  (forall tacacs, get_path declaration tacacs_path = Ok tacacs ->
                  truthy tacacs = false) ->
  In (Settle c (Rejected e)) (trace (process declaration) sched) ->
  exists e', final (process declaration) sched = Some (Rejected e').
Proof.
  intros Hno. exact (carry_sound _ _ _ _ (process_carries _ Hno)).
Qed.

(** C5. A failure of the device in the TACACS+ step is not carried: on a
    declaration with TACACS+, when the createOrModify of the TACACS+ object
    is rejected with [e] and the call of the next step resolves, the
    promise of [process] resolves. *)
Theorem tacacs_failure_is_swallowed (e : exn) :
  exists c,
    tacacs_call sample_tacacs = Ok c /\
    In (Settle c (Rejected e))
       (trace (process tacacs_declaration)
              [(0%nat, Rejected e); (0%nat, Resolved)]) /\
    final (process tacacs_declaration)
          [(0%nat, Rejected e); (0%nat, Resolved)] = Some Resolved.
Proof.
  eexists. split; [reflexivity|]. split.
  - vm_compute. right. left. reflexivity.
  - reflexivity.
Qed.

End Handler.

Lemma ldap_upsert_follows_certificates_witness :
  In (Settle sample_upload Resolved)
     (firstn 6 (trace (sample_handleLdap ldap_cert_declaration)
                      [(0, Resolved); (0, Resolved); (0, Resolved)]%nat)) /\
  In (Settle (install_call "do_ldapCaCert.crt" "/tm/sys/file/ssl-cert")
             Resolved)
     (firstn 6 (trace (sample_handleLdap ldap_cert_declaration)
                      [(0, Resolved); (0, Resolved); (0, Resolved)]%nat)).
Proof.
  refine (proj1 (ldap_upsert_follows_certificates
                   "/tm/auth/ldap" "/tm/sys/file/ssl-cert"
                   "/tm/sys/file/ssl-key" "/shared/file-transfer/uploads"
                   "/tm/util/unix-rm" "system-auth" sample_decode
                   ldap_cert_declaration sample_ldap "sslCaCert"
                   "do_ldapCaCert.crt" "/tm/sys/file/ssl-cert" sample_cert
                   (JStr "Y2VydA==") sample_upload
                   [(0, Resolved); (0, Resolved); (0, Resolved)]%nat
                   _ _ _ _ _)
                _ sample_ldapObj (JObj [("silent", JBool true)]) [] _).
  - reflexivity.
  - left. reflexivity.
  - reflexivity.
  - reflexivity.
  - reflexivity.
  - vm_compute. reflexivity.
Defined.

(** on the same declaration, the upload fails: the step is rejected with
    the failure, and nothing else is issued *)
Example ldap_upload_failure_run :
  trace (sample_handleLdap ldap_cert_declaration)
        [(0%nat, Rejected (DeviceError 1))]
  = [Issue sample_upload; Settle sample_upload (Rejected (DeviceError 1))] /\
  final (sample_handleLdap ldap_cert_declaration)
        [(0%nat, Rejected (DeviceError 1))]
  = Some (Rejected (DeviceError 1)).
Proof. split; vm_compute; reflexivity. Qed.

Lemma radius_delete_follows_aggregate_witness :
  (exists sec,
      get_path radius_declaration (servers_path ++ ["secondary"]) = Ok sec /\
      truthy sec = false) /\
  exists serviceType,
    get_path radius_declaration
             ["Common"; "Authentication"; "radius"; "serviceType"]
    = Ok serviceType /\
    In (Settle (AuthHandler.radius_call "/tm/auth/radius" "system-auth"
                  serviceType ["system_auth_name1"]) Resolved)
       (firstn 4 (trace (snd (sample_handleRadius radius_declaration))
                        [(0, Resolved); (0, Resolved)]%nat)).
Proof.
  apply (radius_delete_follows_aggregate
           "/tm/auth/radius-server" "/tm/auth/radius"
           "system_auth_name1" "system_auth_name2" "system-auth"
           sample_NO_RETRY radius_declaration
           [(0, Resolved); (0, Resolved)]%nat _
           (delete_secondary_call "/tm/auth/radius-server"
              "system_auth_name2" sample_NO_RETRY)
           []).
  - vm_compute. reflexivity.
  - reflexivity.
Defined.
End AuthFacts.

(** * The accessors of the task store, one by one *)
Module StateExtras.
Import StateStore JsFacts StmtFacts StateFacts MigrationFacts Samples Accessors.
Local Open Scope list_scope.

(** ** What a setter leaves alone *)

Lemma with_tasks_same s : with_tasks s (tasks s) = s.
Proof. now destruct s. Qed.

Lemma set_prop_of_object base k v base' :
  set_prop base k v = Ok base' -> is_object base = true.
Proof. destruct base; simpl; try discriminate; reflexivity. Qed.

Lemma set_path_of_object base p k v base' :
  set_path base p k v = Ok base' -> is_object base = true.
Proof.
  destruct p as [|k1 r]; simpl.
  - apply set_prop_of_object.
  - intros H. apply bind_Ok in H as (x & _ & H).
    apply bind_Ok in H as (x' & _ & H). exact (set_prop_of_object _ _ _ _ H).
Qed.

(** the task before and after a write below it *)
Lemma set_path_task ts taskId p k x ts' :
  set_path ts (taskId :: p) k x = Ok ts' ->
  exists t t',
    get_prop ts taskId = Ok t /\ truthy t = true /\
    set_path t p k x = Ok t' /\
    get_prop ts' taskId = Ok t' /\ truthy t' = true.
Proof.
  simpl. intros H. apply bind_Ok in H as (t & Ht & H).
  apply bind_Ok in H as (t' & Ht' & H).
  exists t, t'. repeat split; auto.
  - apply is_object_truthy. eapply set_path_of_object; eauto.
  - eapply get_set_same; eauto.
  - apply is_object_truthy. eapply set_path_is_object; eauto.
Qed.

Lemma task_of_Ok s taskId t :
  task_of s taskId = Ok t -> get_prop (tasks s) taskId = Ok t /\ truthy t = true.
Proof.
  unfold task_of. intros H. apply bind_Ok in H as (t' & Ht' & H).
  destruct (truthy t') eqn:E; [|discriminate]. now injection H as <-.
Qed.

Lemma task_of_truthy s taskId t :
  get_prop (tasks s) taskId = Ok t -> truthy t = true -> task_of s taskId = Ok t.
Proof. unfold task_of. intros -> Ht. simpl. now rewrite Ht. Qed.

Section Frame.
Variables (s0 : State) (taskId : string).







(** ** What a setter leaves alone in its own task *)

Variables (r : list string) (a b : string) (rest q : list string)
          (c : result jsval).
Hypothesis Hab : a <> b.




End Frame.




(** ** What a setter stores *)

Lemma set_field_get p k taskId v s s' :
  set_field p k taskId v s = (s', Ok tt) ->
  exists x, v = Ok x /\ get_field (p ++ [k]) s' taskId = Ok x.
Proof.
  intros H. apply set_field_Ok in H as (x & ts' & -> & Hw & ->).
  exists x. split; [reflexivity|].
  apply set_path_task in Hw as (t & t' & Ht & Htt & Hw & Ht' & Htt').
  unfold get_field.
  rewrite (task_of_truthy (with_tasks s ts') taskId t' Ht' Htt'). simpl.
  eapply get_path_set_path_same; eauto.
Qed.

Lemma set_field_Throw p k taskId v s s' e :
  set_field p k taskId v s = (s', Throw e) -> s' = s.
Proof.
  unfold set_field, sbind, eval, on_tasks, write.
  destruct (task_of s taskId); [|now intros [= <-]].
  destruct (get_path (tasks s) (taskId :: p));
    [|intros [= <-]; apply with_tasks_same].
  destruct v as [x|e']; [|intros [= <-]; apply with_tasks_same].
  destruct (set_path (tasks s) (taskId :: p) k x); [discriminate|].
  intros [= <-]. apply with_tasks_same.
Qed.

(** X2: when one of [setCurrentConfig], [setTraceCurrent],
    [setTraceDesired], [setTraceDiff] returns, the getter of the same
    field returns the JSON copy of the value that was given: JSON data,
    that a further copy leaves as it is. *)
Theorem snapshot_reads_back_json_copy set get taskId v s s' :
  In (set, get) snapshots ->
  set taskId v s = (s', Ok tt) ->
  exists j,
    json_copy v = Ok j /\ get s' taskId = Ok j /\
    is_json j = true /\ json_copy j = Ok j.
Proof.
  intros Hin H. simpl in Hin.
  repeat (destruct Hin as [[= <- <-]|Hin]); try contradiction;
    apply set_field_get in H as (j & Hj & Hget);
    exists j; (repeat split; auto);
    try (eapply json_copy_idempotent; eauto);
    unfold json_copy in Hj; destruct (jsonify v) eqn:E; try discriminate;
    injection Hj as <-; eapply jsonify_is_json; eauto.
Qed.

Lemma snapshot_reads_back_json_copy_witness :
  exists j,
    json_copy (JObj [("at", JDate 0); ("skipped", JUndef)]) = Ok j /\
    getTraceDiff
      (fst (setTraceDiff "a" (JObj [("at", JDate 0); ("skipped", JUndef)])
              two_errors)) "a" = Ok j /\
    is_json j = true /\ json_copy j = Ok j.
Proof.
  apply (snapshot_reads_back_json_copy setTraceDiff getTraceDiff "a"
           (JObj [("at", JDate 0); ("skipped", JUndef)]) two_errors).
  - simpl. auto 10.
  - reflexivity.
Defined.

(** X3: a setter keyed by a task id that throws has changed nothing. *)
Theorem setter_that_throws_changes_nothing
  secret_key redaction set path taskId v s s' e :
  In (set, path) (task_setters secret_key redaction) ->
  set taskId v s = (s', Throw e) ->
  s' = s.
Proof.
  intros Hin H. simpl in Hin.
  repeat (destruct Hin as [[= <- <-]|Hin]); try contradiction;
    try (eapply set_field_Throw; exact H).
  - unfold setErrors, sbind, eval in H.
    destruct (task_of s taskId); [|now injection H as <-].
    destruct (truthy v); [eapply set_field_Throw; exact H|].
    destruct (get_path (tasks s) _) as [old|e']; [|now injection H as <-].
    destruct (truthy old); simpl in H; [|discriminate].
    unfold on_tasks, write in H.
    destruct (cleared <- clear_length old ;; _); [discriminate|].
    injection H as <-. apply with_tasks_same.
  - unfold setRollbackInfo in H. destruct (truthy v); simpl in H;
      [eapply set_field_Throw; exact H | discriminate].
Qed.

Lemma setter_that_throws_changes_nothing_witness :
  fst (setCode "a" (JNum 200) bare_state) = bare_state.
Proof.
  apply (setter_that_throws_changes_nothing is_secret (JStr "*") setCode
           ["result"; "code"] "a" (JNum 200) bare_state _ TypeError).
  - simpl. auto 10.
  - reflexivity.
Defined.

(** X4: [JSON.stringify(undefined)] is [undefined], which [JSON.parse]
    refuses: [setCurrentConfig], [setTraceCurrent], [setTraceDesired] and
    [setTraceDiff] of [undefined] on a task that exists throw a
    [SyntaxError], and the state is as it was. *)
Theorem snapshot_of_undefined_throws set get taskId task s :
  In (set, get) snapshots ->
  task_of s taskId = Ok task ->
  set taskId JUndef s = (s, Throw SyntaxError).
Proof.
  intros Hin Ht. pose proof (task_of_Ok _ _ _ Ht) as [Hg _]. simpl in Hin.
  repeat (destruct Hin as [[= <- <-]|Hin]); try contradiction;
    unfold setCurrentConfig, setTraceCurrent, setTraceDesired, setTraceDiff,
      set_field, sbind, eval, on_tasks; rewrite Ht; simpl; rewrite Hg; simpl;
    now rewrite with_tasks_same.
Qed.

Lemma snapshot_of_undefined_throws_witness :
  setCurrentConfig "a" JUndef two_errors = (two_errors, Throw SyntaxError).
Proof.
  exact (snapshot_of_undefined_throws setCurrentConfig getCurrentConfig "a" _
           two_errors (or_introl eq_refl) eq_refl).
Defined.

(** X5: when one of [setCode], [setMessage], [setStatus],
    [setRebootRequired], [setRequestOptions] returns, the getter of the
    same field returns the value that was given, whatever it is. *)
Theorem plain_setter_reads_back set get taskId v s s' :
  In (set, get) stored_as_given ->
  set taskId v s = (s', Ok tt) ->
  get s' taskId = Ok v.
Proof.
  intros Hin H. simpl in Hin.
  repeat (destruct Hin as [[= <- <-]|Hin]); try contradiction;
    apply set_field_get in H as (x & [= <-] & Hget); exact Hget.
Qed.

Lemma plain_setter_reads_back_witness :
  getStatus (fst (setStatus "a" JUndef two_errors)) "a" = Ok JUndef.
Proof.
  apply (plain_setter_reads_back setStatus getStatus "a" JUndef two_errors).
  - simpl. auto 10.
  - reflexivity.
Defined.

(** X6: on a task that has no [result], the getters of code, message,
    status and errors throw a [TypeError], and so do their setters for
    every argument, leaving the state as it was. *)
Theorem result_accessors_need_a_result set get taskId task res s :
  In (set, get) result_accessors ->
  task_of s taskId = Ok task ->
  get_prop task "result" = Ok res -> res = JUndef \/ res = JNull ->
  get s taskId = Throw TypeError /\
  forall v, set taskId v s = (s, Throw TypeError).
Proof.
  intros Hin Ht Hr Hres. pose proof (task_of_Ok _ _ _ Ht) as [Hg _].
  assert (Hget : forall k, get_field ["result"; k] s taskId = Throw TypeError).
  { intros k. unfold get_field. rewrite Ht. simpl. rewrite Hr.
    now destruct Hres as [-> | ->]. }
  assert (Hset : forall k x,
             set_field ["result"] k taskId (Ok x) s = (s, Throw TypeError)).
  { intros k x. unfold set_field, sbind, eval, on_tasks, write.
    rewrite Ht. simpl. rewrite Hg. simpl. rewrite Hr. simpl.
    destruct Hres as [-> | ->]; simpl; now rewrite with_tasks_same. }
  simpl in Hin.
  repeat (destruct Hin as [[= <- <-]|Hin]); try contradiction;
    (split; [apply Hget|intros v; try apply Hset]).
  unfold setErrors, sbind, eval. rewrite Ht.
  destruct (truthy v) eqn:Ev.
  - unfold set_field, sbind, eval, on_tasks, write.
    rewrite Ht. simpl. rewrite Hg. simpl. rewrite Hr. simpl.
    destruct v; try discriminate Ev; simpl;
      destruct Hres as [-> | ->]; simpl; now rewrite with_tasks_same.
  - simpl. rewrite Hg. simpl. rewrite Hr.
    now destruct Hres as [-> | ->].
Qed.

Lemma result_accessors_need_a_result_witness :
  getErrors bare_state "a" = Throw TypeError /\
  forall v, setErrors "a" v bare_state = (bare_state, Throw TypeError).
Proof.
  apply (result_accessors_need_a_result setErrors getErrors "a"
           (JObj [("id", JStr "a"); ("lastUpdate", JDate 0)]) JUndef
           bare_state).
  - simpl. auto 10.
  - reflexivity.
  - reflexivity.
  - now left.
Defined.



(** X26: once a trace that is truthy as JSON has been stored for a task,
    by any of [setTraceCurrent], [setTraceDesired], [setTraceDiff],
    [hasTrace] returns a truthy value for the task. *)
Theorem stored_trace_is_seen set taskId v j s s' :
  In set trace_setters ->
  set taskId v s = (s', Ok tt) ->
  json_copy v = Ok j -> truthy j = true ->
  exists r, hasTrace s' taskId = Ok r /\ truthy r = true.
Proof.
  intros Hin H Hj Ht.
  assert (Hread : forall k, inherited k = false ->
             exists x, get_field [k] s' taskId = Ok x).
  { intros k Hk.
    assert (Htask : exists fs, task_of s' taskId = Ok (JObj fs)).
    { simpl in Hin.
      repeat (destruct Hin as [<-|Hin]); try contradiction;
        apply set_field_Ok in H as (x & ts' & _ & Hw & ->);
        apply set_path_task in Hw as (t & t' & _ & _ & Hw & Ht' & Htt');
        destruct t; simpl in Hw; try discriminate Hw; injection Hw as <-;
        eexists; (apply task_of_truthy; [exact Ht' | reflexivity]). }
    destruct Htask as (fs & Htask). unfold get_field. rewrite Htask.
    cbn [bind get_path].
    destruct (get_prop_object fs k Hk) as (x & ->). cbn [bind get_path].
    eauto. }
  destruct (Hread "traceCurrent" eq_refl) as (a & Ha).
  destruct (Hread "traceDesired" eq_refl) as (b & Hb).
  destruct (Hread "traceDiff" eq_refl) as (c & Hc).
  unfold hasTrace, getTraceCurrent, getTraceDesired, getTraceDiff.
  rewrite Ha. cbn [bind].
  simpl in Hin. destruct Hin as [<-|[<-|[<-|[]]]];
    apply set_field_get in H as (x & Hx & Hget); rewrite Hj in Hx;
    injection Hx as <-; simpl app in Hget.
  - rewrite Ha in Hget. injection Hget as ->. rewrite Ht. eauto.
  - destruct (truthy a) eqn:Ea; [eauto|].
    rewrite Hb. cbn [bind]. rewrite Hb in Hget. injection Hget as ->.
    rewrite Ht. eauto.
  - destruct (truthy a) eqn:Ea; [eauto|].
    rewrite Hb. cbn [bind]. destruct (truthy b) eqn:Eb; [eauto|].
    rewrite Hc. rewrite Hc in Hget. injection Hget as ->. eauto.
Qed.

Lemma stored_trace_is_seen_witness :
  exists r,
    hasTrace (fst (setTraceDiff "a" (JArr []) two_errors)) "a" = Ok r /\
    truthy r = true.
Proof.
  apply (stored_trace_is_seen setTraceDiff "a" (JArr []) (JArr []) two_errors).
  - simpl. auto.
  - reflexivity.
  - reflexivity.
  - reflexivity.
Defined.

(** ** The original configurations *)

Lemma assoc_get_del_same k fs : assoc_get k (assoc_del k fs) = None.
Proof.
  induction fs as [|[k0 v0] r IH]; simpl; [reflexivity|].
  destruct (String.eqb_spec k0 k) as [->|Hne]; simpl; [exact IH|].
  destruct (String.eqb_spec k0 k); [contradiction | exact IH].
Qed.

Lemma keys_set k v fs k' :
  In k' (map fst (assoc_set k v fs)) <-> k' = k \/ In k' (map fst fs).
Proof.
  induction fs as [|[k0 v0] r IH]; simpl.
  - split; [intros [<-|[]]; now left | intros [->|[]]; now left].
  - destruct (String.eqb_spec k0 k) as [->|Hne]; simpl.
    + split; [tauto|]. intros [->|[->|H]]; tauto.
    + rewrite IH. split; [tauto|]. intros [->|[->|H]]; tauto.
Qed.

(** the keys after a write: those before, and the one written *)
Lemma keys_after_set base k v base' :
  set_prop base k v = Ok base' ->
  exists ids ids',
    object_keys base = Ok ids /\ object_keys base' = Ok ids' /\
    In k ids' /\ forall k', In k' ids' -> k' = k \/ In k' ids.
Proof.
  destruct base; simpl; try discriminate.
  - destruct (index_of_key k) as [i|] eqn:Ei; [|discriminate].
    destruct (Nat.ltb_spec i (List.length l)); [|discriminate].
    intros [= <-]. simpl. rewrite length_replace_nth.
    do 2 eexists. repeat split; auto.
    apply index_of_key_sound in Ei. subst k. apply in_map, in_seq. lia.
  - destruct (k =? "__proto__")%string; [discriminate|].
    intros [= <-]. simpl. do 2 eexists. repeat split.
    + apply keys_set. now left.
    + intros k'. apply keys_set.
Qed.

(** X8: when [setOriginalConfigByConfigId] returns, the id is listed by
    [getOriginalConfigIds], and [getOriginalConfigByConfigId] returns for
    it the JSON copy of the configuration that was given, or [null] when
    that copy is falsy; the configurations under the other ids and the
    tasks are as they were. *)
Theorem originalConfig_reads_back id config s s' :
  setOriginalConfigByConfigId id config s = (s', Ok tt) ->
  exists j ids,
    json_copy config = Ok j /\
    getOriginalConfigByConfigId s' id = Ok (if truthy j then j else JNull) /\
    getOriginalConfigIds s' = Ok ids /\ In id ids /\
    (forall id', id' <> id ->
       getOriginalConfigByConfigId s' id' = getOriginalConfigByConfigId s id') /\
    tasks s' = tasks s /\ mostRecentTask s' = mostRecentTask s.
Proof.
  unfold setOriginalConfigByConfigId. intros H.
  apply sbind_Ok in H as (j & s0 & H0 & H). apply eval_run in H0 as [-> H0].
  apply write_Ok in H. apply bind_Ok in H as (oc & Hoc & [= <-]).
  destruct (keys_after_set _ _ _ _ Hoc) as (ids & ids' & _ & Hids' & Hin & _).
  exists j, ids'. repeat split; auto.
  - unfold getOriginalConfigByConfigId. simpl.
    rewrite (get_set_same _ _ _ _ Hoc). simpl. now destruct (truthy j).
  - intros id' Hne. unfold getOriginalConfigByConfigId. simpl.
    now rewrite (get_set_other _ _ _ _ _ Hoc Hne).
Qed.

Lemma originalConfig_reads_back_witness :
  exists j ids,
    json_copy (JNum 0) = Ok j /\
    getOriginalConfigByConfigId
      (fst (setOriginalConfigByConfigId "m" (JNum 0) two_errors)) "m"
    = Ok (if truthy j then j else JNull) /\
    getOriginalConfigIds
      (fst (setOriginalConfigByConfigId "m" (JNum 0) two_errors)) = Ok ids /\
    In "m" ids /\
    (forall id', id' <> "m" ->
       getOriginalConfigByConfigId
         (fst (setOriginalConfigByConfigId "m" (JNum 0) two_errors)) id'
       = getOriginalConfigByConfigId two_errors id') /\
    tasks (fst (setOriginalConfigByConfigId "m" (JNum 0) two_errors))
    = tasks two_errors /\
    mostRecentTask (fst (setOriginalConfigByConfigId "m" (JNum 0) two_errors))
    = mostRecentTask two_errors.
Proof.
  apply (originalConfig_reads_back "m" (JNum 0) two_errors). reflexivity.
Defined.

(** X9: when [deleteOriginalConfigByConfigId] returns, the ids that
    [getOriginalConfigIds] lists are those it listed before without the
    deleted one, [getOriginalConfigByConfigId] returns [null] for the
    deleted id, and the configurations under the other ids and the tasks
    are as they were. *)
Theorem deleted_originalConfig_is_gone id s s' :
  deleteOriginalConfigByConfigId id s = (s', Ok tt) ->
  exists ids ids',
    getOriginalConfigIds s = Ok ids /\ getOriginalConfigIds s' = Ok ids' /\
    (forall id', In id' ids' <-> In id' ids /\ id' <> id) /\
    (inherited id = false -> getOriginalConfigByConfigId s' id = Ok JNull) /\
    (forall id', id' <> id ->
       getOriginalConfigByConfigId s' id' = getOriginalConfigByConfigId s id') /\
    tasks s' = tasks s /\ mostRecentTask s' = mostRecentTask s.
Proof.
  unfold deleteOriginalConfigByConfigId. intros H.
  apply write_Ok in H. apply bind_Ok in H as (oc & Hoc & [= <-]).
  unfold getOriginalConfigIds, getOriginalConfigByConfigId. simpl.
  assert (Hother : forall id', id' <> id ->
            get_prop oc id' = get_prop (originalConfig s) id').
  { intros id' Hne. eapply get_del_other; eauto. }
  destruct (originalConfig s) as [| |b|n|str|ms|l|fs]; simpl in Hoc;
    try discriminate; injection Hoc as <-; simpl.
  1-3: exists [], []; repeat split; auto; try tauto;
       unfold not_own; now intros ->.
  exists (map fst fs), (map fst (assoc_del id fs)).
  split; [reflexivity|]. split; [reflexivity|].
  split; [intros id'; apply keys_del|].
  split; [|split; [|now split]].
  - intros Hi. rewrite assoc_get_del_same. unfold not_own. now rewrite Hi.
  - intros id' Hne. specialize (Hother id' Hne). simpl in Hother.
    now rewrite Hother.
Qed.

Lemma deleted_originalConfig_is_gone_witness :
  exists ids ids',
    getOriginalConfigIds
      (fst (setOriginalConfigByConfigId "m" (JNum 1) empty_State)) = Ok ids /\
    getOriginalConfigIds empty_State = Ok ids' /\
    (forall id', In id' ids' <-> In id' ids /\ id' <> "m") /\
    (inherited "m" = false ->
     getOriginalConfigByConfigId empty_State "m" = Ok JNull) /\
    (forall id', id' <> "m" ->
       getOriginalConfigByConfigId empty_State id'
       = getOriginalConfigByConfigId
           (fst (setOriginalConfigByConfigId "m" (JNum 1) empty_State)) id') /\
    tasks empty_State
    = tasks (fst (setOriginalConfigByConfigId "m" (JNum 1) empty_State)) /\
    mostRecentTask empty_State
    = mostRecentTask
        (fst (setOriginalConfigByConfigId "m" (JNum 1) empty_State)).
Proof.
  apply (deleted_originalConfig_is_gone "m"
           (fst (setOriginalConfigByConfigId "m" (JNum 1) empty_State))
           empty_State).
  reflexivity.
Defined.

(** ** [updateResult], step by step *)

Lemma when_write_same c p k v ts ts' :
  when c (write (fun ts => set_path ts p k v)) ts = (ts', Ok tt) ->
  get_path ts' (p ++ [k]) = if c then Ok v else get_path ts (p ++ [k]).
Proof.
  intros H. apply when_Ok in H. destruct c; [|now subst].
  apply write_Ok in H. eapply get_path_set_path_same; eauto.
Qed.

Lemma when_write_other c p k v ts ts' r a b rest q :
  when c (write (fun ts => set_path ts p k v)) ts = (ts', Ok tt) ->
  p ++ [k] = r ++ b :: rest -> a <> b ->
  get_path ts' (r ++ a :: q) = get_path ts (r ++ a :: q).
Proof.
  intros H Hp Hab.
  exact (preserves_when _ c _ (write_below_frame p k v r a b rest q _ Hp Hab)
           _ _ _ H eq_refl).
Qed.

(** the task is there, and is an object *)
Lemma task_write_keeps_task taskId p k v :
  preserves (fun ts => exists t, get_prop ts taskId = Ok t /\ truthy t = true)
            (write (fun ts => set_path ts (taskId :: p) k v)).
Proof.
  apply preserves_write. intros ts ts' H _.
  apply set_path_task in H as (t & t' & _ & _ & _ & Ht' & Htt'). eauto.
Qed.

Lemma get_field_path s taskId q :
  (exists t, get_prop (tasks s) taskId = Ok t /\ truthy t = true) ->
  get_field q s taskId = get_path (tasks s) (taskId :: q).
Proof.
  intros (t & Ht & Htt). unfold get_field.
  rewrite (task_of_truthy s taskId t Ht Htt). simpl. now rewrite Ht.
Qed.

(** rewriting with an equation between reads, its paths computed *)
Ltac hop E :=
  let X := fresh in
  pose proof E as X; cbv beta iota delta [app] in X; rewrite X; clear X.
Ltac hopb E :=
  let X := fresh in
  pose proof E as X; cbv beta iota delta [app] in X; rewrite <- X; clear X.

Section UpdateResult.
Variables (taskId : string) (errors : jsval).

(** the last step of [updateResult] *)
Let record_errors : stmt jsval unit :=
  when (truthy errors)
    (old <~ eval (fun ts => get_path ts [taskId; "result"; "errors"]) ;;
     when (negb (truthy old))
       (write (fun ts =>
                 set_path ts [taskId; "result"] "errors" (JArr []))) ;;;
     cur <~ eval (fun ts => get_path ts [taskId; "result"; "errors"]) ;;
     new <~ eval (fun _ => if is_array errors then js_concat cur errors
                           else js_push cur errors) ;;
     write (fun ts => set_path ts [taskId; "result"] "errors" new)).

(** the steps of an [updateResult] that returns *)
Lemma updateResult_Ok now code status message s s' :
  updateResult taskId now code status message errors s = (s', Ok tt) ->
  exists t ts1 ts2 ts3 ts4 ts',
    task_of s taskId = Ok t /\
    set_path (tasks s) [taskId] "lastUpdate" (JDate now) = Ok ts1 /\
    when (truthy code)
      (write (fun ts => set_path ts [taskId; "result"] "code" code)) ts1
    = (ts2, Ok tt) /\
    when (truthy status)
      (write (fun ts => set_path ts [taskId; "result"] "status" status)) ts2
    = (ts3, Ok tt) /\
    when (truthy message)
      (write (fun ts => set_path ts [taskId; "result"] "message" message)) ts3
    = (ts4, Ok tt) /\
    record_errors ts4 = (ts', Ok tt) /\
    s' = with_tasks s ts'.
Proof.
  unfold updateResult. intros H.
  apply sbind_Ok in H as (t & s0 & H0 & H).
  apply eval_run in H0 as [-> H0]. symmetry in H0.
  apply on_tasks_Ok in H as (ts' & H & ->).
  apply sbind_Ok in H as ([] & ts1 & H1 & H). apply write_Ok in H1.
  apply sbind_Ok in H as ([] & ts2 & H2 & H).
  apply sbind_Ok in H as ([] & ts3 & H3 & H).
  apply sbind_Ok in H as ([] & ts4 & H4 & H).
  exists t, ts1, ts2, ts3, ts4, ts'. repeat split; auto.
Qed.

Lemma record_errors_keeps_task :
  preserves (fun ts => exists t, get_prop ts taskId = Ok t /\ truthy t = true)
            record_errors.
Proof.
  unfold record_errors.
  repeat first
    [ apply preserves_eval | apply preserves_when
    | apply preserves_sbind; [|intros] | apply task_write_keeps_task ].
Qed.

Lemma record_errors_frame r a b rest q x :
  [taskId; "result"; "errors"] = r ++ b :: rest -> a <> b ->
  preserves (fun ts => get_path ts (r ++ a :: q) = x) record_errors.
Proof.
  intros Hp Hab. unfold record_errors.
  repeat first
    [ apply preserves_eval | apply preserves_when
    | apply preserves_sbind; [|intros] ].
  all: eapply write_below_frame; eauto.
Qed.

(** the task and its fields after the steps *)
Lemma updateResult_fields now code status message s s' :
  updateResult taskId now code status message errors s = (s', Ok tt) ->
  (forall q, get_field q s taskId = get_path (tasks s) (taskId :: q)) /\
  (forall q, get_field q s' taskId = get_path (tasks s') (taskId :: q)) /\
  get_path (tasks s') [taskId; "lastUpdate"] = Ok (JDate now) /\
  forall k v,
    In (k, v) [("code", code); ("status", status); ("message", message)] ->
    get_path (tasks s') [taskId; "result"; k]
    = if truthy v then Ok v else get_path (tasks s) [taskId; "result"; k].
Proof.
  intros H.
  apply updateResult_Ok in H
    as (t & ts1 & ts2 & ts3 & ts4 & ts' & Ht & H1 & H2 & H3 & H4 & H5 & ->).
  apply task_of_Ok in Ht as [Hg Htt].
  assert (K0 : exists t, get_prop (tasks s) taskId = Ok t /\ truthy t = true)
    by eauto.
  assert (K1 : exists t, get_prop ts1 taskId = Ok t /\ truthy t = true).
  { pose proof (set_path_task _ _ _ _ _ _ H1)
      as (? & t' & _ & _ & _ & Ht' & Htt'). eauto. }
  assert (K2 := preserves_when _ _ _ (task_write_keeps_task _ _ _ _)
                  _ _ _ H2 K1).
  assert (K3 := preserves_when _ _ _ (task_write_keeps_task _ _ _ _)
                  _ _ _ H3 K2).
  assert (K4 := preserves_when _ _ _ (task_write_keeps_task _ _ _ _)
                  _ _ _ H4 K3).
  assert (K' := record_errors_keeps_task _ _ _ H5 K4).
  assert (F1 : forall k, get_path ts1 [taskId; "result"; k]
                         = get_path (tasks s) [taskId; "result"; k]).
  { intros k.
    apply (get_path_set_path_other _ _ _ _ _ [taskId] "result" "lastUpdate"
             [] [k] H1 eq_refl). discriminate. }
  assert (F5 : forall k, k <> "errors" ->
                         get_path ts' [taskId; "result"; k]
                         = get_path ts4 [taskId; "result"; k]).
  { intros k Hk.
    exact (record_errors_frame [taskId; "result"] k "errors" [] [] _
             eq_refl Hk _ _ _ H5 eq_refl). }
  split; [intros q; now apply get_field_path|].
  split; [intros q; now apply get_field_path|].
  simpl tasks. split.
  - hop (record_errors_frame [taskId] "lastUpdate" "result" ["errors"] []
           _ eq_refl ltac:(discriminate) _ _ _ H5 eq_refl).
    hop (when_write_other _ _ _ _ _ _ [taskId] "lastUpdate" "result"
           ["message"] [] H4 eq_refl ltac:(discriminate)).
    hop (when_write_other _ _ _ _ _ _ [taskId] "lastUpdate" "result"
           ["status"] [] H3 eq_refl ltac:(discriminate)).
    hop (when_write_other _ _ _ _ _ _ [taskId] "lastUpdate" "result"
           ["code"] [] H2 eq_refl ltac:(discriminate)).
    exact (get_path_set_path_same _ _ _ _ _ H1).
  - intros k v Hin. simpl in Hin.
    destruct Hin as [[= <- <-]|[[= <- <-]|[[= <- <-]|[]]]];
      rewrite F5 by discriminate.
    + hop (when_write_other _ _ _ _ _ _ [taskId; "result"] "code" "message"
             [] [] H4 eq_refl ltac:(discriminate)).
      hop (when_write_other _ _ _ _ _ _ [taskId; "result"] "code" "status"
             [] [] H3 eq_refl ltac:(discriminate)).
      rewrite <- F1. exact (when_write_same _ _ _ _ _ _ H2).
    + hop (when_write_other _ _ _ _ _ _ [taskId; "result"] "status"
             "message" [] [] H4 eq_refl ltac:(discriminate)).
      rewrite <- F1.
      hopb (when_write_other _ _ _ _ _ _ [taskId; "result"] "status"
              "code" [] [] H2 eq_refl ltac:(discriminate)).
      exact (when_write_same _ _ _ _ _ _ H3).
    + rewrite <- F1.
      hopb (when_write_other _ _ _ _ _ _ [taskId; "result"] "message"
              "code" [] [] H2 eq_refl ltac:(discriminate)).
      hopb (when_write_other _ _ _ _ _ _ [taskId; "result"] "message"
              "status" [] [] H3 eq_refl ltac:(discriminate)).
      exact (when_write_same _ _ _ _ _ _ H4).
Qed.

(** the errors of a task that had none *)
Lemma updateResult_first_errors now code status message s s' old :
  updateResult taskId now code status message errors s = (s', Ok tt) ->
  get_path (tasks s) [taskId; "result"; "errors"] = Ok old ->
  truthy old = false ->
  get_path (tasks s') [taskId; "result"; "errors"]
  = if truthy errors then Ok (JArr (recorded errors)) else Ok old.
Proof.
  intros H Hold Hfalsy.
  apply updateResult_Ok in H
    as (t & ts1 & ts2 & ts3 & ts4 & ts' & Ht & H1 & H2 & H3 & H4 & H5 & ->).
  simpl tasks.
  assert (E4 : get_path ts4 [taskId; "result"; "errors"] = Ok old).
  { hop (when_write_other _ _ _ _ _ _ [taskId; "result"] "errors" "message"
           [] [] H4 eq_refl ltac:(discriminate)).
    hop (when_write_other _ _ _ _ _ _ [taskId; "result"] "errors" "status"
           [] [] H3 eq_refl ltac:(discriminate)).
    hop (when_write_other _ _ _ _ _ _ [taskId; "result"] "errors" "code"
           [] [] H2 eq_refl ltac:(discriminate)).
    rewrite <- Hold.
    apply (get_path_set_path_other _ _ _ _ _ [taskId] "result" "lastUpdate"
             [] ["errors"] H1 eq_refl). discriminate. }
  unfold record_errors in H5. apply when_Ok in H5. unfold recorded.
  destruct (truthy errors) eqn:Et; [|now subst ts'].
  apply sbind_Ok in H5 as (old0 & ts5 & H6 & H5).
  apply eval_run in H6 as [-> H6]. rewrite E4 in H6. injection H6 as ->.
  apply sbind_Ok in H5 as ([] & ts6 & H6 & H5).
  rewrite Hfalsy in H6. simpl in H6. apply write_Ok in H6.
  apply (get_path_set_path_same _ [taskId; "result"] "errors") in H6.
  simpl app in H6.
  apply sbind_Ok in H5 as (cur & ts7 & H7 & H5).
  apply eval_run in H7 as [-> H7]. rewrite H6 in H7. injection H7 as ->.
  apply sbind_Ok in H5 as (new & ts8 & H8 & H5).
  apply eval_run in H8 as [-> H8].
  apply write_Ok in H5.
  apply (get_path_set_path_same _ [taskId; "result"] "errors") in H5.
  simpl app in H5. rewrite H5. f_equal.
  destruct errors; simpl in H8; congruence.
Qed.
End UpdateResult.



(** X11: when [updateResult] returns on a task whose result has no
    errors yet, the errors of the task are a new list of those given (a
    single error as a list of one), and are left as they were when none is
    given. *)
Theorem first_errors_start_the_list
  taskId now code status message errors s s' old :
  updateResult taskId now code status message errors s = (s', Ok tt) ->
  getErrors s taskId = Ok old -> truthy old = false ->
  getErrors s' taskId
  = if truthy errors then Ok (JArr (recorded errors)) else Ok old.
Proof.
  intros H Hold Hfalsy.
  pose proof (updateResult_fields _ _ _ _ _ _ _ _ H) as (G & G' & _).
  unfold getErrors in *. rewrite G in Hold. rewrite G'.
  eapply updateResult_first_errors; eauto.
Qed.

Lemma first_errors_start_the_list_witness :
  getErrors
    (fst (updateResult "a" 1 JUndef JUndef JUndef (JStr "first")
            (fst (addTask "a" 0 0 empty_State)))) "a"
  = if truthy (JStr "first") then Ok (JArr (recorded (JStr "first")))
    else Ok JUndef.
Proof.
  apply (first_errors_start_the_list "a" 1 JUndef JUndef JUndef (JStr "first")
           (fst (addTask "a" 0 0 empty_State)) _ JUndef); reflexivity.
Defined.

(** X12: [updateResult] is not all or nothing. On a task that has no
    [result], a call that has anything truthy to record throws a
    [TypeError], and the task has been marked as updated at the time of
    the call all the same. *)
Theorem updateResult_throws_after_the_date
  taskId now code status message errors s tfs fs s' r :
  tasks s = JObj tfs -> assoc_get taskId tfs = Some (JObj fs) ->
  taskId <> "__proto__" -> assoc_get "result" fs = None ->
  truthy code || truthy status || truthy message || truthy errors = true ->
  updateResult taskId now code status message errors s = (s', r) ->
  r = Throw TypeError /\
  getLastUpdate s' taskId = Ok (JDate now) /\
  getTask s' taskId = Ok (JObj (assoc_set "lastUpdate" (JDate now) fs)).
Proof.
  intros Hts Ht Hp Hr Hany.
  set (t1 := JObj (assoc_set "lastUpdate" (JDate now) fs)).
  set (ts1 := JObj (assoc_set taskId t1 tfs)).
  assert (H1 : set_path (tasks s) [taskId] "lastUpdate" (JDate now) = Ok ts1).
  { rewrite Hts. simpl. rewrite Ht. simpl.
    apply String.eqb_neq in Hp. now rewrite Hp. }
  assert (Hg1 : get_prop ts1 taskId = Ok t1).
  { simpl. now rewrite assoc_get_set_same. }
  assert (Hr1 : get_prop t1 "result" = Ok JUndef).
  { unfold t1. cbn [get_prop].
    rewrite assoc_get_set_other by discriminate. now rewrite Hr. }
  assert (Hw : forall k v,
            write (fun ts => set_path ts [taskId; "result"] k v) ts1
            = (ts1, Throw TypeError)).
  { intros k v. unfold write. cbn [set_path]. rewrite Hg1. cbn [bind].
    rewrite Hr1. reflexivity. }
  assert (Hstate : getLastUpdate (with_tasks s ts1) taskId = Ok (JDate now) /\
                   getTask (with_tasks s ts1) taskId = Ok t1).
  { unfold getLastUpdate, get_field, task_of, getTask. cbn [tasks with_tasks].
    rewrite Hg1. split; [|reflexivity]. simpl.
    now rewrite assoc_get_set_same. }
  unfold updateResult, sbind, eval, on_tasks, task_of.
  rewrite Hts. cbn [get_prop]. rewrite Ht. cbn [bind truthy].
  rewrite <- Hts. unfold write at 1. rewrite H1.
  destruct (truthy code); cbn [when];
    [rewrite Hw; intros [= <- <-]; now split|].
  unfold sret at 1.
  destruct (truthy status); cbn [when];
    [rewrite Hw; intros [= <- <-]; now split|].
  unfold sret at 1.
  destruct (truthy message); cbn [when];
    [rewrite Hw; intros [= <- <-]; now split|].
  unfold sret at 1.
  destruct (truthy errors); [|discriminate Hany]. cbn [when].
  cbn [get_path]. rewrite Hg1. cbn [bind]. rewrite Hr1. cbn [bind get_prop].
  intros [= <- <-]. now split.
Qed.

Lemma updateResult_throws_after_the_date_witness :
  snd (updateResult "a" 9 (JNum 200) JUndef JUndef JUndef bare_state)
  = Throw TypeError /\
  getLastUpdate
    (fst (updateResult "a" 9 (JNum 200) JUndef JUndef JUndef bare_state)) "a"
  = Ok (JDate 9) /\
  getTask
    (fst (updateResult "a" 9 (JNum 200) JUndef JUndef JUndef bare_state)) "a"
  = Ok (JObj (assoc_set "lastUpdate" (JDate 9)
                [("id", JStr "a"); ("lastUpdate", JDate 0)])).
Proof.
  apply (updateResult_throws_after_the_date "a" 9 (JNum 200) JUndef JUndef
           JUndef bare_state
           [("a", JObj [("id", JStr "a"); ("lastUpdate", JDate 0)])]
           [("id", JStr "a"); ("lastUpdate", JDate 0)]).
  - reflexivity.
  - reflexivity.
  - discriminate.
  - reflexivity.
  - reflexivity.
  - reflexivity.
Defined.

(** ** What [addTask] does to the other tasks *)

(** the keys after a delete are among those before, and what they hold
    is what they held *)
Lemma del_prop_keeps base k base' :
  del_prop base k = Ok base' ->
  exists ids', object_keys base' = Ok ids' /\
    forall k', In k' ids' ->
      (exists ids, object_keys base = Ok ids /\ In k' ids) /\
      get_prop base' k' = get_prop base k'.
Proof.
  destruct base; simpl; try discriminate; intros [= <-]; simpl;
    try (exists []; split; [reflexivity|intros k' []]).
  eexists. split; [reflexivity|].
  intros k' Hin. apply keys_del in Hin as [Hin Hne].
  split; [eauto|]. now rewrite assoc_get_del_other.
Qed.

Section Purge.
Variables (now : Z) (ts0 : jsval).

(** every key is one of [ts0], and holds what it holds there *)
Let among (ts : jsval) : Prop :=
  exists ids, object_keys ts = Ok ids /\
    forall k, In k ids ->
      (exists ids0, object_keys ts0 = Ok ids0 /\ In k ids0) /\
      get_prop ts k = get_prop ts0 k.

Lemma cleanup_body_among k : preserves among (cleanup_body now k).
Proof.
  unfold cleanup_body. apply preserves_sbind; [apply preserves_eval|intros old].
  apply preserves_when, preserves_write.
  intros ts ts' Hd (ids & Hids & Ha).
  destruct (del_prop_keeps _ _ _ Hd) as (ids' & Hids' & Hk).
  exists ids'. split; [exact Hids'|].
  intros k' Hin. destruct (Hk k' Hin) as [(ids1 & H1 & Hin1) ->].
  rewrite Hids in H1. injection H1 as <-. exact (Ha _ Hin1).
Qed.

Lemma cleanupOldTasks_among : preserves among (cleanupOldTasks now).
Proof.
  unfold cleanupOldTasks.
  apply preserves_sbind; [apply preserves_eval|intros keys].
  apply preserves_for_each, cleanup_body_among.
Qed.
End Purge.

(** X13: [addTask] adds one task and removes tasks, and does nothing
    else to the table: when it returns, every id that [getTaskIds] lists,
    other than the new one, was listed before, and its task is the one it
    was. *)
Theorem addTask_only_adds_and_removes s taskId created now s' id :
  addTask taskId created now s = (s', Ok id) ->
  exists ids ids',
    getTaskIds s = Ok ids /\ getTaskIds s' = Ok ids' /\
    forall k, In k ids' -> k <> taskId ->
              In k ids /\ getTask s' k = getTask s k.
Proof.
  intros H.
  assert (Hloop : exists ts1,
             set_prop (tasks s) taskId (new_task taskId created) = Ok ts1 /\
             cleanupOldTasks now ts1 = (tasks s', Ok tt)).
  { apply addTask_Ok in H as (ts1 & keys & Hset & Hkeys & Hloop & _).
    exists ts1. split; [exact Hset|].
    rewrite cleanupOldTasks_unfold, Hkeys. exact Hloop. }
  destruct Hloop as (ts1 & Hset & Hloop).
  destruct (keys_after_set _ _ _ _ Hset)
    as (ids & ids1 & Hids & Hids1 & _ & Hsub).
  destruct (cleanupOldTasks_among now ts1 _ _ _ Hloop) as (ids' & Hids' & Ha).
  { exists ids1. split; [exact Hids1|]. intros k Hin. split; [eauto|reflexivity]. }
  exists ids, ids'. split; [exact Hids|]. split; [exact Hids'|].
  intros k Hin Hne. destruct (Ha k Hin) as [(ids0 & H0 & Hin0) Hg].
  rewrite Hids1 in H0. injection H0 as <-.
  split.
  - destruct (Hsub k Hin0); [contradiction | assumption].
  - unfold getTask. rewrite Hg. eapply get_set_other; eauto.
Qed.

Lemma addTask_only_adds_and_removes_witness :
  exists ids ids',
    getTaskIds two_errors = Ok ids /\
    getTaskIds (fst (addTask "b" 5 5 two_errors)) = Ok ids' /\
    forall k, In k ids' -> k <> "b" ->
              In k ids /\
              getTask (fst (addTask "b" 5 5 two_errors)) k
              = getTask two_errors k.
Proof.
  apply (addTask_only_adds_and_removes two_errors "b" 5 5 _ "b").
  reflexivity.
Defined.

Lemma addTask_lists_ids s taskId created now s' id :
  addTask taskId created now s = (s', Ok id) ->
  exists ids, getTaskIds s' = Ok ids.
Proof.
  intros H.
  apply addTask_Ok in H as (ts1 & keys & Hset & Hkeys & Hloop & _).
  destruct (keys_after_set _ _ _ _ Hset) as (ids & ids1 & _ & Hids1 & _).
  assert (Hl : cleanupOldTasks now ts1 = (tasks s', Ok tt))
    by (rewrite cleanupOldTasks_unfold, Hkeys; exact Hloop).
  destruct (cleanupOldTasks_among now ts1 _ _ _ Hl) as (ids' & Hids' & _).
  { exists ids1. split; [exact Hids1|]. intros k Hin. split; [eauto|reflexivity]. }
  eauto.
Qed.

(** X14: the purge of [addTask] goes by the age of a task whose
    [lastUpdate] is a [Date] (one that holds a time): when [addTask]
    returns, a task last updated more than the retention before the purge
    is no longer listed, and one last updated within the retention is
    listed and is as it was. *)
Theorem addTask_purges_by_age s taskId created now s' id k task lastUpdate :
  addTask taskId created now s = (s', Ok id) ->
  k <> taskId ->
  getTask s k = Ok task ->
  get_prop task "lastUpdate" = Ok (JDate lastUpdate) ->
  valid_time lastUpdate = true ->
  exists ids,
    getTaskIds s' = Ok ids /\
    (In k ids <-> now - lastUpdate <= maxAge) /\
    (now - lastUpdate <= maxAge -> getTask s' k = Ok task).
Proof.
  intros H Hk Hget Hlu _.
  destruct (Z_le_gt_dec (now - lastUpdate) maxAge) as [Hrecent|Hold].
  - pose proof (addTask_retains_recent _ _ _ _ _ _ _ _ _ H Hk Hget Hlu Hrecent)
      as Hkept.
    destruct (addTask_lists_ids _ _ _ _ _ _ H) as (ids & Hids).
    exists ids. split; [exact Hids|]. split; [|auto].
    split; [auto|]. intros _.
    eapply dated_task_is_key; eauto.
  - destruct (addTask_purges_dated _ _ _ _ _ _ _ _ _ H Hk Hget Hlu Hold)
      as (ids & Hids & Hn).
    exists ids. split; [exact Hids|]. split; [|lia].
    split; [contradiction | lia].
Qed.

Lemma addTask_purges_by_age_witness :
  exists ids,
    getTaskIds (fst (addTask "b" 700000000 700000000 two_errors)) = Ok ids /\
    (In "a" ids <-> 700000000 - 1 <= maxAge) /\
    (700000000 - 1 <= maxAge ->
     getTask (fst (addTask "b" 700000000 700000000 two_errors)) "a"
     = getTask two_errors "a").
Proof.
  apply (addTask_purges_by_age two_errors "b" 700000000 700000000 _ "b" "a").
  - reflexivity.
  - discriminate.
  - reflexivity.
  - reflexivity.
  - reflexivity.
Defined.

End StateExtras.

(** * The constructor and the upgrade, beyond legacy states *)
Module MigrationExtras.
Import StateStore JsFacts StmtFacts StateFacts MigrationFacts Samples Accessors.
Local Open Scope list_scope.

Section Upgrade.
Variables VERSION RELEASE : string.
Variable versionCompare : jsval -> jsval -> result Z.
Variable updateIds : string -> jsval -> option string -> result jsval.
Variable NAMELESS_CLASSES : list string.

Let update_entry :=
  update_entry VERSION RELEASE versionCompare updateIds NAMELESS_CLASSES.
Let updateNewIdToId :=
  updateNewIdToId VERSION RELEASE versionCompare updateIds NAMELESS_CLASSES.
Let copyAndUpgradeState :=
  copyAndUpgradeState VERSION RELEASE versionCompare updateIds
                      NAMELESS_CLASSES.
Let new_State :=
  new_State VERSION RELEASE versionCompare updateIds NAMELESS_CLASSES.

(** ** What the migration writes *)

(** in the entry it works on, the migration writes [version] and below
    [Common] *)
Lemma update_entry_beside configId f q c :
  f <> "version" -> f <> "Common" ->
  preserves (fun es => get_path es ("originalConfig" :: configId :: f :: q) = c)
            (update_entry configId).
Proof.
  intros Hv Hc. unfold update_entry, StateStore.update_entry. preserve.
  - apply (write_below_frame _ _ _ ["originalConfig"; configId] f "version"
             [] q); auto.
  - apply (write_below_frame _ _ _ ["originalConfig"; configId] f "Common"
             [k] q); auto.
  - apply (write_below_frame _ _ _ ["originalConfig"; configId] f "Common"
             [k; k0] q); auto.
Qed.

Lemma updateNewIdToId_beside id f q c :
  f <> "version" -> f <> "Common" ->
  preserves (fun es => get_path es ("originalConfig" :: id :: f :: q) = c)
            updateNewIdToId.
Proof.
  intros Hv Hc. unfold updateNewIdToId, StateStore.updateNewIdToId.
  apply preserves_sbind; [apply preserves_eval|intros ids].
  apply preserves_for_each. intros configId.
  destruct (String.eqb_spec id configId) as [->|Hne].
  - now apply update_entry_beside.
  - now apply update_entry_frame.
Qed.

Lemma updateNewIdToId_keeps_keys ids :
  preserves (fun es => (oc <- get_prop es "originalConfig" ;; object_keys oc)
                       = ids)
            updateNewIdToId.
Proof.
  unfold updateNewIdToId, StateStore.updateNewIdToId.
  apply preserves_sbind; [apply preserves_eval|intros l].
  apply preserves_for_each. intros configId.
  apply update_entry_keeps_keys.
Qed.

(** X15: the identifier migration, whether it returns or throws, writes
    nothing but the [version] of a configuration and what is below its
    [Common]: every property of the state other than [originalConfig],
    the ids of the configurations and every other property of a
    configuration are as they were. *)
Theorem migration_writes_version_and_Common es es' r :
  updateNewIdToId es = (es', r) ->
  (forall k, k <> "originalConfig" -> get_prop es' k = get_prop es k) /\
  (oc <- get_prop es' "originalConfig" ;; object_keys oc)
  = (oc <- get_prop es "originalConfig" ;; object_keys oc) /\
  (forall id f q, f <> "version" -> f <> "Common" ->
     get_path es' ("originalConfig" :: id :: f :: q)
     = get_path es ("originalConfig" :: id :: f :: q)).
Proof.
  intros H. split; [|split].
  - intros k Hk.
    exact (updateNewIdToId_frame VERSION RELEASE versionCompare updateIds
             NAMELESS_CLASSES k _ Hk _ _ _ H eq_refl).
  - exact (updateNewIdToId_keeps_keys _ _ _ _ H eq_refl).
  - intros id f q Hv Hc.
    exact (updateNewIdToId_beside id f q _ Hv Hc _ _ _ H eq_refl).
Qed.

(** ** A state that has tasks *)

Lemma truthy_jsonify v : truthy v = true -> exists j, jsonify v = Some j.
Proof. destruct v; try discriminate; simpl; eauto. Qed.

Lemma holder_of_truthy es k v :
  get_prop es k = Ok v -> truthy v = true ->
  k <> "length" -> index_of_key k = None ->
  exists fs, es = JObj fs /\ assoc_get k fs = Some v.
Proof.
  intros H Hv. apply holder_is_object; [exact H|]. now intros ->.
Qed.

(** what [copyAndUpgradeState] does after its first block *)
Lemma upgrade_tail taskId now d es state :
  copyAndUpgradeState taskId now d = (es, Ok state) ->
  exists es5,
    (ts <~ eval (fun es => get_prop es "tasks") ;;
     when (negb (truthy ts))
       (existingStateCopy <~ eval json_copy ;;
        write (fun es => set_prop es "tasks" (JObj [])) ;;;
        write (fun es => set_path es ["tasks"] taskId existingStateCopy) ;;;
        write (fun es =>
                 set_path es ["tasks"; taskId] "lastUpdate" (JDate now)) ;;;
        write (fun es => set_path es ["tasks"; taskId] "id" (JStr taskId)) ;;;
        write (fun es => set_prop es "mostRecentTask" (JStr taskId)))) d
    = (es5, Ok tt) /\
    (forall k, k <> "originalConfig" -> get_prop es k = get_prop es5 k) /\
    (forall oc, get_prop es5 "originalConfig" = Ok oc -> truthy oc = false ->
                get_prop es "originalConfig" = Ok (JObj [])) /\
    json_copy es = Ok state.
Proof.
  unfold copyAndUpgradeState, StateStore.copyAndUpgradeState. intros H.
  apply sbind_Ok in H as (ts & es0 & H0 & H). apply eval_run in H0 as [-> Hts].
  apply sbind_Ok in H as ([] & es5 & Hblock & H).
  exists es5. split.
  { unfold sbind at 1. unfold eval at 1. rewrite <- Hts. exact Hblock. }
  apply sbind_Ok in H as (oc & es0 & H0 & H). apply eval_run in H0 as [-> Hoc].
  apply sbind_Ok in H as ([] & es6 & H6 & H).
  apply sbind_Ok in H as ([] & es7 & H7 & H).
  apply eval_run in H as [-> H]. symmetry in H, Hoc.
  apply when_Ok in H6.
  split; [|split; [|exact H]].
  - intros k Hk.
    rewrite (updateNewIdToId_frame VERSION RELEASE versionCompare updateIds
               NAMELESS_CLASSES k _ Hk _ _ _ H7 eq_refl).
    destruct (negb (truthy oc)); [|now subst].
    apply write_Ok in H6. eapply get_set_other; eauto.
  - intros oc' Hoc' Hfalsy. rewrite Hoc in Hoc'. injection Hoc' as <-.
    rewrite Hfalsy in H6. simpl in H6. apply write_Ok in H6.
    pose proof (get_set_same _ _ _ _ H6) as Hg.
    unfold StateStore.updateNewIdToId in H7.
    erewrite sbind_eval in H7; [|rewrite Hg; reflexivity].
    simpl in H7. apply sret_run in H7 as [-> _]. exact Hg.
Qed.

(** X16: a state that has tasks is loaded with the JSON copy of its
    tasks and of its most recent task, untouched by the upgrade, and with
    an empty set of original configurations when it has none. *)
Theorem load_keeps_tasks taskId now d ts s :
  new_State taskId now d = Ok s ->
  get_prop d "tasks" = Ok ts -> truthy ts = true ->
  json_copy ts = Ok (tasks s) /\
  (forall m j, get_prop d "mostRecentTask" = Ok m -> json_copy m = Ok j ->
               mostRecentTask s = j) /\
  (forall oc, get_prop d "originalConfig" = Ok oc -> truthy oc = false ->
              originalConfig s = JObj []).
Proof.
  intros H Hts Htt.
  destruct (holder_of_truthy _ _ _ Hts Htt) as (fs & -> & _);
    [discriminate | reflexivity |].
  unfold new_State, StateStore.new_State in H. simpl truthy in H. cbv iota in H.
  destruct (StateStore.copyAndUpgradeState _ _ _ _ _ _ _ _) as [es r] eqn:E.
  simpl snd in H. apply bind_Ok in H as (state & -> & H).
  apply upgrade_tail in E as (es5 & Hblock & Hk & Hoc & Hcopy).
  unfold sbind at 1, eval at 1 in Hblock. rewrite Hts, Htt in Hblock.
  simpl in Hblock. apply sret_run in Hblock as [-> _].
  pose proof (Hk "tasks" ltac:(discriminate)) as Hts'. rewrite Hts in Hts'.
  destruct (holder_of_truthy _ _ _ Hts' Htt) as (fs' & -> & Hfs');
    [discriminate | reflexivity |].
  destruct (truthy_jsonify _ Htt) as (tj & Htj).
  apply bind_Ok in H as (oc' & Hoc' & H). apply bind_Ok in H as (ts' & Hts2 & H).
  apply bind_Ok in H as (mrt & Hmrt & [= <-]).
  cbn [tasks mostRecentTask originalConfig].
  rewrite (get_prop_json_copy _ _ _ _ _ Hcopy Hfs' Htj) in Hts2.
  injection Hts2 as <-.
  split; [unfold json_copy; now rewrite Htj|]. split.
  - intros m j Hm Hj.
    unfold json_copy in Hj. destruct (jsonify m) eqn:Em; [|discriminate].
    injection Hj as ->.
    rewrite <- (Hk "mostRecentTask" ltac:(discriminate)) in Hm.
    destruct (holder_is_object _ _ _ Hm) as (fs2 & [= <-] & Hfs2);
      [now intros -> | discriminate | reflexivity |].
    rewrite (get_prop_json_copy _ _ _ _ _ Hcopy Hfs2 Em) in Hmrt. congruence.
  - intros oc Hoc1 Hfalsy. specialize (Hoc oc Hoc1 Hfalsy).
    destruct (holder_is_object _ _ _ Hoc) as (fs2 & [= <-] & Hfs2);
      [discriminate | discriminate | reflexivity |].
    rewrite (get_prop_json_copy _ _ _ _ (JObj []) Hcopy Hfs2 eq_refl) in Hoc'.
    congruence.
Qed.

(** X17: [copyAndUpgradeState] writes to the object it is given. When it
    returns from a state without tasks, that object itself holds the task
    under the fresh id, with the time of the upgrade as a [Date] and the
    fresh id, and names it as the most recent task; what is returned is
    the JSON copy of the object as it then is. *)
Theorem legacy_argument_is_rewritten taskId now d t es state :
  get_prop d "tasks" = Ok t -> truthy t = false ->
  copyAndUpgradeState taskId now d = (es, Ok state) ->
  get_path es ["tasks"; taskId; "lastUpdate"] = Ok (JDate now) /\
  get_path es ["tasks"; taskId; "id"] = Ok (JStr taskId) /\
  get_prop es "mostRecentTask" = Ok (JStr taskId) /\
  json_copy es = Ok state.
Proof.
  intros Ht Hfalsy H.
  apply upgrade_tail in H as (es5 & Hblock & Hk & _ & Hcopy).
  unfold sbind at 1, eval at 1 in Hblock. rewrite Ht, Hfalsy in Hblock.
  simpl negb in Hblock. cbn [when] in Hblock.
  apply sbind_Ok in Hblock as (copy & es0 & H0 & Hblock).
  apply eval_run in H0 as [-> H0].
  apply sbind_Ok in Hblock as ([] & es1 & H1 & Hblock). apply write_Ok in H1.
  apply sbind_Ok in Hblock as ([] & es2 & H2 & Hblock). apply write_Ok in H2.
  apply sbind_Ok in Hblock as ([] & es3 & H3 & Hblock). apply write_Ok in H3.
  apply sbind_Ok in Hblock as ([] & es4 & H4 & Hblock). apply write_Ok in H4.
  apply write_Ok in Hblock.
  assert (L3 := get_path_set_path_same _ _ _ _ _ H3). simpl app in L3.
  assert (L4 := get_path_set_path_same _ _ _ _ _ H4). simpl app in L4.
  assert (L34 := get_path_set_path_other _ _ _ _ _ ["tasks"; taskId]
                   "lastUpdate" "id" [] [] H4 eq_refl ltac:(discriminate)).
  simpl app in L34. rewrite L3 in L34.
  assert (T5 : get_prop es5 "tasks" = get_prop es4 "tasks")
    by (eapply get_set_other; [exact Hblock | discriminate]).
  assert (T : get_prop es "tasks" = get_prop es4 "tasks")
    by (rewrite (Hk "tasks") by discriminate; exact T5).
  split; [|split; [|split; [|exact Hcopy]]].
  - cbn [get_path] in L34 |- *. now rewrite T.
  - cbn [get_path] in L4 |- *. now rewrite T.
  - rewrite (Hk "mostRecentTask") by discriminate.
    eapply get_set_same; eauto.
Qed.

End Upgrade.

Lemma load_keeps_tasks_witness :
  exists s,
    sample_new_State "t" 9 state_without_config = Ok s /\
    json_copy (JObj [("a", JObj [("id", JStr "a");
                                 ("lastUpdate", JDate 0)])]) = Ok (tasks s) /\
    (forall m j,
       get_prop state_without_config "mostRecentTask" = Ok m ->
       json_copy m = Ok j -> mostRecentTask s = j) /\
    (forall oc,
       get_prop state_without_config "originalConfig" = Ok oc ->
       truthy oc = false -> originalConfig s = JObj []).
Proof.
  eexists. split; [reflexivity|].
  apply (load_keeps_tasks "1.27.0" "0" sample_versionCompare sample_updateIds
           ["System"] "t" 9 state_without_config); reflexivity.
Defined.

Lemma legacy_argument_is_rewritten_witness :
  let run := copyAndUpgradeState "1.27.0" "0" sample_versionCompare
               sample_updateIds ["System"] "t" 9 legacy_state in
  exists state,
    snd run = Ok state /\
    get_path (fst run) ["tasks"; "t"; "lastUpdate"] = Ok (JDate 9) /\
    get_path (fst run) ["tasks"; "t"; "id"] = Ok (JStr "t") /\
    get_prop (fst run) "mostRecentTask" = Ok (JStr "t") /\
    json_copy (fst run) = Ok state.
Proof.
  eexists. split; [reflexivity|].
  apply (legacy_argument_is_rewritten "1.27.0" "0" sample_versionCompare
           sample_updateIds ["System"] "t" 9 legacy_state JUndef);
    reflexivity.
Defined.

Lemma migration_writes_version_and_Common_witness :
  get_path (fst (sample_updateNewIdToId legacy_state))
           ["originalConfig"; "machine-1"; "Common"; "VLAN"; "internal"; "tag"]
  = Ok (JNum 4093) /\
  get_prop (fst (sample_updateNewIdToId legacy_state)) "result"
  = get_prop legacy_state "result".
Proof.
  split; [reflexivity|].
  exact (proj1 (migration_writes_version_and_Common "1.27.0" "0"
                  sample_versionCompare sample_updateIds ["System"]
                  legacy_state _ _ (surjective_pairing _))
               "result" ltac:(discriminate)).
Defined.

End MigrationExtras.

(** * The calls of a chain are those of its shape *)
Module ShapeFacts.
Import Js Promise Discipline Shape PromiseFacts.
Local Open Scope list_scope.

Section OnlyFacts.
Variable P : call -> Prop.

Let onlyp := onlyp P.
Let only := only P.
Let fine (ev : list event) : Prop := Forall (fun e => P (call_of e)) ev.

Lemma onlyp_All ps : onlyp (All ps) <-> Forall onlyp ps.
Proof.
  unfold onlyp. simpl. induction ps as [|x r IH]; simpl.
  - split; auto.
  - rewrite IH. split.
    + intros [H1 H2]. now constructor.
    + intros H; inversion H; tauto.
Qed.

Lemma only_SAll rej ss : only (SAll rej ss) <-> Forall only ss.
Proof.
  unfold only. simpl. induction ss as [|x r IH]; simpl.
  - split; auto.
  - rewrite IH. split.
    + intros [H1 H2]. now constructor.
    + intros H; inversion H; tauto.
Qed.

Lemma start_all_only ps :
  Forall (fun p => onlyp p -> only (fst (start p)) /\ fine (snd (start p))) ps ->
  Forall onlyp ps ->
  Forall only (fst (start_all ps)) /\ fine (snd (start_all ps)).
Proof.
  induction 1 as [|p r Hp _ IHr]; intros Hall; simpl;
    [split; constructor|].
  inversion Hall; subst. destruct (Hp H1) as [Hs Hf].
  destruct (IHr H2) as [Hss Hff].
  destruct (start p) as [s1 ev1]. destruct (start_all r) as [ss ev2].
  simpl in *. split; [now constructor | now apply Forall_app].
Qed.

Lemma start_only p :
  onlyp p -> only (fst (start p)) /\ fine (snd (start p)).
Proof.
  induction p as [| |c0|p k IHp IHk|p h IHp IHh|ps IH|p q IHp IHq] using prog_ind.
  - intros _. split; [exact I | constructor].
  - intros _. split; [exact I | constructor].
  - intros H. split; [exact H | repeat constructor; exact H].
  - intros [H1 H2]. simpl. destruct (IHp H1) as [Hs Hf].
    destruct (IHk H2) as [Hs2 Hf2].
    destruct (start p) as [s1 ev1]. simpl in Hs, Hf.
    destruct (status s1) as [[|e]|].
    + destruct (start k) as [s2 ev2]. simpl in *.
      split; [now split | now apply Forall_app].
    + split; [now split | assumption].
    + split; [now split | assumption].
  - intros [H1 H2]. simpl. destruct (IHp H1) as [Hs Hf].
    destruct (start p) as [s1 ev1]. simpl in Hs, Hf.
    destruct (status s1) as [[|e]|].
    + split; [now split | assumption].
    + destruct (IHh e (H2 e)) as [Hs2 Hf2].
      destruct (start (h e)) as [s2 ev2]. simpl in *.
      split; [now split | now apply Forall_app].
    + split; [now split | assumption].
  - intros H. apply onlyp_All in H. rewrite start_All.
    destruct (start_all_only ps IH H) as [Hs Hf].
    destruct (start_all ps) as [ss ev]. simpl in *.
    split; [|exact Hf].
    exact (proj2 (only_SAll (first_rejection ss) ss) Hs).
  - intros [H1 H2]. simpl. destruct (IHp H1) as [Hs Hf].
    destruct (IHq H2) as [Hs2 Hf2].
    destruct (start p) as [s1 ev1]. destruct (start q) as [s2 ev2].
    simpl in *. split; [now split | now apply Forall_app].
Qed.

Lemma fire_in_only o ss :
  Forall (fun s => forall n o s' ev,
            fire n o s = (s', ev) -> only s -> only s' /\ fine ev) ss ->
  forall n ss' ev,
    fire_in o n ss = (ss', ev) -> Forall only ss ->
    Forall only ss' /\ fine ev.
Proof.
  induction 1 as [|x r Hx _ IHr]; intros n ss' ev; simpl.
  - intros [= <- <-] _. split; constructor.
  - intros H Hall. inversion Hall; subst.
    destruct (n <? _)%nat.
    + destruct (fire n o x) as [x' ev1] eqn:E. injection H as <- <-.
      destruct (Hx _ _ _ _ E H2). split; [now constructor | assumption].
    + destruct (fire_in o _ r) as [r' ev1] eqn:E. injection H as <- <-.
      destruct (IHr _ _ _ E H3). split; [now constructor | assumption].
Qed.

Lemma fire_only s : forall n o s' ev,
  fire n o s = (s', ev) -> only s -> only s' /\ fine ev.
Proof.
  induction s as [o0|c|s k IH|s h IH|rej ss IH|s s2 IH1 IH2] using st_ind;
    intros n o s' ev.
  - simpl. intros [= <- <-] _. split; [exact I | constructor].
  - simpl. destruct n; intros [= <- <-] H.
    + split; [exact I | repeat constructor; exact H].
    + split; [exact H | constructor].
  - simpl. destruct (fire n o s) as [s1 ev1] eqn:E. unfold resume_then.
    intros H [Hs Hk]. destruct (IH _ _ _ _ E Hs) as [Hs1 Hf1].
    destruct (start_only k Hk) as [Hs2 Hf2].
    destruct (status s1) as [[|e]|]; [destruct (start k) as [s2 ev2]| |];
      injection H as <- <-; simpl in *;
      (split; [now split | try apply Forall_app; auto]).
    all: rewrite app_nil_r; assumption.
  - simpl. destruct (fire n o s) as [s1 ev1] eqn:E. unfold resume_catch.
    intros H [Hs Hh]. destruct (IH _ _ _ _ E Hs) as [Hs1 Hf1].
    destruct (status s1) as [[|e]|];
      [| destruct (start_only (h e) (Hh e)) as [Hs2 Hf2];
         destruct (start (h e)) as [s2 ev2] |];
      injection H as <- <-; simpl in *;
      (split; [now split | try apply Forall_app; auto]).
    all: rewrite app_nil_r; assumption.
  - rewrite fire_SAll. destruct (fire_in o n ss) as [ss' ev1] eqn:E.
    intros [= <- <-] H. apply only_SAll in H.
    destruct (fire_in_only o ss IH _ _ _ E H) as [Hs Hf].
    split; [|exact Hf]. now apply only_SAll.
  - simpl. intros H [H1 H2]. destruct (n <? _)%nat.
    + destruct (fire n o s) as [s1 ev1] eqn:E. injection H as <- <-.
      destruct (IH1 _ _ _ _ E H1). split; [now split | assumption].
    + destruct (fire _ o s2) as [s1 ev1] eqn:E. injection H as <- <-.
      destruct (IH2 _ _ _ _ E H2). split; [now split | assumption].
Qed.

Lemma run_only sched : forall s s' ev,
  run sched s = (s', ev) -> only s -> fine ev.
Proof.
  induction sched as [|[n o] r IH]; intros s s' ev; simpl.
  - intros [= <- <-] _. constructor.
  - destruct (fire n o s) as [s1 ev1] eqn:E1.
    destruct (run r s1) as [s2 ev2] eqn:E2. intros [= <- <-] H.
    destruct (fire_only _ _ _ _ _ E1 H) as [H1 Hf1].
    apply Forall_app. split; [assumption | exact (IH _ _ _ E2 H1)].
Qed.

(** every call of a run is a call of the shape *)
Lemma only_sound p sched e :
  onlyp p -> In e (trace p sched) -> P (call_of e).
Proof.
  intros Hp Hin. unfold trace, exec in Hin.
  destruct (start_only p Hp) as [Hs Hf].
  destruct (start p) as [s0 ev0]. simpl in Hs, Hf.
  destruct (run sched s0) as [s' ev] eqn:Er. simpl in Hin.
  pose proof (run_only _ _ _ _ Er Hs) as Hr.
  assert (Hall : fine (ev0 ++ ev)) by (apply Forall_app; auto).
  unfold fine in Hall. rewrite Forall_forall in Hall. auto.
Qed.

(** a chain without watched calls is quiet *)
Lemma quietp_of_onlyp watched release p :
  (forall c, P c -> ~ watched c) -> onlyp p -> quietp watched release p.
Proof.
  intros HP.
  induction p as [| |c0|p k IHp IHk|p h IHp IHh|ps IH|p q IHp IHq] using prog_ind;
    try (intros; exact I).
  - intros H. exact (HP _ H).
  - intros [H1 H2]. split; [auto | right; auto].
  - intros [H1 H2]. split; [auto | intros e; apply IHh, H2].
  - intros H. apply onlyp_All in H. apply quietp_All.
    rewrite Forall_forall in *. intros x Hx. apply (IH x Hx), (H x Hx).
  - intros [H1 H2]. split; auto.
Qed.

End OnlyFacts.

(** ** Failures that are not exempt are carried *)

Section MostlyFacts.
Variable exempt : call -> Prop.

Let mostlyp := mostlyp exempt.
Let mostly := mostly exempt.
Let mostly_step := mostly_step exempt.

Lemma mostlyp_All ps : mostlyp (All ps) <-> Forall mostlyp ps.
Proof.
  unfold mostlyp. simpl. induction ps as [|x r IH]; simpl.
  - split; auto.
  - rewrite IH. split.
    + intros [H1 H2]. now constructor.
    + intros H; inversion H; tauto.
Qed.

Lemma mostly_SAll rej ss : mostly (SAll rej ss) <-> Forall mostly ss.
Proof.
  unfold mostly. simpl. induction ss as [|x r IH]; simpl.
  - split; auto.
  - rewrite IH. split.
    + intros [H1 H2]. now constructor.
    + intros H; inversion H; tauto.
Qed.

(** a chain that carries every failure is one that swallows none *)
Lemma mostlyp_of_carriesp p : carriesp p -> mostlyp p.
Proof.
  induction p as [| |c0|p k IHp IHk|p h IHp IHh|ps IH|p q IHp IHq] using prog_ind;
    try (intros; exact I).
  - intros [H1 H2]. split; auto.
  - intros [H1 H2]. left. split; auto.
  - intros H. apply carriesp_All in H. apply mostlyp_All.
    rewrite Forall_forall in *. intros x Hx. apply (IH x Hx), (H x Hx).
  - intros H. exact H.
Qed.

(** a resolved promise has nothing in flight *)
Lemma mostly_tidy s :
  mostly s -> status s = Some Resolved -> in_flight s = [].
Proof.
  induction s as [o0|c|s k IH|s h IH|rej ss IH|s s2 IH1 IH2] using st_ind.
  - reflexivity.
  - discriminate 2.
  - intros _. simpl. destruct (status s) as [[|e]|]; discriminate.
  - intros H. simpl. destruct (status s) as [[|e]|] eqn:Es; try discriminate.
    intros _. destruct H as [[H _]|[[(c & -> & _)|(o & ->)] _]].
    + now apply IH.
    + discriminate Es.
    + reflexivity.
  - intros H. apply mostly_SAll in H. rewrite status_SAll.
    destruct rej; [discriminate|]. simpl.
    induction IH as [|x r Hx _ IHr]; simpl; [reflexivity|].
    inversion H; subst.
    destruct (status x) as [[|e]|] eqn:Es; simpl; try discriminate.
    intros Hr. rewrite (Hx H2 eq_refl). simpl. apply IHr; auto.
  - intros H. simpl. intros Hs.
    destruct H as [[H1 H2]|[e ->]]; [|discriminate].
    rewrite H1. simpl. now apply IH2.
Qed.

Lemma start_mostly p : mostlyp p -> mostly (fst (start p)).
Proof.
  induction p as [| |c0|p k IHp IHk|p h IHp IHh|ps IH|p q IHp IHq] using prog_ind.
  - intros _. exact I.
  - intros _. exact I.
  - intros _. exact I.
  - intros [H1 H2]. simpl. specialize (IHp H1). specialize (IHk H2).
    destruct (start p) as [s1 ev1]. simpl in IHp.
    destruct (status s1) as [[|e]|] eqn:Es.
    + destruct (start k) as [s2 ev2]. simpl in *. left.
      split; [now apply mostly_tidy | assumption].
    + split; assumption.
    + split; assumption.
  - intros [[H1 H2]|[(c & -> & Hc) H2]]; simpl.
    + specialize (IHp H1).
      destruct (start p) as [s1 ev1]. simpl in IHp.
      destruct (status s1) as [[|e]|] eqn:Es.
      * left. split; assumption.
      * rewrite (H2 e). simpl. right. now exists e.
      * left. split; assumption.
    + right. split; [left; now exists c | exact H2].
  - intros H. apply mostlyp_All in H. rewrite start_All.
    assert (Hs : Forall mostly (fst (start_all ps))).
    { induction IH as [|p r Hp _ IHr]; [constructor|].
      inversion H; subst. simpl.
      specialize (Hp H2). specialize (IHr H3).
      destruct (start p) as [s1 ev1]. destruct (start_all r) as [ss ev2].
      now constructor. }
    destruct (start_all ps) as [ss ev]. now apply mostly_SAll.
  - intros [e ->]. simpl. destruct (start p) as [s1 ev1]. simpl.
    right. now exists e.
Qed.

Lemma fire_in_mostly o ss :
  Forall mostly_step ss ->
  forall n ss' ev,
    fire_in o n ss = (ss', ev) -> Forall mostly ss ->
    Forall mostly ss' /\
    forall c e, In (Settle c (Rejected e)) ev -> ~ exempt c ->
                Exists rejected ss'.
Proof.
  induction 1 as [|x r Hx _ IHr]; intros n ss' ev Hf Hc; simpl in Hf.
  - injection Hf as <- <-. split; [constructor | intros c e []].
  - inversion Hc; subst. destruct (n <? _)%nat.
    + destruct (fire n o x) as [x' ev1] eqn:E. injection Hf as <- <-.
      destruct (Hx _ _ _ _ E H1) as [Hc' Hr]. split; [now constructor|].
      intros c e Hin Hne. left. exact (Hr _ _ Hin Hne).
    + destruct (fire_in o _ r) as [r' ev1] eqn:E. injection Hf as <- <-.
      destruct (IHr _ _ _ E H2) as [Hc' Hr]. split; [now constructor|].
      intros c e Hin Hne. right. eauto.
Qed.

Lemma fire_mostly s : mostly_step s.
Proof.
  induction s as [o0|c|s k IH|s h IH|rej ss IH|s s2 IH1 IH2] using st_ind;
    intros n o s' ev.
  - simpl. intros [= <- <-] _. split; [exact I | intros c e []].
  - simpl. destruct n; intros [= <- <-] _; (split; [exact I|]).
    + intros c' e [[= -> ->]|[]] _. now exists e.
    + intros c' e [].
  - simpl. destruct (fire n o s) as [s1 ev1] eqn:E. unfold resume_then.
    intros Hf [H1 H2]. destruct (IH _ _ _ _ E H1) as [Hc Hr].
    pose proof (start_mostly k H2) as Hk.
    pose proof (start_issues k) as Hki.
    destruct (status s1) as [[|e]|] eqn:Es;
      [destruct (start k) as [s2 ev2]; simpl in Hk, Hki| |];
      injection Hf as <- <-.
    + split.
      * left. split; [now apply mostly_tidy | assumption].
      * intros c e Hin Hne. apply in_app_or in Hin as [Hin|Hin].
        -- destruct (Hr _ _ Hin Hne) as [e' He']. congruence.
        -- destruct (no_settle_in_issues _ _ _ Hki Hin).
    + split; [split; assumption|]. intros c e' _ _. exists e. simpl.
      now rewrite Es.
    + split; [split; assumption|]. intros c e Hin Hne.
      rewrite app_nil_r in Hin.
      destruct (Hr _ _ Hin Hne) as [e' He']. congruence.
  - simpl. destruct (fire n o s) as [s1 ev1] eqn:E. unfold resume_catch.
    intros Hf [[H1 H2]|[Hs H2]].
    + destruct (IH _ _ _ _ E H1) as [Hc Hr].
      destruct (status s1) as [[|e]|] eqn:Es.
      * injection Hf as <- <-. split; [left; split; assumption|].
        intros c e Hin Hne. rewrite app_nil_r in Hin.
        destruct (Hr _ _ Hin Hne) as [e' He']. congruence.
      * rewrite (H2 e) in Hf. simpl in Hf. injection Hf as <- <-. split.
        -- right. now exists e.
        -- intros c e' _ _. now exists e.
      * injection Hf as <- <-. split; [left; split; assumption|].
        intros c e Hin Hne. rewrite app_nil_r in Hin.
        destruct (Hr _ _ Hin Hne) as [e' He']. congruence.
    + destruct Hs as [(c & -> & Hc)|(o0 & ->)]; simpl in E.
      * destruct n; injection E as <- <-; simpl in Hf.
        -- destruct o as [|e].
           ++ injection Hf as <- <-. split.
              ** right. split; [right; now exists Resolved | exact H2].
              ** intros c' e' [[= _ [=]]|[]].
           ++ rewrite (H2 e) in Hf. simpl in Hf. injection Hf as <- <-. split.
              ** left. split; [reflexivity | exact I].
              ** intros c' e' [[= -> _]|[]] Hne. contradiction.
        -- injection Hf as <- <-. split.
           ++ right. split; [left; now exists c | exact H2].
           ++ intros c' e' [].
      * injection E as <- <-. simpl in Hf. destruct o0 as [|e].
        -- injection Hf as <- <-. split.
           ++ right. split; [right; now exists Resolved | exact H2].
           ++ intros c' e' [].
        -- rewrite (H2 e) in Hf. simpl in Hf. injection Hf as <- <-. split.
           ++ left. split; [reflexivity | exact I].
           ++ intros c' e' [].
  - rewrite fire_SAll. destruct (fire_in o n ss) as [ss' ev1] eqn:E.
    intros [= <- <-] Hc. apply mostly_SAll in Hc.
    destruct (fire_in_mostly o ss IH _ _ _ E Hc) as [Hc' Hr].
    split; [now apply mostly_SAll|].
    intros c e Hin Hne. rewrite status_SAll.
    destruct rej as [e0|]; [now exists e0|].
    pose proof (rejection_found _ (Hr _ _ Hin Hne)) as Hn.
    destruct (first_rejection ss') as [e0|]; [now exists e0 | congruence].
  - intros Hf Hc. simpl in Hf.
    destruct (n <? _)%nat eqn:En.
    + destruct (fire n o s) as [s1 ev1] eqn:E. injection Hf as <- <-.
      destruct Hc as [[H1 H2]|[e0 ->]].
      * rewrite H1 in En. discriminate.
      * split; [right; now exists e0|]. intros c e _ _. now exists e0.
    + destruct (fire _ o s2) as [s1 ev1] eqn:E. injection Hf as <- <-.
      destruct Hc as [[H1 H2]|[e0 ->]].
      * destruct (IH2 _ _ _ _ E H2) as [Hc' Hr].
        split; [left; split; assumption|].
        intros c e Hin Hne. destruct (Hr _ _ Hin Hne) as [e' He'].
        now exists e'.
      * simpl in E. injection E as <- <-. split; [right; now exists e0|].
        intros c e [].
Qed.

Lemma run_mostly sched : forall s s' ev c e,
  run sched s = (s', ev) -> mostly s ->
  In (Settle c (Rejected e)) ev -> ~ exempt c ->
  exists e', status s' = Some (Rejected e').
Proof.
  induction sched as [|[n o] r IH]; intros s s' ev c e; simpl.
  - intros [= <- <-] _ [].
  - destruct (fire n o s) as [s1 ev1] eqn:E1.
    destruct (run r s1) as [s2 ev2] eqn:E2. intros [= <- <-] Hc Hin Hne.
    destruct (fire_mostly s _ _ _ _ E1 Hc) as [Hc1 Hr].
    apply in_app_or in Hin as [Hin|Hin].
    + destruct (Hr _ _ Hin Hne) as [e' He']. exists e'.
      eapply run_stable; eauto.
    + eapply IH; eauto.
Qed.

(** the failure of a call that is not exempt rejects the promise *)
Lemma mostly_sound p sched c e :
  mostlyp p ->
  In (Settle c (Rejected e)) (trace p sched) -> ~ exempt c ->
  exists e', final p sched = Some (Rejected e').
Proof.
  intros Hc Hin Hne. unfold trace, final, exec in *.
  pose proof (start_mostly p Hc) as Hc0. pose proof (start_issues p) as Hi.
  destruct (start p) as [s0 ev0]. simpl in Hc0, Hi.
  destruct (run sched s0) as [s' ev] eqn:Er. simpl in *.
  apply in_app_or in Hin as [Hin|Hin].
  - destruct (no_settle_in_issues _ _ _ Hi Hin).
  - exact (run_mostly _ _ _ _ _ _ Er Hc0 Hin Hne).
Qed.

End MostlyFacts.

End ShapeFacts.

(** * The steps of the authentication handler, and their order *)
Module AuthExtras.
Import Promise Discipline Shape AuthHandler JsFacts StmtFacts StateFacts.
Import MigrationFacts PromiseFacts ShapeFacts AuthFacts Samples Declarations.
Local Open Scope list_scope.

(** ** Suffixes *)

Lemma substring_skip a b i m :
  substring (String.length a + i) m (a ++ b) = substring i m b.
Proof. induction a as [|c a IH]; simpl; auto. Qed.

Lemma length_app (a b : string) :
  String.length (a ++ b) = (String.length a + String.length b)%nat.
Proof. induction a as [|c a IH]; simpl; auto. Qed.

(** whether a string ends with a suffix is a matter of its last
    characters *)
Lemma ends_with_app suffix a b :
  (String.length suffix <= String.length b)%nat ->
  ends_with suffix (a ++ b) = ends_with suffix b.
Proof.
  intros H. unfold ends_with. rewrite length_app.
  replace (String.length a + String.length b - String.length suffix)%nat
    with (String.length a + (String.length b - String.length suffix))%nat
    by lia.
  rewrite substring_skip.
  destruct (Nat.leb_spec (String.length suffix) (String.length b)); [|lia].
  destruct (Nat.leb_spec (String.length suffix)
              (String.length a + String.length b)); [reflexivity | lia].
Qed.

(** ** What [handleRadius] writes to the declaration *)

Lemma name_server_preserves which name (I : jsval -> Prop) :
  (forall k v, k = "name" \/ k = "partition" ->
     preserves I (write (fun d => set_path d (servers_path ++ [which]) k v))) ->
  preserves I (name_server which name).
Proof.
  intros H. unfold name_server.
  apply preserves_sbind; [apply H | intros _; apply H]; auto.
Qed.

Section Handler.
Variables PATHS_AuthRemoteRole PATHS_AuthRadiusServer PATHS_AuthRadius : string.
Variables PATHS_AuthTacacs PATHS_AuthLdap PATHS_AuthSource : string.
Variables PATHS_AuthRemoteUser PATHS_SSLCert PATHS_SSLKey : string.
Variables PATHS_Uploads PATHS_UnixRm : string.
Variables RADIUS_PRIMARY_SERVER RADIUS_SECONDARY_SERVER : string.
Variable AUTH_SUBCLASSES_NAME : string.
Variable CLOUD_UTIL_NO_RETRY : jsval.
Variable decode_base64 : jsval -> result string.

Let handleRadius :=
  AuthHandler.handleRadius PATHS_AuthRadiusServer PATHS_AuthRadius
    RADIUS_PRIMARY_SERVER RADIUS_SECONDARY_SERVER AUTH_SUBCLASSES_NAME
    CLOUD_UTIL_NO_RETRY.

(** what every write of a server's name and partition keeps, [handleRadius]
    keeps *)
Lemma handleRadius_preserves (I : jsval -> Prop) d :
  (forall which name, preserves I (name_server which name)) ->
  I d -> I (fst (handleRadius d)).
Proof.
  intros H Hd. unfold handleRadius, AuthHandler.handleRadius.
  destruct (radius_declared d) as [[|]|e]; [|exact Hd..].
  destruct (name_server "primary" _ d) as [d1 r1] eqn:E1.
  pose proof (H _ _ _ _ _ E1 Hd) as H1.
  destruct r1 as [[]|e]; [|exact H1].
  destruct (get_path d1 (servers_path ++ ["primary"])) as [primary|e];
    [|exact H1].
  destruct (get_path d1 (servers_path ++ ["secondary"])) as [secondary|e];
    [|exact H1].
  destruct (truthy secondary); [|exact H1].
  destruct (name_server "secondary" _ d1) as [d2 r2] eqn:E2.
  pose proof (H _ _ _ _ _ E2 H1) as H2.
  destruct r2 as [[]|e]; [|exact H2].
  destruct (get_path d2 (servers_path ++ ["secondary"])); exact H2.
Qed.

(** what lies off the path to the servers *)
Lemma handleRadius_frame d r a b rest q :
  servers_path = r ++ b :: rest -> a <> b ->
  get_path (fst (handleRadius d)) (r ++ a :: q) = get_path d (r ++ a :: q).
Proof.
  intros Hp Hab.
  apply (handleRadius_preserves
           (fun d' => get_path d' (r ++ a :: q) = get_path d (r ++ a :: q)));
    [|reflexivity].
  intros which name. apply name_server_preserves. intros k v _.
  apply (write_below_frame _ _ _ r a b (rest ++ [which; k]) q); [|exact Hab].
  rewrite Hp, <- !app_assoc. reflexivity.
Qed.

(** X18: [handleRadius] writes to the declaration it is given, and there
    nothing but the [name] and the [partition] of the servers: whatever
    lies off the path to [radius.servers], and every other property of a
    server, is as it was. *)
Theorem handleRadius_writes_names_only d :
  (forall r a b rest q,
     servers_path = r ++ b :: rest -> a <> b ->
     get_path (fst (handleRadius d)) (r ++ a :: q) = get_path d (r ++ a :: q)) /\
  (forall which f q,
     f <> "name" -> f <> "partition" ->
     get_path (fst (handleRadius d)) (servers_path ++ which :: f :: q)
     = get_path d (servers_path ++ which :: f :: q)).
Proof.
  split.
  - intros r a b rest q. apply handleRadius_frame.
  - intros which f q Hn Hp.
    apply (handleRadius_preserves
             (fun d' => get_path d' (servers_path ++ which :: f :: q)
                        = get_path d (servers_path ++ which :: f :: q)));
      [|reflexivity].
    intros which' name. apply name_server_preserves. intros k v Hk.
    destruct (String.eqb_spec which which') as [<-|Hne].
    + change (servers_path ++ which :: f :: q)
        with ((servers_path ++ [which]) ++ f :: q)%list.
      apply (write_below_frame _ _ _ (servers_path ++ [which]) f k [] q);
        [reflexivity|].
      destruct Hk as [-> | ->]; assumption.
    + apply (write_below_frame _ _ _ servers_path which which' [k] (f :: q));
        [reflexivity | exact Hne].
Qed.

(** ** The order of the calls of [handleRadius] *)

Let radius_call := AuthHandler.radius_call PATHS_AuthRadius AUTH_SUBCLASSES_NAME.
Let server_call := AuthHandler.server_call PATHS_AuthRadiusServer.
Let delete_secondary_call :=
  AuthHandler.delete_secondary_call PATHS_AuthRadiusServer
    RADIUS_SECONDARY_SERVER CLOUD_UTIL_NO_RETRY.
Let radius_chain :=
  AuthHandler.radius_chain PATHS_AuthRadiusServer PATHS_AuthRadius
    RADIUS_SECONDARY_SERVER AUTH_SUBCLASSES_NAME CLOUD_UTIL_NO_RETRY.

Let is_aggregate := fun c : call => exists st servers, c = radius_call st servers.
Let never := fun (c : call) (o : outcome) => False.
Let resolves (r : call) := fun (c : call) (o : outcome) => c = r /\ o = Resolved.
Let primary_path := servers_path ++ ["primary"].
Let secondary_path := servers_path ++ ["secondary"].

(** a server that has been named *)
Let named (name : string) (server : jsval) : Prop :=
  get_prop server "name" = Ok (JStr name) /\
  get_prop server "partition" = Ok (JStr "Common").

Lemma name_server_named which name d d' u server :
  name_server which name d = (d', Ok u) ->
  get_path d' (servers_path ++ [which]) = Ok server ->
  named name server.
Proof.
  unfold name_server. intros H Hs.
  apply sbind_Ok in H as (a & d1 & H1 & H2).
  apply write_Ok in H1. apply write_Ok in H2.
  pose proof (get_path_set_path_same _ _ _ _ _ H2) as Hp.
  pose proof (get_path_set_path_same _ _ _ _ _ H1) as Hn.
  rewrite <- (get_path_set_path_other _ _ _ _ _ (servers_path ++ [which])
                "name" "partition" [] [] H2 eq_refl) in Hn by discriminate.
  rewrite get_path_app, Hs in Hp, Hn. simpl in Hp, Hn.
  split.
  - now destruct (get_prop server "name").
  - now destruct (get_prop server "partition").
Qed.

Lemma name_server_keeps_other which name other d d' u :
  other <> which ->
  name_server which name d = (d', Ok u) ->
  get_path d' (servers_path ++ [other]) = get_path d (servers_path ++ [other]).
Proof.
  intros Hne H.
  refine (name_server_preserves which name
            (fun x => get_path x (servers_path ++ [other])
                      = get_path d (servers_path ++ [other])) _ _ _ _ H eq_refl).
  intros k v _.
  apply (write_below_frame _ _ _ servers_path other which [k] []);
    [reflexivity | exact Hne].
Qed.

Lemma server_call_not_aggregate x : ~ is_aggregate (server_call x).
Proof. intros (st & servers & E). discriminate E. Qed.

Lemma delete_not_aggregate : ~ is_aggregate delete_secondary_call.
Proof. intros (st & servers & E). discriminate E. Qed.

(** the aggregate waits for each of the server calls *)
Lemma radius_chain_guard d proms servers x :
  In (Call (server_call x)) proms ->
  Forall (fun p => exists y, p = Call (server_call y)) proms ->
  quietp is_aggregate (resolves (server_call x)) (radius_chain d proms servers).
Proof.
  intros Hin Hall. unfold radius_chain, AuthHandler.radius_chain.
  cbn [quietp lockedp]. split; [|intros; exact I].
  split; [split|].
  - apply quietp_All. rewrite Forall_forall in *. intros p Hp.
    destruct (Hall p Hp) as (y & ->). apply server_call_not_aggregate.
  - left. apply (proj2 (lockedp_All is_aggregate _ _)). apply Exists_exists.
    exists (Call (server_call x)). split; [exact Hin|]. now split.
  - right.
    destruct (get_path d _) as [sec|e]; cbn [bind or_reject quietp];
      [|exact I].
    destruct (truthy sec); [exact I | apply delete_not_aggregate].
Qed.

(** the promise of [handleRadius]: without an aggregate call, or the
    chain over the named servers *)
Lemma handleRadius_chain d :
  quietp is_aggregate never (snd (handleRadius d)) \/
  exists primary sec,
    get_path (fst (handleRadius d)) primary_path = Ok primary /\
    named RADIUS_PRIMARY_SERVER primary /\
    get_path (fst (handleRadius d)) secondary_path = Ok sec /\
    ((truthy sec = false /\
      snd (handleRadius d)
      = radius_chain (fst (handleRadius d)) [Call (server_call primary)]
                     [RADIUS_PRIMARY_SERVER]) \/
     (truthy sec = true /\ named RADIUS_SECONDARY_SERVER sec /\
      snd (handleRadius d)
      = radius_chain (fst (handleRadius d))
                     [Call (server_call primary); Call (server_call sec)]
                     [RADIUS_PRIMARY_SERVER; RADIUS_SECONDARY_SERVER])).
Proof.
  unfold handleRadius, AuthHandler.handleRadius.
  destruct (radius_declared d) as [[|]|e]; [|left; exact I..].
  destruct (name_server "primary" _ d) as [d1 [[]|e]] eqn:E1;
    [|left; exact I].
  destruct (get_path d1 (servers_path ++ ["primary"])) as [primary|e] eqn:Ep;
    [|left; exact I].
  pose proof (name_server_named _ _ _ _ _ _ E1 Ep) as Hnp.
  destruct (get_path d1 (servers_path ++ ["secondary"])) as [secondary|e]
    eqn:Es; [|left; exact I].
  destruct (truthy secondary) eqn:Et.
  - destruct (name_server "secondary" _ d1) as [d2 [[]|e]] eqn:E2.
    + destruct (get_path d2 (servers_path ++ ["secondary"])) as [sec'|e]
        eqn:Es'.
      * right. exists primary, sec'. cbn [fst snd].
        split; [|split; [exact Hnp|split; [exact Es'|]]].
        { unfold primary_path.
          rewrite (name_server_keeps_other "secondary" _ "primary" _ _ _
                     ltac:(discriminate) E2). exact Ep. }
        right. split; [exact (name_server_names _ _ _ _ _ _ E2 Es')|].
        split; [exact (name_server_named _ _ _ _ _ _ E2 Es') | reflexivity].
      * left. cbn [snd quietp]. split; [apply server_call_not_aggregate|exact I].
    + left. cbn [snd quietp]. split; [apply server_call_not_aggregate|exact I].
  - right. exists primary, secondary. cbn [fst snd].
    split; [exact Ep|]. split; [exact Hnp|]. split; [exact Es|].
    left. now split.
Qed.

(** X19: in the RADIUS step the aggregate object is upserted only after
    the upsert of the primary server has resolved, and after that of the
    secondary server when one is declared; the servers are upserted under
    the fixed names, in the partition [Common]. *)
Theorem aggregate_follows_servers d sched pre st servers post :
  trace (snd (handleRadius d)) sched
  = pre ++ Issue (radius_call st servers) :: post ->
  exists primary sec,
    get_path (fst (handleRadius d)) (servers_path ++ ["primary"]) = Ok primary /\
    get_prop primary "name" = Ok (JStr RADIUS_PRIMARY_SERVER) /\
    get_prop primary "partition" = Ok (JStr "Common") /\
    In (Settle (server_call primary) Resolved) pre /\
    get_path (fst (handleRadius d)) (servers_path ++ ["secondary"]) = Ok sec /\
    (truthy sec = true ->
     get_prop sec "name" = Ok (JStr RADIUS_SECONDARY_SERVER) /\
     get_prop sec "partition" = Ok (JStr "Common") /\
     In (Settle (server_call sec) Resolved) pre).
Proof.
  intros E.
  assert (Hw : is_aggregate (radius_call st servers)) by (now exists st, servers).
  destruct (handleRadius_chain d) as [Hq|(primary & sec & Hp & [Hn1 Hn2] & Hs & Hc)].
  { destruct (guard_sound _ _ _ _ _ _ _ Hq E Hw) as (c' & o & _ & []). }
  exists primary, sec. split; [exact Hp|]. split; [exact Hn1|].
  split; [exact Hn2|].
  destruct Hc as [[Ht Hc]|(Ht & [Hm1 Hm2] & Hc)]; rewrite Hc in E.
  - split; [|split; [exact Hs | intros Ht'; congruence]].
    assert (Hq : quietp is_aggregate (resolves (server_call primary))
                        (radius_chain (fst (handleRadius d))
                           [Call (server_call primary)]
                           [RADIUS_PRIMARY_SERVER])).
    { apply radius_chain_guard; [now left|]. repeat constructor. eauto. }
    destruct (guard_sound _ _ _ _ _ _ _ Hq E Hw) as (c' & o & Hin & -> & ->).
    exact Hin.
  - assert (Hq : forall x, In x [primary; sec] ->
                 quietp is_aggregate (resolves (server_call x))
                        (radius_chain (fst (handleRadius d))
                           [Call (server_call primary); Call (server_call sec)]
                           [RADIUS_PRIMARY_SERVER; RADIUS_SECONDARY_SERVER])).
    { intros x Hx. apply radius_chain_guard.
      - destruct Hx as [<-|[<-|[]]]; [now left | right; now left].
      - repeat constructor; eauto. }
    split; [|split; [exact Hs | intros _; split; [exact Hm1 | split; [exact Hm2|]]]].
    + destruct (guard_sound _ _ _ _ _ _ _ (Hq primary (or_introl eq_refl)) E Hw)
        as (c' & o & Hin & -> & ->). exact Hin.
    + destruct (guard_sound _ _ _ _ _ _ _
                  (Hq sec (or_intror (or_introl eq_refl))) E Hw)
        as (c' & o & Hin & -> & ->). exact Hin.
Qed.

(** ** The calls of each step *)

Let handleRemoteAuthRoles :=
  AuthHandler.handleRemoteAuthRoles PATHS_AuthRemoteRole.
Let handleTacacs := AuthHandler.handleTacacs PATHS_AuthTacacs AUTH_SUBCLASSES_NAME.
Let handleLdap :=
  AuthHandler.handleLdap PATHS_AuthLdap PATHS_SSLCert PATHS_SSLKey
    PATHS_Uploads PATHS_UnixRm AUTH_SUBCLASSES_NAME decode_base64.
Let handleSource := AuthHandler.handleSource PATHS_AuthSource.
Let handleRemoteUsersDefaults :=
  AuthHandler.handleRemoteUsersDefaults PATHS_AuthRemoteUser.
Let process :=
  AuthHandler.process PATHS_AuthRemoteRole PATHS_AuthRadiusServer
    PATHS_AuthRadius PATHS_AuthTacacs PATHS_AuthLdap PATHS_AuthSource
    PATHS_AuthRemoteUser PATHS_SSLCert PATHS_SSLKey PATHS_Uploads
    PATHS_UnixRm RADIUS_PRIMARY_SERVER RADIUS_SECONDARY_SERVER
    AUTH_SUBCLASSES_NAME CLOUD_UTIL_NO_RETRY decode_base64.
Let ldap_call := AuthHandler.ldap_call PATHS_AuthLdap.
Let cert_chains :=
  AuthHandler.cert_chains PATHS_Uploads PATHS_UnixRm decode_base64.
Let ldap_certs := AuthHandler.ldap_certs PATHS_SSLCert PATHS_SSLKey.

Section Kinds.
Variable P : call -> Prop.

Lemma or_reject_only (r : result prog) :
  (forall p, r = Ok p -> onlyp P p) -> onlyp P (or_reject r).
Proof. destruct r as [p|e]; simpl; auto. Qed.

Hypothesis P_role :
  forall obj, P (mkCall CreateOrModify [JStr PATHS_AuthRemoteRole; obj]).

Lemma role_calls_only roles names :
  forall cs eo,
    AuthHandler.role_calls PATHS_AuthRemoteRole roles names = (cs, eo) ->
    Forall (onlyp P) cs.
Proof.
  induction names as [|name r IH]; intros cs eo; simpl.
  - intros [= <- <-]. constructor.
  - destruct (AuthHandler.role_call _ roles name) as [p|e] eqn:Ep.
    + destruct (AuthHandler.role_calls _ roles r) as [cs' eo'].
      intros [= <- <-]. constructor; [|exact (IH _ _ eq_refl)].
      unfold AuthHandler.role_call in Ep.
      repeat (apply bind_Ok in Ep as (? & _ & Ep)).
      injection Ep as <-. apply P_role.
    + intros [= <- <-]. constructor.
Qed.

Lemma handleRemoteAuthRoles_only d : onlyp P (handleRemoteAuthRoles d).
Proof.
  unfold handleRemoteAuthRoles, AuthHandler.handleRemoteAuthRoles.
  apply or_reject_only.
  intros p H. apply bind_Ok in H as (common & _ & H).
  destruct (truthy common); [|now injection H as <-]. cbn [negb] in H.
  apply bind_Ok in H as (roles & _ & H).
  destruct (truthy roles); [|now injection H as <-]. cbn [negb] in H.
  apply bind_Ok in H as (names & _ & H).
  destruct (AuthHandler.role_calls _ roles names) as [cs [e|]] eqn:Ec;
    injection H as <-.
  - cbn [onlyp]. split; [|exact I].
    apply (proj2 (onlyp_All P cs)). exact (role_calls_only _ _ _ _ Ec).
  - apply (proj2 (onlyp_All P cs)). exact (role_calls_only _ _ _ _ Ec).
Qed.

Hypothesis P_server : forall x, P (server_call x).
Hypothesis P_aggregate : forall st servers, P (radius_call st servers).
Hypothesis P_delete : P delete_secondary_call.

Lemma radius_chain_only d proms servers :
  Forall (onlyp P) proms -> onlyp P (radius_chain d proms servers).
Proof.
  intros H. unfold radius_chain, AuthHandler.radius_chain. cbn [onlyp].
  split; [|intros; exact I]. split; [split|].
  - now apply (proj2 (onlyp_All P proms)).
  - apply or_reject_only. intros p Hp.
    apply bind_Ok in Hp as (x & _ & Hp). injection Hp as <-. apply P_aggregate.
  - apply or_reject_only. intros p Hp.
    apply bind_Ok in Hp as (x & _ & Hp). injection Hp as <-.
    destruct (truthy x); [exact I | exact P_delete].
Qed.

Lemma handleRadius_only d : onlyp P (snd (handleRadius d)).
Proof.
  unfold handleRadius, AuthHandler.handleRadius.
  destruct (radius_declared d) as [[|]|e]; [|exact I..].
  destruct (name_server "primary" _ d) as [d1 [[]|e]]; [|exact I].
  destruct (get_path d1 (servers_path ++ ["primary"])) as [primary|e];
    [|exact I].
  destruct (get_path d1 (servers_path ++ ["secondary"])) as [secondary|e];
    [|exact I].
  destruct (truthy secondary).
  - destruct (name_server "secondary" _ d1) as [d2 [[]|e]].
    + destruct (get_path d2 (servers_path ++ ["secondary"])) as [sec'|e].
      * apply radius_chain_only. repeat constructor; apply P_server.
      * cbn [snd onlyp]. split; [apply P_server | exact I].
    + cbn [snd onlyp]. split; [apply P_server | exact I].
  - apply radius_chain_only. repeat constructor; apply P_server.
Qed.

Hypothesis P_tacacs :
  forall obj, P (mkCall CreateOrModify [JStr PATHS_AuthTacacs; obj]).

Lemma handleTacacs_only d : onlyp P (handleTacacs d).
Proof.
  unfold handleTacacs, AuthHandler.handleTacacs. apply or_reject_only.
  intros p H. apply bind_Ok in H as (tacacs & _ & H).
  destruct (truthy tacacs); [|now injection H as <-]. cbn [negb] in H.
  apply bind_Ok in H as (c & Hc & H). injection H as <-.
  cbn [onlyp]. split; [|intros; exact I].
  unfold AuthHandler.tacacs_call in Hc.
  repeat (apply bind_Ok in Hc as (? & _ & Hc)).
  injection Hc as <-. apply P_tacacs.
Qed.

Hypothesis P_upload :
  forall name a b c d,
    P (mkCall Create [JStr (PATHS_Uploads ++ "/" ++ name)%string; a; b; c; d]).
Hypothesis P_install : forall name path, P (install_call name path).
Hypothesis P_remove : forall name, P (remove_call PATHS_UnixRm name).
Hypothesis P_ldap : forall obj options, P (ldap_call obj options).

Lemma cert_chains_only ldap certs :
  forall cs eo, cert_chains ldap certs = (cs, eo) -> Forall (onlyp P) cs.
Proof.
  induction certs as [|[[prop name] path] r IH]; intros cs eo; simpl.
  - intros [= <- <-]. constructor.
  - destruct (has_inline ldap prop) as [[certObj|]|e].
    + destruct (AuthHandler.handleCert _ _ _ name certObj path)
        as [chain|e] eqn:Eh.
      * fold cert_chains. destruct (cert_chains ldap r) as [cs' eo'].
        intros [= <- <-]. constructor; [|exact (IH _ _ eq_refl)].
        unfold AuthHandler.handleCert in Eh.
        apply bind_Ok in Eh as (base64 & _ & Eh).
        apply bind_Ok in Eh as (up & Hup & Eh). injection Eh as <-.
        unfold AuthHandler.upload_call in Hup.
        apply bind_Ok in Hup as (dataStr & _ & Hup). injection Hup as <-.
        cbn [onlyp]. split; [split|];
          [apply P_upload | apply P_install | apply P_remove].
      * intros [= <- <-]. constructor.
    + apply IH.
    + intros [= <- <-]. constructor.
Qed.

Lemma handleLdap_only d : onlyp P (handleLdap d).
Proof.
  unfold handleLdap, AuthHandler.handleLdap. apply or_reject_only.
  intros p H. apply bind_Ok in H as (ldap & _ & H).
  destruct (truthy ldap); [|now injection H as <-]. cbn [negb] in H.
  apply bind_Ok in H as (obj & _ & H). apply bind_Ok in H as (options & _ & H).
  fold cert_chains ldap_certs in H.
  destruct (cert_chains ldap ldap_certs) as [cs [e|]] eqn:Ec; injection H as <-.
  - cbn [onlyp]. split; [|exact I].
    apply (proj2 (onlyp_All P cs)). exact (cert_chains_only _ _ _ _ Ec).
  - cbn [onlyp]. split; [|intros; exact I]. split; [|apply P_ldap].
    apply (proj2 (onlyp_All P cs)). exact (cert_chains_only _ _ _ _ Ec).
Qed.

Hypothesis P_source :
  forall obj, P (mkCall Modify [JStr PATHS_AuthSource; obj]).
Hypothesis P_users :
  forall obj, P (mkCall Modify [JStr PATHS_AuthRemoteUser; obj]).

Lemma handleSource_only d : onlyp P (handleSource d).
Proof.
  unfold handleSource, AuthHandler.handleSource. apply or_reject_only.
  intros p H. repeat (apply bind_Ok in H as (? & _ & H)).
  injection H as <-. apply P_source.
Qed.

Lemma handleRemoteUsersDefaults_only d : onlyp P (handleRemoteUsersDefaults d).
Proof.
  unfold handleRemoteUsersDefaults, AuthHandler.handleRemoteUsersDefaults.
  apply or_reject_only.
  intros p H. apply bind_Ok in H as (auth & _ & H).
  apply bind_Ok in H as (authDefaults & _ & H).
  destruct (truthy authDefaults); [|now injection H as <-]. cbn [negb] in H.
  repeat (apply bind_Ok in H as (? & _ & H)). injection H as <-. apply P_users.
Qed.

Lemma process_only d : onlyp P (process d).
Proof.
  unfold process, AuthHandler.process. apply or_reject_only.
  intros p H. apply bind_Ok in H as (common & _ & H).
  apply bind_Ok in H as (auth & _ & H).
  destruct (truthy auth); cbn [negb] in H.
  - pose proof (handleRadius_only d) as Hr. unfold handleRadius in Hr.
    destruct (AuthHandler.handleRadius _ _ _ _ _ _ d) as [d' radius].
    cbn [snd] in Hr. injection H as <-. cbn [onlyp].
    repeat split.
    + apply handleRemoteAuthRoles_only.
    + exact Hr.
    + apply handleTacacs_only.
    + apply handleLdap_only.
    + apply handleSource_only.
    + apply handleRemoteUsersDefaults_only.
  - injection H as <-. apply handleRemoteAuthRoles_only.
Qed.
End Kinds.

(** ** What the handler never issues *)

(** the calls of the handler, by method *)
Let expected (c : call) : Prop :=
  match meth c with
  | Delete => c = delete_secondary_call
  | Modify =>
      exists obj, c = mkCall Modify [JStr PATHS_AuthSource; obj] \/
                  c = mkCall Modify [JStr PATHS_AuthRemoteUser; obj]
  | Create =>
      (exists name a b c' d,
          c = mkCall Create
                [JStr (PATHS_Uploads ++ "/" ++ name)%string; a; b; c'; d]) \/
      exists name, c = remove_call PATHS_UnixRm name
  | CreateOrModify => True
  end.

(** X20: whatever the declaration and whatever the device answers, the
    only delete among the calls of [process] is that of the secondary
    RADIUS server, its only modifications are those of the source of
    authentication and of the defaults of remote users, and it creates
    nothing but uploaded files and the commands that remove them. *)
Theorem process_calls_by_method d sched e :
  In e (trace (process d) sched) ->
  match meth (call_of e) with
  | Delete => call_of e = delete_secondary_call
  | Modify =>
      exists obj, call_of e = mkCall Modify [JStr PATHS_AuthSource; obj] \/
                  call_of e = mkCall Modify [JStr PATHS_AuthRemoteUser; obj]
  | Create =>
      (exists name a b c' d,
          call_of e
          = mkCall Create
              [JStr (PATHS_Uploads ++ "/" ++ name)%string; a; b; c'; d]) \/
      exists name, call_of e = remove_call PATHS_UnixRm name
  | CreateOrModify => True
  end.
Proof.
  apply (only_sound expected (process d) sched e).
  apply process_only; intros; hnf; simpl; eauto 10.
Qed.

(** X21: on a declaration without [Authentication], every call of
    [process] is the upsert of a remote role. *)
Theorem roles_only_without_authentication d common auth sched e :
  get_prop d "Common" = Ok common ->
  get_prop (or_else common (JObj [])) "Authentication" = Ok auth ->
  truthy auth = false ->
  In e (trace (process d) sched) ->
  exists obj, call_of e = mkCall CreateOrModify [JStr PATHS_AuthRemoteRole; obj].
Proof.
  intros Hc Ha Ht.
  apply (only_sound
           (fun c => exists obj,
                c = mkCall CreateOrModify [JStr PATHS_AuthRemoteRole; obj])).
  unfold process, AuthHandler.process. rewrite Hc. cbn [bind].
  rewrite Ha. cbn [bind]. rewrite Ht. cbn [negb or_reject].
  apply handleRemoteAuthRoles_only. eauto.
Qed.

(** ** The source of authentication is modified last *)

Let is_modify := fun c : call => meth c = Modify.
Let no_modify := fun c : call => meth c <> Modify.

Lemma process_quiet release d :
  lockedp release (snd (handleRadius d)) \/
  lockedp release (handleLdap (fst (handleRadius d))) ->
  quietp is_modify release (process d).
Proof.
  intros Hl. unfold process, AuthHandler.process.
  destruct (get_prop d "Common") as [common|e]; [|exact I]. cbn [bind].
  destruct (get_prop (or_else common (JObj [])) "Authentication") as [auth|e];
    [|exact I].
  cbn [bind].
  assert (Hq : forall p, onlyp no_modify p -> quietp is_modify release p).
  { intros p. apply quietp_of_onlyp. intros c H. exact H. }
  destruct (truthy auth); cbn [negb or_reject].
  - assert (Hr : onlyp no_modify (snd (handleRadius d)))
      by (apply handleRadius_only; discriminate).
    unfold handleRadius in Hr, Hl.
    destruct (AuthHandler.handleRadius _ _ _ _ _ _ d) as [d' radius].
    cbn [fst snd] in Hr, Hl.
    assert (Q1 : quietp is_modify release (handleRemoteAuthRoles d))
      by (apply Hq, handleRemoteAuthRoles_only; discriminate).
    assert (Q2 : quietp is_modify release radius) by (apply Hq, Hr).
    assert (Q3 : quietp is_modify release (handleTacacs d'))
      by (apply Hq, handleTacacs_only; discriminate).
    assert (Q4 : quietp is_modify release (handleLdap d'))
      by (apply Hq, handleLdap_only; discriminate).
    unfold handleRemoteAuthRoles, handleTacacs, handleLdap in *.
    cbn [or_reject quietp lockedp]. tauto.
  - apply Hq, handleRemoteAuthRoles_only. discriminate.
Qed.

Let aggregate_resolved :=
  fun (c : call) (o : outcome) => is_aggregate c /\ o = Resolved.

Lemma radius_chain_locked_aggregate d proms servers :
  lockedp aggregate_resolved (radius_chain d proms servers).
Proof.
  unfold radius_chain, AuthHandler.radius_chain. cbn [lockedp].
  split; [|intros; exact I]. left. right.
  destruct (get_path d _) as [st|e]; cbn [bind or_reject lockedp]; [|exact I].
  split; [|reflexivity]. now exists st, servers.
Qed.

Lemma handleRadius_locked_aggregate d :
  radius_declared d = Ok true ->
  lockedp aggregate_resolved (snd (handleRadius d)).
Proof.
  intros Hd. unfold handleRadius, AuthHandler.handleRadius. rewrite Hd.
  destruct (name_server "primary" _ d) as [d1 [[]|e]]; [|exact I].
  destruct (get_path d1 (servers_path ++ ["primary"])) as [primary|e];
    [|exact I].
  destruct (get_path d1 (servers_path ++ ["secondary"])) as [secondary|e];
    [|exact I].
  destruct (truthy secondary).
  - destruct (name_server "secondary" _ d1) as [d2 [[]|e]].
    + destruct (get_path d2 (servers_path ++ ["secondary"])) as [sec'|e].
      * apply radius_chain_locked_aggregate.
      * exact I.
    + exact I.
  - apply radius_chain_locked_aggregate.
Qed.

Lemma handleRadius_locked_delete d sec :
  radius_declared d = Ok true ->
  get_path d secondary_path = Ok sec -> truthy sec = false ->
  lockedp (resolves delete_secondary_call) (snd (handleRadius d)).
Proof.
  intros Hd Hs Ht. unfold handleRadius, AuthHandler.handleRadius. rewrite Hd.
  destruct (name_server "primary" _ d) as [d1 [[]|e]] eqn:E1; [|exact I].
  destruct (get_path d1 (servers_path ++ ["primary"])) as [primary|e];
    [|exact I].
  pose proof (name_server_keeps_other "primary" _ "secondary" _ _ _
                ltac:(discriminate) E1) as Fs.
  fold secondary_path in Fs. rewrite Hs in Fs.
  fold secondary_path. rewrite Fs, Ht.
  unfold snd, AuthHandler.radius_chain. fold secondary_path. rewrite Fs.
  cbn [bind or_reject lockedp]. rewrite Ht.
  split; [|intros; exact I]. right. now split.
Qed.

(** X22: on a declaration with a primary RADIUS server, [process]
    modifies the source of authentication, and the defaults of remote
    users, only after the upsert of the aggregate RADIUS object has
    resolved, and, when no secondary server is declared, after the delete
    of the secondary server has resolved. *)
Theorem modify_follows_radius d sched pre c post :
  radius_declared d = Ok true ->
  trace (process d) sched = pre ++ Issue c :: post ->
  meth c = Modify ->
  (exists st servers, In (Settle (radius_call st servers) Resolved) pre) /\
  (forall sec,
     get_path d (servers_path ++ ["secondary"]) = Ok sec -> truthy sec = false ->
     In (Settle delete_secondary_call Resolved) pre).
Proof.
  intros Hd E Hm. split.
  - pose proof (process_quiet aggregate_resolved d
                  (or_introl (handleRadius_locked_aggregate d Hd))) as Hq.
    destruct (guard_sound _ _ _ _ _ _ _ Hq E Hm)
      as (c' & o & Hin & (st & servers & ->) & ->).
    now exists st, servers.
  - intros sec Hs Ht.
    pose proof (process_quiet (resolves delete_secondary_call) d
                  (or_introl (handleRadius_locked_delete d sec Hd Hs Ht))) as Hq.
    destruct (guard_sound _ _ _ _ _ _ _ Hq E Hm) as (c' & o & Hin & -> & ->).
    exact Hin.
Qed.

Let is_upsert := fun c : call => exists obj options, c = ldap_call obj options.
Let upsert_resolved :=
  fun (c : call) (o : outcome) => is_upsert c /\ o = Resolved.
Let ldap_path := ["Common"; "Authentication"; "ldap"].

Lemma handleLdap_locked d ldap :
  get_path d ldap_path = Ok ldap -> truthy ldap = true ->
  lockedp upsert_resolved (handleLdap d).
Proof.
  intros Hl Ht. unfold handleLdap, AuthHandler.handleLdap. fold ldap_path.
  rewrite Hl. cbn [bind]. rewrite Ht. cbn [negb].
  destruct (AuthHandler.ldapObj _ ldap) as [obj|e]; [|exact I]. cbn [bind].
  destruct (ldap_options obj) as [options|e]; [|exact I].
  cbn [bind or_reject].
  destruct (AuthHandler.cert_chains _ _ _ ldap _) as [cs [e|]];
    cbn [lockedp]; [exact I|].
  split; [|intros; exact I]. right. split; [|reflexivity].
  now exists obj, options.
Qed.

(** X23: on a declaration with LDAP, [process] modifies the source of
    authentication, and the defaults of remote users, only after the
    upsert of the LDAP object has resolved. *)
Theorem modify_follows_ldap d ldap sched pre c post :
  get_path d ["Common"; "Authentication"; "ldap"] = Ok ldap ->
  truthy ldap = true ->
  trace (process d) sched = pre ++ Issue c :: post ->
  meth c = Modify ->
  exists obj options, In (Settle (ldap_call obj options) Resolved) pre.
Proof.
  intros Hl Ht E Hm.
  assert (Hl' : get_path (fst (handleRadius d)) ldap_path = Ok ldap).
  { rewrite <- Hl.
    apply (handleRadius_frame d ["Common"; "Authentication"] "ldap" "radius"
             ["servers"] []); [reflexivity | discriminate]. }
  pose proof (process_quiet upsert_resolved d
                (or_intror (handleLdap_locked _ _ Hl' Ht))) as Hq.
  destruct (guard_sound _ _ _ _ _ _ _ Hq E Hm)
    as (c' & o & Hin & (obj & options & ->) & ->).
  now exists obj, options.
Qed.

(** ** What is sent silently *)

Let ldapObj := AuthHandler.ldapObj AUTH_SUBCLASSES_NAME.
Let upload_call := AuthHandler.upload_call PATHS_Uploads decode_base64.
Let silently : jsval := JObj [("silent", JBool true)].

Lemma or_else_truthy a b : truthy b = true -> truthy (or_else a b) = true.
Proof. unfold or_else. destruct (truthy a) eqn:E; auto. Qed.

(** the password of the bind is never left empty, so the options are never
    the empty ones *)
Lemma ldap_options_silent ldap obj options :
  ldapObj ldap = Ok obj -> ldap_options obj = Ok options -> options = silently.
Proof.
  unfold ldapObj, AuthHandler.ldapObj. intros H.
  apply bind_Ok in H as (bindDn & _ & H).
  apply bind_Ok in H as (bindPassword & _ & H).
  repeat (apply bind_Ok in H as (? & _ & H)).
  injection H as <-. unfold ldap_options. cbn [get_prop assoc_get].
  simpl String.eqb. cbn [bind].
  rewrite (or_else_truthy bindPassword (JStr "none") eq_refl).
  now intros [= <-].
Qed.

(** X24: the LDAP object is always upserted with the option [silent]:
    its bind password is the declared one or the word [none], and is
    never falsy. *)
Theorem ldap_upsert_is_silent d sched e obj options :
  In e (trace (handleLdap d) sched) ->
  call_of e = ldap_call obj options ->
  options = JObj [("silent", JBool true)].
Proof.
  intros Hin He.
  refine (only_sound
            (fun c => forall obj options,
                 c = ldap_call obj options -> options = silently)
            (handleLdap d) sched e _ Hin obj options He).
  unfold handleLdap, AuthHandler.handleLdap. apply or_reject_only.
  intros p H. apply bind_Ok in H as (ldap & _ & H).
  destruct (truthy ldap); [|now injection H as <-]. cbn [negb] in H.
  apply bind_Ok in H as (obj' & Hobj & H).
  apply bind_Ok in H as (options' & Hopt & H).
  pose proof (ldap_options_silent _ _ _ Hobj Hopt) as ->.
  fold cert_chains ldap_certs in H.
  assert (Hcs : forall cs eo, cert_chains ldap ldap_certs = (cs, eo) ->
                  Forall (onlyp (fun c => forall obj options,
                              c = ldap_call obj options -> options = silently))
                         cs).
  { apply cert_chains_only; intros; discriminate. }
  destruct (cert_chains ldap ldap_certs) as [cs [e'|]] eqn:Ec; injection H as <-.
  - cbn [onlyp]. split; [|exact I].
    apply (proj2 (onlyp_All _ cs)). exact (Hcs _ _ eq_refl).
  - cbn [onlyp]. split; [|intros; exact I]. split.
    + apply (proj2 (onlyp_All _ cs)). exact (Hcs _ _ eq_refl).
    + intros o1 o2 [= _ <-]. reflexivity.
Qed.

(** X25: of the files that the LDAP step uploads, the client key is
    uploaded with the option [silent] and the two certificates are not,
    wherever the uploads go. *)
Theorem key_upload_is_silent prop name path data c :
  In (prop, name, path) ldap_certs ->
  upload_call name data = Ok c ->
  nth 4 (args c) JUndef
  = JObj [("silent", JBool (prop =? "sslClientKey")%string)].
Proof.
  intros Hin H. unfold upload_call, AuthHandler.upload_call in H.
  apply bind_Ok in H as (dataStr & _ & H). injection H as <-.
  cbn [args nth]. do 4 f_equal.
  simpl in Hin.
  destruct Hin as [[= <- <- <-]|[[= <- <- <-]|[[= <- <- <-]|[]]]];
    rewrite ends_with_app by (simpl; lia); reflexivity.
Qed.

(** ** Failures of the device *)

Let tacacs_upsert := fun c : call =>
  exists obj, c = mkCall CreateOrModify [JStr PATHS_AuthTacacs; obj].

Lemma handleTacacs_mostly d : mostlyp tacacs_upsert (handleTacacs d).
Proof.
  unfold handleTacacs, AuthHandler.handleTacacs.
  destruct (get_path d _) as [tacacs|e]; [|exact I]. cbn [bind].
  destruct (truthy tacacs); [|exact I]. cbn [negb].
  destruct (AuthHandler.tacacs_call _ _ tacacs) as [c|e] eqn:Hc; [|exact I].
  cbn [bind or_reject mostlyp]. right. split; [|reflexivity].
  exists c. split; [reflexivity|].
  unfold AuthHandler.tacacs_call in Hc.
  repeat (apply bind_Ok in Hc as (? & _ & Hc)).
  injection Hc as <-. red. eauto.
Qed.

Lemma process_mostly d : mostlyp tacacs_upsert (process d).
Proof.
  unfold process, AuthHandler.process.
  destruct (get_prop d "Common") as [common|e]; [|exact I]. cbn [bind].
  destruct (get_prop (or_else common (JObj [])) "Authentication") as [auth|e];
    [|exact I].
  cbn [bind].
  destruct (truthy auth); cbn [negb or_reject].
  - pose proof (handleRadius_carries PATHS_AuthRadiusServer PATHS_AuthRadius
                  RADIUS_PRIMARY_SERVER RADIUS_SECONDARY_SERVER
                  AUTH_SUBCLASSES_NAME CLOUD_UTIL_NO_RETRY d) as Hr.
    destruct (AuthHandler.handleRadius _ _ _ _ _ _ d) as [d' radius].
    cbn [snd] in Hr. cbn [or_reject mostlyp]. repeat split.
    + apply mostlyp_of_carriesp, handleRemoteAuthRoles_carries.
    + apply mostlyp_of_carriesp, Hr.
    + apply handleTacacs_mostly.
    + apply mostlyp_of_carriesp, handleLdap_carries.
    + apply mostlyp_of_carriesp, handleSource_carries.
    + apply mostlyp_of_carriesp, handleRemoteUsersDefaults_carries.
  - apply mostlyp_of_carriesp, handleRemoteAuthRoles_carries.
Qed.

(** X27: whatever the declaration, the failure of any call of [process]
    other than the upsert of the TACACS+ object rejects the promise of
    [process]. *)
Theorem failure_rejects_unless_tacacs d sched c e :
  In (Settle c (Rejected e)) (trace (process d) sched) ->
  (forall obj, c <> mkCall CreateOrModify [JStr PATHS_AuthTacacs; obj]) ->
  exists e', final (process d) sched = Some (Rejected e').
Proof.
  intros Hin Hne.
  apply (mostly_sound tacacs_upsert (process d) sched c e (process_mostly d) Hin).
  intros (obj & H). exact (Hne obj H).
Qed.

(** ** The roles come first *)

Let is_role := fun c : call =>
  exists obj, c = mkCall CreateOrModify [JStr PATHS_AuthRemoteRole; obj].
Let other_step := fun c : call => ~ is_role c.

Lemma role_calls_In roles names : forall cs name p,
  AuthHandler.role_calls PATHS_AuthRemoteRole roles names = (cs, None) ->
  In name names ->
  AuthHandler.role_call PATHS_AuthRemoteRole roles name = Ok p ->
  In p cs.
Proof.
  induction names as [|n0 r IH]; intros cs name p; simpl; [intros _ []|].
  destruct (AuthHandler.role_call _ roles n0) as [p0|e] eqn:E0; [|discriminate].
  destruct (AuthHandler.role_calls _ roles r) as [cs' eo'] eqn:Er.
  intros [= <- ->] [<-|Hin] Hp.
  - left. congruence.
  - right. eapply IH; eauto.
Qed.

Lemma handleRemoteAuthRoles_locked d common roles names name r :
  get_prop d "Common" = Ok common ->
  get_prop common "RemoteAuthRole" = Ok roles -> truthy roles = true ->
  object_keys roles = Ok names -> In name names ->
  AuthHandler.role_call PATHS_AuthRemoteRole roles name = Ok (Call r) ->
  lockedp (resolves r) (handleRemoteAuthRoles d).
Proof.
  intros Hc Hr Ht Hn Hin Hcall.
  unfold handleRemoteAuthRoles, AuthHandler.handleRemoteAuthRoles.
  rewrite Hc. cbn [bind].
  assert (Htc : truthy common = true).
  { destruct common; simpl in Hr; try discriminate; try reflexivity;
      try (apply not_own_Ok in Hr; subst roles; discriminate Ht). }
  rewrite Htc. cbn [negb]. rewrite Hr. cbn [bind]. rewrite Ht. cbn [negb].
  rewrite Hn. cbn [bind].
  destruct (AuthHandler.role_calls _ roles names) as [cs [e|]] eqn:Ec;
    cbn [or_reject lockedp]; [exact I|].
  apply (proj2 (lockedp_All other_step _ _)). apply Exists_exists.
  exists (Call r). split; [exact (role_calls_In _ _ _ _ _ Ec Hin Hcall)|].
  now split.
Qed.

(** X28: [process] starts no other step before every role has been
    upserted: a call that is not the upsert of a remote role is issued
    only after the upsert of each role of the declaration has resolved. *)
Theorem steps_follow_roles d common roles names name r sched pre c post :
  get_prop d "Common" = Ok common ->
  get_prop common "RemoteAuthRole" = Ok roles -> truthy roles = true ->
  object_keys roles = Ok names -> In name names ->
  AuthHandler.role_call PATHS_AuthRemoteRole roles name = Ok (Call r) ->
  trace (process d) sched = pre ++ Issue c :: post ->
  (forall obj, c <> mkCall CreateOrModify [JStr PATHS_AuthRemoteRole; obj]) ->
  In (Settle r Resolved) pre.
Proof.
  intros Hc Hr Ht Hn Hin Hcall E Hne.
  pose proof (handleRemoteAuthRoles_locked _ _ _ _ _ _ Hc Hr Ht Hn Hin Hcall)
    as Hl.
  assert (Hq : quietp other_step (resolves r) (handleRemoteAuthRoles d)).
  { apply (quietp_of_onlyp is_role); [intros x Hx Hn'; exact (Hn' Hx)|].
    apply handleRemoteAuthRoles_only. intros obj. now exists obj. }
  assert (Hp : quietp other_step (resolves r) (process d)).
  { unfold process, AuthHandler.process.
    destruct (get_prop d "Common") as [common'|e]; [|exact I]. cbn [bind].
    destruct (get_prop (or_else common' (JObj [])) "Authentication")
      as [auth|e]; [|exact I].
    cbn [bind].
    destruct (truthy auth); cbn [negb or_reject]; [|exact Hq].
    destruct (AuthHandler.handleRadius _ _ _ _ _ _ d) as [d' radius].
    unfold handleRemoteAuthRoles in *.
    cbn [or_reject quietp lockedp]. tauto. }
  destruct (guard_sound _ _ _ _ _ _ _ Hp E) as (c' & o & Hs & -> & ->).
  - intros (obj & H). exact (Hne obj H).
  - exact Hs.
Qed.

End Handler.

Lemma failure_rejects_unless_tacacs_witness :
  exists e',
    final (sample_process radius_declaration)
          [(0%nat, Rejected (DeviceError 1))]
    = Some (Rejected e').
Proof.
  apply (failure_rejects_unless_tacacs
           "/tm/auth/remote-role/role-info"
           "/tm/auth/radius-server" "/tm/auth/radius" "/tm/auth/tacacs"
           "/tm/auth/ldap" "/tm/auth/source" "/tm/auth/remote-user"
           "/tm/sys/file/ssl-cert" "/tm/sys/file/ssl-key"
           "/shared/file-transfer/uploads" "/tm/util/unix-rm"
           "system_auth_name1" "system_auth_name2" "system-auth"
           sample_NO_RETRY sample_decode radius_declaration
           [(0%nat, Rejected (DeviceError 1))]
           (call_of (hd (Settle (mkCall Delete []) Resolved)
                        (trace (sample_process radius_declaration) [])))
           (DeviceError 1)).
  - vm_compute. right. left. reflexivity.
  - intros obj H. vm_compute in H. discriminate H.
Defined.

Lemma steps_follow_roles_witness :
  In (Settle (call_of (hd (Settle (mkCall Delete []) Resolved)
                          (trace (sample_process role_ldap_declaration) [])))
             Resolved)
     (firstn 2 (trace (sample_process role_ldap_declaration)
                      [(0%nat, Resolved)])).
Proof.
  apply (steps_follow_roles
           "/tm/auth/remote-role/role-info"
           "/tm/auth/radius-server" "/tm/auth/radius" "/tm/auth/tacacs"
           "/tm/auth/ldap" "/tm/auth/source" "/tm/auth/remote-user"
           "/tm/sys/file/ssl-cert" "/tm/sys/file/ssl-key"
           "/shared/file-transfer/uploads" "/tm/util/unix-rm"
           "system_auth_name1" "system_auth_name2" "system-auth"
           sample_NO_RETRY sample_decode role_ldap_declaration
           (match get_prop role_ldap_declaration "Common" with
            | Ok common => common
            | Throw _ => JUndef
            end)
           (match get_path role_ldap_declaration ["Common"; "RemoteAuthRole"]
            with
            | Ok roles => roles
            | Throw _ => JUndef
            end)
           ["admins"] "admins" _ [(0%nat, Resolved)] _
           (call_of (nth 2 (trace (sample_process role_ldap_declaration)
                                  [(0%nat, Resolved)])
                         (Settle (mkCall Delete []) Resolved)))
           []).
  - reflexivity.
  - reflexivity.
  - reflexivity.
  - reflexivity.
  - left. reflexivity.
  - vm_compute. reflexivity.
  - vm_compute. reflexivity.
  - intros obj H. vm_compute in H. discriminate H.
Defined.

Lemma aggregate_follows_servers_witness :
  exists primary sec,
    get_path (fst (sample_handleRadius radius_pair_declaration))
             (servers_path ++ ["primary"]) = Ok primary /\
    get_prop primary "name" = Ok (JStr "system_auth_name1") /\
    get_prop primary "partition" = Ok (JStr "Common") /\
    In (Settle (server_call "/tm/auth/radius-server" primary) Resolved)
       (firstn 4 (trace (snd (sample_handleRadius radius_pair_declaration))
                        [(1, Resolved); (0, Resolved)]%nat)) /\
    get_path (fst (sample_handleRadius radius_pair_declaration))
             (servers_path ++ ["secondary"]) = Ok sec /\
    (truthy sec = true ->
     get_prop sec "name" = Ok (JStr "system_auth_name2") /\
     get_prop sec "partition" = Ok (JStr "Common") /\
     In (Settle (server_call "/tm/auth/radius-server" sec) Resolved)
        (firstn 4 (trace (snd (sample_handleRadius radius_pair_declaration))
                         [(1, Resolved); (0, Resolved)]%nat))).
Proof.
  apply (aggregate_follows_servers
           "/tm/auth/radius-server" "/tm/auth/radius"
           "system_auth_name1" "system_auth_name2" "system-auth"
           sample_NO_RETRY radius_pair_declaration
           [(1, Resolved); (0, Resolved)]%nat _
           (JStr "default") ["system_auth_name1"; "system_auth_name2"] []).
  vm_compute. reflexivity.
Defined.

Lemma process_calls_by_method_witness :
  call_of (Issue (delete_secondary_call "/tm/auth/radius-server"
                    "system_auth_name2" sample_NO_RETRY))
  = delete_secondary_call "/tm/auth/radius-server" "system_auth_name2"
      sample_NO_RETRY.
Proof.
  apply (process_calls_by_method
           "/tm/auth/remote-role/role-info"
           "/tm/auth/radius-server" "/tm/auth/radius" "/tm/auth/tacacs"
           "/tm/auth/ldap" "/tm/auth/source" "/tm/auth/remote-user"
           "/tm/sys/file/ssl-cert" "/tm/sys/file/ssl-key"
           "/shared/file-transfer/uploads" "/tm/util/unix-rm"
           "system_auth_name1" "system_auth_name2" "system-auth"
           sample_NO_RETRY sample_decode radius_declaration
           [(0, Resolved); (0, Resolved)]%nat
           (Issue (delete_secondary_call "/tm/auth/radius-server"
                     "system_auth_name2" sample_NO_RETRY))).
  vm_compute. do 4 right. left. reflexivity.
Defined.

Lemma roles_only_without_authentication_witness :
  exists obj,
    call_of (hd (Settle (mkCall Delete []) Resolved)
                (trace (sample_process roles_declaration) []))
    = mkCall CreateOrModify [JStr "/tm/auth/remote-role/role-info"; obj].
Proof.
  apply (roles_only_without_authentication
           "/tm/auth/remote-role/role-info"
           "/tm/auth/radius-server" "/tm/auth/radius" "/tm/auth/tacacs"
           "/tm/auth/ldap" "/tm/auth/source" "/tm/auth/remote-user"
           "/tm/sys/file/ssl-cert" "/tm/sys/file/ssl-key"
           "/shared/file-transfer/uploads" "/tm/util/unix-rm"
           "system_auth_name1" "system_auth_name2" "system-auth"
           sample_NO_RETRY sample_decode roles_declaration
           (match get_prop roles_declaration "Common" with
            | Ok common => common
            | Throw _ => JUndef
            end)
           JUndef []).
  - reflexivity.
  - reflexivity.
  - reflexivity.
  - vm_compute. left. reflexivity.
Defined.

Lemma modify_follows_radius_witness :
  (exists st servers,
      In (Settle (radius_call "/tm/auth/radius" "system-auth" st servers)
                 Resolved)
         (firstn 6 (trace (sample_process radius_declaration)
                          [(0, Resolved); (0, Resolved); (0, Resolved)]%nat))) /\
  (forall sec,
     get_path radius_declaration (servers_path ++ ["secondary"]) = Ok sec ->
     truthy sec = false ->
     In (Settle (delete_secondary_call "/tm/auth/radius-server"
                   "system_auth_name2" sample_NO_RETRY) Resolved)
        (firstn 6 (trace (sample_process radius_declaration)
                         [(0, Resolved); (0, Resolved); (0, Resolved)]%nat))).
Proof.
  apply (modify_follows_radius
           "/tm/auth/remote-role/role-info"
           "/tm/auth/radius-server" "/tm/auth/radius" "/tm/auth/tacacs"
           "/tm/auth/ldap" "/tm/auth/source" "/tm/auth/remote-user"
           "/tm/sys/file/ssl-cert" "/tm/sys/file/ssl-key"
           "/shared/file-transfer/uploads" "/tm/util/unix-rm"
           "system_auth_name1" "system_auth_name2" "system-auth"
           sample_NO_RETRY sample_decode radius_declaration
           [(0, Resolved); (0, Resolved); (0, Resolved)]%nat _
           (mkCall Modify [JStr "/tm/auth/source";
                           JObj [("type", JStr "radius");
                                 ("fallback", JUndef)]])
           []).
  - reflexivity.
  - vm_compute. reflexivity.
  - reflexivity.
Defined.

Lemma modify_follows_ldap_witness :
  exists obj options,
    In (Settle (ldap_call "/tm/auth/ldap" obj options) Resolved)
       (firstn 2 (trace (sample_process ldap_plain_declaration)
                        [(0, Resolved)]%nat)).
Proof.
  apply (modify_follows_ldap
           "/tm/auth/remote-role/role-info"
           "/tm/auth/radius-server" "/tm/auth/radius" "/tm/auth/tacacs"
           "/tm/auth/ldap" "/tm/auth/source" "/tm/auth/remote-user"
           "/tm/sys/file/ssl-cert" "/tm/sys/file/ssl-key"
           "/shared/file-transfer/uploads" "/tm/util/unix-rm"
           "system_auth_name1" "system_auth_name2" "system-auth"
           sample_NO_RETRY sample_decode ldap_plain_declaration
           (JObj [("bindDn", JStr "cn=admin");
                  ("servers", JArr [JStr "ldap.example.com"])])
           [(0, Resolved)]%nat _
           (mkCall Modify [JStr "/tm/auth/source";
                           JObj [("type", JStr "ldap");
                                 ("fallback", JBool true)]])
           []).
  - reflexivity.
  - reflexivity.
  - vm_compute. reflexivity.
  - reflexivity.
Defined.

Lemma ldap_upsert_is_silent_witness :
  nth 4 (args (call_of (hd (Settle (mkCall Delete []) Resolved)
                           (trace (sample_handleLdap ldap_plain_declaration)
                                  []))))
      JUndef
  = JObj [("silent", JBool true)].
Proof.
  apply (ldap_upsert_is_silent
           "/tm/auth/ldap" "/tm/sys/file/ssl-cert" "/tm/sys/file/ssl-key"
           "/shared/file-transfer/uploads" "/tm/util/unix-rm" "system-auth"
           sample_decode ldap_plain_declaration []
           (hd (Settle (mkCall Delete []) Resolved)
               (trace (sample_handleLdap ldap_plain_declaration) []))
           (nth 1 (args (call_of
                           (hd (Settle (mkCall Delete []) Resolved)
                               (trace (sample_handleLdap ldap_plain_declaration)
                                      []))))
                JUndef)).
  - vm_compute. left. reflexivity.
  - vm_compute. reflexivity.
Defined.

Lemma key_upload_is_silent_witness :
  nth 4 (args (mkCall Create
                 [JStr "/shared/file-transfer/uploads/do_ldapClientCert.key";
                  JStr "a2V5";
                  JObj [("headers",
                         JObj [("Content-Type",
                                JStr "application/octet-stream");
                               ("Content-Length", JStr "4");
                               ("Content-Range", JStr "0-3/4")])];
                  JUndef;
                  JObj [("silent", JBool true)]]))
      JUndef
  = JObj [("silent", JBool ("sslClientKey" =? "sslClientKey")%string)].
Proof.
  apply (key_upload_is_silent
           "/tm/sys/file/ssl-cert" "/tm/sys/file/ssl-key"
           "/shared/file-transfer/uploads" sample_decode
           "sslClientKey" "do_ldapClientCert.key" "/tm/sys/file/ssl-key"
           (JStr "a2V5")).
  - right. right. left. reflexivity.
  - reflexivity.
Defined.

End AuthExtras.
